(** * Rigid-body force reduction and state spreading (hoomd/md/ForceCompositeGPU.cu)

    A shallow embedding of the three device kernels of ForceCompositeGPU.cu
    and of their host drivers:

    - [gpu_rigid_force_sliding_kernel] / [gpu_rigid_force],
    - [gpu_rigid_virial_sliding_kernel] / [gpu_rigid_virial],
    - [gpu_update_composite_kernel] / [gpu_update_composite].

    Conventions of the embedding.

    - [unsigned int] values are integers of [Z]; every arithmetic operation of
      the source that can leave the 32-bit range is wrapped with [u32].
    - A device buffer is a total map from index to cell ([Z -> T]): the
      address space is flat and a buffer has no built-in bound.  Where bounds
      matter (the state spreader), the kernel additionally reports every
      buffer cell it dereferences.
    - [Scalar] is the floating-point type of the engine.  The kernels are
      written over its operations alone ([ScalarOps]), so that they run on
      integers as well as on binary64 floats.  Where a statement needs
      addition to be associative, commutative and to have [0] as neutral
      element, it says so with [ExactScalar]; floating-point addition is
      not associative, and the results about sums that do not assume it
      describe the order in which the kernels add.
    - Threads of a block run phase by phase (a phase ends at a
      [__syncthreads()]), within a phase in the order of [threadIdx.x];
      blocks run in the order of [blockIdx.x].
    - Helpers declared in headers that are not part of the sources at hand
      ([rotate], [cross], quaternion product, [BoxDim::wrap], [Index2D]) are
      parameters. *)

From Stdlib Require Import ZArith List Lia Bool Floats.
Import ListNotations.
Local Open Scope Z_scope.

(* ================================================================== *)
(** * Machine integers, buffers, loops *)
(* ================================================================== *)

(** Wrap-around of [unsigned int] arithmetic. *)
Definition u32 (z : Z) : Z := z mod 2 ^ 32.

(** Modelled from the spec: the [NO_BODY] sentinel that marks free particles
    (declared in hoomd/ParticleData.cuh as [0xffffffff]). *)
Definition NO_BODY : Z := 4294967295.

(** Modelled from the spec: the [NOT_LOCAL] sentinel that the reverse-tag
    lookup yields for a particle absent from local and ghost storage
    (declared in hoomd/ParticleData.cuh as [0xffffffff]). *)
Definition NOT_LOCAL : Z := 4294967295.

(** [buf[i] = v]. *)
Definition upd {T : Type} (buf : Z -> T) (i : Z) (v : T) : Z -> T :=
  fun j => if j =? i then v else buf j.

(** The indices [0, 1, ..., n-1]. *)
Definition zrange (n : Z) : list Z := map Z.of_nat (seq 0 (Z.to_nat n)).

(** [for (i = 0; i < n; i++) s = body i s]. *)
Definition for_each {S : Type} (n : Z) (body : Z -> S -> S) (s : S) : S :=
  fold_left (fun acc i => body i acc) (zrange n) s.

(* ================================================================== *)
(** * Scalars and short vectors *)
(* ================================================================== *)

(** The arithmetic of [Scalar] that the kernels use.  [scalar_as_int] and
    [int_as_scalar] are the bit casts [__scalar_as_int] / [__int_as_scalar]
    that store a particle type in the [w] component of a position. *)
Class ScalarOps : Type := {
  Scalar : Type;
  szero : Scalar;
  sadd : Scalar -> Scalar -> Scalar;
  ssub : Scalar -> Scalar -> Scalar;
  smul : Scalar -> Scalar -> Scalar;
  scalar_as_int : Scalar -> Z;
  int_as_scalar : Z -> Scalar
}.

(** Addition without rounding.  This holds of integer and rational
    scalars; it does not hold of floating-point scalars, whose sums depend
    on the order of the additions. *)
Class ExactScalar {S : ScalarOps} : Prop := {
  sadd_comm : forall a b, sadd a b = sadd b a;
  sadd_assoc : forall a b c, sadd a (sadd b c) = sadd (sadd a b) c;
  sadd_0_l : forall a, sadd szero a = a
}.

(** The sum of two zeros is zero.  Floating-point addition has this
    property. *)
Class ZeroSum {S : ScalarOps} : Prop := {
  sadd_0_0 : sadd szero szero = szero
}.

(** Zero is neutral for the addition, on both sides.  Floating-point
    addition has this property but for the sign of a zero: it returns
    [+0] for [+0 + -0]. *)
Class NeutralZero {S : ScalarOps} : Prop := {
  sadd_0_x : forall a, sadd szero a = a;
  sadd_x_0 : forall a, sadd a szero = a
}.

(** A type that went through the bit casts is read back unchanged. *)
Class CastRoundTrip {S : ScalarOps} : Prop := {
  scalar_int_cast :
    forall s, scalar_as_int (int_as_scalar (scalar_as_int s)) = scalar_as_int s
}.

Record Scalar3 {S : ScalarOps} : Type := make_scalar3 {
  x3 : Scalar; y3 : Scalar; z3 : Scalar }.

Record Scalar4 {S : ScalarOps} : Type := make_scalar4 {
  x4 : Scalar; y4 : Scalar; z4 : Scalar; w4 : Scalar }.

Arguments make_scalar3 {S} _ _ _.
Arguments make_scalar4 {S} _ _ _ _.
Arguments x3 {S} _.
Arguments y3 {S} _.
Arguments z3 {S} _.
Arguments x4 {S} _.
Arguments y4 {S} _.
Arguments z4 {S} _.
Arguments w4 {S} _.

Record int3 : Type := make_int3 { ix : Z; iy : Z; iz : Z }.

Section Vectors.
Context {S : ScalarOps}.

Definition zero3 : Scalar3 := make_scalar3 szero szero szero.
Definition zero4 : Scalar4 := make_scalar4 szero szero szero szero.

(** [vec3<Scalar>(Scalar4)] keeps the first three components. *)
Definition vec3_of (a : Scalar4) : Scalar3 :=
  make_scalar3 (x4 a) (y4 a) (z4 a).

Definition add3 (a b : Scalar3) : Scalar3 :=
  make_scalar3 (sadd (x3 a) (x3 b)) (sadd (y3 a) (y3 b)) (sadd (z3 a) (z3 b)).

Definition add4 (a b : Scalar4) : Scalar4 :=
  make_scalar4 (sadd (x4 a) (x4 b)) (sadd (y4 a) (y4 b))
               (sadd (z4 a) (z4 b)) (sadd (w4 a) (w4 b)).
End Vectors.

(** Helpers of hoomd/VectorMath.h and hoomd/BoxDim.h, taken as parameters:
    [rotate q v] rotates [v] by the quaternion stored in [q], [cross] is the
    vector product, [quat_mul] the quaternion product and [box_wrap] is
    [BoxDim::wrap], which returns the wrapped position and the updated
    image. *)
Class VectorMath {S : ScalarOps} : Type := {
  rotate : Scalar4 -> Scalar3 -> Scalar3;
  cross : Scalar3 -> Scalar3 -> Scalar3;
  quat_mul : Scalar4 -> Scalar4 -> Scalar4;
  BoxDim : Type;
  box_wrap : BoxDim -> Scalar3 -> int3 -> Scalar3 * int3
}.

(** Sum of a list in a structure with a neutral element. *)
Definition msum {A : Type} (zero : A) (add : A -> A -> A) (l : list A) : A :=
  fold_right add zero l.

(** The order in which a window of [W = 2 ^ n] threads adds up the terms
    of a body of [len] slots, written out for an addition that need not be
    associative.  Lane [i] starts from [zero] and adds the terms of the
    slots [i], [W + i], [2 W + i], ... in this order ([term k] is [None]
    for a slot that is skipped); the lanes are then combined by [n] rounds
    in which lane [i] adds lane [i + W / 2], then lane [i + W / 4], and so
    on, leaving the total in lane [0]. *)
Definition lane_sum {T : Type} (zero : T) (add : T -> T -> T) (W len : Z)
           (term : Z -> option T) (lane : Z) : T :=
  for_each (len / W + 1)
    (fun start acc =>
       match term (start * W + lane) with
       | Some x => add acc x
       | None => acc
       end)
    zero.

Fixpoint tree_sum {T : Type} (add : T -> T -> T) (n : nat) (v : Z -> T) : T :=
  match n with
  | O => v 0
  | Datatypes.S n' => tree_sum add n' (fun i => add (v i) (v (i + 2 ^ Z.of_nat n')))
  end.

Definition window_sum {T : Type} (zero : T) (add : T -> T -> T) (n : nat) (len : Z)
           (term : Z -> option T) : T :=
  tree_sum add n (lane_sum zero add (2 ^ Z.of_nat n) len term).

(* ================================================================== *)
(** * The force/torque/virial reducer *)
(* ================================================================== *)

Module Reducer.
Section Kernels.
Context {S : ScalarOps} {V : VectorMath}.

(** Read-only kernel arguments common to the force and the virial
    kernel.  [molecule_indexer] and [body_indexer] are the [Index2D]
    objects, as functions of their two coordinates. *)
Record RigidArgs : Type := {
  d_molecule_len : Z -> Z;
  d_molecule_list : Z -> Z;
  d_tag : Z -> Z;
  d_rtag : Z -> Z;
  molecule_indexer : Z -> Z -> Z;
  d_postype : Z -> Scalar4;
  d_orientation : Z -> Scalar4;
  body_indexer : Z -> Z -> Z;
  d_body_pos : Z -> Scalar3;
  d_body_orientation : Z -> Scalar4;
  n_mol : Z;
  N : Z;
  n_bodies_per_block : Z
}.

(** Launch configuration: grid and block extent, and the window
    parameters the host passes to the kernel. *)
Record Launch : Type := {
  gridDim : Z;
  blockDim : Z;
  window_size : Z;
  thread_mask : Z
}.

(** The statically sized [__shared__] tables of a block. *)
Record BodyShared : Type := {
  body_type : Z -> Z;
  body_orientation : Z -> Scalar4;
  mol_idx : Z -> Z;
  central_idx : Z -> Z
}.

(** What distinguishes the two sliding kernels: the per-thread
    accumulator [A] with its start value and the addition used by the
    tree reduction, the mutable device memory [G], the body of the
    innermost branch ([visit], run for a non-central member [pidx] with
    template slot [local_idx] of a body of type [btype] and orientation
    [q]) and the final write of a window total to the central particle
    ([publish]). *)
Record KernelBody (A G : Type) : Type := {
  acc_zero : A;
  acc_add : A -> A -> A;
  visit : Z -> Scalar4 -> Z -> Z -> A * G -> A * G;
  publish : Z -> A -> G -> G
}.
Arguments acc_zero {A G}.
Arguments acc_add {A G}.
Arguments visit {A G}.
Arguments publish {A G}.

Section Sliding.
Context {A G : Type}.
Variable K : KernelBody A G.
Variable a : RigidArgs.
Variable l : Launch.

(** Lines 109 and 129-146: the first thread of each window fills the
    shared tables of its body. *)
Definition setup_thread (blockIdx tid : Z) (sh : BodyShared) : BodyShared :=
  let m := tid / (blockDim l / n_bodies_per_block a) in
  if Z.land tid (thread_mask l) =? 0 then
    let group_idx := u32 (blockIdx * n_bodies_per_block a + m) in
    if group_idx <? n_mol a then
      let c := d_molecule_list a (molecule_indexer a group_idx 0) in
      {| mol_idx := upd (mol_idx sh) m group_idx;
         central_idx := upd (central_idx sh) m c;
         body_type := upd (body_type sh) m (scalar_as_int (w4 (d_postype a c)));
         body_orientation := upd (body_orientation sh) m (d_orientation a c) |}
    else
      {| mol_idx := upd (mol_idx sh) m NO_BODY;
         central_idx := central_idx sh;
         body_type := body_type sh;
         body_orientation := body_orientation sh |}
  else sh.

(** Lines 157-215: one iteration of the sliding-window loop. *)
Definition window_step (sh : BodyShared) (tid m mol_len start : Z)
           (st : A * G) : A * G :=
  let k := u32 (start * window_size l + Z.land tid (thread_mask l)) in
  let central_tag := d_tag a (central_idx sh m) in
  if k <? mol_len then
    let pidx := d_molecule_list a (molecule_indexer a (mol_idx sh m) k) in
    let tag := d_tag a pidx in
    let local_idx := u32 (tag - central_tag - 1) in
    if negb (pidx =? central_idx sh m) then
      visit K (body_type sh m) (body_orientation sh m) pidx local_idx st
    else st
  else st.

(** Lines 150-216: the gather phase of one thread; returns the
    thread's private partial sum and the updated device memory. *)
Definition gather_thread (sh : BodyShared) (tid : Z) (g : G) : A * G :=
  let m := tid / (blockDim l / n_bodies_per_block a) in
  if negb (mol_idx sh m =? NO_BODY) && (central_idx sh m <? N a) then
    let mol_len := d_molecule_len a (mol_idx sh m) in
    let n_windows := u32 (mol_len / window_size l + 1) in
    for_each n_windows (window_step sh tid m mol_len) (acc_zero K, g)
  else (acc_zero K, g).

(** Lines 231-241: one thread in one round of the tree reduction. *)
Definition reduce_thread (offset tid : Z) (scratch : Z -> A) : Z -> A :=
  if Z.land tid (thread_mask l) <? offset then
    upd scratch tid (acc_add K (scratch tid) (scratch (u32 (tid + offset))))
  else scratch.

(** Lines 228-246: [while (offset > 0) { ...; offset >>= 1; }].  The
    counter bounds the number of rounds by the width of [offset]. *)
Fixpoint reduce_rounds (width : nat) (offset : Z) (scratch : Z -> A) : Z -> A :=
  match width with
  | O => scratch
  | Datatypes.S width' =>
      if 0 <? offset then
        reduce_rounds width' (Z.shiftr offset 1)
          (for_each (blockDim l) (reduce_thread offset) scratch)
      else scratch
  end.

(** Lines 248-253: the first thread of each window writes the total. *)
Definition publish_thread (sh : BodyShared) (scratch : Z -> A) (tid : Z) (g : G) : G :=
  let m := tid / (blockDim l / n_bodies_per_block a) in
  if (Z.land tid (thread_mask l) =? 0) && negb (mol_idx sh m =? NO_BODY) then
    publish K (central_idx sh m) (scratch tid) g
  else g.

(** One block.  [sh0] and [scratch0] are the undefined initial
    contents of its shared memory. *)
Definition run_block (sh0 : BodyShared) (scratch0 : Z -> A) (blockIdx : Z) (g : G) : G :=
  let sh := for_each (blockDim l) (setup_thread blockIdx) sh0 in
  let gathered :=
    for_each (blockDim l)
      (fun tid (st : (Z -> A) * G) =>
         let r := gather_thread sh tid (snd st) in
         (upd (fst st) tid (fst r), snd r))
      (scratch0, g) in
  let scratch := reduce_rounds 32 (Z.shiftr (window_size l) 1) (fst gathered) in
  for_each (blockDim l) (publish_thread sh scratch) (snd gathered).

(** The whole grid. *)
Definition run_grid (sh0 : Z -> BodyShared) (scratch0 : Z -> Z -> A) (g : G) : G :=
  for_each (gridDim l) (fun b => run_block (sh0 b) (scratch0 b) b) g.
End Sliding.

(* ------------------------------------------------------------------ *)
(** ** Device memory written by the reducer *)

Record DeviceMem : Type := {
  d_force : Z -> Scalar4;
  d_torque : Z -> Scalar4;
  d_virial : Z -> Scalar;
  d_net_force : Z -> Scalar4;
  d_net_torque : Z -> Scalar4;
  d_net_virial : Z -> Scalar
}.

Definition set_force (g : DeviceMem) (f : Z -> Scalar4) : DeviceMem :=
  {| d_force := f; d_torque := d_torque g; d_virial := d_virial g;
     d_net_force := d_net_force g; d_net_torque := d_net_torque g;
     d_net_virial := d_net_virial g |}.

Definition set_torque (g : DeviceMem) (f : Z -> Scalar4) : DeviceMem :=
  {| d_force := d_force g; d_torque := f; d_virial := d_virial g;
     d_net_force := d_net_force g; d_net_torque := d_net_torque g;
     d_net_virial := d_net_virial g |}.

Definition set_virial (g : DeviceMem) (f : Z -> Scalar) : DeviceMem :=
  {| d_force := d_force g; d_torque := d_torque g; d_virial := f;
     d_net_force := d_net_force g; d_net_torque := d_net_torque g;
     d_net_virial := d_net_virial g |}.

Definition set_net_force (g : DeviceMem) (f : Z -> Scalar4) : DeviceMem :=
  {| d_force := d_force g; d_torque := d_torque g; d_virial := d_virial g;
     d_net_force := f; d_net_torque := d_net_torque g;
     d_net_virial := d_net_virial g |}.

Definition set_net_torque (g : DeviceMem) (f : Z -> Scalar4) : DeviceMem :=
  {| d_force := d_force g; d_torque := d_torque g; d_virial := d_virial g;
     d_net_force := d_net_force g; d_net_torque := f;
     d_net_virial := d_net_virial g |}.

Definition set_net_virial (g : DeviceMem) (f : Z -> Scalar) : DeviceMem :=
  {| d_force := d_force g; d_torque := d_torque g; d_virial := d_virial g;
     d_net_force := d_net_force g; d_net_torque := d_net_torque g;
     d_net_virial := f |}.

(* ------------------------------------------------------------------ *)
(** ** gpu_rigid_force_sliding_kernel *)

(** Lines 179-212: fold the member [pidx] into the thread's partial sums
    [sum_force], [sum_torque] and clear what was consumed. *)
Definition force_visit (a : RigidArgs) (zero_force : bool)
           (btype : Z) (q : Scalar4) (pidx local_idx : Z)
           (st : (Scalar4 * Scalar3) * DeviceMem) : (Scalar4 * Scalar3) * DeviceMem :=
  let sum_force := fst (fst st) in
  let sum_torque := snd (fst st) in
  let g := snd st in
  let particle_pos := d_body_pos a (body_indexer a btype local_idx) in
  let fi := d_net_force g pidx in
  let ti := vec3_of (d_net_torque g pidx) in
  let sum_force :=
    make_scalar4 (sadd (x4 sum_force) (x4 fi)) (sadd (y4 sum_force) (y4 fi))
                 (sadd (z4 sum_force) (z4 fi)) (sadd (w4 sum_force) (w4 fi)) in
  let g := if zero_force then set_net_force g (upd (d_net_force g) pidx zero4) else g in
  let ri := rotate q particle_pos in
  let del_torque := cross ri (vec3_of fi) in
  let sum_torque :=
    make_scalar3 (sadd (x3 sum_torque) (sadd (x3 ti) (x3 del_torque)))
                 (sadd (y3 sum_torque) (sadd (y3 ti) (y3 del_torque)))
                 (sadd (z3 sum_torque) (sadd (z3 ti) (z3 del_torque))) in
  let g := set_net_torque g (upd (d_net_torque g) pidx zero4) in
  ((sum_force, sum_torque), g).

(** Lines 251-252. *)
Definition force_publish (c : Z) (total : Scalar4 * Scalar3) (g : DeviceMem) : DeviceMem :=
  let g := set_force g (upd (d_force g) c (fst total)) in
  set_torque g (upd (d_torque g) c
    (make_scalar4 (x3 (snd total)) (y3 (snd total)) (z3 (snd total)) szero)).

(** Lines 233-240: [body_force[t] += body_force[t+offset]] and
    [body_torque[t] += body_torque[t+offset]], component by component. *)
Definition force_acc_add (s t : Scalar4 * Scalar3) : Scalar4 * Scalar3 :=
  (add4 (fst s) (fst t), add3 (snd s) (snd t)).

Definition force_body (a : RigidArgs) (zero_force : bool)
  : KernelBody (Scalar4 * Scalar3) DeviceMem :=
  {| acc_zero := (zero4, zero3);
     acc_add := force_acc_add;
     visit := force_visit a zero_force;
     publish := force_publish |}.

Definition gpu_rigid_force_sliding_kernel (a : RigidArgs) (zero_force : bool) (l : Launch)
           (sh0 : Z -> BodyShared) (scratch0 : Z -> Z -> Scalar4 * Scalar3)
           (g : DeviceMem) : DeviceMem :=
  run_grid (force_body a zero_force) a l sh0 scratch0 g.

(* ------------------------------------------------------------------ *)
(** ** gpu_rigid_virial_sliding_kernel *)

(** The six partial sums of a thread (and the six entries
    [body_virial_xx[t]], ..., [body_virial_zz[t]] of its scratch slot). *)
Record Virial6 : Type := make_virial6 {
  vxx : Scalar; vxy : Scalar; vxz : Scalar;
  vyy : Scalar; vyz : Scalar; vzz : Scalar }.

Definition zero_virial6 : Virial6 :=
  make_virial6 szero szero szero szero szero szero.

(** Lines 409-414. *)
Definition virial_acc_add (s t : Virial6) : Virial6 :=
  make_virial6 (sadd (vxx s) (vxx t)) (sadd (vxy s) (vxy t)) (sadd (vxz s) (vxz t))
               (sadd (vyy s) (vyy t)) (sadd (vyz s) (vyz t)) (sadd (vzz s) (vzz t)).

(** Lines 357-384. *)
Definition virial_visit (a : RigidArgs) (net_virial_pitch : Z)
           (btype : Z) (q : Scalar4) (pidx local_idx : Z)
           (st : Virial6 * DeviceMem) : Virial6 * DeviceMem :=
  let sum := fst st in
  let g := snd st in
  let particle_pos := d_body_pos a (body_indexer a btype local_idx) in
  let fi := d_net_force g pidx in
  let ri := rotate q particle_pos in
  let virialxx := d_net_virial g (u32 (0 * net_virial_pitch + pidx)) in
  let virialxy := d_net_virial g (u32 (1 * net_virial_pitch + pidx)) in
  let virialxz := d_net_virial g (u32 (2 * net_virial_pitch + pidx)) in
  let virialyy := d_net_virial g (u32 (3 * net_virial_pitch + pidx)) in
  let virialyz := d_net_virial g (u32 (4 * net_virial_pitch + pidx)) in
  let virialzz := d_net_virial g (u32 (5 * net_virial_pitch + pidx)) in
  let sum :=
    make_virial6 (sadd (vxx sum) (ssub virialxx (smul (x4 fi) (x3 ri))))
                 (sadd (vxy sum) (ssub virialxy (smul (x4 fi) (y3 ri))))
                 (sadd (vxz sum) (ssub virialxz (smul (x4 fi) (z3 ri))))
                 (sadd (vyy sum) (ssub virialyy (smul (y4 fi) (y3 ri))))
                 (sadd (vyz sum) (ssub virialyz (smul (y4 fi) (z3 ri))))
                 (sadd (vzz sum) (ssub virialzz (smul (z4 fi) (z3 ri)))) in
  let g := set_net_force g (upd (d_net_force g) pidx zero4) in
  let g := set_net_virial g (upd (d_net_virial g) (u32 (0 * net_virial_pitch + pidx)) szero) in
  let g := set_net_virial g (upd (d_net_virial g) (u32 (1 * net_virial_pitch + pidx)) szero) in
  let g := set_net_virial g (upd (d_net_virial g) (u32 (2 * net_virial_pitch + pidx)) szero) in
  let g := set_net_virial g (upd (d_net_virial g) (u32 (3 * net_virial_pitch + pidx)) szero) in
  let g := set_net_virial g (upd (d_net_virial g) (u32 (4 * net_virial_pitch + pidx)) szero) in
  let g := set_net_virial g (upd (d_net_virial g) (u32 (5 * net_virial_pitch + pidx)) szero) in
  (sum, g).

(** Lines 425-430. *)
Definition virial_publish (virial_pitch : Z) (c : Z) (total : Virial6) (g : DeviceMem)
  : DeviceMem :=
  let g := set_virial g (upd (d_virial g) (u32 (0 * virial_pitch + c)) (vxx total)) in
  let g := set_virial g (upd (d_virial g) (u32 (1 * virial_pitch + c)) (vxy total)) in
  let g := set_virial g (upd (d_virial g) (u32 (2 * virial_pitch + c)) (vxz total)) in
  let g := set_virial g (upd (d_virial g) (u32 (3 * virial_pitch + c)) (vyy total)) in
  let g := set_virial g (upd (d_virial g) (u32 (4 * virial_pitch + c)) (vyz total)) in
  set_virial g (upd (d_virial g) (u32 (5 * virial_pitch + c)) (vzz total)).

Definition virial_body (a : RigidArgs) (net_virial_pitch virial_pitch : Z)
  : KernelBody Virial6 DeviceMem :=
  {| acc_zero := zero_virial6;
     acc_add := virial_acc_add;
     visit := virial_visit a net_virial_pitch;
     publish := virial_publish virial_pitch |}.

Definition gpu_rigid_virial_sliding_kernel (a : RigidArgs)
           (net_virial_pitch virial_pitch : Z) (l : Launch)
           (sh0 : Z -> BodyShared) (scratch0 : Z -> Z -> Virial6)
           (g : DeviceMem) : DeviceMem :=
  run_grid (virial_body a net_virial_pitch virial_pitch) a l sh0 scratch0 g.

(* ------------------------------------------------------------------ *)
(** ** Host drivers *)

(** What the drivers query from the runtime: the kernel attributes
    [attr.maxThreadsPerBlock] and [attr.sharedSizeBytes], the device
    property [dev_prop.sharedMemPerBlock], and the number of dynamic
    scratch bytes one thread needs ([sizeof(Scalar4) + sizeof(Scalar3)]
    for the force kernel, [6 * sizeof(Scalar)] for the virial kernel). *)
Record Resources : Type := {
  maxThreadsPerBlock : Z;
  sharedSizeBytes : Z;
  sharedMemPerBlock : Z;
  bytes_per_thread : Z
}.

(** [unsigned int b = 1; while (b * 2 <= run_block_size) { b *= 2; }].
    [None] when the loop is still running after [fuel] iterations. *)
Fixpoint round_down_pow2 (fuel : nat) (b run_block_size : Z) : option Z :=
  match fuel with
  | O => None
  | Datatypes.S fuel' =>
      if u32 (b * 2) <=? run_block_size
      then round_down_pow2 fuel' (u32 (b * 2)) run_block_size
      else Some b
  end.

(** [while (shared_bytes + attr.sharedSizeBytes >= dev_prop.sharedMemPerBlock)]
    with its body; the state is [run_block_size].  [None] when the loop is
    still running after [fuel] iterations. *)
Fixpoint shrink_to_fit (fuel : nat) (r : Resources) (run_block_size : Z) : option Z :=
  match fuel with
  | O => None
  | Datatypes.S fuel' =>
      if sharedMemPerBlock r <=? u32 (run_block_size * bytes_per_thread r) + sharedSizeBytes r
      then shrink_to_fit fuel' r (run_block_size / 2)
      else Some run_block_size
  end.

(** Lines 462-493 (and 544-575): grid extent, block size rounded down to
    a power of two and halved until the scratch memory fits, window size
    and thread mask. *)
Definition launch_config (r : Resources) (n_mol n_bodies_per_block block_size : Z)
  : option Launch :=
  let run_block_size :=
    if maxThreadsPerBlock r <? block_size then maxThreadsPerBlock r else block_size in
  match round_down_pow2 64 1 run_block_size with
  | None => None
  | Some b =>
      match shrink_to_fit 64 r b with
      | None => None
      | Some run_block_size =>
          let window_size := run_block_size / n_bodies_per_block in
          Some {| gridDim := u32 (n_mol / n_bodies_per_block + 1);
                  blockDim := run_block_size;
                  window_size := window_size;
                  thread_mask := u32 (window_size - 1) |}
      end
  end.

(** [cudaMemset(buf, 0, n * sizeof(cell))]. *)
Definition memset_zero {T : Type} (zero : T) (n : Z) (buf : Z -> T) : Z -> T :=
  fun i => if (0 <=? i) && (i <? n) then zero else buf i.

(** Lines 437-518.  [None] when one of the sizing loops does not
    terminate. *)
Definition gpu_rigid_force (r : Resources) (a : RigidArgs) (block_size : Z)
           (zero_force : bool)
           (sh0 : Z -> BodyShared) (scratch0 : Z -> Z -> Scalar4 * Scalar3)
           (g : DeviceMem) : option DeviceMem :=
  let g := set_force g (memset_zero zero4 (N a) (d_force g)) in
  let g := set_torque g (memset_zero zero4 (N a) (d_torque g)) in
  match launch_config r (n_mol a) (n_bodies_per_block a) block_size with
  | None => None
  | Some l => Some (gpu_rigid_force_sliding_kernel a zero_force l sh0 scratch0 g)
  end.

(** Lines 520-600. *)
Definition gpu_rigid_virial (r : Resources) (a : RigidArgs)
           (net_virial_pitch virial_pitch block_size : Z)
           (sh0 : Z -> BodyShared) (scratch0 : Z -> Z -> Virial6)
           (g : DeviceMem) : option DeviceMem :=
  let g := set_virial g (memset_zero szero (virial_pitch * 6) (d_virial g)) in
  match launch_config r (n_mol a) (n_bodies_per_block a) block_size with
  | None => None
  | Some l =>
      Some (gpu_rigid_virial_sliding_kernel a net_virial_pitch virial_pitch l sh0 scratch0 g)
  end.

(* ------------------------------------------------------------------ *)
(** ** Vocabulary of the statements *)

(** The storage index held in slot [k] of body [g] of the molecule list. *)
Definition member (a : RigidArgs) (g k : Z) : Z :=
  d_molecule_list a (molecule_indexer a g k).

(** Slot 0 is the central particle. *)
Definition central (a : RigidArgs) (g : Z) : Z := member a g 0.

(** The template slot [tag - central_tag - 1] of member [k]. *)
Definition template_slot (a : RigidArgs) (g k : Z) : Z :=
  u32 (d_tag a (member a g k) - d_tag a (central a g) - 1).

(** Body type and current orientation, read from the central particle. *)
Definition btype (a : RigidArgs) (g : Z) : Z :=
  scalar_as_int (w4 (d_postype a (central a g))).

Definition borient (a : RigidArgs) (g : Z) : Scalar4 :=
  d_orientation a (central a g).

(** The template offset of member [k], rotated by the orientation of the
    central particle. *)
Definition relative_position (a : RigidArgs) (g k : Z) : Scalar3 :=
  rotate (borient a g) (d_body_pos a (body_indexer a (btype a g) (template_slot a g k))).

(** The slots of body [g] that hold a non-central member, in list order. *)
Definition constituents (a : RigidArgs) (g : Z) : list Z :=
  filter (fun k => negb (member a g k =? central a g)) (zrange (d_molecule_len a g)).

(** Body [g] exists and its central particle is local: the pass
    processes it. *)
Definition processed (a : RigidArgs) (g : Z) : Prop :=
  0 <= g < n_mol a /\ central a g < N a.

(** Slot [k] of a processed body [g] holds a constituent: the pass folds
    it. *)
Definition folded (a : RigidArgs) (g k : Z) : Prop :=
  processed a g /\ 0 <= k < d_molecule_len a g /\ member a g k <> central a g.

(** No particle is listed twice as a constituent of processed bodies. *)
Definition members_distinct (a : RigidArgs) : Prop :=
  forall g k g' k',
    folded a g k -> folded a g' k' -> member a g k = member a g' k' ->
    g = g' /\ k = k'.

(** Distinct bodies have distinct central particles. *)
Definition centrals_distinct (a : RigidArgs) : Prop :=
  forall g g',
    0 <= g < n_mol a -> 0 <= g' < n_mol a -> central a g = central a g' -> g = g'.

(** A launch whose windows have width [2 ^ j] and tile the block. *)
Definition launch_ok (a : RigidArgs) (l : Launch) (j : Z) : Prop :=
  0 <= j /\
  window_size l = 2 ^ j /\
  thread_mask l = 2 ^ j - 1 /\
  1 <= n_bodies_per_block a /\
  blockDim l = n_bodies_per_block a * 2 ^ j /\
  blockDim l < 2 ^ 31 /\
  0 <= n_mol a /\
  n_mol a + n_bodies_per_block a < 2 ^ 32 /\
  gridDim l = n_mol a / n_bodies_per_block a + 1.

(** The sliding window of body [g] does not leave the 32-bit range. *)
Definition body_fits (a : RigidArgs) (l : Launch) (g : Z) : Prop :=
  0 <= d_molecule_len a g /\ d_molecule_len a g + window_size l < 2 ^ 32.

(** The shared tables of block [b] once the set-up phase has run. *)
Definition shared_ready (a : RigidArgs) (b : Z) (sh : BodyShared) : Prop :=
  forall m, 0 <= m < n_bodies_per_block a ->
    let g := b * n_bodies_per_block a + m in
    (g < n_mol a ->
       mol_idx sh m = g /\ central_idx sh m = central a g /\
       body_type sh m = btype a g /\ body_orientation sh m = borient a g) /\
    (n_mol a <= g -> mol_idx sh m = NO_BODY).

(** What member [k] of body [g] adds to a partial sum when the cells of
    the particles are [cells]; [window_term] is the same for the index
    [k] a lane reaches, which may lie beyond the body or be the central
    particle; [body_total] sums the contributions of the constituents. *)
Definition contribution {A C : Type}
           (contrib : Z -> Scalar4 -> Z -> Z -> C -> A)
           (a : RigidArgs) (g : Z) (cells : Z -> C) (k : Z) : A :=
  contrib (btype a g) (borient a g) (member a g k) (template_slot a g k)
          (cells (member a g k)).

Definition window_term {A G C : Type} (K : KernelBody A G)
           (contrib : Z -> Scalar4 -> Z -> Z -> C -> A)
           (a : RigidArgs) (g : Z) (cells : Z -> C) (k : Z) : A :=
  if (k <? d_molecule_len a g) && negb (member a g k =? central a g)
  then contribution contrib a g cells k
  else acc_zero K.

Definition body_total {A G C : Type} (K : KernelBody A G)
           (contrib : Z -> Scalar4 -> Z -> Z -> C -> A)
           (a : RigidArgs) (g : Z) (cells : Z -> C) : A :=
  msum (acc_zero K) (acc_add K) (map (contribution contrib a g cells) (constituents a g)).

(** The term of slot [k] of body [g] in a sum over its constituents:
    slots beyond the body and the slot of the central particle have
    none. *)
Definition constituent_term {T : Type} (a : RigidArgs) (g : Z) (f : Z -> T) (k : Z)
  : option T :=
  if (k <? d_molecule_len a g) && negb (member a g k =? central a g)
  then Some (f k)
  else None.

(** The total of body [g] as a window of [2 ^ n] threads adds it up. *)
Definition ordered_total {A G C : Type} (K : KernelBody A G)
           (contrib : Z -> Scalar4 -> Z -> Z -> C -> A)
           (a : RigidArgs) (g : Z) (cells : Z -> C) (n : nat) : A :=
  window_sum (acc_zero K) (acc_add K) n (d_molecule_len a g)
             (constituent_term a g (contribution contrib a g cells)).

(** The total of a window none of whose threads gathers anything. *)
Definition empty_total {A G : Type} (K : KernelBody A G) (n : nat) : A :=
  tree_sum (acc_add K) n (fun _ => acc_zero K).

(** Exact addition of partial sums. *)
Record SumLaws {A G : Type} (K : KernelBody A G) : Prop := {
  law_add_comm : forall x y, acc_add K x y = acc_add K y x;
  law_add_assoc : forall x y z, acc_add K x (acc_add K y z) = acc_add K (acc_add K x y) z;
  law_add_0_l : forall x, acc_add K (acc_zero K) x = x
}.

(** What the proofs need to know about a kernel body.  [cell g p] is the
    mutable state of particle [p] that the gather phase consumes, [out g c]
    the output slot of central particle [c]; [contrib] is what a visit adds
    to the partial sum and [pub] what a total becomes once published.
    [okp] and [okc] delimit the indices for which distinct particles have
    disjoint cells and output slots. *)
Record KernelLaws {A G C O : Type} (K : KernelBody A G)
       (cell : G -> Z -> C) (out : G -> Z -> O) (okp okc : Z -> Prop)
       (contrib : Z -> Scalar4 -> Z -> Z -> C -> A) (pub : A -> O) : Prop := {
  law_visit_acc : forall bt q p li s g,
    fst (visit K bt q p li (s, g)) = acc_add K s (contrib bt q p li (cell g p));
  law_visit_cell : forall bt q p li s g p',
    okp p -> okp p' -> p' <> p -> cell (snd (visit K bt q p li (s, g))) p' = cell g p';
  law_visit_out : forall bt q p li s g c,
    out (snd (visit K bt q p li (s, g))) c = out g c;
  law_publish_cell : forall c v g p, cell (publish K c v g) p = cell g p;
  law_publish_out : forall c v g, okc c -> out (publish K c v g) c = pub v;
  law_publish_out_other : forall c v g c',
    okc c -> okc c' -> c' <> c -> out (publish K c v g) c' = out g c'
}.

(* ------------------------------------------------------------------ *)
(** ** The two kernels in this vocabulary *)

(** Force kernel: the cell of a particle is its net force and net torque,
    the output slot of a central particle its force and torque. *)
Definition force_cell (g : DeviceMem) (p : Z) : Scalar4 * Scalar4 :=
  (d_net_force g p, d_net_torque g p).

Definition force_out (g : DeviceMem) (c : Z) : Scalar4 * Scalar4 :=
  (d_force g c, d_torque g c).

Definition force_contrib (a : RigidArgs) (bt : Z) (q : Scalar4) (p li : Z)
           (c : Scalar4 * Scalar4) : Scalar4 * Scalar3 :=
  (fst c,
   add3 (vec3_of (snd c))
        (cross (rotate q (d_body_pos a (body_indexer a bt li))) (vec3_of (fst c)))).

Definition force_pub (t : Scalar4 * Scalar3) : Scalar4 * Scalar4 :=
  (fst t, make_scalar4 (x3 (snd t)) (y3 (snd t)) (z3 (snd t)) szero).

(** Virial kernel: the cell of a particle is its net force and the six
    entries of its net virial, the output slot of a central particle the
    six entries of its virial. *)
Definition virial_cell (net_virial_pitch : Z) (g : DeviceMem) (p : Z) : Scalar4 * Virial6 :=
  (d_net_force g p,
   make_virial6 (d_net_virial g (u32 (0 * net_virial_pitch + p)))
                (d_net_virial g (u32 (1 * net_virial_pitch + p)))
                (d_net_virial g (u32 (2 * net_virial_pitch + p)))
                (d_net_virial g (u32 (3 * net_virial_pitch + p)))
                (d_net_virial g (u32 (4 * net_virial_pitch + p)))
                (d_net_virial g (u32 (5 * net_virial_pitch + p)))).

Definition virial_out (virial_pitch : Z) (g : DeviceMem) (c : Z) : Virial6 :=
  make_virial6 (d_virial g (u32 (0 * virial_pitch + c)))
               (d_virial g (u32 (1 * virial_pitch + c)))
               (d_virial g (u32 (2 * virial_pitch + c)))
               (d_virial g (u32 (3 * virial_pitch + c)))
               (d_virial g (u32 (4 * virial_pitch + c)))
               (d_virial g (u32 (5 * virial_pitch + c))).

(** [virial - force (x) r], upper triangle. *)
Definition virial_minus_outer (v : Virial6) (f : Scalar4) (r : Scalar3) : Virial6 :=
  make_virial6 (ssub (vxx v) (smul (x4 f) (x3 r)))
               (ssub (vxy v) (smul (x4 f) (y3 r)))
               (ssub (vxz v) (smul (x4 f) (z3 r)))
               (ssub (vyy v) (smul (y4 f) (y3 r)))
               (ssub (vyz v) (smul (y4 f) (z3 r)))
               (ssub (vzz v) (smul (z4 f) (z3 r))).

Definition virial_contrib (a : RigidArgs) (bt : Z) (q : Scalar4) (p li : Z)
           (c : Scalar4 * Virial6) : Virial6 :=
  virial_minus_outer (snd c) (fst c) (rotate q (d_body_pos a (body_indexer a bt li))).

(** Indices below the pitch of a six-row buffer that does not leave the
    32-bit range. *)
Definition below_pitch (pitch : Z) (p : Z) : Prop :=
  0 <= p < pitch /\ 6 * pitch <= 2 ^ 32.

(** The sums of the specification: net forces of the constituents of body
    [g], and their net torques plus the torques of their net forces about
    the central particle. *)
Definition force_sum (a : RigidArgs) (g : Z) (net_force : Z -> Scalar4) : Scalar4 :=
  msum zero4 add4 (map (fun k => net_force (member a g k)) (constituents a g)).

Definition torque_sum (a : RigidArgs) (g : Z) (net_force net_torque : Z -> Scalar4)
  : Scalar3 :=
  msum zero3 add3
       (map (fun k => add3 (vec3_of (net_torque (member a g k)))
                           (cross (relative_position a g k)
                                  (vec3_of (net_force (member a g k)))))
            (constituents a g)).

(** The same sums in the order of a window of [2 ^ n] threads. *)
Definition force_window_sum (a : RigidArgs) (g : Z) (n : nat) (net_force : Z -> Scalar4)
  : Scalar4 :=
  window_sum zero4 add4 n (d_molecule_len a g)
             (constituent_term a g (fun k => net_force (member a g k))).

Definition torque_window_sum (a : RigidArgs) (g : Z) (n : nat)
           (net_force net_torque : Z -> Scalar4) : Scalar3 :=
  window_sum zero3 add3 n (d_molecule_len a g)
    (constituent_term a g
       (fun k => add3 (vec3_of (net_torque (member a g k)))
                      (cross (relative_position a g k)
                             (vec3_of (net_force (member a g k)))))).

(** The sum, in the order of a window of [2 ^ n] threads, of the net
    virial of each constituent minus the outer product of its net force
    and its relative position. *)
Definition virial_window_sum (a : RigidArgs) (net_virial_pitch : Z) (g : Z) (n : nat)
           (mem : DeviceMem) : Virial6 :=
  window_sum zero_virial6 virial_acc_add n (d_molecule_len a g)
    (constituent_term a g
       (fun k => virial_minus_outer
                   (snd (virial_cell net_virial_pitch mem (member a g k)))
                   (d_net_force mem (member a g k))
                   (relative_position a g k))).

(** What the drivers need from their arguments: a power-of-two number of
    bodies per block, at most 16, that the preferred block size and the
    kernel allow; room in shared memory for a block of that many threads;
    a body count that the grid arithmetic keeps in 32 bits. *)
Definition driver_ok (r : Resources) (a : RigidArgs) (block_size : Z) : Prop :=
  (exists e, 0 <= e <= 4 /\ n_bodies_per_block a = 2 ^ e) /\
  n_bodies_per_block a <= block_size < 2 ^ 31 /\
  n_bodies_per_block a <= maxThreadsPerBlock r < 2 ^ 31 /\
  u32 (n_bodies_per_block a * bytes_per_thread r) + sharedSizeBytes r
    < sharedMemPerBlock r /\
  0 <= n_mol a /\
  n_mol a + n_bodies_per_block a < 2 ^ 32.

(** The sliding window of body [g] stays in the 32-bit range for every
    window the driver can choose from the preferred block size. *)
Definition body_length_ok (a : RigidArgs) (block_size : Z) (g : Z) : Prop :=
  0 <= d_molecule_len a g /\ d_molecule_len a g + block_size < 2 ^ 32.

(** The exit test of the second sizing loop: the scratch memory of a
    block of [b] threads and the static shared memory of the kernel stay
    below the shared memory of a block. *)
Definition block_fits (r : Resources) (b : Z) : Prop :=
  u32 (b * bytes_per_thread r) + sharedSizeBytes r < sharedMemPerBlock r.

(** The same kernel arguments with another number of bodies per block. *)
Definition with_bodies_per_block (a : RigidArgs) (n : Z) : RigidArgs :=
  {| d_molecule_len := d_molecule_len a;
     d_molecule_list := d_molecule_list a;
     d_tag := d_tag a;
     d_rtag := d_rtag a;
     molecule_indexer := molecule_indexer a;
     d_postype := d_postype a;
     d_orientation := d_orientation a;
     body_indexer := body_indexer a;
     d_body_pos := d_body_pos a;
     d_body_orientation := d_body_orientation a;
     n_mol := n_mol a;
     N := N a;
     n_bodies_per_block := n |}.

End Kernels.

Arguments acc_zero {S A G} _.
Arguments acc_add {S A G} _ _ _.
Arguments visit {S A G} _ _ _ _ _ _.
Arguments publish {S A G} _ _ _ _.
Arguments law_add_comm {S A G K} _ _ _.
Arguments law_add_assoc {S A G K} _ _ _ _.
Arguments law_add_0_l {S A G K} _ _.
Arguments law_visit_acc {S A G C O K cell out okp okc contrib pub} _ _ _ _ _ _ _.
Arguments law_visit_cell {S A G C O K cell out okp okc contrib pub} _ _ _ _ _ _ _ _ _ _ _.
Arguments law_visit_out {S A G C O K cell out okp okc contrib pub} _ _ _ _ _ _ _ _.
Arguments law_publish_cell {S A G C O K cell out okp okc contrib pub} _ _ _ _ _.
Arguments law_publish_out {S A G C O K cell out okp okc contrib pub} _ _ _ _ _.
Arguments law_publish_out_other {S A G C O K cell out okp okc contrib pub} _ _ _ _ _ _ _ _.
End Reducer.

(* ================================================================== *)
(** * The state spreader *)
(* ================================================================== *)

Module Spreader.
Section Kernel.
Context {S : ScalarOps} {V : VectorMath}.

(** Read-only arguments of [gpu_update_composite_kernel]. *)
Record CompositeArgs : Type := {
  N : Z;
  n_ghost : Z;
  d_body : Z -> Z;
  d_rtag : Z -> Z;
  d_tag : Z -> Z;
  body_indexer : Z -> Z -> Z;
  d_body_pos : Z -> Scalar3;
  d_body_orientation : Z -> Scalar4;
  box : BoxDim;
  remote : bool
}.

(** The per-particle buffers the kernel receives through non-const
    pointers. *)
Record ParticleMem : Type := {
  d_postype : Z -> Scalar4;
  d_orientation : Z -> Scalar4;
  d_image : Z -> int3
}.

(** The buffers a thread can dereference, and one dereference. *)
Inductive Buffer : Type :=
| BufBody | BufRtag | BufTag | BufPostype | BufOrientation | BufImage
| BufBodyPos | BufBodyOrientation.

Definition Access : Type := (Buffer * Z)%type.

(** Two dereferences can be compared. *)
Definition Access_eq_dec (x y : Access) : {x = y} + {x <> y}.
Proof.
  destruct x as [b i], y as [b' i'].
  destruct (Z.eq_dec i i') as [-> | Hi]; [| right; congruence].
  destruct b, b'; try (left; reflexivity); right; discriminate.
Defined.

(** The buffers that hold one cell per stored particle (local particles
    first, then ghosts). *)
Definition per_particle (b : Buffer) : bool :=
  match b with
  | BufBody | BufTag | BufPostype | BufOrientation | BufImage => true
  | BufRtag | BufBodyPos | BufBodyOrientation => false
  end.

(** An access stays inside particle storage. *)
Definition in_storage (a : CompositeArgs) (x : Access) : Prop :=
  per_particle (fst x) = true -> 0 <= snd x < N a + n_ghost a.

(** Lines 603-662: one thread.  The state is the particle memory together
    with the dereferences made so far, in program order. *)
Definition gpu_update_composite_kernel (a : CompositeArgs)
           (blockDim blockIdx threadIdx : Z)
           (st : ParticleMem * list Access) : ParticleMem * list Access :=
  let mem := fst st in
  let log := snd st in
  let idx := u32 (blockIdx * blockDim + threadIdx) in
  if u32 (N a + n_ghost a) <=? idx then st else
  let central_tag := d_body a idx in
  let log := log ++ [(BufBody, idx)] in
  if central_tag =? NO_BODY then (mem, log) else
  let central_idx := d_rtag a central_tag in
  let log := log ++ [(BufRtag, central_tag)] in
  if negb (remote a) && (N a <=? central_idx) then (mem, log) else
  if (central_idx =? NOT_LOCAL) && (N a <=? idx) then (mem, log) else
  if idx =? central_idx then (mem, log) else
  let postype := d_postype mem central_idx in
  let pos := vec3_of postype in
  let orientation := d_orientation mem central_idx in
  let body_type := scalar_as_int (w4 postype) in
  let img := d_image mem central_idx in
  let tag := d_tag a idx in
  let slot := body_indexer a body_type (u32 (tag - central_tag - 1)) in
  let local_pos := d_body_pos a slot in
  let dr_space := rotate orientation local_pos in
  let updated_pos := add3 pos dr_space in
  let local_orientation := d_body_orientation a slot in
  let updated_orientation := quat_mul orientation local_orientation in
  let wrapped := box_wrap (box a) updated_pos img in
  let type := scalar_as_int (w4 (d_postype mem idx)) in
  let mem :=
    {| d_postype := upd (d_postype mem) idx
                      (make_scalar4 (x3 (fst wrapped)) (y3 (fst wrapped))
                                    (z3 (fst wrapped)) (int_as_scalar type));
       d_orientation := d_orientation mem;
       d_image := d_image mem |} in
  let mem :=
    {| d_postype := d_postype mem;
       d_orientation := d_orientation mem;
       d_image := upd (d_image mem) idx (snd wrapped) |} in
  (mem, log ++ [(BufPostype, central_idx); (BufOrientation, central_idx);
                (BufImage, central_idx); (BufTag, idx); (BufBodyPos, slot);
                (BufBodyOrientation, slot); (BufPostype, idx);
                (BufPostype, idx); (BufImage, idx)]).

(** Lines 664-708: the driver.  [max_block_size] is the cached
    [attr.maxThreadsPerBlock] of the kernel. *)
Definition gpu_update_composite (max_block_size : Z) (a : CompositeArgs)
           (block_size : Z) (mem : ParticleMem) : ParticleMem * list Access :=
  let run_block_size := block_size in
  let run_block_size :=
    if max_block_size <=? run_block_size then max_block_size else run_block_size in
  let n_blocks := u32 (u32 (N a + n_ghost a) / run_block_size + 1) in
  for_each n_blocks
    (fun b => for_each run_block_size (gpu_update_composite_kernel a run_block_size b))
    (mem, []).

(* ------------------------------------------------------------------ *)
(** ** Vocabulary of the statements *)

(** The run block size the driver chooses. *)
Definition run_block_size (max_block_size block_size : Z) : Z :=
  if max_block_size <=? block_size then max_block_size else block_size.

(** The storage index the body tag of particle [idx] resolves to. *)
Definition central_of (a : CompositeArgs) (idx : Z) : Z :=
  d_rtag a (d_body a idx).

(** The thread of particle [idx] returns before it writes: lines 620,
    624, 628, 634 and 637. *)
Definition skips (a : CompositeArgs) (idx : Z) : bool :=
  (u32 (N a + n_ghost a) <=? idx)
  || (d_body a idx =? NO_BODY)
  || (negb (remote a) && (N a <=? central_of a idx))
  || ((central_of a idx =? NOT_LOCAL) && (N a <=? idx))
  || (idx =? central_of a idx).

(** The template slot of particle [idx]: its tag minus the tag of its
    body minus one, in the table of the type of the central particle. *)
Definition template_slot (a : CompositeArgs) (mem : ParticleMem) (idx : Z) : Z :=
  body_indexer a (scalar_as_int (w4 (d_postype mem (central_of a idx))))
               (u32 (d_tag a idx - d_body a idx - 1)).

(** The position of the central particle plus the template offset of
    [idx] rotated by the orientation of the central particle. *)
Definition unwrapped_position (a : CompositeArgs) (mem : ParticleMem) (idx : Z) : Scalar3 :=
  add3 (vec3_of (d_postype mem (central_of a idx)))
       (rotate (d_orientation mem (central_of a idx))
               (d_body_pos a (template_slot a mem idx))).

(** That position wrapped into the box, starting from the image of the
    central particle. *)
Definition spread_position (a : CompositeArgs) (mem : ParticleMem) (idx : Z)
  : Scalar3 * int3 :=
  box_wrap (box a) (unwrapped_position a mem idx) (d_image mem (central_of a idx)).

(** The orientation of the central particle times the template
    orientation of [idx]. *)
Definition spread_orientation (a : CompositeArgs) (mem : ParticleMem) (idx : Z) : Scalar4 :=
  quat_mul (d_orientation mem (central_of a idx))
           (d_body_orientation a (template_slot a mem idx)).

(** What a thread that does not return early writes. *)
Definition spread_write (a : CompositeArgs) (mem : ParticleMem) (idx : Z) : ParticleMem :=
  {| d_postype :=
       upd (d_postype mem) idx
           (make_scalar4 (x3 (fst (spread_position a mem idx)))
                         (y3 (fst (spread_position a mem idx)))
                         (z3 (fst (spread_position a mem idx)))
                         (int_as_scalar (scalar_as_int (w4 (d_postype mem idx)))));
     d_orientation := d_orientation mem;
     d_image := upd (d_image mem) idx (snd (spread_position a mem idx)) |}.

End Kernel.
End Spreader.

(* ================================================================== *)
(** * Concrete inputs *)
(* ================================================================== *)

(** Integer scalars, the formulas of hoomd/VectorMath.h for the vector
    helpers and a cubic box [[0, L)] give an instance on which the kernels
    can be run.  Binary64 scalars with the same formulas give a second
    one, on which additions round. *)
Module Examples.

Definition ZScalar : ScalarOps :=
  {| Scalar := Z;
     szero := 0;
     sadd := Z.add;
     ssub := Z.sub;
     smul := Z.mul;
     scalar_as_int := fun z => z;
     int_as_scalar := fun z => z |}.

#[global] Existing Instance ZScalar.

Definition ZExact : @ExactScalar ZScalar :=
  @Build_ExactScalar ZScalar Z.add_comm Z.add_assoc Z.add_0_l.

Definition ZCast : @CastRoundTrip ZScalar :=
  @Build_CastRoundTrip ZScalar (fun s => eq_refl).

Definition ZZeroSum : @ZeroSum ZScalar :=
  @Build_ZeroSum ZScalar eq_refl.

Definition ZNeutralZero : @NeutralZero ZScalar :=
  @Build_NeutralZero ZScalar Z.add_0_l Z.add_0_r.

#[global] Existing Instance ZZeroSum.
#[global] Existing Instance ZNeutralZero.
#[global] Existing Instance ZExact.
#[global] Existing Instance ZCast.

Definition zdot (u v : @Scalar3 ZScalar) : Z :=
  x3 u * x3 v + y3 u * y3 v + z3 u * z3 v.

Definition zcross (u v : @Scalar3 ZScalar) : @Scalar3 ZScalar :=
  make_scalar3 (y3 u * z3 v - z3 u * y3 v)
               (z3 u * x3 v - x3 u * z3 v)
               (x3 u * y3 v - y3 u * x3 v).

(** [(s*s - v.v) b + 2 s (v x b) + 2 (v.b) v] for the quaternion
    [(s, v) = (q.x, (q.y, q.z, q.w))]. *)
Definition zrotate (q : @Scalar4 ZScalar) (b : @Scalar3 ZScalar) : @Scalar3 ZScalar :=
  let s := x4 q in
  let v := make_scalar3 (y4 q) (z4 q) (w4 q) in
  let c := zcross v b in
  let k := s * s - zdot v v in
  let d := zdot v b in
  make_scalar3 (k * x3 b + 2 * s * x3 c + 2 * d * x3 v)
               (k * y3 b + 2 * s * y3 c + 2 * d * y3 v)
               (k * z3 b + 2 * s * z3 c + 2 * d * z3 v).

Definition zquat_mul (p q : @Scalar4 ZScalar) : @Scalar4 ZScalar :=
  let pv := make_scalar3 (y4 p) (z4 p) (w4 p) in
  let qv := make_scalar3 (y4 q) (z4 q) (w4 q) in
  let c := zcross pv qv in
  make_scalar4 (x4 p * x4 q - zdot pv qv)
               (x4 p * x3 qv + x4 q * x3 pv + x3 c)
               (x4 p * y3 qv + x4 q * y3 pv + y3 c)
               (x4 p * z3 qv + x4 q * z3 pv + z3 c).

Definition zwrap1 (L x i : Z) : Z * Z :=
  if L <=? x then (x - L, i + 1) else if x <? 0 then (x + L, i - 1) else (x, i).

Definition zwrap (L : Z) (pos : @Scalar3 ZScalar) (img : int3) : @Scalar3 ZScalar * int3 :=
  (make_scalar3 (fst (zwrap1 L (x3 pos) (ix img)))
                (fst (zwrap1 L (y3 pos) (iy img)))
                (fst (zwrap1 L (z3 pos) (iz img))),
   make_int3 (snd (zwrap1 L (x3 pos) (ix img)))
             (snd (zwrap1 L (y3 pos) (iy img)))
             (snd (zwrap1 L (z3 pos) (iz img)))).

Definition ZVectorMath : @VectorMath ZScalar :=
  {| rotate := zrotate;
     cross := zcross;
     quat_mul := zquat_mul;
     BoxDim := Z;
     box_wrap := zwrap |}.

#[global] Existing Instance ZVectorMath.

(** Looks up [i] in a table given as a list, [d] beyond its end. *)
Fixpoint table {T : Type} (d : T) (l : list T) (i : Z) : T :=
  match l with
  | [] => d
  | x :: l' => if i =? 0 then x else table d l' (i - 1)
  end.

Definition v4 (a b c d : Z) : @Scalar4 ZScalar := make_scalar4 a b c d.
Definition v3 (a b c : Z) : @Scalar3 ZScalar := make_scalar3 a b c.

(** Five local particles in two bodies: body 0 is particle 0 with the
    constituents 1 and 2, body 1 is particle 3 with the constituent 4.
    The molecule list is laid out as [Index2D(n_mol, ...)], the template
    as [Index2D(1, ...)]; tags equal storage indices; all orientations
    are the identity quaternion. *)
Definition two_bodies : Reducer.RigidArgs :=
  {| Reducer.d_molecule_len := table 0 [3; 2];
     Reducer.d_molecule_list := table 0 [0; 3; 1; 4; 2; 0];
     Reducer.d_tag := fun p => p;
     Reducer.d_rtag := fun t => t;
     Reducer.molecule_indexer := fun g k => k * 2 + g;
     Reducer.d_postype := fun p => v4 p 0 0 0;
     Reducer.d_orientation := fun _ => v4 1 0 0 0;
     Reducer.body_indexer := fun bt li => li * 1 + bt;
     Reducer.d_body_pos := table (v3 0 0 0) [v3 1 0 0; v3 0 1 0];
     Reducer.d_body_orientation := fun _ => v4 1 0 0 0;
     Reducer.n_mol := 2;
     Reducer.N := 5;
     Reducer.n_bodies_per_block := 2 |}.

Definition two_bodies_mem : Reducer.DeviceMem :=
  {| Reducer.d_force := fun _ => v4 9 9 9 9;
     Reducer.d_torque := fun _ => v4 9 9 9 9;
     Reducer.d_virial := fun _ => 9;
     Reducer.d_net_force :=
       table (v4 0 0 0 0) [v4 1 0 0 1; v4 0 2 0 5; v4 0 0 3 7; v4 1 1 1 1; v4 2 3 4 6];
     Reducer.d_net_torque :=
       table (v4 0 0 0 0) [v4 1 1 1 0; v4 1 0 0 0; v4 0 1 0 0; v4 0 0 0 0; v4 0 0 0 0];
     Reducer.d_net_virial := fun i => i |}.

Definition force_resources : Reducer.Resources :=
  {| Reducer.maxThreadsPerBlock := 1024;
     Reducer.sharedSizeBytes := 400;
     Reducer.sharedMemPerBlock := 49152;
     Reducer.bytes_per_thread := 28 |}.

Definition virial_resources : Reducer.Resources :=
  {| Reducer.maxThreadsPerBlock := 1024;
     Reducer.sharedSizeBytes := 400;
     Reducer.sharedMemPerBlock := 49152;
     Reducer.bytes_per_thread := 24 |}.

(** Undefined shared memory, here filled with sevens. *)
Definition junk_shared : Z -> Reducer.BodyShared :=
  fun _ => {| Reducer.body_type := fun _ => 7;
              Reducer.body_orientation := fun _ => v4 7 7 7 7;
              Reducer.mol_idx := fun _ => 7;
              Reducer.central_idx := fun _ => 7 |}.

Definition junk_force_scratch : Z -> Z -> @Scalar4 ZScalar * @Scalar3 ZScalar :=
  fun _ _ => (v4 7 7 7 7, v3 7 7 7).

Definition junk_virial_scratch : Z -> Z -> @Reducer.Virial6 ZScalar :=
  fun _ _ => Reducer.make_virial6 7 7 7 7 7 7.

(** One local particle (index 0) that is the constituent of a body whose
    central particle is the ghost at index 1. *)
Definition ghost_central : Reducer.RigidArgs :=
  {| Reducer.d_molecule_len := table 0 [2];
     Reducer.d_molecule_list := table 0 [1; 0];
     Reducer.d_tag := table 0 [6; 5];
     Reducer.d_rtag := fun t => t;
     Reducer.molecule_indexer := fun g k => k * 1 + g;
     Reducer.d_postype := fun p => v4 p 0 0 0;
     Reducer.d_orientation := fun _ => v4 1 0 0 0;
     Reducer.body_indexer := fun bt li => li * 1 + bt;
     Reducer.d_body_pos := table (v3 0 0 0) [v3 1 0 0];
     Reducer.d_body_orientation := fun _ => v4 1 0 0 0;
     Reducer.n_mol := 1;
     Reducer.N := 1;
     Reducer.n_bodies_per_block := 1 |}.

Definition ghost_central_mem : Reducer.DeviceMem :=
  {| Reducer.d_force := fun _ => v4 5 5 5 5;
     Reducer.d_torque := fun _ => v4 5 5 5 5;
     Reducer.d_virial := fun _ => 5;
     Reducer.d_net_force := fun _ => v4 1 2 3 4;
     Reducer.d_net_torque := fun _ => v4 1 1 1 0;
     Reducer.d_net_virial := fun _ => 1 |}.

(** Binary64 scalars.  The casts follow the double-precision build
    (hoomd/HOOMDMath.h, not part of the sources at hand): [__scalar_as_int]
    is the low word of the bit pattern, [__int_as_scalar] the double whose
    high word is zero and whose low word is the integer. *)
Definition float_as_int (f : float) : Z :=
  match Prim2SF f with
  | S754_finite _ m _ => Z.pos m mod 2 ^ 32
  | _ => 0
  end.

Definition int_as_float (z : Z) : float :=
  match z mod 2 ^ 32 with
  | Z.pos m => SF2Prim (S754_finite false m (-1074))
  | _ => 0%float
  end.

Definition FloatScalar : ScalarOps :=
  {| Scalar := float;
     szero := 0%float;
     sadd := PrimFloat.add;
     ssub := PrimFloat.sub;
     smul := PrimFloat.mul;
     scalar_as_int := float_as_int;
     int_as_scalar := int_as_float |}.

Definition fdot (u v : @Scalar3 FloatScalar) : float :=
  (x3 u * x3 v + y3 u * y3 v + z3 u * z3 v)%float.

Definition fcross (u v : @Scalar3 FloatScalar) : @Scalar3 FloatScalar :=
  @make_scalar3 FloatScalar
    (y3 u * z3 v - z3 u * y3 v)%float
    (z3 u * x3 v - x3 u * z3 v)%float
    (x3 u * y3 v - y3 u * x3 v)%float.

Definition frotate (q : @Scalar4 FloatScalar) (b : @Scalar3 FloatScalar)
  : @Scalar3 FloatScalar :=
  let s := x4 q in
  let v := @make_scalar3 FloatScalar (y4 q) (z4 q) (w4 q) in
  let c := fcross v b in
  let k := (s * s - fdot v v)%float in
  let d := fdot v b in
  @make_scalar3 FloatScalar
    (k * x3 b + 2 * s * x3 c + 2 * d * x3 v)%float
    (k * y3 b + 2 * s * y3 c + 2 * d * y3 v)%float
    (k * z3 b + 2 * s * z3 c + 2 * d * z3 v)%float.

Definition fquat_mul (p q : @Scalar4 FloatScalar) : @Scalar4 FloatScalar :=
  let pv := @make_scalar3 FloatScalar (y4 p) (z4 p) (w4 p) in
  let qv := @make_scalar3 FloatScalar (y4 q) (z4 q) (w4 q) in
  let c := fcross pv qv in
  @make_scalar4 FloatScalar
    (x4 p * x4 q - fdot pv qv)%float
    (x4 p * x3 qv + x4 q * x3 pv + x3 c)%float
    (x4 p * y3 qv + x4 q * y3 pv + y3 c)%float
    (x4 p * z3 qv + x4 q * z3 pv + z3 c)%float.

Definition fwrap1 (L x : float) (i : Z) : float * Z :=
  if PrimFloat.leb L x then ((x - L)%float, i + 1)
  else if PrimFloat.ltb x 0 then ((x + L)%float, i - 1)
  else (x, i).

Definition fwrap (L : float) (pos : @Scalar3 FloatScalar) (img : int3)
  : @Scalar3 FloatScalar * int3 :=
  (@make_scalar3 FloatScalar
     (fst (fwrap1 L (x3 pos) (ix img)))
     (fst (fwrap1 L (y3 pos) (iy img)))
     (fst (fwrap1 L (z3 pos) (iz img))),
   make_int3 (snd (fwrap1 L (x3 pos) (ix img)))
             (snd (fwrap1 L (y3 pos) (iy img)))
             (snd (fwrap1 L (z3 pos) (iz img)))).

Definition FloatVectorMath : @VectorMath FloatScalar :=
  {| rotate := frotate;
     cross := fcross;
     quat_mul := fquat_mul;
     BoxDim := float;
     box_wrap := fwrap |}.

Definition f4 (a b c d : float) : @Scalar4 FloatScalar := @make_scalar4 FloatScalar a b c d.
Definition f3 (a b c : float) : @Scalar3 FloatScalar := @make_scalar3 FloatScalar a b c.

(** Four local particles in one body: particle 0 with the constituents
    1, 2 and 3, placed on the x axis.  The net forces and net torques of
    the constituents point along x with the values 1, 1 and [2 ^ 53]:
    their sum [2 ^ 53 + 2] is a binary64 number, but [2 ^ 53 + 1] is
    not. *)
Definition float_body (n_bodies_per_block : Z)
  : @Reducer.RigidArgs FloatScalar :=
  {| Reducer.d_molecule_len := table 0 [4];
     Reducer.d_molecule_list := table 0 [0; 1; 2; 3];
     Reducer.d_tag := fun p => p;
     Reducer.d_rtag := fun t => t;
     Reducer.molecule_indexer := fun g k => k * 1 + g;
     Reducer.d_postype := fun _ => f4 0 0 0 0;
     Reducer.d_orientation := fun _ => f4 1 0 0 0;
     Reducer.body_indexer := fun bt li => li * 1 + bt;
     Reducer.d_body_pos := table (f3 0 0 0) [f3 1 0 0; f3 2 0 0; f3 3 0 0];
     Reducer.d_body_orientation := fun _ => f4 1 0 0 0;
     Reducer.n_mol := 1;
     Reducer.N := 4;
     Reducer.n_bodies_per_block := n_bodies_per_block |}.

Definition float_body_mem : @Reducer.DeviceMem FloatScalar :=
  {| Reducer.d_force := fun _ => f4 9 9 9 9;
     Reducer.d_torque := fun _ => f4 9 9 9 9;
     Reducer.d_virial := fun _ => 9%float;
     Reducer.d_net_force :=
       table (f4 0 0 0 0)
             [f4 5 0 0 0; f4 1 0 0 0; f4 1 0 0 0; f4 9007199254740992 0 0 0];
     Reducer.d_net_torque :=
       table (f4 0 0 0 0)
             [f4 5 0 0 0; f4 1 0 0 0; f4 1 0 0 0; f4 9007199254740992 0 0 0];
     Reducer.d_net_virial :=
       table 0%float [5; 1; 1; 9007199254740992]%float |}.

Definition float_junk_shared : Z -> @Reducer.BodyShared FloatScalar :=
  fun _ => {| Reducer.body_type := fun _ => 7;
              Reducer.body_orientation := fun _ => f4 7 7 7 7;
              Reducer.mol_idx := fun _ => 7;
              Reducer.central_idx := fun _ => 7 |}.

Definition float_junk_force_scratch
  : Z -> Z -> @Scalar4 FloatScalar * @Scalar3 FloatScalar :=
  fun _ _ => (f4 7 7 7 7, f3 7 7 7).


(** One local particle that is a body of its own: the list of body 0
    holds the central particle and nothing else. *)
Definition lone_body : Reducer.RigidArgs :=
  {| Reducer.d_molecule_len := table 0 [1];
     Reducer.d_molecule_list := table 0 [0];
     Reducer.d_tag := fun p => p;
     Reducer.d_rtag := fun t => t;
     Reducer.molecule_indexer := fun g k => k * 1 + g;
     Reducer.d_postype := fun p => v4 p 0 0 0;
     Reducer.d_orientation := fun _ => v4 1 0 0 0;
     Reducer.body_indexer := fun bt li => li * 1 + bt;
     Reducer.d_body_pos := fun _ => v3 0 0 0;
     Reducer.d_body_orientation := fun _ => v4 1 0 0 0;
     Reducer.n_mol := 1;
     Reducer.N := 1;
     Reducer.n_bodies_per_block := 1 |}.

(** A device whose blocks have little shared memory: 64 threads of the
    force kernel are the most that fit. *)
Definition small_resources : Reducer.Resources :=
  {| Reducer.maxThreadsPerBlock := 1024;
     Reducer.sharedSizeBytes := 400;
     Reducer.sharedMemPerBlock := 2200;
     Reducer.bytes_per_thread := 28 |}.


(** Two local particles and one ghost: particle 0 is the central particle
    of body 0 and particle 1 its constituent; the ghost at index 2 belongs
    to body 9, whose central particle is stored nowhere.  The box is the
    cube of edge 10. *)
Definition one_body (remote : bool) : Spreader.CompositeArgs :=
  {| Spreader.N := 2;
     Spreader.n_ghost := 1;
     Spreader.d_body := table NO_BODY [0; 0; 9];
     Spreader.d_rtag := table NOT_LOCAL [0; 1];
     Spreader.d_tag := table 0 [0; 1; 10];
     Spreader.body_indexer := fun bt li => li * 1 + bt;
     Spreader.d_body_pos := table (v3 0 0 0) [v3 3 0 0];
     Spreader.d_body_orientation := fun _ => v4 0 1 0 0;
     Spreader.box := 10;
     Spreader.remote := remote |}.

Definition one_body_mem : Spreader.ParticleMem :=
  {| Spreader.d_postype := table (v4 0 0 0 0) [v4 8 5 5 0; v4 1 1 1 4; v4 2 2 2 4];
     Spreader.d_orientation := table (v4 0 0 0 0) [v4 1 0 0 0; v4 0 0 1 0; v4 0 0 1 0];
     Spreader.d_image := table (make_int3 0 0 0) [make_int3 1 0 0; make_int3 0 0 0] |}.

(** One local particle that belongs to body 9, whose central particle is
    stored nowhere, spread with the [remote] flag on.  The cells beyond
    the particle hold sevens. *)
Definition lost_central : Spreader.CompositeArgs :=
  {| Spreader.N := 1;
     Spreader.n_ghost := 0;
     Spreader.d_body := table NO_BODY [9];
     Spreader.d_rtag := fun _ => NOT_LOCAL;
     Spreader.d_tag := table 0 [10];
     Spreader.body_indexer := fun bt li => li * 1 + bt;
     Spreader.d_body_pos := fun _ => v3 0 0 0;
     Spreader.d_body_orientation := fun _ => v4 1 0 0 0;
     Spreader.box := 10;
     Spreader.remote := true |}.

Definition lost_central_mem : Spreader.ParticleMem :=
  {| Spreader.d_postype := table (v4 7 7 7 7) [v4 1 1 1 4];
     Spreader.d_orientation := table (v4 7 7 7 7) [v4 1 0 0 0];
     Spreader.d_image := table (make_int3 7 7 7) [make_int3 0 0 0] |}.

End Examples.

(* ================================================================== *)
(** * Facts about integers, buffers and loops *)
(* ================================================================== *)

Lemma u32_small (z : Z) : 0 <= z < 2 ^ 32 -> u32 z = z.
Proof. intros H. unfold u32. apply Z.mod_small. exact H. Qed.

Lemma u32_range (z : Z) : 0 <= u32 z < 2 ^ 32.
Proof. unfold u32. apply Z.mod_pos_bound. reflexivity. Qed.

Lemma upd_same {T : Type} (buf : Z -> T) (i : Z) (v : T) : upd buf i v i = v.
Proof. unfold upd. rewrite Z.eqb_refl. reflexivity. Qed.

Lemma upd_other {T : Type} (buf : Z -> T) (i j : Z) (v : T) :
  j <> i -> upd buf i v j = buf j.
Proof. intros H. unfold upd. destruct (Z.eqb_spec j i); [contradiction | reflexivity]. Qed.

Lemma zrange_nonpos (n : Z) : n <= 0 -> zrange n = [].
Proof.
  intros H. unfold zrange.
  replace (Z.to_nat n) with O by lia. reflexivity.
Qed.

Lemma zrange_succ (n : Z) : 0 <= n -> zrange (n + 1) = zrange n ++ [n].
Proof.
  intros H. unfold zrange.
  replace (Z.to_nat (n + 1)) with (Datatypes.S (Z.to_nat n)) by lia.
  rewrite seq_S, map_app. simpl.
  rewrite Z2Nat.id by exact H. reflexivity.
Qed.

Lemma in_zrange (n i : Z) : In i (zrange n) <-> 0 <= i < n.
Proof.
  unfold zrange. rewrite in_map_iff. split.
  - intros [k [Hk Hin]]. apply in_seq in Hin. lia.
  - intros H. exists (Z.to_nat i). split; [lia |]. apply in_seq. lia.
Qed.

Lemma for_each_nonpos {T : Type} (n : Z) (body : Z -> T -> T) (s : T) :
  n <= 0 -> for_each n body s = s.
Proof. intros H. unfold for_each. rewrite zrange_nonpos by exact H. reflexivity. Qed.

Lemma for_each_succ {T : Type} (n : Z) (body : Z -> T -> T) (s : T) :
  0 <= n -> for_each (n + 1) body s = body n (for_each n body s).
Proof.
  intros H. unfold for_each. rewrite zrange_succ by exact H.
  rewrite fold_left_app. reflexivity.
Qed.

(** Loop invariant indexed by the iteration count. *)
Lemma for_each_ind {T : Type} (P : Z -> T -> Prop) (n : Z) (body : Z -> T -> T) (s : T) :
  0 <= n ->
  P 0 s ->
  (forall i t, 0 <= i < n -> P i t -> P (i + 1) (body i t)) ->
  P n (for_each n body s).
Proof.
  intros Hn H0 Hstep.
  assert (Hall : forall k, 0 <= k -> k <= n -> P k (for_each k body s)).
  { intros k Hk. pattern k. apply natlike_ind; [ | | exact Hk].
    - intros _. rewrite for_each_nonpos by lia. exact H0.
    - intros x Hx IH Hle. unfold Z.succ. rewrite for_each_succ by exact Hx.
      apply Hstep; [lia | apply IH; lia]. }
  apply Hall; lia.
Qed.

(** Plain loop invariant. *)
Lemma for_each_inv {T : Type} (Q : T -> Prop) (n : Z) (body : Z -> T -> T) (s : T) :
  Q s ->
  (forall i t, 0 <= i < n -> Q t -> Q (body i t)) ->
  Q (for_each n body s).
Proof.
  intros H0 Hstep.
  destruct (Z_lt_le_dec n 0) as [Hneg | Hn].
  - rewrite for_each_nonpos by lia. exact H0.
  - apply (for_each_ind (fun _ t => Q t)); auto.
Qed.

(** A property established by iteration [i0] under an invariant [I] and
    kept by every later iteration holds when the loop ends. *)
Lemma for_each_eventually {T : Type} (I R : T -> Prop) (n i0 : Z)
      (body : Z -> T -> T) (s : T) :
  0 <= i0 < n ->
  I s ->
  (forall i t, 0 <= i < n -> I t -> I (body i t)) ->
  (forall t, I t -> R (body i0 t)) ->
  (forall i t, 0 <= i < n -> I t -> R t -> R (body i t)) ->
  R (for_each n body s).
Proof.
  intros Hi HI Hinv Hest Hkeep.
  assert (H : I (for_each n body s) /\ (i0 < n -> R (for_each n body s))).
  { apply (for_each_ind (fun k t => I t /\ (i0 < k -> R t))); [lia | | ].
    - split; [exact HI | lia].
    - intros i t Hr [HIt HRt]. split; [apply Hinv; assumption |].
      intros Hlt. destruct (Z.eq_dec i i0) as [-> | Hne].
      + apply Hest. exact HIt.
      + apply Hkeep; [assumption | assumption | apply HRt; lia]. }
  apply H. lia.
Qed.

(** Two runs of a loop whose bodies keep a relation keep the relation. *)
Lemma for_each_rel {T T' : Type} (R : T -> T' -> Prop) (n : Z)
      (body : Z -> T -> T) (body' : Z -> T' -> T') (s : T) (s' : T') :
  R s s' ->
  (forall i t t', 0 <= i < n -> R t t' -> R (body i t) (body' i t')) ->
  R (for_each n body s) (for_each n body' s').
Proof.
  intros H0 Hstep.
  destruct (Z_lt_le_dec n 0) as [Hneg | Hn].
  - rewrite !for_each_nonpos by lia. exact H0.
  - apply (for_each_ind (fun k t => R t (for_each k body' s'))); [exact Hn | | ].
    + rewrite for_each_nonpos by lia. exact H0.
    + intros i t Hi HR. rewrite for_each_succ by lia. apply Hstep; assumption.
Qed.

Lemma land_mask_mod (t j : Z) :
  0 <= j -> Z.land t (2 ^ j - 1) = t mod 2 ^ j.
Proof.
  intros Hj. rewrite <- Z.land_ones by exact Hj.
  rewrite Z.ones_equiv. reflexivity.
Qed.

(* ================================================================== *)
(** * Sums in a commutative monoid *)
(* ================================================================== *)

Section Sums.
Context {A : Type}.
Variable zero : A.
Variable add : A -> A -> A.
Hypothesis add_comm : forall x y, add x y = add y x.
Hypothesis add_assoc : forall x y z, add x (add y z) = add (add x y) z.
Hypothesis add_0_l : forall x, add zero x = x.

Lemma add_0_r x : add x zero = x.
Proof. rewrite add_comm. apply add_0_l. Qed.

Lemma msum_app (l1 l2 : list A) :
  msum zero add (l1 ++ l2) = add (msum zero add l1) (msum zero add l2).
Proof.
  induction l1 as [| x l1 IH]; simpl.
  - symmetry. apply add_0_l.
  - rewrite IH. apply add_assoc.
Qed.

(** [zsum n f] is [f 0 + f 1 + ... + f (n-1)]. *)
Lemma zsum_succ (n : Z) (f : Z -> A) :
  0 <= n ->
  msum zero add (map f (zrange (n + 1))) = add (msum zero add (map f (zrange n))) (f n).
Proof.
  intros Hn. rewrite zrange_succ by exact Hn.
  rewrite map_app, msum_app. simpl. rewrite add_0_r. reflexivity.
Qed.

Lemma zsum_ext (n : Z) (f f' : Z -> A) :
  (forall i, 0 <= i < n -> f i = f' i) ->
  msum zero add (map f (zrange n)) = msum zero add (map f' (zrange n)).
Proof.
  intros H. f_equal. apply map_ext_in. intros i Hi. apply H.
  apply in_zrange. exact Hi.
Qed.

Lemma zsum_zero (n : Z) (f : Z -> A) :
  (forall i, 0 <= i < n -> f i = zero) ->
  msum zero add (map f (zrange n)) = zero.
Proof.
  intros H.
  assert (Hl : forall l, (forall i, In i l -> f i = zero) -> msum zero add (map f l) = zero).
  { induction l as [| x l' IH]; simpl; intros Hin; [reflexivity |].
    rewrite Hin by (left; reflexivity). rewrite add_0_l. apply IH.
    intros i Hi. apply Hin. right. exact Hi. }
  apply Hl. intros i Hi. apply H. apply in_zrange. exact Hi.
Qed.

Lemma add_swap4 (p q r s : A) : add (add p q) (add r s) = add (add p r) (add q s).
Proof.
  rewrite <- (add_assoc p q (add r s)), (add_assoc q r s), (add_comm q r).
  rewrite <- (add_assoc r q s), (add_assoc p r (add q s)). reflexivity.
Qed.

Lemma zsum_add (n : Z) (f f' : Z -> A) :
  msum zero add (map (fun i => add (f i) (f' i)) (zrange n))
  = add (msum zero add (map f (zrange n))) (msum zero add (map f' (zrange n))).
Proof.
  induction (zrange n) as [| x l' IH]; simpl.
  - symmetry. apply add_0_l.
  - rewrite IH. apply add_swap4.
Qed.

Lemma zsum_split (n m : Z) (f : Z -> A) :
  0 <= n -> 0 <= m ->
  msum zero add (map f (zrange (n + m)))
  = add (msum zero add (map f (zrange n)))
        (msum zero add (map (fun i => f (n + i)) (zrange m))).
Proof.
  intros Hn Hm. pattern m. apply natlike_ind; [ | | exact Hm].
  - rewrite Z.add_0_r. rewrite (zrange_nonpos 0) by lia. simpl.
    rewrite add_0_r. reflexivity.
  - intros x Hx IH. unfold Z.succ.
    rewrite Z.add_assoc, zsum_succ by lia.
    rewrite IH. rewrite (zsum_succ x) by lia.
    rewrite add_assoc. reflexivity.
Qed.

(** One round of the tree reduction keeps the sum of the active span. *)
Lemma zsum_halve (o : Z) (f : Z -> A) :
  0 <= o ->
  msum zero add (map (fun i => add (f i) (f (i + o))) (zrange o))
  = msum zero add (map f (zrange (o + o))).
Proof.
  intros Ho. rewrite zsum_add, zsum_split by lia.
  f_equal. apply zsum_ext. intros i _. f_equal. lia.
Qed.

(** Summing lane by lane what each lane gathers in [n] strided passes is
    summing the first [n * w] members. *)
Lemma zsum_strided (w n : Z) (f : Z -> A) :
  0 <= w -> 0 <= n ->
  msum zero add (map (fun lane => msum zero add (map (fun s => f (s * w + lane)) (zrange n)))
                     (zrange w))
  = msum zero add (map f (zrange (n * w))).
Proof.
  intros Hw Hn. pattern n. apply natlike_ind; [ | | exact Hn].
  - rewrite (zrange_nonpos 0) by lia. simpl.
    apply zsum_zero. intros; reflexivity.
  - intros x Hx IH. unfold Z.succ.
    replace ((x + 1) * w) with (x * w + w) by lia.
    rewrite zsum_split by nia. rewrite <- IH, <- zsum_add.
    apply zsum_ext. intros i _. rewrite zsum_succ by lia. reflexivity.
Qed.

(** Members filtered out of a sum count as [zero]. *)
Lemma msum_filter (p : Z -> bool) (f : Z -> A) (l : list Z) :
  msum zero add (map f (filter p l))
  = msum zero add (map (fun i => if p i then f i else zero) l).
Proof.
  induction l as [| x l' IH]; simpl; [reflexivity |].
  destruct (p x); simpl; rewrite IH; [reflexivity |].
  symmetry. apply add_0_l.
Qed.

End Sums.

(* ------------------------------------------------------------------ *)
(** ** Sums in the order of a window *)

(** Nothing is assumed of the addition here. *)
Section Trees.
Context {T : Type}.
Variable zero : T.
Variable add : T -> T -> T.

Lemma pow2_succ (n : nat) : 2 ^ Z.of_nat (Datatypes.S n) = 2 * 2 ^ Z.of_nat n.
Proof. rewrite Nat2Z.inj_succ, Z.pow_succ_r by lia. reflexivity. Qed.

Lemma pow2_pos (n : nat) : 0 < 2 ^ Z.of_nat n.
Proof. apply Z.pow_pos_nonneg; lia. Qed.

Lemma tree_sum_succ (n : nat) (v : Z -> T) :
  tree_sum add (Datatypes.S n) v
  = tree_sum add n (fun i => add (v i) (v (i + 2 ^ Z.of_nat n))).
Proof. reflexivity. Qed.

(** The tree reads the lanes [0 .. 2 ^ n - 1] only. *)
Lemma tree_sum_ext (n : nat) :
  forall v v' : Z -> T,
    (forall i, 0 <= i < 2 ^ Z.of_nat n -> v i = v' i) ->
    tree_sum add n v = tree_sum add n v'.
Proof.
  induction n as [| n IH]; intros v v' H.
  - simpl. apply H. simpl. lia.
  - cbn [tree_sum]. apply IH. intros i Hi.
    pose proof (pow2_succ n) as Hp. pose proof (pow2_pos n) as Hpos.
    rewrite (H i), (H (i + 2 ^ Z.of_nat n)) by lia. reflexivity.
Qed.

(** A tree of zeros is zero as soon as [0 + 0 = 0]. *)
Lemma tree_sum_zero (n : nat) :
  add zero zero = zero ->
  forall v : Z -> T,
    (forall i, 0 <= i < 2 ^ Z.of_nat n -> v i = zero) ->
    tree_sum add n v = zero.
Proof.
  intros H00. induction n as [| n IH]; intros v H.
  - simpl. apply H. simpl. lia.
  - cbn [tree_sum]. apply IH. intros i Hi.
    pose proof (pow2_succ n) as Hp. pose proof (pow2_pos n) as Hpos.
    rewrite (H i), (H (i + 2 ^ Z.of_nat n)) by lia. exact H00.
Qed.

(** A tree with a single lane that is not zero returns this lane, when
    zero is neutral on both sides. *)
Lemma tree_sum_single (n : nat) :
  (forall x, add zero x = x) -> (forall x, add x zero = x) ->
  forall (v : Z -> T) (i0 : Z),
    0 <= i0 < 2 ^ Z.of_nat n ->
    (forall i, 0 <= i < 2 ^ Z.of_nat n -> i <> i0 -> v i = zero) ->
    tree_sum add n v = v i0.
Proof.
  intros H0l H0r. induction n as [| n IH]; intros v i0 Hi0 H.
  - simpl in *. replace i0 with 0 by lia. reflexivity.
  - cbn [tree_sum].
    pose proof (pow2_succ n) as Hp. pose proof (pow2_pos n) as Hpos.
    destruct (Z_lt_le_dec i0 (2 ^ Z.of_nat n)) as [Hlo | Hhi].
    + rewrite (IH _ i0) by
        (try lia; intros i Hi Hne; rewrite (H i), (H (i + 2 ^ Z.of_nat n)) by lia;
         apply H0l).
      rewrite (H (i0 + 2 ^ Z.of_nat n)) by lia. apply H0r.
    + rewrite (IH _ (i0 - 2 ^ Z.of_nat n)) by
        (try lia; intros i Hi Hne; rewrite (H i), (H (i + 2 ^ Z.of_nat n)) by lia;
         apply H0l).
      replace (i0 - 2 ^ Z.of_nat n + 2 ^ Z.of_nat n) with i0 by lia.
      rewrite (H (i0 - 2 ^ Z.of_nat n)) by lia. apply H0l.
Qed.

(** A lane reads the terms of its own slots only. *)
Lemma lane_sum_ext (W len : Z) (term term' : Z -> option T) (lane : Z) :
  (forall start, 0 <= start < len / W + 1 ->
                 term (start * W + lane) = term' (start * W + lane)) ->
  lane_sum zero add W len term lane = lane_sum zero add W len term' lane.
Proof.
  intros H. unfold lane_sum.
  apply (for_each_rel eq); [reflexivity |].
  intros i t t' Hi ->. rewrite (H i Hi). reflexivity.
Qed.

(** A lane without terms stays at zero. *)
Lemma lane_sum_none (W len : Z) (term : Z -> option T) (lane : Z) :
  (forall start, 0 <= start < len / W + 1 -> term (start * W + lane) = None) ->
  lane_sum zero add W len term lane = zero.
Proof.
  intros H. unfold lane_sum.
  apply (for_each_inv (fun acc => acc = zero)); [reflexivity |].
  intros i acc Hi ->. rewrite (H i Hi). reflexivity.
Qed.

(** A lane all of whose terms are zero stays at zero as soon as
    [0 + 0 = 0]. *)
Lemma lane_sum_zero (W len : Z) (term : Z -> option T) (lane : Z) :
  add zero zero = zero ->
  (forall start x, 0 <= start < len / W + 1 ->
                   term (start * W + lane) = Some x -> x = zero) ->
  lane_sum zero add W len term lane = zero.
Proof.
  intros H00 H. unfold lane_sum.
  apply (for_each_inv (fun acc => acc = zero)); [reflexivity |].
  intros i acc Hi ->.
  destruct (term (i * W + lane)) as [x |] eqn:Ht; [| reflexivity].
  rewrite (H i x Hi Ht). exact H00.
Qed.

(** A lane with a single term returns it, when zero is neutral on the
    left. *)
Lemma lane_sum_single (W len : Z) (term : Z -> option T) (lane start0 : Z) (x : T) :
  (forall y, add zero y = y) ->
  0 <= start0 < len / W + 1 ->
  term (start0 * W + lane) = Some x ->
  (forall start, 0 <= start < len / W + 1 -> start <> start0 ->
                 term (start * W + lane) = None) ->
  lane_sum zero add W len term lane = x.
Proof.
  intros H0l Hs Hx Hnone. unfold lane_sum.
  assert (HP : forall k, 0 <= k <= len / W + 1 ->
             for_each k
               (fun start acc =>
                  match term (start * W + lane) with
                  | Some y => add acc y
                  | None => acc
                  end) zero
             = if k <=? start0 then zero else x).
  { intros k Hk. destruct Hk as [Hk0 Hk1]. revert Hk1. pattern k.
    apply natlike_ind; [ | | exact Hk0].
    - intros _. rewrite for_each_nonpos by lia.
      replace (0 <=? start0) with true by (symmetry; apply Z.leb_le; lia). reflexivity.
    - intros i Hi IH Hle. unfold Z.succ. rewrite for_each_succ by lia.
      rewrite IH by lia.
      destruct (Z.eq_dec i start0) as [-> | Hne].
      + rewrite Hx.
        replace (start0 <=? start0) with true by (symmetry; apply Z.leb_le; lia).
        replace (start0 + 1 <=? start0) with false by (symmetry; apply Z.leb_gt; lia).
        apply H0l.
      + rewrite (Hnone i) by lia.
        destruct (Z.leb_spec i start0), (Z.leb_spec (i + 1) start0); lia || reflexivity. }
  rewrite HP by lia.
  replace (len / W + 1 <=? start0) with false by (symmetry; apply Z.leb_gt; lia).
  reflexivity.
Qed.

(** A window reads its terms only. *)
Lemma window_sum_ext (n : nat) (len : Z) (term term' : Z -> option T) :
  (forall k, 0 <= k -> term k = term' k) ->
  window_sum zero add n len term = window_sum zero add n len term'.
Proof.
  intros H. unfold window_sum. apply tree_sum_ext. intros lane Hl.
  apply lane_sum_ext. intros start Hs. apply H.
  pose proof (pow2_pos n). nia.
Qed.

(** A window all of whose terms are zero adds up to zero as soon as
    [0 + 0 = 0]. *)
Lemma window_sum_zero (n : nat) (len : Z) (term : Z -> option T) :
  add zero zero = zero ->
  (forall k x, 0 <= k -> term k = Some x -> x = zero) ->
  window_sum zero add n len term = zero.
Proof.
  intros H00 H. unfold window_sum. apply tree_sum_zero; [exact H00 |].
  intros lane Hl. apply lane_sum_zero; [exact H00 |].
  intros start x Hs Ht.
  apply (H (start * 2 ^ Z.of_nat n + lane) x); [| exact Ht].
  pose proof (pow2_pos n). nia.
Qed.

(** A window with a single term returns it, when zero is neutral on
    both sides. *)
Lemma window_sum_single (n : nat) (len : Z) (term : Z -> option T) (k0 : Z) (x : T) :
  (forall y, add zero y = y) -> (forall y, add y zero = y) ->
  0 <= k0 < len ->
  term k0 = Some x ->
  (forall k, 0 <= k -> k <> k0 -> term k = None) ->
  window_sum zero add n len term = x.
Proof.
  intros H0l H0r Hk0 Hx Hnone. unfold window_sum.
  pose proof (pow2_pos n) as HW.
  set (W := 2 ^ Z.of_nat n) in *.
  assert (Hdm : k0 = W * (k0 / W) + k0 mod W) by (apply Z.div_mod; lia).
  assert (Hmod : 0 <= k0 mod W < W) by (apply Z.mod_pos_bound; lia).
  assert (Hdiv : 0 <= k0 / W <= len / W).
  { split; [apply Z.div_pos; lia | apply Z.div_le_mono; lia]. }
  assert (Hlane0 : lane_sum zero add W len term (k0 mod W) = x).
  { apply (lane_sum_single W len term (k0 mod W) (k0 / W) x H0l).
    - lia.
    - replace (k0 / W * W + k0 mod W) with k0 by lia. exact Hx.
    - intros start Hs Hne. apply Hnone; nia. }
  rewrite (tree_sum_single n H0l H0r _ (k0 mod W) Hmod).
  - exact Hlane0.
  - intros lane Hl Hne. apply lane_sum_none.
    intros start Hs. apply Hnone; [nia |].
    intros He. apply Hne.
    assert (Hm : (start * W + lane) mod W = k0 mod W) by (rewrite He; reflexivity).
    rewrite Z.add_comm, Z.mod_add, Z.mod_small in Hm by lia. exact Hm.
Qed.

End Trees.

(** Sums in the order of a window commute with a map that respects the
    addition: the components of a sum are the sums of the components. *)
Section TreeMaps.
Context {T U : Type}.
Variable zero : T.
Variable add : T -> T -> T.
Variable zero' : U.
Variable add' : U -> U -> U.
Variable h : T -> U.
Hypothesis h_zero : h zero = zero'.
Hypothesis h_add : forall x y, h (add x y) = add' (h x) (h y).

Lemma tree_sum_map (n : nat) :
  forall v : Z -> T, h (tree_sum add n v) = tree_sum add' n (fun i => h (v i)).
Proof.
  induction n as [| n IH]; intros v.
  - reflexivity.
  - cbn [tree_sum]. rewrite IH. apply tree_sum_ext. intros i _. apply h_add.
Qed.

Lemma lane_sum_map (W len : Z) (term : Z -> option T) (lane : Z) :
  h (lane_sum zero add W len term lane)
  = lane_sum zero' add' W len (fun k => option_map h (term k)) lane.
Proof.
  unfold lane_sum.
  apply (for_each_rel (fun x y => h x = y)); [exact h_zero |].
  intros i x y _ <-. destruct (term (i * W + lane)); simpl; [apply h_add | reflexivity].
Qed.

Lemma window_sum_map (n : nat) (len : Z) (term : Z -> option T) :
  h (window_sum zero add n len term)
  = window_sum zero' add' n len (fun k => option_map h (term k)).
Proof.
  unfold window_sum. rewrite tree_sum_map. apply tree_sum_ext.
  intros lane _. apply lane_sum_map.
Qed.

End TreeMaps.

(* ================================================================== *)
(** * Facts about the sliding-window kernels *)
(* ================================================================== *)

Module ReducerFacts.
Import Reducer.

Section Generic.
Context {S : ScalarOps} {A G C O : Type}.
Variable K : KernelBody A G.
Variable a : RigidArgs.
Variable l : Launch.
Variable j : Z.
Hypothesis Hcfg : launch_ok a l j.
Variable cell : G -> Z -> C.
Variable out : G -> Z -> O.
Variables okp okc : Z -> Prop.
Variable contrib : Z -> Scalar4 -> Z -> Z -> C -> A.
Variable pub : A -> O.
Hypothesis HL : KernelLaws K cell out okp okc contrib pub.
Hypothesis H00 : acc_add K (acc_zero K) (acc_zero K) = acc_zero K.
Hypothesis HS : SumLaws K.

Local Abbreviation W := (2 ^ j).
Local Abbreviation nb := (n_bodies_per_block a).

Lemma cfg_W_pos : 0 < W.
Proof. destruct Hcfg as [Hj _]. apply Z.pow_pos_nonneg; lia. Qed.

Lemma cfg_window : blockDim l / nb = W.
Proof.
  destruct Hcfg as (_ & _ & _ & Hnb & HB & _). rewrite HB.
  rewrite Z.mul_comm. apply Z.div_mul. lia.
Qed.

Lemma cfg_lane (tid : Z) : Z.land tid (thread_mask l) = tid mod W.
Proof.
  destruct Hcfg as (Hj & _ & Hm & _). rewrite Hm. apply land_mask_mod. exact Hj.
Qed.

Lemma cfg_thread_window (tid : Z) :
  0 <= tid < blockDim l -> 0 <= tid / W < nb.
Proof.
  intros Ht. pose proof cfg_W_pos as HW.
  destruct Hcfg as (_ & _ & _ & Hnb & HB & _).
  split.
  - apply Z.div_pos; lia.
  - apply Z.div_lt_upper_bound; lia.
Qed.

Lemma cfg_group_idx (b m : Z) :
  0 <= b < gridDim l -> 0 <= m < nb ->
  u32 (b * nb + m) = b * nb + m.
Proof.
  intros Hb Hm.
  destruct Hcfg as (_ & _ & _ & Hnb & _ & _ & Hn & Hle & Hg).
  apply u32_small.
  assert (Hq : nb * (n_mol a / nb) <= n_mol a) by (apply Z.mul_div_le; lia).
  nia.
Qed.

(** A first thread of a window: [tid = m * W]. *)
Lemma cfg_lane0 (tid : Z) :
  0 <= tid -> tid mod W = 0 -> tid = (tid / W) * W.
Proof.
  intros Ht H0. pose proof cfg_W_pos as HW.
  pose proof (Z.div_mod tid W ltac:(lia)) as Hdm. lia.
Qed.

(* ------------------------------------------------------------------ *)
(** ** Set-up phase *)

Lemma setup_ready (b : Z) (sh0 : BodyShared) :
  0 <= b < gridDim l ->
  shared_ready a b (for_each (blockDim l) (setup_thread a l b) sh0).
Proof.
  intros Hb. pose proof cfg_W_pos as HW.
  assert (HB : 0 <= blockDim l).
  { destruct Hcfg as (_ & _ & _ & Hnb & HB & _). rewrite HB. nia. }
  set (P := fun (i : Z) (sh : BodyShared) =>
    forall m, 0 <= m < nb -> m * W < i ->
      let g := b * nb + m in
      (g < n_mol a ->
         mol_idx sh m = g /\ central_idx sh m = central a g /\
         body_type sh m = btype a g /\ body_orientation sh m = borient a g) /\
      (n_mol a <= g -> mol_idx sh m = NO_BODY)).
  assert (HP : P (blockDim l) (for_each (blockDim l) (setup_thread a l b) sh0)).
  { apply for_each_ind; [exact HB | | ].
    - intros m Hm Hlt. nia.
    - intros i sh Hi IH m Hm Hlt.
      unfold setup_thread. rewrite cfg_window, cfg_lane.
      destruct (Z.eqb_spec (i mod W) 0) as [Hl0 | Hl0].
      + pose proof (cfg_lane0 i ltac:(lia) Hl0) as Hi0.
        pose proof (cfg_thread_window i Hi) as Hmi.
        rewrite (cfg_group_idx b (i / W) Hb Hmi).
        destruct (Z.eq_dec m (i / W)) as [-> | Hne].
        * destruct (Z.ltb_spec (b * nb + i / W) (n_mol a)) as [Hlt' | Hge]; simpl.
          -- rewrite !upd_same. split; [intros _ | lia].
             unfold central, member, btype, borient, central, member. auto.
          -- rewrite upd_same. split; [lia | intros _; reflexivity].
        * assert (Hm' : m * W < i) by nia.
          specialize (IH m Hm Hm').
          destruct (Z.ltb_spec (b * nb + i / W) (n_mol a)); simpl;
            rewrite ?upd_other by exact Hne; exact IH.
      + assert (Hm' : m * W < i).
        { destruct (Z.eq_dec (m * W) i) as [He | Hne]; [| lia].
          exfalso. apply Hl0. rewrite <- He. apply Z.mod_mul. lia. }
        exact (IH m Hm Hm'). }
  intros m Hm. apply HP; [exact Hm |].
  destruct Hcfg as (_ & _ & _ & Hnb & HBe & _). rewrite HBe. nia.
Qed.

(* ------------------------------------------------------------------ *)
(** ** Tree reduction *)

Lemma kadd_comm x y : acc_add K x y = acc_add K y x.
Proof. exact (law_add_comm HS x y). Qed.

Lemma kadd_assoc x y z : acc_add K x (acc_add K y z) = acc_add K (acc_add K x y) z.
Proof. exact (law_add_assoc HS x y z). Qed.

Lemma kadd_0_l x : acc_add K (acc_zero K) x = x.
Proof. exact (law_add_0_l HS x). Qed.

Local Abbreviation zsum n f := (msum (acc_zero K) (acc_add K) (map f (zrange n))).

Lemma reduce_round_spec (o : Z) (scratch : Z -> A) (tid : Z) :
  0 < o <= W ->
  for_each (blockDim l) (reduce_thread K l o) scratch tid
  = if (0 <=? tid) && (tid <? blockDim l) && (tid mod W <? o)
    then acc_add K (scratch tid) (scratch (tid + o))
    else scratch tid.
Proof.
  intros Ho. pose proof cfg_W_pos as HW.
  assert (HB : 0 <= blockDim l /\ blockDim l < 2 ^ 31 /\ W <= blockDim l).
  { destruct Hcfg as (_ & _ & _ & Hnb & HB & HB' & _). rewrite HB in *. nia. }
  set (P := fun (i : Z) (s : Z -> A) =>
    forall t, s t = if (0 <=? t) && (t <? i) && (t mod W <? o)
                    then acc_add K (scratch t) (scratch (t + o))
                    else scratch t).
  assert (HP : P (blockDim l) (for_each (blockDim l) (reduce_thread K l o) scratch)).
  { apply for_each_ind; [lia | | ].
    - intros t. destruct (0 <=? t) eqn:E1; simpl; [| reflexivity].
      destruct (Z.ltb_spec t 0); [lia | reflexivity].
    - intros i s Hi IH t. unfold reduce_thread. rewrite cfg_lane.
      assert (Hu : u32 (i + o) = i + o) by (apply u32_small; lia).
      destruct (Z.eq_dec t i) as [-> | Hne].
      + replace ((0 <=? i) && (i <? i + 1)) with true
          by (symmetry; apply andb_true_iff; split; [apply Z.leb_le | apply Z.ltb_lt]; lia).
        simpl. destruct (Z.ltb_spec (i mod W) o) as [Hlt | Hge].
        * rewrite upd_same, Hu, (IH i), (IH (i + o)).
          replace (i <? i) with false by (symmetry; apply Z.ltb_ge; lia).
          replace (i + o <? i) with false by (symmetry; apply Z.ltb_ge; lia).
          rewrite !andb_false_r. reflexivity.
        * rewrite (IH i).
          replace (i <? i) with false by (symmetry; apply Z.ltb_ge; lia).
          rewrite !andb_false_r. reflexivity.
      + assert (Hs : (if i mod W <? o
                      then upd s i (acc_add K (s i) (s (u32 (i + o)))) else s) t = s t).
        { destruct (i mod W <? o); [apply upd_other; exact Hne | reflexivity]. }
        rewrite Hs, (IH t).
        replace (t <? i + 1) with (t <? i); [reflexivity |].
        destruct (Z.ltb_spec t i), (Z.ltb_spec t (i + 1)); lia || reflexivity. }
  apply HP.
Qed.

(** The rounds combine the lanes of a window as [tree_sum] does. *)
Lemma reduce_rounds_tree (n : nat) :
  forall (fuel : nat) (scratch : Z -> A) (m : Z),
    (n < fuel)%nat -> 0 <= m < nb -> 2 * 2 ^ Z.of_nat n <= W ->
    reduce_rounds K l fuel (2 ^ Z.of_nat n) scratch (m * W)
    = tree_sum (acc_add K) (Datatypes.S n) (fun i => scratch (m * W + i)).
Proof.
  pose proof cfg_W_pos as HW.
  assert (HB : blockDim l = nb * W) by (destruct Hcfg as (_ & _ & _ & _ & HB & _); exact HB).
  induction n as [| n IH]; intros fuel scratch m Hf Hm Hle.
  - destruct fuel as [| fuel]; [lia |]. simpl reduce_rounds.
    change (2 ^ Z.of_nat 0) with 1 in *. simpl (0 <? 1).
    change (Z.shiftr 1 1) with 0.
    assert (Hend : forall s, reduce_rounds K l fuel 0 s = s).
    { intros s. destruct fuel; reflexivity. }
    rewrite Hend, reduce_round_spec by lia.
    rewrite Z.mod_mul by lia.
    replace ((0 <=? m * W) && (m * W <? blockDim l)) with true
      by (symmetry; apply andb_true_iff; split; [apply Z.leb_le | apply Z.ltb_lt]; nia).
    change (0 <? 1) with true. cbn [andb].
    rewrite tree_sum_succ. cbn [tree_sum]. change (2 ^ Z.of_nat 0) with 1.
    rewrite Z.add_0_r. reflexivity.
  - destruct fuel as [| fuel]; [lia |].
    set (o := 2 ^ Z.of_nat (Datatypes.S n)) in *.
    assert (Ho : o = 2 * 2 ^ Z.of_nat n) by apply pow2_succ.
    assert (Hpos : 0 < 2 ^ Z.of_nat n) by apply pow2_pos.
    simpl reduce_rounds.
    replace (0 <? o) with true by (symmetry; apply Z.ltb_lt; lia).
    replace (Z.shiftr o 1) with (2 ^ Z.of_nat n).
    2:{ rewrite Z.shiftr_div_pow2 by lia. change (2 ^ 1) with 2.
        rewrite Ho, Z.mul_comm, Z.div_mul by lia. reflexivity. }
    rewrite IH by lia.
    rewrite (tree_sum_succ (acc_add K) (Datatypes.S n)). fold o.
    apply tree_sum_ext. intros i Hi. fold o in Hi.
    rewrite reduce_round_spec by lia.
    replace ((m * W + i) mod W) with i.
    2:{ rewrite Z.add_comm, Z.mod_add by lia. symmetry. apply Z.mod_small. lia. }
    replace ((0 <=? m * W + i) && (m * W + i <? blockDim l) && (i <? o)) with true.
    2:{ symmetry. rewrite !andb_true_iff. repeat split;
        [apply Z.leb_le | apply Z.ltb_lt | apply Z.ltb_lt]; nia. }
    rewrite Z.add_assoc. reflexivity.
Qed.

(** After the rounds the first slot of each window holds the lanes of the
    window, combined in the order of [tree_sum]. *)
Lemma reduce_tree (scratch : Z -> A) (m : Z) :
  0 <= m < nb ->
  reduce_rounds K l 32 (Z.shiftr (window_size l) 1) scratch (m * W)
  = tree_sum (acc_add K) (Z.to_nat j) (fun lane => scratch (m * W + lane)).
Proof.
  intros Hm. pose proof cfg_W_pos as HW.
  destruct Hcfg as (Hj & Hw & _ & Hnb & HB & HB31 & _).
  rewrite Hw.
  destruct (Z.eq_dec j 0) as [-> | Hj0].
  - change (2 ^ 0) with 1. change (Z.shiftr 1 1) with 0. simpl.
    rewrite Z.add_0_r. reflexivity.
  - assert (Hj31 : j < 31).
    { apply (Z.pow_lt_mono_r_iff 2); [lia | lia | nia]. }
    replace (Z.shiftr W 1) with (2 ^ Z.of_nat (Z.to_nat (j - 1))).
    2:{ rewrite Z.shiftr_div_pow2 by lia. change (2 ^ 1) with 2.
        rewrite Z2Nat.id by lia.
        replace j with (Z.succ (j - 1)) at 2 by lia.
        rewrite Z.pow_succ_r by lia.
        rewrite Z.mul_comm, Z.div_mul by lia. reflexivity. }
    assert (H2 : 2 * 2 ^ Z.of_nat (Z.to_nat (j - 1)) = W).
    { rewrite Z2Nat.id by lia.
      replace j with (Z.succ (j - 1)) at 2 by lia.
      rewrite Z.pow_succ_r by lia. reflexivity. }
    replace (Z.to_nat j) with (Datatypes.S (Z.to_nat (j - 1))) by lia.
    apply reduce_rounds_tree; [lia | exact Hm | lia].
Qed.

(** A window whose lanes all hold [acc_zero] ends with [empty_total]. *)
Lemma reduce_tree_empty (scratch : Z -> A) (m : Z) :
  0 <= m < nb ->
  (forall lane, 0 <= lane < W -> scratch (m * W + lane) = acc_zero K) ->
  reduce_rounds K l 32 (Z.shiftr (window_size l) 1) scratch (m * W)
  = empty_total K (Z.to_nat j).
Proof.
  intros Hm Hz. rewrite (reduce_tree scratch m Hm). unfold empty_total.
  apply tree_sum_ext. intros lane Hl. apply Hz.
  destruct Hcfg as (Hj & _). rewrite Z2Nat.id in Hl by exact Hj. exact Hl.
Qed.

Lemma empty_total_zero (n : nat) : empty_total K n = acc_zero K.
Proof.
  unfold empty_total. apply (tree_sum_zero (acc_zero K)); [exact H00 |].
  intros i _. reflexivity.
Qed.

Lemma reduce_rounds_spec (n : nat) :
  forall (fuel : nat) (scratch : Z -> A) (m : Z),
    (n < fuel)%nat -> 0 <= m < nb -> 2 * 2 ^ Z.of_nat n <= W ->
    reduce_rounds K l fuel (2 ^ Z.of_nat n) scratch (m * W)
    = zsum (2 * 2 ^ Z.of_nat n) (fun i => scratch (m * W + i)).
Proof.
  pose proof cfg_W_pos as HW.
  assert (HB : blockDim l = nb * W) by (destruct Hcfg as (_ & _ & _ & _ & HB & _); exact HB).
  induction n as [| n IH]; intros fuel scratch m Hf Hm Hle.
  - destruct fuel as [| fuel]; [lia |]. simpl reduce_rounds.
    change (2 ^ Z.of_nat 0) with 1 in *. simpl (0 <? 1).
    change (Z.shiftr 1 1) with 0.
    assert (Hend : forall s, reduce_rounds K l fuel 0 s = s).
    { intros s. destruct fuel; reflexivity. }
    rewrite Hend, reduce_round_spec by lia.
    rewrite Z.mod_mul by lia.
    replace ((0 <=? m * W) && (m * W <? blockDim l)) with true
      by (symmetry; apply andb_true_iff; split; [apply Z.leb_le | apply Z.ltb_lt]; nia).
    simpl. rewrite Z.add_0_r.
    rewrite (kadd_comm (scratch (m * W + 1))), kadd_0_l. reflexivity.
  - destruct fuel as [| fuel]; [lia |].
    set (o := 2 ^ Z.of_nat (Datatypes.S n)) in *.
    assert (Ho : o = 2 * 2 ^ Z.of_nat n).
    { unfold o. rewrite Nat2Z.inj_succ, Z.pow_succ_r by lia. reflexivity. }
    assert (Hpos : 0 < 2 ^ Z.of_nat n) by (apply Z.pow_pos_nonneg; lia).
    simpl reduce_rounds.
    replace (0 <? o) with true by (symmetry; apply Z.ltb_lt; lia).
    replace (Z.shiftr o 1) with (2 ^ Z.of_nat n).
    2:{ rewrite Z.shiftr_div_pow2 by lia. change (2 ^ 1) with 2.
        rewrite Ho, Z.mul_comm, Z.div_mul by lia. reflexivity. }
    rewrite IH by lia. rewrite <- Ho.
    replace (2 * o) with (o + o) by lia.
    rewrite <- (zsum_halve (acc_zero K) (acc_add K) kadd_comm kadd_assoc kadd_0_l) by lia.
    apply zsum_ext. intros i Hi.
    rewrite reduce_round_spec by lia.
    replace ((m * W + i) mod W) with i.
    2:{ rewrite Z.add_comm, Z.mod_add by lia. symmetry. apply Z.mod_small. lia. }
    replace ((0 <=? m * W + i) && (m * W + i <? blockDim l) && (i <? o)) with true.
    2:{ symmetry. rewrite !andb_true_iff. repeat split;
        [apply Z.leb_le | apply Z.ltb_lt | apply Z.ltb_lt]; nia. }
    rewrite Z.add_assoc. reflexivity.
Qed.

(** After the rounds the first slot of each window holds the sum of the
    window. *)
Lemma reduce_total (scratch : Z -> A) (m : Z) :
  0 <= m < nb ->
  reduce_rounds K l 32 (Z.shiftr (window_size l) 1) scratch (m * W)
  = zsum W (fun lane => scratch (m * W + lane)).
Proof.
  intros Hm. pose proof cfg_W_pos as HW.
  destruct Hcfg as (Hj & Hw & _ & Hnb & HB & HB31 & _).
  rewrite Hw.
  destruct (Z.eq_dec j 0) as [-> | Hj0].
  - change (2 ^ 0) with 1. change (Z.shiftr 1 1) with 0. simpl.
    rewrite Z.add_0_r. rewrite kadd_comm, kadd_0_l. reflexivity.
  - assert (Hj31 : j < 31).
    { apply (Z.pow_lt_mono_r_iff 2); [lia | lia | nia]. }
    replace (Z.shiftr W 1) with (2 ^ Z.of_nat (Z.to_nat (j - 1))).
    2:{ rewrite Z.shiftr_div_pow2 by lia. change (2 ^ 1) with 2.
        rewrite Z2Nat.id by lia.
        replace j with (Z.succ (j - 1)) at 2 by lia.
        rewrite Z.pow_succ_r by lia.
        rewrite Z.mul_comm, Z.div_mul by lia. reflexivity. }
    assert (H2 : 2 * 2 ^ Z.of_nat (Z.to_nat (j - 1)) = W).
    { rewrite Z2Nat.id by lia.
      replace j with (Z.succ (j - 1)) at 2 by lia.
      rewrite Z.pow_succ_r by lia. reflexivity. }
    rewrite reduce_rounds_spec; [rewrite H2; reflexivity | lia | exact Hm | lia].
Qed.

(* ------------------------------------------------------------------ *)
(** ** Gather phase of one thread *)

Lemma kadd_0_r x : acc_add K x (acc_zero K) = x.
Proof. rewrite kadd_comm. apply kadd_0_l. Qed.

Lemma u32_mod_W (z : Z) : u32 z mod W = z mod W.
Proof.
  pose proof cfg_W_pos as HW.
  destruct Hcfg as (Hj & _ & _ & Hnb & HB & HB31 & _).
  assert (Hj32 : j <= 32).
  { destruct (Z_le_gt_dec j 32) as [H | H]; [exact H |].
    assert (2 ^ 32 < W) by (apply Z.pow_lt_mono_r; lia). nia. }
  unfold u32. apply Z.mod_mod_divide.
  exists (2 ^ (32 - j)). rewrite <- Z.pow_add_r by lia. f_equal. lia.
Qed.

(** The index a lane reaches in pass [start] belongs to the lane. *)
Lemma window_index_lane (tid start : Z) :
  u32 (start * W + tid mod W) mod W = tid mod W.
Proof.
  pose proof cfg_W_pos as HW.
  rewrite u32_mod_W, Z.add_comm, Z.mod_add by lia.
  apply Z.mod_mod. lia.
Qed.

(** A thread only visits folded members of its own body that belong to
    its lane: whatever such visits preserve, the thread preserves. *)
Lemma gather_thread_inv (Q : G -> Prop) (sh : BodyShared) (b tid : Z) (g0 : G) :
  shared_ready a b sh ->
  0 <= b < gridDim l -> 0 <= tid < blockDim l ->
  (forall k s g,
      folded a (b * nb + tid / W) k -> k mod W = tid mod W -> Q g ->
      Q (snd (visit K (btype a (b * nb + tid / W)) (borient a (b * nb + tid / W))
                    (member a (b * nb + tid / W) k)
                    (template_slot a (b * nb + tid / W) k) (s, g)))) ->
  Q g0 ->
  Q (snd (gather_thread K a l sh tid g0)).
Proof.
  intros Hsh Hb Ht Hvisit HQ.
  pose proof (cfg_thread_window tid Ht) as Hm.
  unfold gather_thread. rewrite cfg_window.
  destruct (Hsh (tid / W) Hm) as [Hin Hout].
  set (g := b * nb + tid / W) in *.
  destruct (Z_lt_le_dec g (n_mol a)) as [Hlt | Hge].
  - destruct (Hin Hlt) as (Hmi & Hci & Hbt & Hbo).
    rewrite Hmi, Hci.
    destruct (negb (g =? NO_BODY) && (central a g <? N a)) eqn:Hact; [| exact HQ].
    apply andb_true_iff in Hact. destruct Hact as [_ HcN]. apply Z.ltb_lt in HcN.
    assert (Hg0 : 0 <= g).
    { unfold g. destruct Hcfg as (_ & _ & _ & Hnb & _). nia. }
    apply (for_each_inv (fun st => Q (snd st))); [exact HQ |].
    intros start st _ HQst. unfold window_step.
    destruct (Z.ltb_spec (u32 (start * window_size l + Z.land tid (thread_mask l)))
                         (d_molecule_len a g)) as [Hk | Hk]; [| exact HQst].
    rewrite Hmi, Hci, Hbt, Hbo.
    fold (member a g (u32 (start * window_size l + Z.land tid (thread_mask l)))).
    fold (central a g). 
    set (k := u32 (start * window_size l + Z.land tid (thread_mask l))) in *.
    destruct (Z.eqb_spec (member a g k) (central a g)) as [He | Hne]; [exact HQst |].
    simpl negb. cbv iota.
    fold (template_slot a g k).
    destruct st as [s gs]. apply Hvisit; [ | | exact HQst].
    + repeat split; try lia; try assumption. unfold k. apply u32_range.
    + unfold k. destruct Hcfg as (_ & Hw & _). rewrite Hw, cfg_lane.
      apply window_index_lane.
  - rewrite (Hout Hge). simpl. exact HQ.
Qed.

(** A thread of a window whose body does not exist or is not processed
    gathers nothing. *)
Lemma gather_thread_skip (sh : BodyShared) (b tid : Z) (g0 : G) :
  shared_ready a b sh ->
  0 <= b < gridDim l -> 0 <= tid < blockDim l ->
  n_mol a <= b * nb + tid / W \/ N a <= central a (b * nb + tid / W) ->
  gather_thread K a l sh tid g0 = (acc_zero K, g0).
Proof.
  intros Hsh Hb Ht Hskip.
  pose proof (cfg_thread_window tid Ht) as Hm.
  unfold gather_thread. rewrite cfg_window.
  destruct (Hsh (tid / W) Hm) as [Hin Hout].
  destruct (Z_lt_le_dec (b * nb + tid / W) (n_mol a)) as [Hlt | Hge].
  - destruct (Hin Hlt) as (Hmi & Hci & _). rewrite Hci.
    destruct Hskip as [Hs | Hs]; [lia |].
    replace (central a (b * nb + tid / W) <? N a) with false
      by (symmetry; apply Z.ltb_ge; exact Hs).
    rewrite andb_false_r. reflexivity.
  - rewrite (Hout Hge). reflexivity.
Qed.

(** The partial sum of a thread of a processed body, when the cells of
    the members of its lane still hold [cells]. *)
Lemma gather_thread_value (sh : BodyShared) (b tid : Z) (g0 : G) (cells : Z -> C) :
  shared_ready a b sh ->
  0 <= b < gridDim l -> 0 <= tid < blockDim l ->
  processed a (b * nb + tid / W) ->
  body_fits a l (b * nb + tid / W) ->
  members_distinct a ->
  (forall g k, folded a g k -> okp (member a g k)) ->
  (forall k, folded a (b * nb + tid / W) k -> k mod W = tid mod W ->
             cell g0 (member a (b * nb + tid / W) k) = cells (member a (b * nb + tid / W) k)) ->
  fst (gather_thread K a l sh tid g0)
  = zsum (d_molecule_len a (b * nb + tid / W) / W + 1)
         (fun s => window_term K contrib a (b * nb + tid / W) cells (s * W + tid mod W)).
Proof.
  intros Hsh Hb Ht Hproc Hfits Hdist Hokp Hcells.
  pose proof cfg_W_pos as HW.
  pose proof (cfg_thread_window tid Ht) as Hm.
  unfold gather_thread. rewrite cfg_window.
  destruct (Hsh (tid / W) Hm) as [Hin _].
  set (g := b * nb + tid / W) in *.
  destruct Hproc as [Hg HcN].
  destruct (Hin ltac:(lia)) as (Hmi & Hci & Hbt & Hbo).
  rewrite Hmi, Hci.
  replace (g =? NO_BODY) with false.
  2:{ symmetry. apply Z.eqb_neq. unfold NO_BODY.
      destruct Hcfg as (_ & _ & _ & Hnb & _ & _ & _ & Hle & _). lia. }
  replace (central a g <? N a) with true by (symmetry; apply Z.ltb_lt; exact HcN).
  simpl andb. cbv iota.
  destruct Hfits as [Hlen0 Hlen].
  assert (Hw : window_size l = W) by (destruct Hcfg as (_ & Hw & _); exact Hw).
  rewrite Hw in *.
  set (len := d_molecule_len a g) in *.
  set (lane := tid mod W).
  assert (Hlane : 0 <= lane < W) by (apply Z.mod_pos_bound; lia).
  assert (Hdiv : 0 <= len / W) by (apply Z.div_pos; lia).
  assert (Hdm : W * (len / W) <= len) by (apply Z.mul_div_le; lia).
  rewrite (u32_small (len / W + 1)) by nia.
  set (P := fun (s : Z) (st : A * G) =>
    fst st = zsum s (fun s' => window_term K contrib a g cells (s' * W + lane)) /\
    (forall k, folded a g k -> k mod W = lane -> s * W <= k ->
               cell (snd st) (member a g k) = cells (member a g k))).
  assert (HP : P (len / W + 1)
                 (for_each (len / W + 1) (window_step K a l sh tid (tid / W) len)
                           (acc_zero K, g0))).
  { apply for_each_ind; [lia | | ].
    - split; [reflexivity |]. intros k Hk Hkl _. apply Hcells; assumption.
    - intros s [acc gs] Hs [Hacc Hint]. simpl in Hacc, Hint.
      unfold window_step. rewrite Hw, cfg_lane. fold lane.
      rewrite (u32_small (s * W + lane)) by nia.
      rewrite Hmi, Hci, Hbt, Hbo.
      fold (member a g (s * W + lane)). fold (central a g).
      fold (template_slot a g (s * W + lane)).
      unfold P.
      rewrite (zsum_succ (acc_zero K) (acc_add K) kadd_comm kadd_assoc kadd_0_l) by lia.
      unfold window_term at 2. fold len.
      destruct (Z.ltb_spec (s * W + lane) len) as [Hk | Hk]; simpl andb; cbv iota.
      + destruct (Z.eqb_spec (member a g (s * W + lane)) (central a g)) as [He | Hne];
          simpl negb; cbv iota.
        * split; [simpl; rewrite kadd_0_r; exact Hacc |].
          intros k Hf Hkl Hle. apply Hint; [assumption | assumption | lia].
        * assert (Hfs : folded a g (s * W + lane)).
          { repeat split; try assumption; try lia; fold len; lia. }
          split.
          -- rewrite (law_visit_acc HL). simpl in Hacc. rewrite Hacc.
             unfold contribution. f_equal. f_equal.
             apply Hint; [exact Hfs | | lia].
             rewrite Z.add_comm, Z.mod_add by lia. apply Z.mod_small. exact Hlane.
          -- intros k Hf Hkl Hle.
             rewrite (law_visit_cell HL).
             ++ apply Hint; [assumption | assumption | lia].
             ++ apply (Hokp g). exact Hfs.
             ++ apply (Hokp g). exact Hf.
             ++ intros He. destruct (Hdist _ _ _ _ Hf Hfs He) as [_ Hkk]. lia.
      + split; [simpl; rewrite kadd_0_r; exact Hacc |].
        intros k Hf Hkl Hle. apply Hint; [assumption | assumption | lia]. }
  exact (proj1 HP).
Qed.

(* ------------------------------------------------------------------ *)
(** ** One block *)

Local Abbreviation visit_at g k st :=
  (visit K (btype a g) (borient a g) (member a g k) (template_slot a g k) st).

Local Abbreviation gather_phase sh st0 :=
  (for_each (blockDim l)
     (fun tid (st : (Z -> A) * G) =>
        let r := gather_thread K a l sh tid (snd st) in
        (upd (fst st) tid (fst r), snd r))
     st0).

Lemma cfg_blockDim : blockDim l = nb * W.
Proof. destruct Hcfg as (_ & _ & _ & _ & HB & _). exact HB. Qed.

Lemma cfg_nb : 1 <= nb.
Proof. destruct Hcfg as (_ & _ & _ & Hnb & _). exact Hnb. Qed.

Lemma cfg_window_thread (m lane : Z) :
  0 <= m < nb -> 0 <= lane < W ->
  0 <= m * W + lane < blockDim l /\ (m * W + lane) / W = m /\ (m * W + lane) mod W = lane.
Proof.
  intros Hm Hl. rewrite cfg_blockDim. split; [nia |]. split.
  - rewrite Z.add_comm, Z.div_add by lia. rewrite Z.div_small by lia. lia.
  - rewrite Z.add_comm, Z.mod_add by lia. apply Z.mod_small. lia.
Qed.

Lemma cfg_thread_split (tid : Z) :
  0 <= tid < blockDim l -> tid = tid / W * W + tid mod W /\ 0 <= tid mod W < W.
Proof.
  intros Ht. pose proof cfg_W_pos as HW. split.
  - pose proof (Z.div_mod tid W ltac:(lia)). lia.
  - apply Z.mod_pos_bound. lia.
Qed.

(** The gather phase of block [b] only visits folded members of the
    bodies of the block. *)
Lemma gather_phase_inv (Q : G -> Prop) (sh : BodyShared) (b : Z) (st0 : (Z -> A) * G) :
  shared_ready a b sh ->
  0 <= b < gridDim l ->
  (forall m k s g, 0 <= m < nb -> folded a (b * nb + m) k -> Q g ->
                   Q (snd (visit_at (b * nb + m) k (s, g)))) ->
  Q (snd st0) ->
  Q (snd (gather_phase sh st0)).
Proof.
  intros Hsh Hb Hvisit HQ.
  apply (for_each_inv (fun st => Q (snd st))); [exact HQ |].
  intros tid st Ht HQst. simpl.
  apply (gather_thread_inv Q sh b tid (snd st) Hsh Hb Ht); [| exact HQst].
  intros k s g Hf _ HQg. apply Hvisit; [apply cfg_thread_window; exact Ht | exact Hf | exact HQg].
Qed.

(** Threads of a window without a processed body leave [acc_zero] in
    their scratch slot. *)
Lemma gather_phase_skip (sh : BodyShared) (b : Z) (st0 : (Z -> A) * G) (tid : Z) :
  shared_ready a b sh ->
  0 <= b < gridDim l -> 0 <= tid < blockDim l ->
  n_mol a <= b * nb + tid / W \/ N a <= central a (b * nb + tid / W) ->
  fst (gather_phase sh st0) tid = acc_zero K.
Proof.
  intros Hsh Hb Ht Hskip.
  apply (for_each_eventually (fun _ => True) (fun st => fst st tid = acc_zero K)
                             (blockDim l) tid); auto.
  - intros st _. simpl. rewrite upd_same.
    rewrite (gather_thread_skip sh b tid (snd st) Hsh Hb Ht Hskip). reflexivity.
  - intros i st Hi _ HR. simpl.
    destruct (Z.eq_dec tid i) as [<- | Hne].
    + rewrite upd_same.
      rewrite (gather_thread_skip sh b tid (snd st) Hsh Hb Ht Hskip). reflexivity.
    + rewrite upd_other by exact Hne. exact HR.
Qed.

(** The publish phase of block [b] writes, for each existing body of the
    block, the first scratch slot of its window to its central particle. *)
Lemma publish_phase_inv (Q : G -> Prop) (sh : BodyShared) (scratch : Z -> A) (b : Z) (g0 : G) :
  shared_ready a b sh ->
  0 <= b < gridDim l ->
  (forall m g, 0 <= m < nb -> 0 <= b * nb + m < n_mol a -> Q g ->
               Q (publish K (central a (b * nb + m)) (scratch (m * W)) g)) ->
  Q g0 ->
  Q (for_each (blockDim l) (publish_thread K a l sh scratch) g0).
Proof.
  intros Hsh Hb Hpub HQ.
  apply for_each_inv; [exact HQ |].
  intros tid g Ht HQg. unfold publish_thread.
  rewrite cfg_window, cfg_lane.
  pose proof (cfg_thread_window tid Ht) as Hm.
  destruct (Hsh (tid / W) Hm) as [Hin Hout].
  destruct (Z.eqb_spec (tid mod W) 0) as [Hl0 | Hl0]; [| exact HQg].
  destruct (Z_lt_le_dec (b * nb + tid / W) (n_mol a)) as [Hlt | Hge].
  - destruct (Hin Hlt) as (Hmi & Hci & _). rewrite Hci.
    destruct (negb (mol_idx sh (tid / W) =? NO_BODY)); simpl; [| exact HQg].
    rewrite (cfg_lane0 tid ltac:(lia) Hl0) at 2.
    apply Hpub; [exact Hm | | exact HQg].
    pose proof cfg_nb. nia.
  - rewrite (Hout Hge). simpl. exact HQg.
Qed.

(** Whatever is preserved by the visits of folded members and by the
    writes of totals is preserved by a block. *)
Lemma run_block_frame (Q : G -> Prop) (sh0 : BodyShared) (scratch0 : Z -> A) (b : Z) (g0 : G) :
  0 <= b < gridDim l ->
  (forall m k s g, 0 <= m < nb -> folded a (b * nb + m) k -> Q g ->
                   Q (snd (visit_at (b * nb + m) k (s, g)))) ->
  (forall m v g, 0 <= m < nb -> 0 <= b * nb + m < n_mol a ->
                 Q g -> Q (publish K (central a (b * nb + m)) v g)) ->
  Q g0 ->
  Q (run_block K a l sh0 scratch0 b g0).
Proof.
  intros Hb Hvisit Hpub HQ.
  unfold run_block. cbv zeta.
  pose proof (setup_ready b sh0 Hb) as Hsh.
  set (sh := for_each (blockDim l) (setup_thread a l b) sh0) in *.
  apply (publish_phase_inv Q sh _ b _ Hsh Hb).
  - intros m g Hm Hg HQg. apply Hpub; assumption.
  - apply (gather_phase_inv Q sh b _ Hsh Hb Hvisit). exact HQ.
Qed.

(** The same when [0 + 0 = 0], knowing that the total of a body that is
    not processed is [acc_zero]. *)
Lemma run_block_inv (Q : G -> Prop) (sh0 : BodyShared) (scratch0 : Z -> A) (b : Z) (g0 : G) :
  0 <= b < gridDim l ->
  (forall m k s g, 0 <= m < nb -> folded a (b * nb + m) k -> Q g ->
                   Q (snd (visit_at (b * nb + m) k (s, g)))) ->
  (forall m v g, 0 <= m < nb -> 0 <= b * nb + m < n_mol a ->
                 (N a <= central a (b * nb + m) -> v = acc_zero K) ->
                 Q g -> Q (publish K (central a (b * nb + m)) v g)) ->
  Q g0 ->
  Q (run_block K a l sh0 scratch0 b g0).
Proof.
  intros Hb Hvisit Hpub HQ.
  pose proof cfg_W_pos as HW.
  unfold run_block. cbv zeta.
  pose proof (setup_ready b sh0 Hb) as Hsh.
  set (sh := for_each (blockDim l) (setup_thread a l b) sh0) in *.
  apply (publish_phase_inv Q sh _ b _ Hsh Hb).
  - intros m g Hm Hg HQg. apply Hpub; [exact Hm | exact Hg | | exact HQg].
    intros Hc. rewrite (reduce_tree_empty _ m Hm); [apply empty_total_zero |].
    intros lane Hl.
    destruct (cfg_window_thread m lane Hm Hl) as (Ht & Hdiv & _).
    apply (gather_phase_skip sh b _ _ Hsh Hb Ht).
    right. rewrite Hdiv. exact Hc.
  - apply (gather_phase_inv Q sh b _ Hsh Hb Hvisit). exact HQ.
Qed.

(** Lane by lane and pass by pass, a window sums the contributions of
    the constituents of its body. *)
Lemma window_total (g : Z) (cells : Z -> C) :
  0 <= d_molecule_len a g ->
  zsum W (fun lane =>
            zsum (d_molecule_len a g / W + 1)
                 (fun s => window_term K contrib a g cells (s * W + lane)))
  = body_total K contrib a g cells.
Proof.
  intros Hlen. pose proof cfg_W_pos as HW.
  set (len := d_molecule_len a g) in *.
  assert (Hdiv : 0 <= len / W) by (apply Z.div_pos; lia).
  assert (Hdm : len = W * (len / W) + len mod W) by (apply Z.div_mod; lia).
  assert (Hmod : 0 <= len mod W < W) by (apply Z.mod_pos_bound; lia).
  rewrite (zsum_strided (acc_zero K) (acc_add K) kadd_comm kadd_assoc kadd_0_l) by lia.
  replace ((len / W + 1) * W) with (len + (W - len mod W)) by lia.
  rewrite (zsum_split (acc_zero K) (acc_add K) kadd_comm kadd_assoc kadd_0_l) by lia.
  rewrite (zsum_zero (acc_zero K) (acc_add K) kadd_0_l (W - len mod W)).
  2:{ intros i Hi. unfold window_term. fold len.
      replace (len + i <? len) with false by (symmetry; apply Z.ltb_ge; lia).
      reflexivity. }
  rewrite kadd_0_r.
  unfold body_total, constituents. fold len.
  rewrite (msum_filter (acc_zero K) (acc_add K) kadd_0_l).
  apply zsum_ext. intros i Hi. unfold window_term. fold len.
  replace (i <? len) with true by (symmetry; apply Z.ltb_lt; lia).
  reflexivity.
Qed.

(** The block that holds a processed body writes the total of the body
    to the output slot of its central particle. *)
Lemma run_block_value (sh0 : BodyShared) (scratch0 : Z -> A) (b m : Z) (g0 : G)
      (cells : Z -> C) :
  0 <= b < gridDim l -> 0 <= m < nb ->
  processed a (b * nb + m) ->
  body_fits a l (b * nb + m) ->
  members_distinct a ->
  centrals_distinct a ->
  (forall g k, folded a g k -> okp (member a g k)) ->
  (forall g, 0 <= g < n_mol a -> okc (central a g)) ->
  (forall k, folded a (b * nb + m) k ->
             cell g0 (member a (b * nb + m) k) = cells (member a (b * nb + m) k)) ->
  out (run_block K a l sh0 scratch0 b g0) (central a (b * nb + m))
  = pub (body_total K contrib a (b * nb + m) cells).
Proof.
  intros Hb Hm Hproc Hfits Hdist Hcen Hokp Hokc Hcells.
  pose proof cfg_W_pos as HW. pose proof cfg_nb as Hnb.
  unfold run_block. cbv zeta.
  pose proof (setup_ready b sh0 Hb) as Hsh.
  set (sh := for_each (blockDim l) (setup_thread a l b) sh0) in *.
  set (gs := b * nb + m) in *.
  set (partial := fun lane =>
    zsum (d_molecule_len a gs / W + 1)
         (fun s => window_term K contrib a gs cells (s * W + lane))).
  (* gather phase *)
  assert (Hgather : forall lane, 0 <= lane < W ->
            fst (gather_phase sh (scratch0, g0)) (m * W + lane) = partial lane).
  { set (P := fun (i : Z) (st : (Z -> A) * G) =>
      (forall k, folded a gs k -> i <= m * W + k mod W ->
                 cell (snd st) (member a gs k) = cells (member a gs k)) /\
      (forall lane, 0 <= lane < W -> m * W + lane < i ->
                    fst st (m * W + lane) = partial lane)).
    assert (HP : P (blockDim l) (gather_phase sh (scratch0, g0))).
    { apply for_each_ind.
      - rewrite cfg_blockDim. nia.
      - split; [intros k Hk _; apply Hcells; exact Hk | intros lane Hl Hlt; nia].
      - intros i [scr gm] Hi [Hint Hscr]. simpl in Hint, Hscr. unfold P. simpl.
        destruct (cfg_thread_split i Hi) as [Hsplit Hlane].
        pose proof (cfg_thread_window i Hi) as Hmi.
        split.
        + intros k Hk Hle.
          apply (gather_thread_inv
                   (fun g => cell g (member a gs k) = cells (member a gs k))
                   sh b i gm Hsh Hb Hi).
          * intros k' s g Hk' Hkl HQ.
            rewrite (law_visit_cell HL); [exact HQ | | | ].
            -- apply (Hokp _ _ Hk').
            -- apply (Hokp _ _ Hk).
            -- intros He. destruct (Hdist _ _ _ _ Hk Hk' He) as [Hg Hkk].
               assert (m = i / W) by (unfold gs in Hg; nia).
               subst k'. nia.
          * apply Hint; [exact Hk | lia].
        + intros lane Hl Hlt.
          destruct (Z.eq_dec (m * W + lane) i) as [He | Hne].
          * rewrite He, upd_same.
            destruct (cfg_window_thread m lane Hm Hl) as (_ & Hdiv & Hmod).
            rewrite He in Hdiv, Hmod.
            rewrite (gather_thread_value sh b i gm cells Hsh Hb Hi);
              rewrite ?Hdiv, ?Hmod; try assumption.
            -- reflexivity.
            -- intros k Hk Hkl. apply Hint; [exact Hk | lia].
          * rewrite upd_other by exact Hne. apply Hscr; [exact Hl | lia]. }
    intros lane Hl. apply (proj2 HP); [exact Hl |].
    rewrite cfg_blockDim. nia. }
  (* reduction *)
  set (scr := reduce_rounds K l 32 (Z.shiftr (window_size l) 1)
                            (fst (gather_phase sh (scratch0, g0)))).
  assert (Htot : scr (m * W) = body_total K contrib a gs cells).
  { unfold scr. rewrite (reduce_total _ m Hm).
    rewrite <- (window_total gs cells) by (destruct Hfits; assumption).
    apply zsum_ext. intros lane Hl. apply Hgather. exact Hl. }
  (* publish phase *)
  destruct (Hsh m Hm) as [Hin _]. destruct Hproc as [Hg HcN]. fold gs in Hin.
  destruct (Hin ltac:(lia)) as (Hmi & Hci & _).
  assert (HmW : 0 <= m * W < blockDim l) by (rewrite cfg_blockDim; nia).
  apply (for_each_eventually (fun _ => True)
           (fun g => out g (central a gs) = pub (body_total K contrib a gs cells))
           (blockDim l) (m * W)); auto.
  - intros g _. unfold publish_thread. rewrite cfg_window, cfg_lane.
    rewrite Z.mod_mul, Z.div_mul by lia. rewrite Hmi, Hci.
    replace (gs =? NO_BODY) with false.
    2:{ symmetry. apply Z.eqb_neq. unfold NO_BODY.
        destruct Hcfg as (_ & _ & _ & _ & _ & _ & _ & Hle & _). lia. }
    simpl. rewrite (law_publish_out HL), Htot; [reflexivity | apply Hokc; lia].
  - intros i g Hi _ HR.
    destruct (Z.eq_dec i (m * W)) as [-> | Hne].
    + unfold publish_thread. rewrite cfg_window, cfg_lane.
      rewrite Z.mod_mul, Z.div_mul by lia. rewrite Hmi, Hci.
      destruct (negb (gs =? NO_BODY)); simpl; [| exact HR].
      rewrite (law_publish_out HL), Htot; [reflexivity | apply Hokc; lia].
    + unfold publish_thread. rewrite cfg_window, cfg_lane.
      pose proof (cfg_thread_window i Hi) as Hmi'.
      destruct (Hsh (i / W) Hmi') as [Hin' Hout'].
      destruct (Z.eqb_spec (i mod W) 0) as [Hl0 | Hl0]; [| exact HR].
      destruct (Z_lt_le_dec (b * nb + i / W) (n_mol a)) as [Hlt | Hge].
      * destruct (Hin' Hlt) as (_ & Hci' & _). rewrite Hci'.
        destruct (negb (mol_idx sh (i / W) =? NO_BODY)); simpl; [| exact HR].
        rewrite (law_publish_out_other HL); [exact HR | | | ].
        -- apply Hokc. nia.
        -- apply Hokc. lia.
        -- intros He. apply Hcen in He; [| lia | nia].
           pose proof (cfg_lane0 i ltac:(lia) Hl0). unfold gs in He. nia.
      * rewrite (Hout' Hge). simpl. exact HR.
Qed.

(* ------------------------------------------------------------------ *)
(** ** The grid *)

Lemma cfg_gridDim : gridDim l = n_mol a / nb + 1.
Proof. destruct Hcfg as (_ & _ & _ & _ & _ & _ & _ & _ & Hg). exact Hg. Qed.

(** Every existing body [g] is window [g mod nb] of block [g / nb]. *)
Lemma cfg_body_block (g : Z) :
  0 <= g < n_mol a ->
  0 <= g / nb < gridDim l /\ 0 <= g mod nb < nb /\ g = g / nb * nb + g mod nb.
Proof.
  intros Hg. pose proof cfg_nb as Hnb. rewrite cfg_gridDim.
  repeat split.
  - apply Z.div_pos; lia.
  - assert (g / nb <= n_mol a / nb) by (apply Z.div_le_mono; lia). lia.
  - apply Z.mod_pos_bound. lia.
  - apply Z.mod_pos_bound. lia.
  - pose proof (Z.div_mod g nb ltac:(lia)). lia.
Qed.

(** The kernel is a sequence of visits of folded members and of writes of
    totals to central particles: whatever these preserve, it preserves. *)
Lemma run_grid_frame (Q : G -> Prop) (sh0 : Z -> BodyShared) (scratch0 : Z -> Z -> A) (g0 : G) :
  (forall g k s gm, folded a g k -> Q gm -> Q (snd (visit_at g k (s, gm)))) ->
  (forall g v gm, 0 <= g < n_mol a -> Q gm -> Q (publish K (central a g) v gm)) ->
  Q g0 ->
  Q (run_grid K a l sh0 scratch0 g0).
Proof.
  intros Hvisit Hpub HQ. unfold run_grid.
  apply for_each_inv; [exact HQ |].
  intros b g Hb HQg. apply run_block_frame; [exact Hb | | | exact HQg].
  - intros m k s gm _ Hf HQm. apply Hvisit; assumption.
  - intros m v gm Hm Hg HQm. apply Hpub; assumption.
Qed.

Lemma run_grid_inv (Q : G -> Prop) (sh0 : Z -> BodyShared) (scratch0 : Z -> Z -> A) (g0 : G) :
  (forall g k s gm, folded a g k -> Q gm -> Q (snd (visit_at g k (s, gm)))) ->
  (forall g v gm, 0 <= g < n_mol a -> (N a <= central a g -> v = acc_zero K) ->
                  Q gm -> Q (publish K (central a g) v gm)) ->
  Q g0 ->
  Q (run_grid K a l sh0 scratch0 g0).
Proof.
  intros Hvisit Hpub HQ. unfold run_grid.
  apply for_each_inv; [exact HQ |].
  intros b g Hb HQg. apply run_block_inv; [exact Hb | | | exact HQg].
  - intros m k s gm _ Hf HQm. apply Hvisit; assumption.
  - intros m v gm Hm Hg Hv HQm. apply Hpub; assumption.
Qed.

(** The output slot of the central particle of a processed body receives
    the total of the body, computed from the cells the pass started with. *)
Lemma run_grid_value (sh0 : Z -> BodyShared) (scratch0 : Z -> Z -> A) (g : Z) (g0 : G) :
  processed a g ->
  body_fits a l g ->
  members_distinct a ->
  centrals_distinct a ->
  (forall g' k, folded a g' k -> okp (member a g' k)) ->
  (forall g', 0 <= g' < n_mol a -> okc (central a g')) ->
  out (run_grid K a l sh0 scratch0 g0) (central a g)
  = pub (body_total K contrib a g (cell g0)).
Proof.
  intros Hproc Hfits Hdist Hcen Hokp Hokc.
  pose proof cfg_nb as Hnb.
  destruct (cfg_body_block g (proj1 Hproc)) as (Hb & Hm & Hg).
  set (bs := g / nb) in *. set (ms := g mod nb) in *.
  set (P := fun (i : Z) (gm : G) =>
    (i <= bs -> forall k, folded a g k -> cell gm (member a g k) = cell g0 (member a g k)) /\
    (bs < i -> out gm (central a g) = pub (body_total K contrib a g (cell g0)))).
  assert (HP : P (gridDim l) (run_grid K a l sh0 scratch0 g0)).
  { unfold run_grid. apply for_each_ind; [lia | | ].
    - split; [intros _ k _; reflexivity | lia].
    - intros i gm Hi [Hint Hout]. split.
      + intros Hle k Hk.
        apply (run_block_frame
                 (fun gm' => cell gm' (member a g k) = cell g0 (member a g k))).
        * exact Hi.
        * intros m k' s gm' Hm' Hk' HQ.
          rewrite (law_visit_cell HL); [exact HQ | | | ].
          -- apply (Hokp _ _ Hk').
          -- apply (Hokp _ _ Hk).
          -- intros He. destruct (Hdist _ _ _ _ Hk Hk' He) as [Hgg _]. nia.
        * intros m v gm' _ _ HQ. rewrite (law_publish_cell HL). exact HQ.
        * apply Hint; [lia | exact Hk].
      + intros Hlt. destruct (Z.eq_dec i bs) as [-> | Hne].
        * rewrite Hg at 1 2.
          rewrite (run_block_value (sh0 bs) (scratch0 bs) bs ms gm (cell g0));
            rewrite <- ?Hg; try assumption; try reflexivity.
          intros k Hk. apply Hint; [lia | exact Hk].
        * apply (run_block_frame
                   (fun gm' => out gm' (central a g)
                               = pub (body_total K contrib a g (cell g0)))).
          -- exact Hi.
          -- intros m k' s gm' _ _ HQ. rewrite (law_visit_out HL). exact HQ.
          -- intros m v gm' Hm' Hg' HQ.
             rewrite (law_publish_out_other HL); [exact HQ | | | ].
             ++ apply Hokc. exact Hg'.
             ++ apply Hokc. exact (proj1 Hproc).
             ++ intros He. apply Hcen in He; [| exact (proj1 Hproc) | exact Hg']. nia.
          -- apply Hout. lia. }
  apply (proj2 HP). lia.
Qed.

(** Every folded member is visited: what its visit establishes and all
    later steps keep holds when the kernel ends. *)
Lemma gather_thread_reaches (R : G -> Prop) (sh : BodyShared) (b tid k : Z) (g0 : G) :
  shared_ready a b sh ->
  0 <= b < gridDim l -> 0 <= tid < blockDim l ->
  folded a (b * nb + tid / W) k -> k mod W = tid mod W ->
  body_fits a l (b * nb + tid / W) ->
  (forall s gm, R (snd (visit_at (b * nb + tid / W) k (s, gm)))) ->
  (forall k' s gm, folded a (b * nb + tid / W) k' -> R gm ->
                   R (snd (visit_at (b * nb + tid / W) k' (s, gm)))) ->
  R (snd (gather_thread K a l sh tid g0)).
Proof.
  intros Hsh Hb Ht Hf Hkl Hfits Hest Hkeep.
  pose proof cfg_W_pos as HW.
  pose proof (cfg_thread_window tid Ht) as Hm.
  unfold gather_thread. rewrite cfg_window.
  destruct (Hsh (tid / W) Hm) as [Hin _].
  set (g := b * nb + tid / W) in *.
  destruct Hf as ([Hg HcN] & Hk & Hnc).
  destruct (Hin ltac:(lia)) as (Hmi & Hci & Hbt & Hbo).
  rewrite Hmi, Hci.
  replace (g =? NO_BODY) with false.
  2:{ symmetry. apply Z.eqb_neq. unfold NO_BODY.
      destruct Hcfg as (_ & _ & _ & Hnb & _ & _ & _ & Hle & _). lia. }
  replace (central a g <? N a) with true by (symmetry; apply Z.ltb_lt; exact HcN).
  simpl andb. cbv iota.
  destruct Hfits as [Hlen0 Hlen].
  assert (Hw : window_size l = W) by (destruct Hcfg as (_ & Hw & _); exact Hw).
  rewrite Hw in *.
  set (len := d_molecule_len a g) in *.
  assert (Hdiv : 0 <= len / W) by (apply Z.div_pos; lia).
  assert (Hdm : W * (len / W) <= len) by (apply Z.mul_div_le; lia).
  assert (Hkdm : k = W * (k / W) + k mod W) by (apply Z.div_mod; lia).
  assert (Hkmod : 0 <= k mod W < W) by (apply Z.mod_pos_bound; lia).
  assert (Hkdiv : 0 <= k / W <= len / W).
  { split; [apply Z.div_pos; lia | apply Z.div_le_mono; lia]. }
  rewrite (u32_small (len / W + 1)) by nia.
  assert (Hstep : forall start st,
            snd (window_step K a l sh tid (tid / W) len start st) = snd st \/
            exists k' s, folded a g k' /\
              snd (window_step K a l sh tid (tid / W) len start st)
              = snd (visit_at g k' (s, snd st))).
  { intros start [s gm]. unfold window_step. rewrite Hmi, Hci, Hbt, Hbo.
    set (k' := u32 (start * window_size l + Z.land tid (thread_mask l))).
    fold (member a g k'). fold (central a g). fold (template_slot a g k').
    destruct (Z.ltb_spec k' len) as [Hk' | Hk']; [| left; reflexivity].
    destruct (Z.eqb_spec (member a g k') (central a g)) as [He | Hne];
      [left; reflexivity |].
    right. exists k', s. split; [| reflexivity].
    repeat split; try assumption; try lia. unfold k'. apply u32_range. }
  apply (for_each_eventually (fun _ => True) (fun st => R (snd st))
                             (len / W + 1) (k / W)); auto; [lia | | ].
  - intros [s gm] _. unfold window_step. rewrite Hw, cfg_lane, <- Hkl.
    replace (k / W * W + k mod W) with k by lia.
    rewrite (u32_small k) by lia.
    rewrite Hmi, Hci, Hbt, Hbo.
    fold (member a g k). fold (central a g). fold (template_slot a g k).
    replace (k <? len) with true by (symmetry; apply Z.ltb_lt; lia).
    replace (member a g k =? central a g) with false
      by (symmetry; apply Z.eqb_neq; exact Hnc).
    simpl. apply Hest.
  - intros start st _ _ HR.
    destruct (Hstep start st) as [-> | (k' & s & Hf' & ->)]; [exact HR |].
    apply Hkeep; assumption.
Qed.

Lemma run_block_reaches (R : G -> Prop) (sh0 : BodyShared) (scratch0 : Z -> A)
      (b m k : Z) (g0 : G) :
  0 <= b < gridDim l -> 0 <= m < nb ->
  folded a (b * nb + m) k ->
  body_fits a l (b * nb + m) ->
  (forall s gm, R (snd (visit_at (b * nb + m) k (s, gm)))) ->
  (forall g' k' s gm, folded a g' k' -> R gm -> R (snd (visit_at g' k' (s, gm)))) ->
  (forall g' v gm, 0 <= g' < n_mol a -> R gm -> R (publish K (central a g') v gm)) ->
  R (run_block K a l sh0 scratch0 b g0).
Proof.
  intros Hb Hm Hf Hfits Hest Hkeep Hpub.
  pose proof cfg_W_pos as HW.
  unfold run_block. cbv zeta.
  pose proof (setup_ready b sh0 Hb) as Hsh.
  set (sh := for_each (blockDim l) (setup_thread a l b) sh0) in *.
  apply (publish_phase_inv R sh _ b _ Hsh Hb).
  - intros m' gm Hm' Hg HR. apply Hpub; assumption.
  - assert (Hkmod : 0 <= k mod W < W) by (apply Z.mod_pos_bound; lia).
    destruct (cfg_window_thread m (k mod W) Hm Hkmod) as (Ht & Hdiv & Hmod).
    apply (for_each_eventually (fun _ => True) (fun st => R (snd st))
                               (blockDim l) (m * W + k mod W)); auto.
    + intros st _. simpl.
      apply (gather_thread_reaches R sh b (m * W + k mod W) k (snd st) Hsh Hb Ht);
        rewrite ?Hdiv, ?Hmod; try assumption; try reflexivity.
      intros k' s gm Hf' HR. apply Hkeep; assumption.
    + intros i st Hi _ HR. simpl.
      apply (gather_thread_inv R sh b i (snd st) Hsh Hb Hi); [| exact HR].
      intros k' s gm Hf' _ HRm. apply Hkeep; assumption.
Qed.

Lemma run_grid_reaches (R : G -> Prop) (sh0 : Z -> BodyShared) (scratch0 : Z -> Z -> A)
      (g k : Z) (g0 : G) :
  folded a g k ->
  body_fits a l g ->
  (forall s gm, R (snd (visit_at g k (s, gm)))) ->
  (forall g' k' s gm, folded a g' k' -> R gm -> R (snd (visit_at g' k' (s, gm)))) ->
  (forall g' v gm, 0 <= g' < n_mol a -> R gm -> R (publish K (central a g') v gm)) ->
  R (run_grid K a l sh0 scratch0 g0).
Proof.
  intros Hf Hfits Hest Hkeep Hpub.
  destruct (cfg_body_block g (proj1 (proj1 Hf))) as (Hb & Hm & Hg).
  unfold run_grid.
  apply (for_each_eventually (fun _ => True) R (gridDim l) (g / nb)); auto.
  - intros gm _.
    apply (run_block_reaches R _ _ (g / nb) (g mod nb) k); rewrite <- ?Hg; assumption.
  - intros b gm Hb' _ HR. apply run_block_frame; [exact Hb' | | | exact HR].
    + intros m k' s gm' _ Hf' HR'. apply Hkeep; assumption.
    + intros m v gm' _ Hg' HR'. apply Hpub; assumption.
Qed.

(** The block that holds an existing body that is not processed writes
    an empty total to the output slot of its central particle all the
    same. *)
Lemma run_grid_skipped_ordered (sh0 : Z -> BodyShared) (scratch0 : Z -> Z -> A) (g : Z) (g0 : G) :
  0 <= g < n_mol a ->
  N a <= central a g ->
  centrals_distinct a ->
  (forall g', 0 <= g' < n_mol a -> okc (central a g')) ->
  out (run_grid K a l sh0 scratch0 g0) (central a g) = pub (empty_total K (Z.to_nat j)).
Proof.
  intros Hg Hskip Hcen Hokc.
  pose proof cfg_W_pos as HW. pose proof cfg_nb as Hnb.
  destruct (cfg_body_block g Hg) as (Hb & Hm & Hsplit).
  set (bs := g / nb) in *. set (ms := g mod nb) in *.
  assert (Hkeep : forall b' m' v gm,
            0 <= b' * nb + m' < n_mol a -> b' * nb + m' <> g ->
            out gm (central a g) = pub (empty_total K (Z.to_nat j)) ->
            out (publish K (central a (b' * nb + m')) v gm) (central a g)
            = pub (empty_total K (Z.to_nat j))).
  { intros b' m' v gm Hg' Hne HR.
    rewrite (law_publish_out_other HL); [exact HR | | | ].
    - apply Hokc. exact Hg'.
    - apply Hokc. exact Hg.
    - intros He. apply Hcen in He; [| exact Hg | exact Hg']. lia. }
  unfold run_grid.
  apply (for_each_eventually (fun _ => True)
           (fun gm => out gm (central a g) = pub (empty_total K (Z.to_nat j))) (gridDim l) bs); auto.
  - intros gm _. unfold run_block. cbv zeta.
    pose proof (setup_ready bs (sh0 bs) Hb) as Hsh.
    set (sh := for_each (blockDim l) (setup_thread a l bs) (sh0 bs)) in *.
    set (scr := reduce_rounds K l 32 (Z.shiftr (window_size l) 1) _).
    assert (Hzero : scr (ms * W) = empty_total K (Z.to_nat j)).
    { unfold scr. apply (reduce_tree_empty _ ms Hm).
      intros lane Hl.
      destruct (cfg_window_thread ms lane Hm Hl) as (Ht & Hdiv & _).
      apply (gather_phase_skip sh bs _ _ Hsh Hb Ht).
      right. rewrite Hdiv, <- Hsplit. exact Hskip. }
    destruct (Hsh ms Hm) as [Hin _]. rewrite <- Hsplit in Hin.
    destruct (Hin ltac:(lia)) as (Hmi & Hci & _).
    assert (HmW : 0 <= ms * W < blockDim l) by (rewrite cfg_blockDim; nia).
    assert (Hown : forall gp,
              out (publish_thread K a l sh scr (ms * W) gp) (central a g)
              = pub (empty_total K (Z.to_nat j))).
    { intros gp. unfold publish_thread. rewrite cfg_window, cfg_lane.
      rewrite Z.mod_mul, Z.div_mul by lia. rewrite Hmi, Hci.
      replace (g =? NO_BODY) with false.
      2:{ symmetry. apply Z.eqb_neq. unfold NO_BODY.
          destruct Hcfg as (_ & _ & _ & _ & _ & _ & _ & Hle & _). lia. }
      simpl. rewrite (law_publish_out HL), Hzero; [reflexivity | apply Hokc; exact Hg]. }
    apply (for_each_eventually (fun _ => True)
             (fun gp => out gp (central a g) = pub (empty_total K (Z.to_nat j)))
             (blockDim l) (ms * W)); auto.
    intros i gp Hi _ HR.
    destruct (Z.eq_dec i (ms * W)) as [-> | Hne]; [apply Hown |].
    unfold publish_thread. rewrite cfg_window, cfg_lane.
    pose proof (cfg_thread_window i Hi) as Hmi'.
    destruct (Hsh (i / W) Hmi') as [Hin' Hout'].
    destruct (Z.eqb_spec (i mod W) 0) as [Hl0 | Hl0]; [| exact HR].
    destruct (Z_lt_le_dec (bs * nb + i / W) (n_mol a)) as [Hlt | Hge].
    + destruct (Hin' Hlt) as (_ & Hci' & _). rewrite Hci'.
      destruct (negb (mol_idx sh (i / W) =? NO_BODY)); simpl; [| exact HR].
      apply Hkeep; [nia | | exact HR].
      pose proof (cfg_lane0 i ltac:(lia) Hl0). nia.
    + rewrite (Hout' Hge). simpl. exact HR.
  - intros b gm Hb' _ HR.
    destruct (Z.eq_dec b bs) as [-> | Hne].
    + (* the block of [g] itself: handled by the first case *)
      unfold run_block. cbv zeta.
      pose proof (setup_ready bs (sh0 bs) Hb) as Hsh.
      set (sh := for_each (blockDim l) (setup_thread a l bs) (sh0 bs)) in *.
      set (scr := reduce_rounds K l 32 (Z.shiftr (window_size l) 1) _).
      assert (Hzero : scr (ms * W) = empty_total K (Z.to_nat j)).
      { unfold scr. apply (reduce_tree_empty _ ms Hm).
        intros lane Hl.
        destruct (cfg_window_thread ms lane Hm Hl) as (Ht & Hdiv & _).
        apply (gather_phase_skip sh bs _ _ Hsh Hb Ht).
        right. rewrite Hdiv, <- Hsplit. exact Hskip. }
      apply (publish_phase_inv
               (fun gp => out gp (central a g) = pub (empty_total K (Z.to_nat j))) sh scr bs _ Hsh Hb).
      * intros m gp Hm' Hg' HRp.
        destruct (Z.eq_dec m ms) as [-> | Hnm].
        -- rewrite <- Hsplit, Hzero.
           rewrite (law_publish_out HL); [reflexivity | apply Hokc; exact Hg].
        -- apply Hkeep; [exact Hg' | nia | exact HRp].
      * apply (gather_phase_inv
                 (fun gp => out gp (central a g) = pub (empty_total K (Z.to_nat j))) sh bs _ Hsh Hb).
        -- intros m k s gp _ _ HRp. rewrite (law_visit_out HL). exact HRp.
        -- exact HR.
    + apply run_block_frame; [exact Hb' | | | exact HR].
      * intros m k s gp _ _ HRp. rewrite (law_visit_out HL). exact HRp.
      * intros m v gp Hm' Hg' HRp. apply Hkeep; [exact Hg' | nia | exact HRp].
Qed.

(** When [0 + 0 = 0], the empty total is [acc_zero]. *)
Lemma run_grid_skipped (sh0 : Z -> BodyShared) (scratch0 : Z -> Z -> A) (g : Z) (g0 : G) :
  0 <= g < n_mol a ->
  N a <= central a g ->
  centrals_distinct a ->
  (forall g', 0 <= g' < n_mol a -> okc (central a g')) ->
  out (run_grid K a l sh0 scratch0 g0) (central a g) = pub (acc_zero K).
Proof.
  intros Hg Hskip Hcen Hokc.
  rewrite (run_grid_skipped_ordered sh0 scratch0 g g0 Hg Hskip Hcen Hokc).
  rewrite empty_total_zero. reflexivity.
Qed.


(* ------------------------------------------------------------------ *)
(** ** The total of a body, in the order of the kernel *)

(** Nothing is assumed of the addition of partial sums from here to the
    end of the section. *)

(** The partial sum of a thread of a processed body, when the cells of
    the members of its lane still hold [cells]: the contributions of the
    constituents of the lane, added one after the other. *)
Lemma gather_thread_ordered (sh : BodyShared) (b tid : Z) (g0 : G) (cells : Z -> C) :
  shared_ready a b sh ->
  0 <= b < gridDim l -> 0 <= tid < blockDim l ->
  processed a (b * nb + tid / W) ->
  body_fits a l (b * nb + tid / W) ->
  members_distinct a ->
  (forall g k, folded a g k -> okp (member a g k)) ->
  (forall k, folded a (b * nb + tid / W) k -> k mod W = tid mod W ->
             cell g0 (member a (b * nb + tid / W) k) = cells (member a (b * nb + tid / W) k)) ->
  fst (gather_thread K a l sh tid g0)
  = lane_sum (acc_zero K) (acc_add K) W (d_molecule_len a (b * nb + tid / W))
             (constituent_term a (b * nb + tid / W)
                (contribution contrib a (b * nb + tid / W) cells))
             (tid mod W).
Proof.
  intros Hsh Hb Ht Hproc Hfits Hdist Hokp Hcells.
  pose proof cfg_W_pos as HW.
  pose proof (cfg_thread_window tid Ht) as Hm.
  unfold gather_thread. rewrite cfg_window.
  destruct (Hsh (tid / W) Hm) as [Hin _].
  set (g := b * nb + tid / W) in *.
  destruct Hproc as [Hg HcN].
  destruct (Hin ltac:(lia)) as (Hmi & Hci & Hbt & Hbo).
  rewrite Hmi, Hci.
  replace (g =? NO_BODY) with false.
  2:{ symmetry. apply Z.eqb_neq. unfold NO_BODY.
      destruct Hcfg as (_ & _ & _ & Hnb & _ & _ & _ & Hle & _). lia. }
  replace (central a g <? N a) with true by (symmetry; apply Z.ltb_lt; exact HcN).
  simpl andb. cbv iota.
  destruct Hfits as [Hlen0 Hlen].
  assert (Hw : window_size l = W) by (destruct Hcfg as (_ & Hw & _); exact Hw).
  rewrite Hw in *.
  set (len := d_molecule_len a g) in *.
  set (lane := tid mod W).
  assert (Hlane : 0 <= lane < W) by (apply Z.mod_pos_bound; lia).
  assert (Hdiv : 0 <= len / W) by (apply Z.div_pos; lia).
  assert (Hdm : W * (len / W) <= len) by (apply Z.mul_div_le; lia).
  rewrite (u32_small (len / W + 1)) by nia.
  unfold lane_sum.
  set (step := fun (start : Z) (acc : A) =>
    match constituent_term a g (contribution contrib a g cells) (start * W + lane) with
    | Some x => acc_add K acc x
    | None => acc
    end).
  set (P := fun (s : Z) (st : A * G) =>
    fst st = for_each s step (acc_zero K) /\
    (forall k, folded a g k -> k mod W = lane -> s * W <= k ->
               cell (snd st) (member a g k) = cells (member a g k))).
  assert (HP : P (len / W + 1)
                 (for_each (len / W + 1) (window_step K a l sh tid (tid / W) len)
                           (acc_zero K, g0))).
  { apply for_each_ind; [lia | | ].
    - split; [reflexivity |]. intros k Hk Hkl _. apply Hcells; assumption.
    - intros s [acc gs] Hs [Hacc Hint]. simpl in Hacc, Hint.
      unfold window_step. rewrite Hw, cfg_lane. fold lane.
      rewrite (u32_small (s * W + lane)) by nia.
      rewrite Hmi, Hci, Hbt, Hbo.
      fold (member a g (s * W + lane)). fold (central a g).
      fold (template_slot a g (s * W + lane)).
      unfold P.
      rewrite for_each_succ by lia.
      unfold step at 1. unfold constituent_term. fold len.
      destruct (Z.ltb_spec (s * W + lane) len) as [Hk | Hk]; simpl andb; cbv iota.
      + destruct (Z.eqb_spec (member a g (s * W + lane)) (central a g)) as [He | Hne];
          simpl negb; cbv iota.
        * split; [exact Hacc |].
          intros k Hf Hkl Hle. apply Hint; [assumption | assumption | lia].
        * assert (Hfs : folded a g (s * W + lane)).
          { repeat split; try assumption; try lia; fold len; lia. }
          split.
          -- rewrite (law_visit_acc HL). simpl in Hacc. rewrite Hacc.
             unfold contribution. f_equal. f_equal.
             apply Hint; [exact Hfs | | lia].
             rewrite Z.add_comm, Z.mod_add by lia. apply Z.mod_small. exact Hlane.
          -- intros k Hf Hkl Hle.
             rewrite (law_visit_cell HL).
             ++ apply Hint; [assumption | assumption | lia].
             ++ apply (Hokp g). exact Hfs.
             ++ apply (Hokp g). exact Hf.
             ++ intros He. destruct (Hdist _ _ _ _ Hf Hfs He) as [_ Hkk]. lia.
      + split; [exact Hacc |].
        intros k Hf Hkl Hle. apply Hint; [assumption | assumption | lia]. }
  exact (proj1 HP).
Qed.

(** The block that holds a processed body writes the total of the body,
    in the order of its window, to the output slot of its central
    particle. *)
Lemma run_block_ordered (sh0 : BodyShared) (scratch0 : Z -> A) (b m : Z) (g0 : G)
      (cells : Z -> C) :
  0 <= b < gridDim l -> 0 <= m < nb ->
  processed a (b * nb + m) ->
  body_fits a l (b * nb + m) ->
  members_distinct a ->
  centrals_distinct a ->
  (forall g k, folded a g k -> okp (member a g k)) ->
  (forall g, 0 <= g < n_mol a -> okc (central a g)) ->
  (forall k, folded a (b * nb + m) k ->
             cell g0 (member a (b * nb + m) k) = cells (member a (b * nb + m) k)) ->
  out (run_block K a l sh0 scratch0 b g0) (central a (b * nb + m))
  = pub (ordered_total K contrib a (b * nb + m) cells (Z.to_nat j)).
Proof.
  intros Hb Hm Hproc Hfits Hdist Hcen Hokp Hokc Hcells.
  pose proof cfg_W_pos as HW. pose proof cfg_nb as Hnb.
  unfold run_block. cbv zeta.
  pose proof (setup_ready b sh0 Hb) as Hsh.
  set (sh := for_each (blockDim l) (setup_thread a l b) sh0) in *.
  set (gs := b * nb + m) in *.
  set (partial :=
    lane_sum (acc_zero K) (acc_add K) W (d_molecule_len a gs)
             (constituent_term a gs (contribution contrib a gs cells))).
  (* gather phase *)
  assert (Hgather : forall lane, 0 <= lane < W ->
            fst (gather_phase sh (scratch0, g0)) (m * W + lane) = partial lane).
  { set (P := fun (i : Z) (st : (Z -> A) * G) =>
      (forall k, folded a gs k -> i <= m * W + k mod W ->
                 cell (snd st) (member a gs k) = cells (member a gs k)) /\
      (forall lane, 0 <= lane < W -> m * W + lane < i ->
                    fst st (m * W + lane) = partial lane)).
    assert (HP : P (blockDim l) (gather_phase sh (scratch0, g0))).
    { apply for_each_ind.
      - rewrite cfg_blockDim. nia.
      - split; [intros k Hk _; apply Hcells; exact Hk | intros lane Hl Hlt; nia].
      - intros i [scr gm] Hi [Hint Hscr]. simpl in Hint, Hscr. unfold P. simpl.
        destruct (cfg_thread_split i Hi) as [Hsplit Hlane].
        pose proof (cfg_thread_window i Hi) as Hmi.
        split.
        + intros k Hk Hle.
          apply (gather_thread_inv
                   (fun g => cell g (member a gs k) = cells (member a gs k))
                   sh b i gm Hsh Hb Hi).
          * intros k' s g Hk' Hkl HQ.
            rewrite (law_visit_cell HL); [exact HQ | | | ].
            -- apply (Hokp _ _ Hk').
            -- apply (Hokp _ _ Hk).
            -- intros He. destruct (Hdist _ _ _ _ Hk Hk' He) as [Hg Hkk].
               assert (m = i / W) by (unfold gs in Hg; nia).
               subst k'. nia.
          * apply Hint; [exact Hk | lia].
        + intros lane Hl Hlt.
          destruct (Z.eq_dec (m * W + lane) i) as [He | Hne].
          * rewrite He, upd_same.
            destruct (cfg_window_thread m lane Hm Hl) as (_ & Hdiv & Hmod).
            rewrite He in Hdiv, Hmod.
            rewrite (gather_thread_ordered sh b i gm cells Hsh Hb Hi);
              rewrite ?Hdiv, ?Hmod; try assumption.
            -- reflexivity.
            -- intros k Hk Hkl. apply Hint; [exact Hk | lia].
          * rewrite upd_other by exact Hne. apply Hscr; [exact Hl | lia]. }
    intros lane Hl. apply (proj2 HP); [exact Hl |].
    rewrite cfg_blockDim. nia. }
  (* reduction *)
  set (scr := reduce_rounds K l 32 (Z.shiftr (window_size l) 1)
                            (fst (gather_phase sh (scratch0, g0)))).
  assert (Hj : 0 <= j) by (destruct Hcfg as (Hj & _); exact Hj).
  assert (Htot : scr (m * W) = ordered_total K contrib a gs cells (Z.to_nat j)).
  { unfold scr. rewrite (reduce_tree _ m Hm).
    unfold ordered_total, window_sum. rewrite Z2Nat.id by exact Hj.
    apply tree_sum_ext. intros lane Hl. rewrite Z2Nat.id in Hl by exact Hj.
    apply Hgather. exact Hl. }
  (* publish phase *)
  destruct (Hsh m Hm) as [Hin _]. destruct Hproc as [Hg HcN]. fold gs in Hin.
  destruct (Hin ltac:(lia)) as (Hmi & Hci & _).
  assert (HmW : 0 <= m * W < blockDim l) by (rewrite cfg_blockDim; nia).
  apply (for_each_eventually (fun _ => True)
           (fun g => out g (central a gs)
                     = pub (ordered_total K contrib a gs cells (Z.to_nat j)))
           (blockDim l) (m * W)); auto.
  - intros g _. unfold publish_thread. rewrite cfg_window, cfg_lane.
    rewrite Z.mod_mul, Z.div_mul by lia. rewrite Hmi, Hci.
    replace (gs =? NO_BODY) with false.
    2:{ symmetry. apply Z.eqb_neq. unfold NO_BODY.
        destruct Hcfg as (_ & _ & _ & _ & _ & _ & _ & Hle & _). lia. }
    simpl. rewrite (law_publish_out HL), Htot; [reflexivity | apply Hokc; lia].
  - intros i g Hi _ HR.
    destruct (Z.eq_dec i (m * W)) as [-> | Hne].
    + unfold publish_thread. rewrite cfg_window, cfg_lane.
      rewrite Z.mod_mul, Z.div_mul by lia. rewrite Hmi, Hci.
      destruct (negb (gs =? NO_BODY)); simpl; [| exact HR].
      rewrite (law_publish_out HL), Htot; [reflexivity | apply Hokc; lia].
    + unfold publish_thread. rewrite cfg_window, cfg_lane.
      pose proof (cfg_thread_window i Hi) as Hmi'.
      destruct (Hsh (i / W) Hmi') as [Hin' Hout'].
      destruct (Z.eqb_spec (i mod W) 0) as [Hl0 | Hl0]; [| exact HR].
      destruct (Z_lt_le_dec (b * nb + i / W) (n_mol a)) as [Hlt | Hge].
      * destruct (Hin' Hlt) as (_ & Hci' & _). rewrite Hci'.
        destruct (negb (mol_idx sh (i / W) =? NO_BODY)); simpl; [| exact HR].
        rewrite (law_publish_out_other HL); [exact HR | | | ].
        -- apply Hokc. nia.
        -- apply Hokc. lia.
        -- intros He. apply Hcen in He; [| lia | nia].
           pose proof (cfg_lane0 i ltac:(lia) Hl0). unfold gs in He. nia.
      * rewrite (Hout' Hge). simpl. exact HR.
Qed.

(** The output slot of the central particle of a processed body receives
    the total of the body, added up in the order of a window of [2 ^ j]
    threads from the cells the pass started with. *)
Lemma run_grid_ordered (sh0 : Z -> BodyShared) (scratch0 : Z -> Z -> A) (g : Z) (g0 : G) :
  processed a g ->
  body_fits a l g ->
  members_distinct a ->
  centrals_distinct a ->
  (forall g' k, folded a g' k -> okp (member a g' k)) ->
  (forall g', 0 <= g' < n_mol a -> okc (central a g')) ->
  out (run_grid K a l sh0 scratch0 g0) (central a g)
  = pub (ordered_total K contrib a g (cell g0) (Z.to_nat j)).
Proof.
  intros Hproc Hfits Hdist Hcen Hokp Hokc.
  pose proof cfg_nb as Hnb.
  destruct (cfg_body_block g (proj1 Hproc)) as (Hb & Hm & Hg).
  set (bs := g / nb) in *. set (ms := g mod nb) in *.
  set (P := fun (i : Z) (gm : G) =>
    (i <= bs -> forall k, folded a g k -> cell gm (member a g k) = cell g0 (member a g k)) /\
    (bs < i -> out gm (central a g)
               = pub (ordered_total K contrib a g (cell g0) (Z.to_nat j)))).
  assert (HP : P (gridDim l) (run_grid K a l sh0 scratch0 g0)).
  { unfold run_grid. apply for_each_ind; [lia | | ].
    - split; [intros _ k _; reflexivity | lia].
    - intros i gm Hi [Hint Hout]. split.
      + intros Hle k Hk.
        apply (run_block_frame
                 (fun gm' => cell gm' (member a g k) = cell g0 (member a g k))).
        * exact Hi.
        * intros m k' s gm' Hm' Hk' HQ.
          rewrite (law_visit_cell HL); [exact HQ | | | ].
          -- apply (Hokp _ _ Hk').
          -- apply (Hokp _ _ Hk).
          -- intros He. destruct (Hdist _ _ _ _ Hk Hk' He) as [Hgg _]. nia.
        * intros m v gm' _ _ HQ. rewrite (law_publish_cell HL). exact HQ.
        * apply Hint; [lia | exact Hk].
      + intros Hlt. destruct (Z.eq_dec i bs) as [-> | Hne].
        * rewrite Hg at 1 2.
          rewrite (run_block_ordered (sh0 bs) (scratch0 bs) bs ms gm (cell g0));
            rewrite <- ?Hg; try assumption; try reflexivity.
          intros k Hk. apply Hint; [lia | exact Hk].
        * apply (run_block_frame
                   (fun gm' => out gm' (central a g)
                               = pub (ordered_total K contrib a g (cell g0) (Z.to_nat j)))).
          -- exact Hi.
          -- intros m k' s gm' _ _ HQ. rewrite (law_visit_out HL). exact HQ.
          -- intros m v gm' Hm' Hg' HQ.
             rewrite (law_publish_out_other HL); [exact HQ | | | ].
             ++ apply Hokc. exact Hg'.
             ++ apply Hokc. exact (proj1 Hproc).
             ++ intros He. apply Hcen in He; [| exact (proj1 Hproc) | exact Hg']. nia.
          -- apply Hout. lia. }
  apply (proj2 HP). lia.
Qed.

End Generic.

(* ------------------------------------------------------------------ *)
(** ** Two runs of a kernel *)

Section TwoRuns.
Context {S : ScalarOps} {A G : Type}.
Variable K : KernelBody A G.
Variable a : RigidArgs.
Variable l : Launch.
Variable related : G -> G -> Prop.
Hypothesis visit_related :
  forall bt q p li s g g',
    related g g' ->
    fst (visit K bt q p li (s, g)) = fst (visit K bt q p li (s, g')) /\
    related (snd (visit K bt q p li (s, g))) (snd (visit K bt q p li (s, g'))).
Hypothesis publish_related :
  forall c v g g', related g g' -> related (publish K c v g) (publish K c v g').

Lemma gather_thread_related (sh : BodyShared) (tid : Z) (g g' : G) :
  related g g' ->
  fst (gather_thread K a l sh tid g) = fst (gather_thread K a l sh tid g') /\
  related (snd (gather_thread K a l sh tid g)) (snd (gather_thread K a l sh tid g')).
Proof.
  intros HR. unfold gather_thread.
  destruct (negb (mol_idx sh _ =? NO_BODY) && (central_idx sh _ <? N a));
    [| split; [reflexivity | exact HR]].
  apply (for_each_rel (fun st st' : A * G => fst st = fst st' /\ related (snd st) (snd st'))).
  - split; [reflexivity | exact HR].
  - intros start [s gm] [s' gm'] _ [Hs Hg]. simpl in Hs, Hg. subst s'.
    unfold window_step.
    destruct (_ <? _); [| split; [reflexivity | exact Hg]].
    destruct (negb _); [| split; [reflexivity | exact Hg]].
    apply visit_related. exact Hg.
Qed.

Lemma reduce_rounds_related (width : nat) :
  forall offset (scratch scratch' : Z -> A),
    (forall t, scratch t = scratch' t) ->
    forall t, reduce_rounds K l width offset scratch t
              = reduce_rounds K l width offset scratch' t.
Proof.
  induction width as [| width IH]; intros offset scratch scratch' Heq; [exact Heq |].
  cbn [reduce_rounds]. destruct (0 <? offset); [| exact Heq].
  apply IH.
  apply (for_each_rel (fun s s' : Z -> A => forall t, s t = s' t)); [exact Heq |].
  intros i s s' _ Hs t. unfold reduce_thread.
  destruct (_ <? _); [| apply Hs].
  unfold upd. destruct (t =? i); [rewrite !Hs; reflexivity | apply Hs].
Qed.

(** Two runs of the grid from related memories end in related memories. *)
Lemma run_grid_related (sh0 : Z -> BodyShared) (scratch0 : Z -> Z -> A) (g g' : G) :
  related g g' ->
  related (run_grid K a l sh0 scratch0 g) (run_grid K a l sh0 scratch0 g').
Proof.
  intros HR. unfold run_grid.
  apply (for_each_rel related); [exact HR |].
  intros b gm gm' _ Hgm. unfold run_block. cbv zeta.
  set (sh := for_each (blockDim l) (setup_thread a l b) (sh0 b)).
  assert (Hgather :
    (forall t,
        fst (for_each (blockDim l)
               (fun tid (st : (Z -> A) * G) =>
                  let r := gather_thread K a l sh tid (snd st) in
                  (upd (fst st) tid (fst r), snd r))
               (scratch0 b, gm)) t
        = fst (for_each (blockDim l)
                 (fun tid (st : (Z -> A) * G) =>
                    let r := gather_thread K a l sh tid (snd st) in
                    (upd (fst st) tid (fst r), snd r))
                 (scratch0 b, gm')) t) /\
    related
      (snd (for_each (blockDim l)
              (fun tid (st : (Z -> A) * G) =>
                 let r := gather_thread K a l sh tid (snd st) in
                 (upd (fst st) tid (fst r), snd r))
              (scratch0 b, gm)))
      (snd (for_each (blockDim l)
              (fun tid (st : (Z -> A) * G) =>
                 let r := gather_thread K a l sh tid (snd st) in
                 (upd (fst st) tid (fst r), snd r))
              (scratch0 b, gm')))).
  { apply (for_each_rel
             (fun st st' : (Z -> A) * G =>
                (forall t, fst st t = fst st' t) /\ related (snd st) (snd st'))).
    - split; [reflexivity | exact Hgm].
    - intros tid st st' _ [Hs Hg]. cbv zeta. cbn [fst snd].
      destruct (gather_thread_related sh tid (snd st) (snd st') Hg) as [Hf Hr].
      split; [| exact Hr].
      intros t. unfold upd. destruct (t =? tid); [exact Hf | apply Hs]. }
  destruct Hgather as [Hscr Hmem].
  apply (for_each_rel related); [exact Hmem |].
  intros tid gp gp' _ Hgp. unfold publish_thread.
  destruct (_ && _); [| exact Hgp].
  rewrite (reduce_rounds_related 32 _ _ _ Hscr tid).
  apply publish_related. exact Hgp.
Qed.

End TwoRuns.

(* ------------------------------------------------------------------ *)
(** ** The force kernel and the virial kernel satisfy the laws *)

Section Instances.
Context {S : ScalarOps} {Z0 : ZeroSum} {NZ : NeutralZero} {E : ExactScalar}
        {V : VectorMath}.

Lemma add3_comm (u v : Scalar3) : add3 u v = add3 v u.
Proof. unfold add3. f_equal; apply sadd_comm. Qed.

Lemma add3_assoc (u v w : Scalar3) : add3 u (add3 v w) = add3 (add3 u v) w.
Proof. unfold add3. simpl. f_equal; apply sadd_assoc. Qed.

Lemma add3_0_l (u : Scalar3) : add3 zero3 u = u.
Proof. destruct u. unfold add3. simpl. f_equal; apply sadd_0_l. Qed.

Lemma add4_comm (u v : Scalar4) : add4 u v = add4 v u.
Proof. unfold add4. f_equal; apply sadd_comm. Qed.

Lemma add4_assoc (u v w : Scalar4) : add4 u (add4 v w) = add4 (add4 u v) w.
Proof. unfold add4. simpl. f_equal; apply sadd_assoc. Qed.

Lemma add4_0_l (u : Scalar4) : add4 zero4 u = u.
Proof. destruct u. unfold add4. simpl. f_equal; apply sadd_0_l. Qed.

Lemma force_laws (a : RigidArgs) (zero_force : bool) :
  KernelLaws (force_body a zero_force) force_cell force_out
             (fun _ => True) (fun _ => True) (force_contrib a) force_pub.
Proof.
  constructor; simpl.
  - intros bt q p li [f t] g. reflexivity.
  - intros bt q p li s g p' _ _ Hne. unfold force_visit, force_cell. simpl.
    destruct zero_force; simpl; rewrite ?upd_other by exact Hne; reflexivity.
  - intros bt q p li s g c. unfold force_visit, force_out.
    destruct zero_force; reflexivity.
  - intros c v g p. reflexivity.
  - intros c v g _. unfold force_publish, force_out, force_pub. simpl.
    rewrite !upd_same. reflexivity.
  - intros c v g c' _ _ Hne. unfold force_publish, force_out. simpl.
    rewrite !upd_other by exact Hne. reflexivity.
Qed.

(** With exact scalars the partial sums of the force kernel add up
    exactly; the sum of two empty partial sums is empty as soon as
    [0 + 0 = 0]. *)
Lemma force_sum_laws (a : RigidArgs) (zero_force : bool) :
  SumLaws (force_body a zero_force).
Proof.
  constructor; simpl.
  - intros [f t] [f' t']. unfold force_acc_add. simpl.
    rewrite add4_comm, add3_comm. reflexivity.
  - intros [f t] [f' t'] [f'' t'']. unfold force_acc_add. simpl.
    rewrite add4_assoc, add3_assoc. reflexivity.
  - intros [f t]. unfold force_acc_add. simpl. rewrite add4_0_l, add3_0_l. reflexivity.
Qed.

Lemma add3_0_0 : add3 zero3 zero3 = zero3.
Proof. unfold add3, zero3. simpl. rewrite sadd_0_0. reflexivity. Qed.

Lemma add4_0_0 : add4 zero4 zero4 = zero4.
Proof. unfold add4, zero4. simpl. rewrite sadd_0_0. reflexivity. Qed.

Lemma force_zero_sum (a : RigidArgs) (zero_force : bool) :
  acc_add (force_body a zero_force) (acc_zero (force_body a zero_force))
          (acc_zero (force_body a zero_force))
  = acc_zero (force_body a zero_force).
Proof. simpl. unfold force_acc_add. simpl. rewrite add4_0_0, add3_0_0. reflexivity. Qed.

Lemma virial_add_comm (u v : Virial6) : virial_acc_add u v = virial_acc_add v u.
Proof. unfold virial_acc_add. f_equal; apply sadd_comm. Qed.

Lemma virial_add_assoc (u v w : Virial6) :
  virial_acc_add u (virial_acc_add v w) = virial_acc_add (virial_acc_add u v) w.
Proof. unfold virial_acc_add. simpl. f_equal; apply sadd_assoc. Qed.

Lemma virial_add_0_l (u : Virial6) : virial_acc_add zero_virial6 u = u.
Proof. destruct u. unfold virial_acc_add. simpl. f_equal; apply sadd_0_l. Qed.

Lemma virial_laws (a : RigidArgs) (net_virial_pitch virial_pitch : Z) :
  KernelLaws (virial_body a net_virial_pitch virial_pitch)
             (virial_cell net_virial_pitch) (virial_out virial_pitch)
             (below_pitch net_virial_pitch) (below_pitch virial_pitch)
             (virial_contrib a) (fun v => v).
Proof.
  constructor; unfold virial_body; cbn [visit publish acc_add acc_zero].
  - intros bt q p li s g. reflexivity.
  - intros bt q p li s g p' [Hp Hn] [Hp' _] Hne.
    unfold virial_visit, virial_cell.
    cbn [d_net_force d_net_virial set_net_force set_net_virial fst snd].
    repeat match goal with
           | |- context [u32 ?e] => rewrite (u32_small e) by lia
           end.
    rewrite !upd_other by lia. reflexivity.
  - intros bt q p li s g c. reflexivity.
  - intros c v g p. reflexivity.
  - intros c v g [Hc Hn]. destruct v.
    unfold virial_publish, virial_out.
    cbn [d_virial set_virial vxx vxy vxz vyy vyz vzz].
    repeat match goal with
           | |- context [u32 ?e] => rewrite (u32_small e) by lia
           end.
    repeat (rewrite ?upd_same; rewrite ?upd_other by lia). reflexivity.
  - intros c v g c' [Hc Hn] [Hc' _] Hne.
    unfold virial_publish, virial_out.
    cbn [d_virial set_virial vxx vxy vxz vyy vyz vzz].
    repeat match goal with
           | |- context [u32 ?e] => rewrite (u32_small e) by lia
           end.
    rewrite !upd_other by lia. reflexivity.
Qed.

Lemma virial_sum_laws (a : RigidArgs) (net_virial_pitch virial_pitch : Z) :
  SumLaws (virial_body a net_virial_pitch virial_pitch).
Proof.
  constructor; unfold virial_body; cbn [acc_add acc_zero].
  - apply virial_add_comm.
  - apply virial_add_assoc.
  - apply virial_add_0_l.
Qed.

Lemma virial_0_0 : virial_acc_add zero_virial6 zero_virial6 = zero_virial6.
Proof. unfold virial_acc_add, zero_virial6. simpl. rewrite sadd_0_0. reflexivity. Qed.

Lemma virial_zero_sum (a : RigidArgs) (net_virial_pitch virial_pitch : Z) :
  acc_add (virial_body a net_virial_pitch virial_pitch)
          (acc_zero (virial_body a net_virial_pitch virial_pitch))
          (acc_zero (virial_body a net_virial_pitch virial_pitch))
  = acc_zero (virial_body a net_virial_pitch virial_pitch).
Proof. exact virial_0_0. Qed.

(* ------------------------------------------------------------------ *)
(** ** The launch configuration of the drivers *)

Lemma round_down_pow2_total (fuel : nat) :
  forall i run_block_size,
    0 <= i ->
    2 ^ i <= run_block_size \/ i = 0 ->
    run_block_size < 2 ^ 31 ->
    31 <= Z.of_nat fuel + i ->
    exists i',
      i <= i' /\
      round_down_pow2 fuel (2 ^ i) run_block_size = Some (2 ^ i') /\
      (2 ^ i' <= run_block_size \/ i' = 0) /\
      run_block_size < 2 * 2 ^ i'.
Proof.
  induction fuel as [| fuel IH]; intros i rbs Hi Hle Hr Hfuel.
  - exfalso. assert (H31 : 2 ^ 31 <= 2 ^ i) by (apply Z.pow_le_mono_r; lia).
    destruct Hle; lia.
  - assert (Hb31 : 0 < 2 ^ i < 2 ^ 31).
    { split; [apply Z.pow_pos_nonneg; lia |].
      destruct Hle as [Hle | ->]; [lia | reflexivity]. }
    cbn [round_down_pow2]. rewrite (u32_small (2 ^ i * 2)) by lia.
    assert (Hsucc : 2 ^ i * 2 = 2 ^ (i + 1)).
    { rewrite Z.pow_add_r by lia. reflexivity. }
    destruct (Z.leb_spec (2 ^ i * 2) rbs) as [Hle' | Hgt].
    + rewrite Hsucc in *.
      destruct (IH (i + 1) rbs) as (i' & Hii & Hrun & Hprop); try lia.
      exists i'. split; [lia |]. split; [exact Hrun | exact Hprop].
    + exists i. split; [lia |]. split; [reflexivity |]. split; [exact Hle | lia].
Qed.

Lemma shrink_to_fit_total (r : Resources) (e : Z) (fuel : nat) :
  forall i,
    0 <= e <= i ->
    i - e < Z.of_nat fuel ->
    u32 (2 ^ e * bytes_per_thread r) + sharedSizeBytes r < sharedMemPerBlock r ->
    exists i', e <= i' <= i /\ shrink_to_fit fuel r (2 ^ i) = Some (2 ^ i').
Proof.
  induction fuel as [| fuel IH]; intros i Hei Hfuel Hroom; [lia |].
  cbn [shrink_to_fit].
  destruct (Z.leb_spec (sharedMemPerBlock r)
                       (u32 (2 ^ i * bytes_per_thread r) + sharedSizeBytes r))
    as [Hfull | Hfree].
  - assert (Hne : i <> e) by (intros ->; lia).
    assert (Hhalf : 2 ^ i / 2 = 2 ^ (i - 1)).
    { replace i with (Z.succ (i - 1)) at 1 by lia.
      rewrite Z.pow_succ_r by lia. rewrite Z.mul_comm, Z.div_mul by lia. reflexivity. }
    rewrite Hhalf.
    destruct (IH (i - 1)) as (i' & Hi' & Hrun); try lia.
    exists i'. split; [lia | exact Hrun].
  - exists i. split; [lia | reflexivity].
Qed.

(** From arguments that satisfy [driver_ok] the driver computes a launch
    with power-of-two windows that tile the block. *)
Lemma driver_launch (r : Resources) (a : RigidArgs) (block_size : Z) :
  driver_ok r a block_size ->
  exists l j,
    launch_config r (n_mol a) (n_bodies_per_block a) block_size = Some l /\
    launch_ok a l j /\
    window_size l <= block_size.
Proof.
  intros ((e & He & Hnb) & Hbs & Hmax & Hroom & Hn & Hnn).
  unfold launch_config.
  set (rbs := if maxThreadsPerBlock r <? block_size
              then maxThreadsPerBlock r else block_size).
  assert (Hnbpos : 0 < n_bodies_per_block a).
  { rewrite Hnb. apply Z.pow_pos_nonneg; lia. }
  assert (Hrbs : n_bodies_per_block a <= rbs < 2 ^ 31 /\ rbs <= block_size).
  { unfold rbs. destruct (Z.ltb_spec (maxThreadsPerBlock r) block_size); lia. }
  destruct (round_down_pow2_total 64 0 rbs) as (i0 & Hi0 & Hround & Hle0 & Hgt0);
    try lia.
  change (2 ^ 0) with 1 in Hround. rewrite Hround.
  assert (Hb0 : 2 ^ i0 <= rbs).
  { destruct Hle0 as [H | ->]; [exact H | change (2 ^ 0) with 1; lia]. }
  assert (Hi31 : i0 < 31).
  { apply (Z.pow_lt_mono_r_iff 2); lia. }
  assert (Hei : e <= i0).
  { assert (Hlt : 2 ^ e < 2 ^ (i0 + 1)).
    { rewrite Z.pow_add_r by lia. change (2 ^ 1) with 2. lia. }
    apply (Z.pow_lt_mono_r_iff 2) in Hlt; lia. }
  rewrite Hnb in Hroom.
  destruct (shrink_to_fit_total r e 64 i0) as (i & Hi & Hshrink); try lia.
  rewrite Hshrink.
  assert (Hsplit : 2 ^ i = 2 ^ (i - e) * 2 ^ e).
  { rewrite <- Z.pow_add_r by lia. f_equal. lia. }
  assert (Hjpos : 0 < 2 ^ (i - e)) by (apply Z.pow_pos_nonneg; lia).
  assert (Hepos : 0 < 2 ^ e) by (apply Z.pow_pos_nonneg; lia).
  assert (Hile : 2 ^ i <= 2 ^ i0) by (apply Z.pow_le_mono_r; lia).
  assert (Hwin : 2 ^ i / n_bodies_per_block a = 2 ^ (i - e)).
  { rewrite Hnb, Hsplit, Z.div_mul by lia. reflexivity. }
  assert (Hq : n_bodies_per_block a * (n_mol a / n_bodies_per_block a) <= n_mol a)
    by (apply Z.mul_div_le; lia).
  assert (Hq0 : 0 <= n_mol a / n_bodies_per_block a) by (apply Z.div_pos; lia).
  eexists. exists (i - e). split; [reflexivity |].
  unfold launch_ok. cbn [gridDim blockDim window_size thread_mask]. rewrite Hwin.
  split; [| nia].
  repeat split; try lia; try (apply u32_small; nia); rewrite Hnb; lia.
Qed.

Lemma body_length_fits (a : RigidArgs) (l : Launch) (block_size g : Z) :
  body_length_ok a block_size g -> window_size l <= block_size -> body_fits a l g.
Proof. intros [H0 Hlen] Hw. split; [exact H0 | lia]. Qed.

(* ------------------------------------------------------------------ *)
(** ** The force pass *)

Lemma constituent_folded (a : RigidArgs) (g k : Z) :
  processed a g -> In k (constituents a g) -> folded a g k.
Proof.
  intros Hp Hin. unfold constituents in Hin. apply filter_In in Hin.
  destruct Hin as [Hr Hne]. apply in_zrange in Hr.
  apply negb_true_iff, Z.eqb_neq in Hne.
  repeat split; try assumption; try lia; apply Hp.
Qed.

(** The total the force kernel forms for a body is the pair of the two
    sums of the specification. *)
Lemma force_total (a : RigidArgs) (zero_force : bool) (g : Z) (g0 : DeviceMem) :
  body_total (force_body a zero_force) (force_contrib a) a g (force_cell g0)
  = (force_sum a g (d_net_force g0),
     torque_sum a g (d_net_force g0) (d_net_torque g0)).
Proof.
  unfold body_total, force_sum, torque_sum, msum.
  induction (constituents a g) as [| k ks IH]; [reflexivity |].
  cbn [map fold_right]. rewrite IH. reflexivity.
Qed.

Lemma gpu_rigid_force_run (r : Resources) (a : RigidArgs) (block_size : Z)
      (zero_force : bool)
      (sh0 : Z -> BodyShared) (scratch0 : Z -> Z -> Scalar4 * Scalar3) (g0 : DeviceMem) :
  driver_ok r a block_size ->
  exists l j,
    launch_ok a l j /\
    window_size l <= block_size /\
    gpu_rigid_force r a block_size zero_force sh0 scratch0 g0
    = Some (run_grid (force_body a zero_force) a l sh0 scratch0
              (set_torque (set_force g0 (memset_zero zero4 (N a) (d_force g0)))
                          (memset_zero zero4 (N a) (d_torque g0)))).
Proof.
  intros Hdrv. destruct (driver_launch r a block_size Hdrv) as (l & j & Hcfg & Hj & Hw).
  exists l, j. split; [exact Hj |]. split; [exact Hw |].
  unfold gpu_rigid_force. rewrite Hcfg. reflexivity.
Qed.

(** What a force pass leaves in the output slot of the central particle
    of a processed body. *)
Lemma gpu_rigid_force_central (r : Resources) (a : RigidArgs) (block_size : Z)
      (zero_force : bool)
      (sh0 : Z -> BodyShared) (scratch0 : Z -> Z -> Scalar4 * Scalar3)
      (g0 : DeviceMem) (g : Z) :
  driver_ok r a block_size ->
  members_distinct a -> centrals_distinct a ->
  processed a g -> body_length_ok a block_size g ->
  exists g1,
    gpu_rigid_force r a block_size zero_force sh0 scratch0 g0 = Some g1 /\
    d_force g1 (central a g) = force_sum a g (d_net_force g0) /\
    d_torque g1 (central a g)
    = make_scalar4 (x3 (torque_sum a g (d_net_force g0) (d_net_torque g0)))
                   (y3 (torque_sum a g (d_net_force g0) (d_net_torque g0)))
                   (z3 (torque_sum a g (d_net_force g0) (d_net_torque g0)))
                   szero.
Proof.
  intros Hdrv Hdist Hcen Hproc Hlen.
  destruct (gpu_rigid_force_run r a block_size zero_force sh0 scratch0 g0 Hdrv)
    as (l & j & Hj & Hw & Hrun).
  eexists. split; [exact Hrun |].
  set (gm := set_torque _ _).
  pose proof (run_grid_value (force_body a zero_force) a l j Hj
                force_cell force_out (fun _ => True) (fun _ => True)
                (force_contrib a) force_pub (force_laws a zero_force) (force_sum_laws a zero_force)
                sh0 scratch0 g gm Hproc (body_length_fits a l block_size g Hlen Hw)
                Hdist Hcen (fun _ _ _ => I) (fun _ _ => I)) as Hval.
  replace (force_cell gm) with (force_cell g0) in Hval by reflexivity.
  rewrite force_total in Hval. unfold force_out, force_pub in Hval. simpl in Hval.
  injection Hval as Hf Ht. split; assumption.
Qed.

(** What a force pass does for an existing body whose central particle
    lies outside the local range: particles that are folded members of no
    body keep their net force and net torque, and the output slots of the
    central particle, which the driver does not clear, receive zero. *)
Lemma gpu_rigid_force_skipped (r : Resources) (a : RigidArgs) (block_size : Z)
      (zero_force : bool)
      (sh0 : Z -> BodyShared) (scratch0 : Z -> Z -> Scalar4 * Scalar3)
      (g0 : DeviceMem) (g : Z) :
  driver_ok r a block_size ->
  centrals_distinct a ->
  0 <= g < n_mol a -> N a <= central a g ->
  exists g1,
    gpu_rigid_force r a block_size zero_force sh0 scratch0 g0 = Some g1 /\
    (forall p, (forall g' k', folded a g' k' -> member a g' k' <> p) ->
               d_net_force g1 p = d_net_force g0 p /\
               d_net_torque g1 p = d_net_torque g0 p) /\
    d_force g1 (central a g) = zero4 /\
    d_torque g1 (central a g) = zero4.
Proof.
  intros Hdrv Hcen Hg Hskip.
  destruct (gpu_rigid_force_run r a block_size zero_force sh0 scratch0 g0 Hdrv)
    as (l & j & Hj & Hw & Hrun).
  eexists. split; [exact Hrun |].
  set (gm := set_torque _ _). split.
  - intros p Hp.
    assert (Hcell : force_cell (run_grid (force_body a zero_force) a l sh0 scratch0 gm) p
                    = force_cell g0 p);
      [| unfold force_cell in Hcell; injection Hcell as Hf Ht; split; assumption].
    apply (run_grid_frame (force_body a zero_force) a l j Hj
             (fun gx => force_cell gx p = force_cell g0 p)); [| | reflexivity].
    + intros g' k' s gx Hf HQ.
      rewrite (law_visit_cell (force_laws a zero_force)); [exact HQ | exact I | exact I |].
      intros He. symmetry in He. revert He. apply Hp. exact Hf.
    + intros g' v gx _ HQ.
      rewrite (law_publish_cell (force_laws a zero_force)). exact HQ.
  - pose proof (run_grid_skipped (force_body a zero_force) a l j Hj
                  force_cell force_out (fun _ => True) (fun _ => True)
                  (force_contrib a) force_pub (force_laws a zero_force) (force_zero_sum a zero_force)
                  sh0 scratch0 g gm Hg Hskip Hcen (fun _ _ => I)) as Hval.
    unfold force_out, force_pub in Hval. simpl in Hval.
    injection Hval as Hf Ht. split; assumption.
Qed.


(* ------------------------------------------------------------------ *)
(** ** The passes in the order of the kernels *)

Lemma launch_window (a : RigidArgs) (l : Launch) (j : Z) :
  launch_ok a l j -> window_size l = 2 ^ Z.of_nat (Z.to_nat j).
Proof. intros (Hj & Hw & _). rewrite Z2Nat.id by exact Hj. exact Hw. Qed.

(** Launches with the same window size have the same number of
    reduction rounds. *)
Lemma launch_rounds (a a' : RigidArgs) (l l' : Launch) (j j' : Z) :
  launch_ok a l j -> launch_ok a' l' j' ->
  window_size l = window_size l' -> j = j'.
Proof.
  intros (Hj & Hw & _) (Hj' & Hw' & _) He. rewrite Hw, Hw' in He.
  apply (Z.pow_inj_r 2); [lia | exact Hj | exact Hj' | exact He].
Qed.

Lemma constituent_term_ext {T : Type} (a : RigidArgs) (g : Z) (f f' : Z -> T) :
  (forall k, 0 <= k < d_molecule_len a g -> member a g k <> central a g -> f k = f' k) ->
  forall k, 0 <= k -> constituent_term a g f k = constituent_term a g f' k.
Proof.
  intros H k Hk. unfold constituent_term.
  destruct (Z.ltb_spec k (d_molecule_len a g)) as [Hlt | Hge]; [| reflexivity].
  destruct (Z.eqb_spec (member a g k) (central a g)) as [He | Hne]; [reflexivity |].
  simpl. rewrite (H k) by (try lia; exact Hne). reflexivity.
Qed.

Lemma constituent_term_some {T : Type} (a : RigidArgs) (g : Z) (f : Z -> T) (k : Z) (x : T) :
  0 <= k -> constituent_term a g f k = Some x ->
  In k (constituents a g) /\ x = f k.
Proof.
  intros Hk. unfold constituent_term.
  destruct (Z.ltb_spec k (d_molecule_len a g)) as [Hlt | Hge]; [| discriminate].
  destruct (Z.eqb_spec (member a g k) (central a g)) as [He | Hne]; [discriminate |].
  simpl. intros Hx. injection Hx as <-. split; [| reflexivity].
  unfold constituents. apply filter_In. split; [apply in_zrange; lia |].
  apply negb_true_iff, Z.eqb_neq. exact Hne.
Qed.

(** The force and the torque part of a total are added up side by
    side. *)
Lemma force_ordered_total (a : RigidArgs) (zero_force : bool) (g : Z) (g0 : DeviceMem)
      (n : nat) :
  ordered_total (force_body a zero_force) (force_contrib a) a g (force_cell g0) n
  = (force_window_sum a g n (d_net_force g0),
     torque_window_sum a g n (d_net_force g0) (d_net_torque g0)).
Proof.
  rewrite (surjective_pairing (ordered_total _ _ _ _ _ _)). f_equal.
  - unfold ordered_total, force_window_sum. cbn [acc_zero acc_add force_body].
    rewrite (window_sum_map (zero4, zero3) force_acc_add zero4 add4 fst
                            eq_refl (fun _ _ => eq_refl)).
    apply window_sum_ext. intros k _. unfold constituent_term.
    destruct ((k <? d_molecule_len a g) && negb (member a g k =? central a g));
      reflexivity.
  - unfold ordered_total, torque_window_sum. cbn [acc_zero acc_add force_body].
    rewrite (window_sum_map (zero4, zero3) force_acc_add zero3 add3 snd
                            eq_refl (fun _ _ => eq_refl)).
    apply window_sum_ext. intros k _. unfold constituent_term.
    destruct ((k <? d_molecule_len a g) && negb (member a g k =? central a g));
      reflexivity.
Qed.

(** The force kernel writes to the central particle of a processed body
    the net forces and the torques of its constituents, added up in the
    order of a window of the launch. *)
Lemma force_kernel_ordered (a : RigidArgs) (zero_force : bool) (l : Launch) (j : Z)
      (sh0 : Z -> BodyShared) (scratch0 : Z -> Z -> Scalar4 * Scalar3)
      (gm : DeviceMem) (g : Z) :
  launch_ok a l j ->
  members_distinct a -> centrals_distinct a ->
  processed a g -> body_fits a l g ->
  force_out (run_grid (force_body a zero_force) a l sh0 scratch0 gm) (central a g)
  = force_pub (force_window_sum a g (Z.to_nat j) (d_net_force gm),
               torque_window_sum a g (Z.to_nat j) (d_net_force gm) (d_net_torque gm)).
Proof.
  intros Hj Hdist Hcen Hproc Hfits.
  rewrite (run_grid_ordered (force_body a zero_force) a l j Hj
             force_cell force_out (fun _ => True) (fun _ => True)
             (force_contrib a) force_pub (force_laws a zero_force)
             sh0 scratch0 g gm Hproc Hfits Hdist Hcen (fun _ _ _ => I) (fun _ _ => I)).
  rewrite force_ordered_total. reflexivity.
Qed.

(** The same for the virial kernel. *)
Lemma virial_kernel_ordered (a : RigidArgs) (net_virial_pitch virial_pitch : Z)
      (l : Launch) (j : Z)
      (sh0 : Z -> BodyShared) (scratch0 : Z -> Z -> Virial6)
      (gm : DeviceMem) (g : Z) :
  launch_ok a l j ->
  members_distinct a -> centrals_distinct a ->
  (forall g' k, folded a g' k -> below_pitch net_virial_pitch (member a g' k)) ->
  (forall g', 0 <= g' < n_mol a -> below_pitch virial_pitch (central a g')) ->
  processed a g -> body_fits a l g ->
  virial_out virial_pitch
             (run_grid (virial_body a net_virial_pitch virial_pitch) a l sh0 scratch0 gm)
             (central a g)
  = virial_window_sum a net_virial_pitch g (Z.to_nat j) gm.
Proof.
  intros Hj Hdist Hcen Hokp Hokc Hproc Hfits.
  rewrite (run_grid_ordered (virial_body a net_virial_pitch virial_pitch) a l j Hj
             (virial_cell net_virial_pitch) (virial_out virial_pitch)
             (below_pitch net_virial_pitch) (below_pitch virial_pitch)
             (virial_contrib a) (fun v => v)
             (virial_laws a net_virial_pitch virial_pitch)
             sh0 scratch0 g gm Hproc Hfits Hdist Hcen Hokp Hokc).
  reflexivity.
Qed.

(** The window sums read the cells of the constituents only. *)
Lemma force_window_sum_ext (a : RigidArgs) (g : Z) (n : nat) (f f' : Z -> Scalar4) :
  (forall k, In k (constituents a g) -> f (member a g k) = f' (member a g k)) ->
  force_window_sum a g n f = force_window_sum a g n f'.
Proof.
  intros H. unfold force_window_sum. apply window_sum_ext.
  apply constituent_term_ext. intros k Hk Hne. apply H.
  unfold constituents. apply filter_In. split; [apply in_zrange; exact Hk |].
  apply negb_true_iff, Z.eqb_neq. exact Hne.
Qed.

Lemma torque_window_sum_ext (a : RigidArgs) (g : Z) (n : nat)
      (f f' t t' : Z -> Scalar4) :
  (forall k, In k (constituents a g) ->
             f (member a g k) = f' (member a g k) /\ t (member a g k) = t' (member a g k)) ->
  torque_window_sum a g n f t = torque_window_sum a g n f' t'.
Proof.
  intros H. unfold torque_window_sum. apply window_sum_ext.
  apply constituent_term_ext. intros k Hk Hne.
  destruct (H k) as [Hf Ht].
  { unfold constituents. apply filter_In. split; [apply in_zrange; exact Hk |].
    apply negb_true_iff, Z.eqb_neq. exact Hne. }
  rewrite Hf, Ht. reflexivity.
Qed.

(** Zero is neutral for the sums of vectors and of virials when it is
    for the sums of scalars. *)
Lemma add3_0_x (u : Scalar3) : add3 zero3 u = u.
Proof. destruct u. unfold add3. simpl. rewrite !sadd_0_x. reflexivity. Qed.

Lemma add3_x_0 (u : Scalar3) : add3 u zero3 = u.
Proof. destruct u. unfold add3. simpl. rewrite !sadd_x_0. reflexivity. Qed.



End Instances.

(* ------------------------------------------------------------------ *)
(** ** The concrete inputs are well formed *)

Section TwoBodies.
Import Examples.

Lemma two_bodies_folded (g k : Z) :
  folded two_bodies g k -> (g = 0 /\ (k = 1 \/ k = 2)) \/ (g = 1 /\ k = 1).
Proof.
  intros ((Hg & _) & Hk & Hne).
  change (n_mol two_bodies) with 2 in Hg.
  assert (Cg : g = 0 \/ g = 1) by lia.
  destruct Cg as [-> | ->].
  - change (d_molecule_len two_bodies 0) with 3 in Hk.
    assert (Ck : k = 0 \/ k = 1 \/ k = 2) by lia.
    destruct Ck as [-> | Ck]; [exfalso; apply Hne; reflexivity | left; auto].
  - change (d_molecule_len two_bodies 1) with 2 in Hk.
    assert (Ck : k = 0 \/ k = 1) by lia.
    destruct Ck as [-> | ->]; [exfalso; apply Hne; reflexivity | right; auto].
Qed.

Lemma two_bodies_members_distinct : members_distinct two_bodies.
Proof.
  intros g k g' k' Hf Hf' He.
  apply two_bodies_folded in Hf, Hf'.
  destruct Hf as [[-> [-> | ->]] | [-> ->]], Hf' as [[-> [-> | ->]] | [-> ->]];
    try (split; reflexivity); vm_compute in He; discriminate.
Qed.

Lemma two_bodies_centrals_distinct : centrals_distinct two_bodies.
Proof.
  intros g g' Hg Hg' He.
  change (n_mol two_bodies) with 2 in Hg, Hg'.
  assert (Cg : g = 0 \/ g = 1) by lia.
  assert (Cg' : g' = 0 \/ g' = 1) by lia.
  destruct Cg as [-> | ->], Cg' as [-> | ->];
    try reflexivity; vm_compute in He; discriminate.
Qed.

Lemma two_bodies_processed (g : Z) : 0 <= g < 2 -> processed two_bodies g.
Proof.
  intros Hg. assert (Cg : g = 0 \/ g = 1) by lia.
  destruct Cg as [-> | ->]; split; (vm_compute; intuition discriminate) || reflexivity.
Qed.

Lemma two_bodies_length_ok (g : Z) : 0 <= g < 2 -> body_length_ok two_bodies 4 g.
Proof.
  intros Hg. assert (Cg : g = 0 \/ g = 1) by lia.
  destruct Cg as [-> | ->]; vm_compute; intuition discriminate.
Qed.

Lemma two_bodies_driver_ok (r : Resources) :
  r = force_resources \/ r = virial_resources ->
  driver_ok r two_bodies 4.
Proof.
  intros [-> | ->]; (split; [exists 1; split; [lia | reflexivity] |]);
    vm_compute; intuition discriminate.
Qed.

End TwoBodies.

(* ------------------------------------------------------------------ *)
(** ** The totals of the force pass *)

Section ForceTotals.
Context {S : ScalarOps} {V : VectorMath}.

(** The slots of the central particle of a processed body after a force
    pass, with the launch the driver chooses. *)
Lemma gpu_rigid_force_ordered (r : Resources) (a : RigidArgs) (block_size : Z)
      (zero_force : bool)
      (sh0 : Z -> BodyShared) (scratch0 : Z -> Z -> Scalar4 * Scalar3)
      (g0 : DeviceMem) (g : Z) :
  driver_ok r a block_size ->
  members_distinct a -> centrals_distinct a ->
  processed a g -> body_length_ok a block_size g ->
  exists l n g1,
    launch_config r (n_mol a) (n_bodies_per_block a) block_size = Some l /\
    window_size l = 2 ^ Z.of_nat n /\
    gpu_rigid_force r a block_size zero_force sh0 scratch0 g0 = Some g1 /\
    d_force g1 (central a g) = force_window_sum a g n (d_net_force g0) /\
    d_torque g1 (central a g)
    = make_scalar4 (x3 (torque_window_sum a g n (d_net_force g0) (d_net_torque g0)))
                   (y3 (torque_window_sum a g n (d_net_force g0) (d_net_torque g0)))
                   (z3 (torque_window_sum a g n (d_net_force g0) (d_net_torque g0)))
                   szero.
Proof.
  intros Hdrv Hdist Hcen Hproc Hlen.
  destruct (driver_launch r a block_size Hdrv) as (l & j & Hcfg & Hj & Hw).
  exists l, (Z.to_nat j). eexists.
  split; [exact Hcfg |]. split; [exact (launch_window a l j Hj) |].
  split; [unfold gpu_rigid_force; rewrite Hcfg; reflexivity |].
  unfold gpu_rigid_force_sliding_kernel.
  set (gm := set_torque _ _).
  pose proof (force_kernel_ordered a zero_force l j sh0 scratch0 gm g Hj Hdist Hcen Hproc
                (body_length_fits a l block_size g Hlen Hw)) as Hval.
  unfold force_out, force_pub in Hval. cbn [fst snd] in Hval.
  injection Hval as Hf Ht. split; assumption.
Qed.

(** C1, as the code has it.  After a force-reduction pass, the force
    output slot of the central particle of every processed body (central
    particle inside the local range) holds the net forces, energy component
    included, of the non-central members of the body, added up in the order
    of the kernel: each of the [2 ^ n] threads of the window of the body
    starts from zero and adds the members of its lane one after the other,
    and the tree reduction combines the lanes.  The central particle itself
    is not a term.  The window size [2 ^ n] is the one the driver derives
    from the preferred block size and the number of bodies per block.  With
    exact addition the slot holds the sum of these net forces in any order;
    as soon as [0 + 0 = 0], it holds zero when all of them are zero. *)
Theorem central_force_is_ordered_sum
        (r : Resources) (a : RigidArgs) (block_size : Z) (zero_force : bool)
        (sh0 : Z -> BodyShared) (scratch0 : Z -> Z -> Scalar4 * Scalar3)
        (g0 : DeviceMem) (g : Z) :
  driver_ok r a block_size ->
  members_distinct a -> centrals_distinct a ->
  processed a g -> body_length_ok a block_size g ->
  exists l n g1,
    launch_config r (n_mol a) (n_bodies_per_block a) block_size = Some l /\
    window_size l = 2 ^ Z.of_nat n /\
    gpu_rigid_force r a block_size zero_force sh0 scratch0 g0 = Some g1 /\
    d_force g1 (central a g) = force_window_sum a g n (d_net_force g0) /\
    (forall k, In k (constituents a g) -> member a g k <> central a g) /\
    (ExactScalar -> d_force g1 (central a g) = force_sum a g (d_net_force g0)) /\
    (ZeroSum ->
     (forall k, In k (constituents a g) -> d_net_force g0 (member a g k) = zero4) ->
     d_force g1 (central a g) = zero4).
Proof.
  intros Hdrv Hdist Hcen Hproc Hlen.
  destruct (gpu_rigid_force_ordered r a block_size zero_force sh0 scratch0 g0 g
              Hdrv Hdist Hcen Hproc Hlen) as (l & n & g1 & Hcfg & Hw & Hrun & Hf & _).
  exists l, n, g1.
  split; [exact Hcfg |]. split; [exact Hw |]. split; [exact Hrun |].
  split; [exact Hf |]. split; [| split].
  - intros k Hk. apply (constituent_folded a g k Hproc Hk).
  - intros HE.
    destruct (gpu_rigid_force_central (E:=HE) r a block_size zero_force sh0 scratch0 g0 g
                Hdrv Hdist Hcen Hproc Hlen) as (x & Hx & Hfx & _).
    rewrite Hrun in Hx. injection Hx as <-. exact Hfx.
  - intros HZ Hzero. rewrite Hf. unfold force_window_sum.
    apply window_sum_zero; [apply (add4_0_0 (Z0:=HZ)) |].
    intros k x Hk Hx.
    destruct (constituent_term_some a g _ k x Hk Hx) as [Hin ->].
    apply Hzero. exact Hin.
Qed.

(** C2, as the code has it.  After a force-reduction pass, the torque
    output slot of the central particle of every processed body holds, for
    the non-central members of the body, the member's net torque plus the
    cross product of its relative position with its net force, added up in
    the order of the kernel (see C1); the relative position is the template
    offset rotated by the orientation stored for the central particle.
    With exact addition this is the sum of these terms in any order.  For a
    body of two particles whose constituent has zero net torque it is the
    cross product of the relative position and the net force of the
    constituent, as soon as zero is neutral for the addition. *)
Theorem central_torque_is_ordered_sum
        (r : Resources) (a : RigidArgs) (block_size : Z) (zero_force : bool)
        (sh0 : Z -> BodyShared) (scratch0 : Z -> Z -> Scalar4 * Scalar3)
        (g0 : DeviceMem) (g : Z) :
  driver_ok r a block_size ->
  members_distinct a -> centrals_distinct a ->
  processed a g -> body_length_ok a block_size g ->
  exists l n g1,
    launch_config r (n_mol a) (n_bodies_per_block a) block_size = Some l /\
    window_size l = 2 ^ Z.of_nat n /\
    gpu_rigid_force r a block_size zero_force sh0 scratch0 g0 = Some g1 /\
    vec3_of (d_torque g1 (central a g))
    = window_sum zero3 add3 n (d_molecule_len a g)
        (constituent_term a g
           (fun k =>
              add3 (vec3_of (d_net_torque g0 (member a g k)))
                   (cross (rotate (d_orientation a (central a g))
                                  (d_body_pos a
                                     (body_indexer a (btype a g) (template_slot a g k))))
                          (vec3_of (d_net_force g0 (member a g k)))))) /\
    w4 (d_torque g1 (central a g)) = szero /\
    (ExactScalar ->
     vec3_of (d_torque g1 (central a g))
     = msum zero3 add3
         (map (fun k =>
                 add3 (vec3_of (d_net_torque g0 (member a g k)))
                      (cross (rotate (d_orientation a (central a g))
                                     (d_body_pos a
                                        (body_indexer a (btype a g) (template_slot a g k))))
                             (vec3_of (d_net_force g0 (member a g k)))))
              (constituents a g))) /\
    (NeutralZero ->
     d_molecule_len a g = 2 ->
     member a g 1 <> central a g ->
     vec3_of (d_net_torque g0 (member a g 1)) = zero3 ->
     vec3_of (d_torque g1 (central a g))
     = cross (rotate (d_orientation a (central a g))
                     (d_body_pos a (body_indexer a (btype a g) (template_slot a g 1))))
             (vec3_of (d_net_force g0 (member a g 1)))).
Proof.
  intros Hdrv Hdist Hcen Hproc Hlen.
  destruct (gpu_rigid_force_ordered r a block_size zero_force sh0 scratch0 g0 g
              Hdrv Hdist Hcen Hproc Hlen) as (l & n & g1 & Hcfg & Hw & Hrun & _ & Ht).
  exists l, n, g1.
  split; [exact Hcfg |]. split; [exact Hw |]. split; [exact Hrun |].
  assert (Hvec : vec3_of (d_torque g1 (central a g))
                 = torque_window_sum a g n (d_net_force g0) (d_net_torque g0)).
  { rewrite Ht. unfold vec3_of. simpl.
    destruct (torque_window_sum a g n (d_net_force g0) (d_net_torque g0)); reflexivity. }
  split; [exact Hvec |]. split; [rewrite Ht; reflexivity |]. split.
  - intros HE.
    destruct (gpu_rigid_force_central (E:=HE) r a block_size zero_force sh0 scratch0 g0 g
                Hdrv Hdist Hcen Hproc Hlen) as (x & Hx & _ & Htx).
    rewrite Hrun in Hx. injection Hx as <-.
    rewrite Htx. unfold vec3_of. simpl.
    change (msum zero3 add3 _) with (torque_sum a g (d_net_force g0) (d_net_torque g0)).
    destruct (torque_sum a g (d_net_force g0) (d_net_torque g0)); reflexivity.
  - intros HN Hlen2 Hne Hzero. rewrite Hvec. unfold torque_window_sum.
    apply (window_sum_single zero3 add3 n (d_molecule_len a g) _ 1);
      [apply (add3_0_x (NZ:=HN)) | apply (add3_x_0 (NZ:=HN)) | lia | | ].
    + unfold constituent_term. rewrite Hlen2.
      replace (member a g 1 =? central a g) with false
        by (symmetry; apply Z.eqb_neq; exact Hne).
      simpl. rewrite Hzero, (add3_0_x (NZ:=HN)). reflexivity.
    + intros k Hk Hk1. unfold constituent_term. rewrite Hlen2.
      destruct (Z.ltb_spec k 2) as [Hlt | Hge]; [| reflexivity].
      replace k with 0 by lia. fold (central a g). rewrite Z.eqb_refl. reflexivity.
Qed.

End ForceTotals.

(* ------------------------------------------------------------------ *)
(** ** The binary64 input is well formed *)

Section FloatBody.
Import Examples.

(** Binary64 addition has [0 + 0 = 0]: what is stated under [ZeroSum]
    holds of binary64 scalars. *)
Lemma float_zero_sum : @ZeroSum FloatScalar.
Proof. constructor. reflexivity. Qed.

Lemma float_body_folded (nb g k : Z) :
  folded (float_body nb) g k -> g = 0 /\ (k = 1 \/ k = 2 \/ k = 3).
Proof.
  intros ((Hg & _) & Hk & Hne).
  change (n_mol (float_body nb)) with 1 in Hg.
  assert (g = 0) by lia. subst g. split; [reflexivity |].
  change (d_molecule_len (float_body nb) 0) with 4 in Hk.
  assert (Ck : k = 0 \/ k = 1 \/ k = 2 \/ k = 3) by lia.
  destruct Ck as [-> | Ck]; [exfalso; apply Hne; reflexivity | exact Ck].
Qed.

Lemma float_body_members_distinct (nb : Z) : members_distinct (float_body nb).
Proof.
  intros g k g' k' Hf Hf' He.
  apply float_body_folded in Hf, Hf'.
  destruct Hf as [-> [-> | [-> | ->]]], Hf' as [-> [-> | [-> | ->]]];
    try (split; reflexivity); vm_compute in He; discriminate.
Qed.

Lemma float_body_centrals_distinct (nb : Z) : centrals_distinct (float_body nb).
Proof.
  intros g g' Hg Hg' _.
  change (n_mol (float_body nb)) with 1 in Hg, Hg'. lia.
Qed.

Lemma float_body_processed (nb : Z) : processed (float_body nb) 0.
Proof. split; vm_compute; intuition discriminate. Qed.

Lemma float_body_length_ok (nb block_size : Z) :
  0 <= block_size <= 1024 -> body_length_ok (float_body nb) block_size 0.
Proof.
  intros H. unfold body_length_ok.
  change (d_molecule_len (float_body nb) 0) with 4. lia.
Qed.

Lemma float_body_driver_ok (block_size : Z) :
  block_size = 1 \/ block_size = 2 \/ block_size = 4 ->
  driver_ok force_resources (float_body 1) block_size.
Proof.
  intros [-> | [-> | ->]]; (split; [exists 0; split; [lia | reflexivity] |]);
    vm_compute; intuition discriminate.
Qed.

End FloatBody.

(* ------------------------------------------------------------------ *)
(** ** Properties of the force pass *)

Section ForcePass.
Context {S : ScalarOps} {Z0 : ZeroSum} {V : VectorMath}.

(** A visit of the force kernel clears the net torque of the member, and
    its net force when [zero_force] is set; no step of the kernel writes
    anything but zero to these buffers. *)
Lemma force_pass_clears (a : RigidArgs) (zero_force : bool) (l : Launch) (j : Z)
      (sh0 : Z -> BodyShared) (scratch0 : Z -> Z -> Scalar4 * Scalar3)
      (g0 : DeviceMem) (g k : Z) :
  launch_ok a l j ->
  folded a g k -> body_fits a l g ->
  let g1 := run_grid (force_body a zero_force) a l sh0 scratch0 g0 in
  d_net_torque g1 (member a g k) = zero4 /\
  (zero_force = true -> d_net_force g1 (member a g k) = zero4).
Proof.
  intros Hj Hf Hfits.
  apply (run_grid_reaches (force_body a zero_force) a l j Hj
           (fun gm => d_net_torque gm (member a g k) = zero4 /\
                      (zero_force = true -> d_net_force gm (member a g k) = zero4))
           sh0 scratch0 g k g0 Hf Hfits).
  - intros s gm. simpl. unfold force_visit. simpl. rewrite upd_same.
    split; [reflexivity |]. intros ->. simpl. apply upd_same.
  - intros g' k' s gm _ [Ht Hn]. simpl. unfold force_visit. simpl. split.
    + unfold upd. destruct (_ =? _); [reflexivity |].
      destruct zero_force; exact Ht.
    + intros Hz. specialize (Hn Hz). subst zero_force. simpl.
      unfold upd. destruct (_ =? _); [reflexivity | exact Hn].
  - intros g' v gm _ HR. exact HR.
Qed.


End ForcePass.

(* ------------------------------------------------------------------ *)
(** ** Properties of the virial pass and of the output reset *)

Section VirialPass.
Context {S : ScalarOps} {Z0 : ZeroSum} {NZ : NeutralZero} {V : VectorMath}.

Lemma gpu_rigid_virial_run (r : Resources) (a : RigidArgs)
      (net_virial_pitch virial_pitch block_size : Z)
      (sh0 : Z -> BodyShared) (scratch0 : Z -> Z -> Virial6) (g0 : DeviceMem) :
  driver_ok r a block_size ->
  exists l j,
    launch_ok a l j /\
    window_size l <= block_size /\
    gpu_rigid_virial r a net_virial_pitch virial_pitch block_size sh0 scratch0 g0
    = Some (run_grid (virial_body a net_virial_pitch virial_pitch) a l sh0 scratch0
              (set_virial g0 (memset_zero szero (virial_pitch * 6) (d_virial g0)))).
Proof.
  intros Hdrv. destruct (driver_launch r a block_size Hdrv) as (l & j & Hcfg & Hj & Hw).
  exists l, j. split; [exact Hj |]. split; [exact Hw |].
  unfold gpu_rigid_virial. rewrite Hcfg. reflexivity.
Qed.

(** A visit of the virial kernel leaves zero in the cell of the member. *)
Lemma virial_visit_clears (a : RigidArgs) (net_virial_pitch : Z)
      (bt : Z) (q : Scalar4) (p li : Z) (s : Virial6) (g : DeviceMem) :
  below_pitch net_virial_pitch p ->
  virial_cell net_virial_pitch (snd (virial_visit a net_virial_pitch bt q p li (s, g))) p
  = (zero4, zero_virial6).
Proof.
  intros [Hp Hn]. unfold virial_visit, virial_cell.
  cbn [d_net_force d_net_virial set_net_force set_net_virial fst snd].
  repeat match goal with
         | |- context [u32 ?e] => rewrite (u32_small e) by lia
         end.
  repeat (rewrite ?upd_same; rewrite ?upd_other by lia). reflexivity.
Qed.


(** Two force passes from memories with the same net forces and net
    torques leave the same force and torque in the first [N] slots. *)
Lemma force_pass_ignores_old_output (a : RigidArgs) (zero_force : bool) (l : Launch)
      (sh0 : Z -> BodyShared) (scratch0 : Z -> Z -> Scalar4 * Scalar3)
      (g g' : DeviceMem) :
  (forall p, d_net_force g p = d_net_force g' p /\ d_net_torque g p = d_net_torque g' p) ->
  (forall i, 0 <= i < N a -> d_force g i = d_force g' i /\ d_torque g i = d_torque g' i) ->
  forall i, 0 <= i < N a ->
    d_force (run_grid (force_body a zero_force) a l sh0 scratch0 g) i
    = d_force (run_grid (force_body a zero_force) a l sh0 scratch0 g') i /\
    d_torque (run_grid (force_body a zero_force) a l sh0 scratch0 g) i
    = d_torque (run_grid (force_body a zero_force) a l sh0 scratch0 g') i.
Proof.
  intros Hnet Hout.
  apply (run_grid_related (force_body a zero_force) a l
           (fun gm gm' =>
              (forall p, d_net_force gm p = d_net_force gm' p /\
                         d_net_torque gm p = d_net_torque gm' p) /\
              (forall i, 0 <= i < N a ->
                         d_force gm i = d_force gm' i /\ d_torque gm i = d_torque gm' i))).
  - intros bt q p li s gm gm' [Hn Ho]. cbn [visit force_body]. unfold force_visit.
    cbn [fst snd]. destruct (Hn p) as [Hf Ht]. rewrite Hf, Ht.
    split; [reflexivity |]. split.
    + intros p'. destruct (Hn p') as [Hf' Ht'].
      destruct zero_force; cbn [d_net_force d_net_torque set_net_force set_net_torque];
        unfold upd; destruct (p' =? p); auto.
    + intros i Hi. destruct zero_force; apply Ho; exact Hi.
  - intros c v gm gm' [Hn Ho]. cbn [publish force_body]. unfold force_publish. split.
    + exact Hn.
    + intros i Hi. destruct (Ho i Hi) as [Hf Ht].
      cbn [d_force d_torque set_force set_torque]. unfold upd.
      destruct (i =? c); auto.
  - split; assumption.
Qed.

(** Two virial passes from memories with the same net forces and net
    virials leave the same virial in the first [6 * virial_pitch] entries. *)
Lemma virial_pass_ignores_old_output (a : RigidArgs) (net_virial_pitch virial_pitch : Z)
      (l : Launch) (sh0 : Z -> BodyShared) (scratch0 : Z -> Z -> Virial6)
      (g g' : DeviceMem) :
  (forall p, d_net_force g p = d_net_force g' p /\ d_net_virial g p = d_net_virial g' p) ->
  (forall i, 0 <= i < virial_pitch * 6 -> d_virial g i = d_virial g' i) ->
  forall i, 0 <= i < virial_pitch * 6 ->
    d_virial (run_grid (virial_body a net_virial_pitch virial_pitch) a l sh0 scratch0 g) i
    = d_virial (run_grid (virial_body a net_virial_pitch virial_pitch) a l sh0 scratch0 g') i.
Proof.
  intros Hnet Hout.
  apply (run_grid_related (virial_body a net_virial_pitch virial_pitch) a l
           (fun gm gm' =>
              (forall p, d_net_force gm p = d_net_force gm' p /\
                         d_net_virial gm p = d_net_virial gm' p) /\
              (forall i, 0 <= i < virial_pitch * 6 -> d_virial gm i = d_virial gm' i))).
  - intros bt q p li s gm gm' [Hn Ho]. cbn [visit virial_body]. unfold virial_visit.
    cbn [fst snd]. rewrite (proj1 (Hn p)).
    rewrite !(fun x => proj2 (Hn x)).
    split; [reflexivity |]. split.
    + intros p'. destruct (Hn p') as [Hf' Hv'].
      cbn [d_net_force d_net_virial set_net_force set_net_virial]. unfold upd.
      split; [destruct (p' =? p); auto |].
      repeat (destruct (p' =? _); [reflexivity |]). exact Hv'.
    + intros i Hi. apply Ho. exact Hi.
  - intros c v gm gm' [Hn Ho]. cbn [publish virial_body]. unfold virial_publish. split.
    + exact Hn.
    + intros i Hi. cbn [d_virial set_virial]. unfold upd.
      repeat (destruct (i =? _); [reflexivity |]). apply Ho. exact Hi.
  - split; assumption.
Qed.

(** C10.  The force driver clears the first [N] force and torque output
    slots and the virial driver the first [6 * virial_pitch] virial output
    entries before the kernel runs, and the kernel only writes the slots of
    central particles: after a pass every cleared slot that is not the slot
    of the central particle of a processed body reads zero, whether or not
    its particle belongs to a body, and what a pass leaves in the cleared
    slots does not depend on what the output buffers held before.  Of the
    addition of scalars only [0 + 0 = 0] is used, for the empty totals of
    bodies that are not processed. *)
Theorem outputs_zero_outside_processed_centrals
        (rf rv : Resources) (a : RigidArgs)
        (net_virial_pitch virial_pitch block_size : Z) (zero_force : bool)
        (sh0 : Z -> BodyShared)
        (fscratch0 : Z -> Z -> Scalar4 * Scalar3) (vscratch0 : Z -> Z -> Virial6)
        (g0 : DeviceMem) :
  driver_ok rf a block_size ->
  driver_ok rv a block_size ->
  (exists g1,
     gpu_rigid_force rf a block_size zero_force sh0 fscratch0 g0 = Some g1 /\
     (forall i, 0 <= i < N a ->
                (forall g, processed a g -> central a g <> i) ->
                d_force g1 i = zero4 /\ d_torque g1 i = zero4) /\
     (forall g0',
         (forall p, d_net_force g0' p = d_net_force g0 p /\
                    d_net_torque g0' p = d_net_torque g0 p) ->
         exists g1',
           gpu_rigid_force rf a block_size zero_force sh0 fscratch0 g0' = Some g1' /\
           forall i, 0 <= i < N a ->
                     d_force g1' i = d_force g1 i /\ d_torque g1' i = d_torque g1 i)) /\
  (exists g1,
     gpu_rigid_virial rv a net_virial_pitch virial_pitch block_size sh0 vscratch0 g0
     = Some g1 /\
     (forall i, 0 <= i < virial_pitch * 6 ->
                (forall g k, processed a g -> 0 <= k < 6 ->
                             u32 (k * virial_pitch + central a g) <> i) ->
                d_virial g1 i = szero) /\
     (forall g0',
         (forall p, d_net_force g0' p = d_net_force g0 p /\
                    d_net_virial g0' p = d_net_virial g0 p) ->
         exists g1',
           gpu_rigid_virial rv a net_virial_pitch virial_pitch block_size sh0 vscratch0 g0'
           = Some g1' /\
           forall i, 0 <= i < virial_pitch * 6 -> d_virial g1' i = d_virial g1 i)).
Proof.
  intros Hf Hv. split.
  - destruct (driver_launch rf a block_size Hf) as (lf & j & Hcfg & Hj & _).
    unfold gpu_rigid_force. rewrite Hcfg.
    eexists. split; [reflexivity |]. split.
    + intros i Hi Hnc. unfold gpu_rigid_force_sliding_kernel.
      apply (run_grid_frame (force_body a zero_force) a lf j Hj
               (fun gm => d_force gm i = zero4 /\ d_torque gm i = zero4)).
      * intros g k s gm _ HQ. simpl. unfold force_visit. simpl.
        destruct zero_force; exact HQ.
      * intros g v gm Hg [HQf HQt].
        assert (Hne : i <> central a g).
        { destruct (Z_lt_le_dec (central a g) (N a)) as [Hlt | Hge]; [| lia].
          intros He. apply (Hnc g); [split; assumption | symmetry; exact He]. }
        simpl. unfold force_publish. simpl.
        rewrite !upd_other by exact Hne. split; assumption.
      * simpl. unfold memset_zero.
        replace ((0 <=? i) && (i <? N a)) with true; [split; reflexivity |].
        symmetry. apply andb_true_iff. split; [apply Z.leb_le | apply Z.ltb_lt]; lia.
    + intros g0' Hnet. eexists. split; [reflexivity |].
      unfold gpu_rigid_force_sliding_kernel.
      apply force_pass_ignores_old_output.
      * exact Hnet.
      * intros i Hi. cbn [d_force d_torque set_force set_torque]. unfold memset_zero.
        replace ((0 <=? i) && (i <? N a)) with true; [split; reflexivity |].
        symmetry. apply andb_true_iff. split; [apply Z.leb_le | apply Z.ltb_lt]; lia.
  - destruct (driver_launch rv a block_size Hv) as (lv & j & Hcfg & Hj & _).
    unfold gpu_rigid_virial. rewrite Hcfg.
    eexists. split; [reflexivity |]. split.
    + intros i Hi Hnc. unfold gpu_rigid_virial_sliding_kernel.
      apply (run_grid_inv (virial_body a net_virial_pitch virial_pitch) a lv j Hj
            (virial_zero_sum a net_virial_pitch virial_pitch)
               (fun gm => d_virial gm i = szero)).
      * intros g k s gm _ HQ. exact HQ.
      * intros g v gm Hg Hskip HQ.
        change (publish (virial_body a net_virial_pitch virial_pitch))
          with (virial_publish virial_pitch).
        unfold virial_publish. cbn [d_virial set_virial].
        destruct (Z_lt_le_dec (central a g) (N a)) as [Hlt | Hge].
        -- assert (Hp : processed a g) by (split; assumption).
           rewrite !upd_other; [exact HQ | | | | | | ];
             intros He; symmetry in He; revert He; apply (Hnc g _ Hp); lia.
        -- rewrite (Hskip Hge).
           change (acc_zero (virial_body a net_virial_pitch virial_pitch))
             with zero_virial6.
           cbn [vxx vxy vxz vyy vyz vzz zero_virial6].
           unfold upd. repeat (destruct (_ =? _); [reflexivity |]). exact HQ.
      * simpl. unfold memset_zero.
        replace ((0 <=? i) && (i <? virial_pitch * 6)) with true; [reflexivity |].
        symmetry. apply andb_true_iff. split; [apply Z.leb_le | apply Z.ltb_lt]; lia.
    + intros g0' Hnet. eexists. split; [reflexivity |].
      unfold gpu_rigid_virial_sliding_kernel.
      apply virial_pass_ignores_old_output.
      * exact Hnet.
      * intros i Hi. cbn [d_virial set_virial]. unfold memset_zero.
        replace ((0 <=? i) && (i <? virial_pitch * 6)) with true; [reflexivity |].
        symmetry. apply andb_true_iff. split; [apply Z.leb_le | apply Z.ltb_lt]; lia.
Qed.

End VirialPass.

Section ForcePassWitnesses.
Import Examples.
#[local] Existing Instance FloatVectorMath.

(** The launches of the two passes over [float_body]. *)
Lemma float_body_pass (block_size : Z) :
  block_size = 1 \/ block_size = 4 ->
  gpu_rigid_force force_resources (float_body 1) block_size true
                  float_junk_shared float_junk_force_scratch float_body_mem
  = Some (gpu_rigid_force_sliding_kernel (float_body 1) true
            {| gridDim := 2; blockDim := block_size;
               window_size := block_size; thread_mask := block_size - 1 |}
            float_junk_shared float_junk_force_scratch
            (set_torque
               (set_force float_body_mem
                          (memset_zero zero4 4 (d_force float_body_mem)))
               (memset_zero zero4 4 (d_torque float_body_mem)))).
Proof.
  intros Hb. unfold gpu_rigid_force.
  change (n_mol (float_body 1)) with 1.
  change (n_bodies_per_block (float_body 1)) with 1.
  change (N (float_body 1)) with 4.
  assert (Hcfg : launch_config force_resources 1 1 block_size
                 = Some {| gridDim := 2; blockDim := block_size;
                           window_size := block_size; thread_mask := block_size - 1 |}).
  { destruct Hb as [-> | ->]; vm_compute; reflexivity. }
  rewrite Hcfg. reflexivity.
Qed.

Lemma central_force_is_ordered_sum_witness :
  (exists n g1,
     gpu_rigid_force force_resources (float_body 1) 4 true
                     float_junk_shared float_junk_force_scratch float_body_mem = Some g1 /\
     d_force g1 0 = force_window_sum (float_body 1) 0 n (d_net_force float_body_mem) /\
     x4 (d_force g1 0) = 9007199254740992%float) /\
  (exists g1,
     gpu_rigid_force force_resources two_bodies 4 true junk_shared junk_force_scratch
                     two_bodies_mem = Some g1 /\
     d_force g1 0 = v4 0 2 3 12).
Proof.
  split.
  - destruct (central_force_is_ordered_sum (V:=FloatVectorMath)
                force_resources (float_body 1) 4 true
                float_junk_shared float_junk_force_scratch float_body_mem 0)
      as (l & n & g1 & _ & _ & Hrun & Hsum & _).
    + apply float_body_driver_ok. right. right. reflexivity.
    + apply float_body_members_distinct.
    + apply float_body_centrals_distinct.
    + apply float_body_processed.
    + apply float_body_length_ok. lia.
    + exists n, g1. split; [exact Hrun |]. split; [exact Hsum |].
      assert (Hx : option_map (fun g => x4 (d_force g 0))
                     (gpu_rigid_force force_resources (float_body 1) 4 true
                        float_junk_shared float_junk_force_scratch float_body_mem)
                   = Some 9007199254740992%float) by (vm_compute; reflexivity).
      rewrite Hrun in Hx. cbn [option_map] in Hx. injection Hx as Hx. exact Hx.
  - destruct (central_force_is_ordered_sum
                force_resources two_bodies 4 true
                junk_shared junk_force_scratch two_bodies_mem 0)
      as (l & n & g1 & _ & _ & Hrun & _ & _ & Hexact & _).
    + apply two_bodies_driver_ok. left. reflexivity.
    + exact two_bodies_members_distinct.
    + exact two_bodies_centrals_distinct.
    + apply two_bodies_processed. lia.
    + apply two_bodies_length_ok. lia.
    + exists g1. split; [exact Hrun | exact (Hexact ZExact)].
Defined.

(** C1, as the specification has it, fails for floating-point scalars:
    the slot does not hold a sum that the net forces determine.  On
    [float_body] the net forces of the three constituents are 1, 1 and
    [2 ^ 53] along x.  A pass launched with the preferred block size 4 adds
    them in a window of four threads and writes [2 ^ 53]; a pass launched
    with the block size 1 adds them one after the other and writes
    [2 ^ 53 + 2], which is their sum and differs from what adding them in
    list order from the right gives. *)
Lemma central_force_depends_on_block_size :
  (driver_ok force_resources (float_body 1) 4 /\
   driver_ok force_resources (float_body 1) 1 /\
   members_distinct (float_body 1) /\ centrals_distinct (float_body 1) /\
   processed (float_body 1) 0 /\
   body_length_ok (float_body 1) 4 0) /\
  exists g4 g1,
    gpu_rigid_force force_resources (float_body 1) 4 true
                    float_junk_shared float_junk_force_scratch float_body_mem = Some g4 /\
    gpu_rigid_force force_resources (float_body 1) 1 true
                    float_junk_shared float_junk_force_scratch float_body_mem = Some g1 /\
    x4 (d_force g4 (central (float_body 1) 0)) = 9007199254740992%float /\
    x4 (d_force g1 (central (float_body 1) 0)) = 9007199254740994%float /\
    x4 (force_sum (float_body 1) 0 (d_net_force float_body_mem))
    = 9007199254740992%float /\
    d_force g4 (central (float_body 1) 0) <> d_force g1 (central (float_body 1) 0) /\
    d_force g1 (central (float_body 1) 0)
    <> force_sum (float_body 1) 0 (d_net_force float_body_mem).
Proof.
  split.
  - split; [apply float_body_driver_ok; right; right; reflexivity |].
    split; [apply float_body_driver_ok; left; reflexivity |].
    split; [apply float_body_members_distinct |].
    split; [apply float_body_centrals_distinct |].
    split; [apply float_body_processed | apply float_body_length_ok; lia].
  - eexists. eexists.
    split; [apply float_body_pass; right; reflexivity |].
    split; [apply float_body_pass; left; reflexivity |].
    split; [vm_compute; reflexivity |]. split; [vm_compute; reflexivity |].
    split; [vm_compute; reflexivity |].
    split; intros H; apply (f_equal (fun u : @Scalar4 FloatScalar =>
                                PrimFloat.eqb (x4 u : float) 9007199254740992)) in H;
      vm_compute in H; discriminate.
Qed.

Lemma central_torque_is_ordered_sum_witness :
  (exists n g1,
     gpu_rigid_force force_resources (float_body 1) 4 true
                     float_junk_shared float_junk_force_scratch float_body_mem = Some g1 /\
     vec3_of (d_torque g1 0)
     = torque_window_sum (float_body 1) 0 n
                         (d_net_force float_body_mem) (d_net_torque float_body_mem) /\
     x4 (d_torque g1 0) = 9007199254740992%float) /\
  (exists g1,
     gpu_rigid_force force_resources two_bodies 4 false junk_shared junk_force_scratch
                     two_bodies_mem = Some g1 /\
     vec3_of (d_torque g1 0) = v3 4 1 2 /\
     vec3_of (d_torque g1 3) = v3 0 (-4) 3).
Proof.
  split.
  - destruct (central_torque_is_ordered_sum (V:=FloatVectorMath)
                force_resources (float_body 1) 4 true
                float_junk_shared float_junk_force_scratch float_body_mem 0)
      as (l & n & g1 & _ & _ & Hrun & Hsum & _).
    + apply float_body_driver_ok. right. right. reflexivity.
    + apply float_body_members_distinct.
    + apply float_body_centrals_distinct.
    + apply float_body_processed.
    + apply float_body_length_ok. lia.
    + exists n, g1. split; [exact Hrun |]. split; [exact Hsum |].
      assert (Hx : option_map (fun g => x4 (d_torque g 0))
                     (gpu_rigid_force force_resources (float_body 1) 4 true
                        float_junk_shared float_junk_force_scratch float_body_mem)
                   = Some 9007199254740992%float) by (vm_compute; reflexivity).
      rewrite Hrun in Hx. cbn [option_map] in Hx. injection Hx as Hx. exact Hx.
  - destruct (central_torque_is_ordered_sum
                force_resources two_bodies 4 false
                junk_shared junk_force_scratch two_bodies_mem 1)
      as (l & n & g1 & _ & _ & Hrun & _ & _ & _ & Htwo).
    + apply two_bodies_driver_ok. left. reflexivity.
    + exact two_bodies_members_distinct.
    + exact two_bodies_centrals_distinct.
    + apply two_bodies_processed. lia.
    + apply two_bodies_length_ok. lia.
    + exists g1. split; [exact Hrun |]. split.
      * vm_compute in Hrun. injection Hrun as <-. reflexivity.
      * apply (Htwo ZNeutralZero); [reflexivity | discriminate | reflexivity].
Defined.

(** C2, as the specification has it, fails for floating-point scalars in
    the same way.  On [float_body] the net torques of the three constituents
    are 1, 1 and [2 ^ 53] about x and their net forces exert no torque about
    the central particle: a pass launched with the preferred block size 4
    writes the torque [2 ^ 53], a pass launched with the block size 1 writes
    [2 ^ 53 + 2], and adding the terms in list order from the right gives
    [2 ^ 53]. *)
Lemma central_torque_depends_on_block_size :
  (driver_ok force_resources (float_body 1) 4 /\
   driver_ok force_resources (float_body 1) 1 /\
   members_distinct (float_body 1) /\ centrals_distinct (float_body 1) /\
   processed (float_body 1) 0 /\
   body_length_ok (float_body 1) 4 0) /\
  exists g4 g1,
    gpu_rigid_force force_resources (float_body 1) 4 true
                    float_junk_shared float_junk_force_scratch float_body_mem = Some g4 /\
    gpu_rigid_force force_resources (float_body 1) 1 true
                    float_junk_shared float_junk_force_scratch float_body_mem = Some g1 /\
    x4 (d_torque g4 (central (float_body 1) 0)) = 9007199254740992%float /\
    x4 (d_torque g1 (central (float_body 1) 0)) = 9007199254740994%float /\
    x3 (torque_sum (float_body 1) 0 (d_net_force float_body_mem)
                   (d_net_torque float_body_mem))
    = 9007199254740992%float /\
    vec3_of (d_torque g4 (central (float_body 1) 0))
    <> vec3_of (d_torque g1 (central (float_body 1) 0)) /\
    vec3_of (d_torque g1 (central (float_body 1) 0))
    <> torque_sum (float_body 1) 0 (d_net_force float_body_mem)
                  (d_net_torque float_body_mem).
Proof.
  split.
  - split; [apply float_body_driver_ok; right; right; reflexivity |].
    split; [apply float_body_driver_ok; left; reflexivity |].
    split; [apply float_body_members_distinct |].
    split; [apply float_body_centrals_distinct |].
    split; [apply float_body_processed | apply float_body_length_ok; lia].
  - eexists. eexists.
    split; [apply float_body_pass; right; reflexivity |].
    split; [apply float_body_pass; left; reflexivity |].
    split; [vm_compute; reflexivity |]. split; [vm_compute; reflexivity |].
    split; [vm_compute; reflexivity |].
    split; intros H; apply (f_equal (fun u : @Scalar3 FloatScalar =>
                                PrimFloat.eqb (x3 u : float) 9007199254740992)) in H;
      vm_compute in H; discriminate.
Qed.



Lemma outputs_zero_outside_processed_centrals_witness :
  (exists g1,
     gpu_rigid_force force_resources two_bodies 4 true junk_shared junk_force_scratch
                     two_bodies_mem = Some g1 /\
     forall i, 0 <= i < N two_bodies ->
               (forall g, processed two_bodies g -> central two_bodies g <> i) ->
               d_force g1 i = zero4 /\ d_torque g1 i = zero4) /\
  (exists g1,
     gpu_rigid_virial virial_resources two_bodies 8 8 4 junk_shared junk_virial_scratch
                      two_bodies_mem = Some g1 /\
     forall i, 0 <= i < 8 * 6 ->
               (forall g k, processed two_bodies g -> 0 <= k < 6 ->
                            u32 (k * 8 + central two_bodies g) <> i) ->
               d_virial g1 i = szero).
Proof.
  destruct (outputs_zero_outside_processed_centrals
              force_resources virial_resources two_bodies 8 8 4 true
              junk_shared junk_force_scratch junk_virial_scratch two_bodies_mem)
    as [(gf & Hrunf & Hzf & _) (gv & Hrunv & Hzv & _)].
  - apply two_bodies_driver_ok. left. reflexivity.
  - apply two_bodies_driver_ok. right. reflexivity.
  - split; [exists gf | exists gv]; split; assumption.
Defined.

(** C6 fails on the code.  For every existing body whose central particle
    lies outside the local range, the pass does leave alone the net force
    and net torque of every particle that is a folded member of no body,
    but the write at the end of the kernel is not guarded by the test of
    the gather phase: the force and torque slots of the central particle,
    which the driver did not clear, receive zero whatever they held (the
    empty total is zero as soon as [0 + 0 = 0]).  On [ghost_central] the central particle is at index 1, beyond the single
    local particle; its slots held [(5,5,5,5)] and hold zero after the
    pass, while the constituent keeps its net force and net torque. *)
Theorem skipped_body_central_slot_is_overwritten :
  (forall (S0 : ScalarOps) (Z1 : @ZeroSum S0) (V0 : @VectorMath S0)
          (r : Resources) (a : @RigidArgs S0) (block_size : Z) (zero_force : bool)
          (sh0 : Z -> @BodyShared S0)
          (scratch0 : Z -> Z -> @Scalar4 S0 * @Scalar3 S0)
          (g0 : @DeviceMem S0) (g : Z),
      driver_ok r a block_size ->
      centrals_distinct a ->
      0 <= g < n_mol a -> N a <= central a g ->
      exists g1,
        gpu_rigid_force r a block_size zero_force sh0 scratch0 g0 = Some g1 /\
        (forall p, (forall g' k', folded a g' k' -> member a g' k' <> p) ->
                   d_net_force g1 p = d_net_force g0 p /\
                   d_net_torque g1 p = d_net_torque g0 p) /\
        d_force g1 (central a g) = zero4 /\
        d_torque g1 (central a g) = zero4) /\
  (exists g1,
     gpu_rigid_force force_resources ghost_central 64 true junk_shared junk_force_scratch
                     ghost_central_mem = Some g1 /\
     0 <= 0 < n_mol ghost_central /\
     N ghost_central <= central ghost_central 0 /\
     d_net_force g1 (member ghost_central 0 1)
     = d_net_force ghost_central_mem (member ghost_central 0 1) /\
     d_net_torque g1 (member ghost_central 0 1)
     = d_net_torque ghost_central_mem (member ghost_central 0 1) /\
     d_force ghost_central_mem (central ghost_central 0) = v4 5 5 5 5 /\
     d_force g1 (central ghost_central 0) = zero4 /\
     d_torque ghost_central_mem (central ghost_central 0) = v4 5 5 5 5 /\
     d_torque g1 (central ghost_central 0) = zero4).
Proof.
  split.
  - intros S0 Z1 V0 r a block_size zero_force sh0 scratch0 g0 g Hdrv Hcen Hg Hskip.
    apply gpu_rigid_force_skipped; assumption.
  - eexists. split; [vm_compute; reflexivity |].
    repeat split; try reflexivity; vm_compute; discriminate.
Qed.

End ForcePassWitnesses.

(* ------------------------------------------------------------------ *)
(** ** What a pass keeps whatever the launch *)

Section Frames.
Context {S : ScalarOps} {A G : Type}.
Variable K : KernelBody A G.
Variable a : RigidArgs.
Variable l : Launch.
Variable Q : G -> Prop.
Hypothesis visit_keeps :
  forall bt q p li s g, Q g -> Q (snd (visit K bt q p li (s, g))).
Hypothesis publish_keeps : forall c v g, Q g -> Q (publish K c v g).

(** What every visit and every final write keeps, the grid keeps, for
    any grid and block extent. *)
Lemma run_grid_keeps (sh0 : Z -> BodyShared) (scratch0 : Z -> Z -> A) (g : G) :
  Q g -> Q (run_grid K a l sh0 scratch0 g).
Proof.
  intros HQ.
  destruct (run_grid_related K a l (fun g1 g2 => Q g1 /\ g2 = g1)) with
    (sh0 := sh0) (scratch0 := scratch0) (g := g) (g' := g) as [H _].
  - intros bt q p li s g1 g2 [H1 ->]. split; [reflexivity |].
    split; [apply visit_keeps; exact H1 | reflexivity].
  - intros c v g1 g2 [H1 ->]. split; [apply publish_keeps; exact H1 | reflexivity].
  - split; [exact HQ | reflexivity].
  - exact H.
Qed.

End Frames.

(* ------------------------------------------------------------------ *)
(** ** The virial of a body of any length *)

Section VirialTotals.
Context {S : ScalarOps} {V : VectorMath}.

(** X1.  After a virial pass the six virial output entries of the central
    particle of a processed body hold, for the non-central members of the
    body, the member's net virial minus the outer product of its net force
    and its relative position, added up in the order of the kernel: each of
    the [2 ^ n] threads of the window of the body starts from zero and adds
    the members of its lane one after the other, and the tree reduction
    combines the lanes; [2 ^ n] is the window size of the launch.  With
    exact addition this is the sum of these terms in any order. *)
Theorem central_virial_is_ordered_sum
        (r : Resources) (a : RigidArgs) (net_virial_pitch virial_pitch block_size : Z)
        (sh0 : Z -> BodyShared) (scratch0 : Z -> Z -> Virial6)
        (g0 : DeviceMem) (g : Z) :
  driver_ok r a block_size ->
  members_distinct a -> centrals_distinct a ->
  (forall g' k, folded a g' k -> below_pitch net_virial_pitch (member a g' k)) ->
  (forall g', 0 <= g' < n_mol a -> below_pitch virial_pitch (central a g')) ->
  processed a g -> body_length_ok a block_size g ->
  exists l n g1,
    launch_config r (n_mol a) (n_bodies_per_block a) block_size = Some l /\
    window_size l = 2 ^ Z.of_nat n /\
    gpu_rigid_virial r a net_virial_pitch virial_pitch block_size sh0 scratch0 g0 = Some g1 /\
    virial_out virial_pitch g1 (central a g)
    = virial_window_sum a net_virial_pitch g n g0 /\
    (ExactScalar ->
     virial_out virial_pitch g1 (central a g)
     = msum zero_virial6 virial_acc_add
         (map (fun k =>
                 virial_minus_outer
                   (snd (virial_cell net_virial_pitch g0 (member a g k)))
                   (d_net_force g0 (member a g k))
                   (relative_position a g k))
              (constituents a g))).
Proof.
  intros Hdrv Hdist Hcen Hokp Hokc Hproc Hlong.
  destruct (driver_launch r a block_size Hdrv) as (l & j & Hcfg & Hj & Hw).
  pose proof (body_length_fits a l block_size g Hlong Hw) as Hfits.
  exists l, (Z.to_nat j). eexists.
  split; [exact Hcfg |]. split; [exact (launch_window a l j Hj) |].
  split; [unfold gpu_rigid_virial; rewrite Hcfg; reflexivity |].
  unfold gpu_rigid_virial_sliding_kernel.
  set (gm := set_virial _ _). split.
  - rewrite (virial_kernel_ordered a net_virial_pitch virial_pitch l j sh0 scratch0 gm g
               Hj Hdist Hcen Hokp Hokc Hproc Hfits).
    reflexivity.
  - intros HE.
    rewrite (run_grid_value (virial_body a net_virial_pitch virial_pitch) a l j Hj
               (virial_cell net_virial_pitch) (virial_out virial_pitch)
               (below_pitch net_virial_pitch) (below_pitch virial_pitch)
               (virial_contrib a) (fun v => v)
               (virial_laws a net_virial_pitch virial_pitch)
               (virial_sum_laws (E:=HE) a net_virial_pitch virial_pitch)
               sh0 scratch0 g gm Hproc Hfits Hdist Hcen Hokp Hokc).
    reflexivity.
Qed.

(** X2.  After a virial pass the net force and the six net virial entries of
    every folded constituent read zero. *)
Theorem virial_pass_clears_constituents
        (r : Resources) (a : RigidArgs) (net_virial_pitch virial_pitch block_size : Z)
        (sh0 : Z -> BodyShared) (scratch0 : Z -> Z -> Virial6) (g0 : DeviceMem) :
  driver_ok r a block_size ->
  (forall g k, folded a g k -> below_pitch net_virial_pitch (member a g k)) ->
  (forall g, processed a g -> body_length_ok a block_size g) ->
  exists g1,
    gpu_rigid_virial r a net_virial_pitch virial_pitch block_size sh0 scratch0 g0 = Some g1 /\
    forall g k, folded a g k ->
      d_net_force g1 (member a g k) = zero4 /\
      forall row, 0 <= row < 6 ->
        d_net_virial g1 (row * net_virial_pitch + member a g k) = szero.
Proof.
  intros Hdrv Hokp Hlong.
  destruct (gpu_rigid_virial_run r a net_virial_pitch virial_pitch block_size
              sh0 scratch0 g0 Hdrv) as (l & j & Hj & Hw & Hrun).
  eexists. split; [exact Hrun |].
  set (gm := set_virial _ _).
  intros g k Hfold.
  assert (Hcell :
    virial_cell net_virial_pitch
      (run_grid (virial_body a net_virial_pitch virial_pitch) a l sh0 scratch0 gm)
      (member a g k) = (zero4, zero_virial6)).
  { apply (run_grid_reaches (virial_body a net_virial_pitch virial_pitch) a l j Hj
             (fun gm' => virial_cell net_virial_pitch gm' (member a g k)
                         = (zero4, zero_virial6))
             sh0 scratch0 g k gm Hfold).
    - apply (body_length_fits a l block_size g); [| exact Hw].
      apply Hlong. apply Hfold.
    - intros s gm'. apply virial_visit_clears. apply (Hokp g k Hfold).
    - intros g' k' s gm' Hf' HR.
      destruct (Z.eq_dec (member a g k) (member a g' k')) as [He | Hne'].
      + rewrite He. apply virial_visit_clears. apply (Hokp g' k' Hf').
      + rewrite (law_visit_cell (virial_laws a net_virial_pitch virial_pitch));
          [exact HR | apply (Hokp g' k' Hf') | apply (Hokp g k Hfold) | exact Hne'].
    - intros g' v gm' _ HR. exact HR. }
  unfold virial_cell in Hcell. injection Hcell as Hf Hxx Hxy Hxz Hyy Hyz Hzz.
  split; [exact Hf |].
  destruct (Hokp g k Hfold) as [Hp Hn].
  intros row Hrow.
  rewrite <- (u32_small (row * net_virial_pitch + member a g k)) by nia.
  assert (Hcases : row = 0 \/ row = 1 \/ row = 2 \/ row = 3 \/ row = 4 \/ row = 5) by lia.
  destruct Hcases as [-> | [-> | [-> | [-> | [-> | ->]]]]]; assumption.
Qed.

End VirialTotals.

(* ------------------------------------------------------------------ *)
(** ** What the passes leave alone *)

Section PassFrames.
Context {S : ScalarOps} {V : VectorMath}.

Lemma memset_zero_outside {T : Type} (zero : T) (n : Z) (buf : Z -> T) (i : Z) :
  ~ 0 <= i < n -> memset_zero zero n buf i = buf i.
Proof.
  intros Hout. unfold memset_zero.
  destruct (Z.leb_spec 0 i); destruct (Z.ltb_spec i n); simpl; try reflexivity; lia.
Qed.

Lemma memset_zero_inside {T : Type} (zero : T) (n : Z) (buf : Z -> T) (i : Z) :
  0 <= i < n -> memset_zero zero n buf i = zero.
Proof.
  intros Hin. unfold memset_zero.
  destruct (Z.leb_spec 0 i); destruct (Z.ltb_spec i n); simpl; try reflexivity; lia.
Qed.

(** The force kernel never writes the virial buffers, and writes the
    net forces only when [zero_force] is set, for any launch. *)
Lemma force_kernel_keeps (a : RigidArgs) (zero_force : bool) (l : Launch)
      (sh0 : Z -> BodyShared) (scratch0 : Z -> Z -> Scalar4 * Scalar3) (g : DeviceMem) :
  let g1 := run_grid (force_body a zero_force) a l sh0 scratch0 g in
  (forall i, d_virial g1 i = d_virial g i) /\
  (forall i, d_net_virial g1 i = d_net_virial g i) /\
  (zero_force = false -> forall p, d_net_force g1 p = d_net_force g p).
Proof.
  cbv zeta. split; [| split].
  - intros i.
    apply (run_grid_keeps (force_body a zero_force) a l
             (fun gx => d_virial gx i = d_virial g i)); [| | reflexivity].
    + intros bt q p li s gx HQ. cbn [visit force_body]. unfold force_visit.
      destruct zero_force; exact HQ.
    + intros c v gx HQ. exact HQ.
  - intros i.
    apply (run_grid_keeps (force_body a zero_force) a l
             (fun gx => d_net_virial gx i = d_net_virial g i)); [| | reflexivity].
    + intros bt q p li s gx HQ. cbn [visit force_body]. unfold force_visit.
      destruct zero_force; exact HQ.
    + intros c v gx HQ. exact HQ.
  - intros -> p.
    apply (run_grid_keeps (force_body a false) a l
             (fun gx => d_net_force gx p = d_net_force g p)); [| | reflexivity].
    + intros bt q p' li s gx HQ. exact HQ.
    + intros c v gx HQ. exact HQ.
Qed.

(** The virial kernel never writes the force and torque outputs nor the
    net torques, for any launch. *)
Lemma virial_kernel_keeps (a : RigidArgs) (net_virial_pitch virial_pitch : Z) (l : Launch)
      (sh0 : Z -> BodyShared) (scratch0 : Z -> Z -> Virial6) (g : DeviceMem) (i : Z) :
  let g1 := run_grid (virial_body a net_virial_pitch virial_pitch) a l sh0 scratch0 g in
  d_force g1 i = d_force g i /\ d_torque g1 i = d_torque g i /\
  d_net_torque g1 i = d_net_torque g i.
Proof.
  cbv zeta.
  apply (run_grid_keeps (virial_body a net_virial_pitch virial_pitch) a l
           (fun gx => d_force gx i = d_force g i /\ d_torque gx i = d_torque g i /\
                      d_net_torque gx i = d_net_torque g i)); [| | auto].
  - intros bt q p li s gx HQ. exact HQ.
  - intros c v gx HQ. exact HQ.
Qed.

(** X3.  A force pass never writes the virial buffers, writes the net forces
    only when [zero_force] is set, and outside the cleared range writes
    the force and torque outputs only in slots of central particles. *)
Theorem force_pass_frame
        (r : Resources) (a : RigidArgs) (block_size : Z) (zero_force : bool)
        (sh0 : Z -> BodyShared) (scratch0 : Z -> Z -> Scalar4 * Scalar3)
        (g0 : DeviceMem) :
  driver_ok r a block_size ->
  exists g1,
    gpu_rigid_force r a block_size zero_force sh0 scratch0 g0 = Some g1 /\
    (forall i, d_virial g1 i = d_virial g0 i) /\
    (forall i, d_net_virial g1 i = d_net_virial g0 i) /\
    (zero_force = false -> forall p, d_net_force g1 p = d_net_force g0 p) /\
    (forall i, ~ 0 <= i < N a ->
               (forall g, 0 <= g < n_mol a -> central a g <> i) ->
               d_force g1 i = d_force g0 i /\ d_torque g1 i = d_torque g0 i).
Proof.
  intros Hdrv.
  destruct (gpu_rigid_force_run r a block_size zero_force sh0 scratch0 g0 Hdrv)
    as (l & j & Hj & Hw & Hrun).
  eexists. split; [exact Hrun |].
  set (gm := set_torque _ _).
  destruct (force_kernel_keeps a zero_force l sh0 scratch0 gm) as (Hvir & Hnvir & Hnf).
  split; [exact Hvir |]. split; [exact Hnvir |]. split; [exact Hnf |].
  intros i Hout Hnc.
  apply (run_grid_frame (force_body a zero_force) a l j Hj
           (fun gx => d_force gx i = d_force g0 i /\ d_torque gx i = d_torque g0 i)).
    + intros g k s gx _ HQ. cbn [visit force_body]. unfold force_visit.
      destruct zero_force; exact HQ.
    + intros g v gx Hg [HQf HQt].
      cbn [publish force_body]. unfold force_publish.
      cbn [d_force d_torque set_force set_torque].
      assert (Hne : i <> central a g).
      { intros He. apply (Hnc g Hg). symmetry. exact He. }
      rewrite !upd_other by exact Hne. split; assumption.
    + unfold gm. cbn [d_force d_torque set_force set_torque].
      rewrite !memset_zero_outside by exact Hout. split; reflexivity.
Qed.

(** X4.  A virial pass never writes the force and torque outputs nor the net
    torques; it writes the net force and the net virial only of folded
    constituents, and outside the cleared range writes the virial output
    only in the six entries of central particles. *)
Theorem virial_pass_frame
        (r : Resources) (a : RigidArgs) (net_virial_pitch virial_pitch block_size : Z)
        (sh0 : Z -> BodyShared) (scratch0 : Z -> Z -> Virial6) (g0 : DeviceMem) :
  driver_ok r a block_size ->
  exists g1,
    gpu_rigid_virial r a net_virial_pitch virial_pitch block_size sh0 scratch0 g0 = Some g1 /\
    (forall i, d_force g1 i = d_force g0 i /\ d_torque g1 i = d_torque g0 i /\
               d_net_torque g1 i = d_net_torque g0 i) /\
    (forall p, (forall g k, folded a g k -> member a g k <> p) ->
               d_net_force g1 p = d_net_force g0 p) /\
    (forall i, (forall g k row, folded a g k -> 0 <= row < 6 ->
                                u32 (row * net_virial_pitch + member a g k) <> i) ->
               d_net_virial g1 i = d_net_virial g0 i) /\
    (forall i, ~ 0 <= i < virial_pitch * 6 ->
               (forall g row, 0 <= g < n_mol a -> 0 <= row < 6 ->
                              u32 (row * virial_pitch + central a g) <> i) ->
               d_virial g1 i = d_virial g0 i).
Proof.
  intros Hdrv.
  destruct (gpu_rigid_virial_run r a net_virial_pitch virial_pitch block_size
              sh0 scratch0 g0 Hdrv) as (l & j & Hj & Hw & Hrun).
  eexists. split; [exact Hrun |].
  set (gm := set_virial _ _).
  split; [| split; [| split]].
  - intros i.
    apply (virial_kernel_keeps a net_virial_pitch virial_pitch l sh0 scratch0 gm i).
  - intros p Hp.
    apply (run_grid_frame (virial_body a net_virial_pitch virial_pitch) a l j Hj
             (fun gx => d_net_force gx p = d_net_force g0 p)); [| | reflexivity].
    + intros g k s gx Hf HQ. cbn [visit virial_body]. unfold virial_visit.
      cbn [d_net_force set_net_force set_net_virial snd].
      rewrite upd_other; [exact HQ |].
      intros He. symmetry in He. revert He. apply Hp. exact Hf.
    + intros g v gx _ HQ. exact HQ.
  - intros i Hi.
    apply (run_grid_frame (virial_body a net_virial_pitch virial_pitch) a l j Hj
             (fun gx => d_net_virial gx i = d_net_virial g0 i)); [| | reflexivity].
    + intros g k s gx Hf HQ. cbn [visit virial_body]. unfold virial_visit.
      cbn [d_net_virial set_net_force set_net_virial snd].
      rewrite !upd_other; [exact HQ | | | | | | ];
        intros He; symmetry in He; revert He; apply (Hi g k _ Hf); lia.
    + intros g v gx _ HQ. exact HQ.
  - intros i Hout Hnc.
    apply (run_grid_frame (virial_body a net_virial_pitch virial_pitch) a l j Hj
             (fun gx => d_virial gx i = d_virial g0 i)).
    + intros g k s gx _ HQ. exact HQ.
    + intros g v gx Hg HQ.
      change (publish (virial_body a net_virial_pitch virial_pitch))
        with (virial_publish virial_pitch).
      unfold virial_publish. cbn [d_virial set_virial].
      rewrite !upd_other; [exact HQ | | | | | | ];
        intros He; symmetry in He; revert He; apply (Hnc g _ Hg); lia.
    + unfold gm. cbn [d_virial set_virial].
      apply memset_zero_outside. exact Hout.
Qed.

End PassFrames.

(* ------------------------------------------------------------------ *)
(** ** The two passes one after the other *)

Section PassOrder.
Context {S : ScalarOps} {V : VectorMath}.

(** Two runs of the virial kernel from memories with the same net
    forces, net virials and virial outputs end with the same net forces, net
    virials and virial outputs. *)
Lemma virial_kernel_reads (a : RigidArgs) (net_virial_pitch virial_pitch : Z)
      (l : Launch) (sh0 : Z -> BodyShared) (scratch0 : Z -> Z -> Virial6)
      (g g' : DeviceMem) :
  (forall p, d_net_force g p = d_net_force g' p) ->
  (forall i, d_net_virial g i = d_net_virial g' i) ->
  (forall i, d_virial g i = d_virial g' i) ->
  let g1 := run_grid (virial_body a net_virial_pitch virial_pitch) a l sh0 scratch0 g in
  let g1' := run_grid (virial_body a net_virial_pitch virial_pitch) a l sh0 scratch0 g' in
  (forall p, d_net_force g1 p = d_net_force g1' p) /\
  (forall i, d_net_virial g1 i = d_net_virial g1' i) /\
  (forall i, d_virial g1 i = d_virial g1' i).
Proof.
  intros Hf Hv Ho.
  apply (run_grid_related (virial_body a net_virial_pitch virial_pitch) a l
           (fun gm gm' =>
              (forall p, d_net_force gm p = d_net_force gm' p) /\
              (forall i, d_net_virial gm i = d_net_virial gm' i) /\
              (forall i, d_virial gm i = d_virial gm' i))).
  - intros bt q p li s gm gm' (Hn & Hnv & Hov).
    cbn [visit virial_body]. unfold virial_visit. cbn [fst snd].
    rewrite (Hn p), !Hnv.
    split; [reflexivity |].
    cbn [d_net_force d_net_virial d_virial set_net_force set_net_virial].
    split; [| split].
    + intros p'. unfold upd. destruct (p' =? p); [reflexivity | apply Hn].
    + intros i. unfold upd.
      repeat (destruct (i =? _); [reflexivity |]). apply Hnv.
    + exact Hov.
  - intros c v gm gm' (Hn & Hnv & Hov).
    cbn [publish virial_body]. unfold virial_publish.
    cbn [d_net_force d_net_virial d_virial set_virial].
    split; [exact Hn |]. split; [exact Hnv |].
    intros i. unfold upd.
    repeat (destruct (i =? _); [reflexivity |]). apply Hov.
  - split; [exact Hf |]. split; [exact Hv | exact Ho].
Qed.

(** X5.  A force pass that runs with [zero_force] off leaves everything the
    virial pass reads as it was: a virial pass after it ends with the same
    virial outputs, net forces and net virials as a virial pass on the
    original memory, and keeps the forces and torques the force pass
    wrote. *)
Theorem virial_pass_after_force_pass
        (rf rv : Resources) (a : RigidArgs)
        (net_virial_pitch virial_pitch force_block_size virial_block_size : Z)
        (sh0 sh1 : Z -> BodyShared)
        (fscratch0 : Z -> Z -> Scalar4 * Scalar3) (vscratch0 : Z -> Z -> Virial6)
        (g0 : DeviceMem) :
  driver_ok rf a force_block_size ->
  driver_ok rv a virial_block_size ->
  exists g1 g2 v0,
    gpu_rigid_force rf a force_block_size false sh0 fscratch0 g0 = Some g1 /\
    gpu_rigid_virial rv a net_virial_pitch virial_pitch virial_block_size
                     sh1 vscratch0 g1 = Some g2 /\
    gpu_rigid_virial rv a net_virial_pitch virial_pitch virial_block_size
                     sh1 vscratch0 g0 = Some v0 /\
    (forall i, d_virial g2 i = d_virial v0 i) /\
    (forall p, d_net_force g2 p = d_net_force v0 p) /\
    (forall i, d_net_virial g2 i = d_net_virial v0 i) /\
    (forall i, d_force g2 i = d_force g1 i /\ d_torque g2 i = d_torque g1 i).
Proof.
  intros Hf Hv.
  destruct (driver_launch rf a force_block_size Hf) as (lf & jf & Hcfgf & _ & _).
  destruct (driver_launch rv a virial_block_size Hv) as (l & j & Hcfg & _ & _).
  unfold gpu_rigid_force, gpu_rigid_virial. rewrite Hcfgf, Hcfg.
  unfold gpu_rigid_force_sliding_kernel, gpu_rigid_virial_sliding_kernel.
  set (gm := set_torque (set_force g0 _) _).
  set (g1 := run_grid (force_body a false) a lf sh0 fscratch0 gm).
  exists g1. eexists. eexists.
  split; [reflexivity |]. split; [reflexivity |]. split; [reflexivity |].
  destruct (force_kernel_keeps a false lf sh0 fscratch0 gm) as (Hvir & Hnvir & Hnf).
  fold g1 in Hvir, Hnvir, Hnf.
  destruct (virial_kernel_reads a net_virial_pitch virial_pitch l sh1 vscratch0
              (set_virial g1 (memset_zero szero (virial_pitch * 6) (d_virial g1)))
              (set_virial g0 (memset_zero szero (virial_pitch * 6) (d_virial g0))))
    as (Hn & Hnv & Ho).
  - intros p. apply (Hnf eq_refl).
  - exact Hnvir.
  - intros i. cbn [d_virial set_virial]. unfold memset_zero.
    destruct (_ && _); [reflexivity | apply Hvir].
  - split; [exact Ho |]. split; [exact Hn |]. split; [exact Hnv |].
    intros i.
    destruct (virial_kernel_keeps a net_virial_pitch virial_pitch l sh1 vscratch0
                (set_virial g1 (memset_zero szero (virial_pitch * 6) (d_virial g1))) i)
      as (Hkf & Hkt & _).
    split; assumption.
Qed.

End PassOrder.

(* ------------------------------------------------------------------ *)
(** ** Order of the passes, empty systems, choice of the launch *)

Section PassResults.
Context {S : ScalarOps} {Z0 : ZeroSum} {V : VectorMath}.

(** X6.  The virial kernel zeroes the net force of every folded constituent,
    so a force pass that runs after a virial pass finds nothing to sum:
    it writes zero force to the central particle of every processed
    body (of the addition of scalars only [0 + 0 = 0] is used). *)
Theorem force_pass_after_virial_pass
        (rf rv : Resources) (a : RigidArgs)
        (net_virial_pitch virial_pitch force_block_size virial_block_size : Z)
        (zero_force : bool) (sh0 sh1 : Z -> BodyShared)
        (fscratch0 : Z -> Z -> Scalar4 * Scalar3) (vscratch0 : Z -> Z -> Virial6)
        (g0 : DeviceMem) :
  driver_ok rv a virial_block_size ->
  driver_ok rf a force_block_size ->
  members_distinct a -> centrals_distinct a ->
  (forall g, processed a g ->
             body_length_ok a virial_block_size g /\ body_length_ok a force_block_size g) ->
  exists g1 g2,
    gpu_rigid_virial rv a net_virial_pitch virial_pitch virial_block_size
                     sh0 vscratch0 g0 = Some g1 /\
    gpu_rigid_force rf a force_block_size zero_force sh1 fscratch0 g1 = Some g2 /\
    forall g, processed a g -> d_force g2 (central a g) = zero4.
Proof.
  intros Hv Hf Hdist Hcen Hlen.
  destruct (gpu_rigid_virial_run rv a net_virial_pitch virial_pitch virial_block_size
              sh0 vscratch0 g0 Hv) as (l & j & Hj & Hw & Hrun).
  set (g1 := run_grid (virial_body a net_virial_pitch virial_pitch) a l sh0 vscratch0
               (set_virial g0 (memset_zero szero (virial_pitch * 6) (d_virial g0)))) in *.
  assert (Hclear : forall g k, folded a g k -> d_net_force g1 (member a g k) = zero4).
  { intros g k Hfold.
    apply (run_grid_reaches (virial_body a net_virial_pitch virial_pitch) a l j Hj
             (fun gm => d_net_force gm (member a g k) = zero4)
             sh0 vscratch0 g k _ Hfold).
    - apply (body_length_fits a l virial_block_size g); [| exact Hw].
      apply Hlen. apply Hfold.
    - intros s gm. cbn [visit virial_body]. unfold virial_visit.
      cbn [d_net_force set_net_force set_net_virial snd]. apply upd_same.
    - intros g' k' s gm _ HR. cbn [visit virial_body]. unfold virial_visit.
      cbn [d_net_force set_net_force set_net_virial snd].
      unfold upd. destruct (_ =? _); [reflexivity | exact HR].
    - intros g' v gm _ HR. exact HR. }
  destruct (gpu_rigid_force_run rf a force_block_size zero_force sh1 fscratch0 g1 Hf)
    as (lf & jf & _ & _ & Hrunf).
  exists g1. eexists. split; [exact Hrun |]. split; [exact Hrunf |].
  intros g Hproc.
  destruct (gpu_rigid_force_ordered rf a force_block_size zero_force sh1 fscratch0 g1 g
              Hf Hdist Hcen Hproc (proj2 (Hlen g Hproc)))
    as (l2 & n & g2 & _ & _ & Hrun2 & Hsum & _).
  rewrite Hrunf in Hrun2. injection Hrun2 as <-.
  rewrite Hsum. unfold force_window_sum.
  apply window_sum_zero; [apply add4_0_0 |].
  intros k x Hk Hx.
  destruct (constituent_term_some a g _ k x Hk Hx) as [Hin ->].
  apply Hclear. apply constituent_folded; assumption.
Qed.


End PassResults.

(* ------------------------------------------------------------------ *)
(** ** The result does not depend on the launch *)

Section LaunchIndependence.
Context {S : ScalarOps} {V : VectorMath}.

Lemma existsb_none {T : Type} (f : T -> bool) (l : list T) :
  existsb f l = false -> forall x, In x l -> f x = false.
Proof.
  intros He x Hin. destruct (f x) eqn:Hfx; [| reflexivity].
  rewrite <- He. symmetry. apply existsb_exists. exists x. split; assumption.
Qed.

(** Whether an index is the central particle of some body can be
    decided by a scan of the molecule list. *)
Lemma central_dec (a : RigidArgs) (i : Z) :
  (exists g, 0 <= g < n_mol a /\ central a g = i) \/
  (forall g, 0 <= g < n_mol a -> central a g <> i).
Proof.
  destruct (existsb (fun g => central a g =? i) (zrange (n_mol a))) eqn:He.
  - left. apply existsb_exists in He. destruct He as (g & Hin & Heq).
    exists g. split; [apply in_zrange; exact Hin | apply Z.eqb_eq; exact Heq].
  - right. intros g Hg. apply Z.eqb_neq.
    apply (existsb_none _ _ He). apply in_zrange. exact Hg.
Qed.

(** ... and so can whether it is a folded constituent. *)
Lemma folded_dec (a : RigidArgs) (p : Z) :
  (exists g k, folded a g k /\ member a g k = p) \/
  (forall g k, folded a g k -> member a g k <> p).
Proof.
  set (slot := fun g k => negb (member a g k =? central a g) && (member a g k =? p)).
  set (body := fun g => (central a g <? N a)
                        && existsb (slot g) (zrange (d_molecule_len a g))).
  destruct (existsb body (zrange (n_mol a))) eqn:He.
  - left. apply existsb_exists in He. destruct He as (g & Hin & Hb).
    unfold body in Hb. apply andb_true_iff in Hb. destruct Hb as [Hc Hs].
    apply existsb_exists in Hs. destruct Hs as (k & Hk & Hslot).
    unfold slot in Hslot. apply andb_true_iff in Hslot. destruct Hslot as [Hne Heq].
    exists g, k. split; [| apply Z.eqb_eq; exact Heq].
    split; [split; [apply in_zrange; exact Hin | apply Z.ltb_lt; exact Hc] |].
    split; [apply in_zrange; exact Hk |].
    apply negb_true_iff, Z.eqb_neq in Hne. exact Hne.
  - right. intros g k ((Hg & Hc) & Hk & Hne) Heq.
    pose proof (existsb_none _ _ He g (proj2 (in_zrange _ _) Hg)) as Hb.
    unfold body in Hb.
    replace (central a g <? N a) with true in Hb by (symmetry; apply Z.ltb_lt; exact Hc).
    cbn [andb] in Hb.
    pose proof (existsb_none _ _ Hb k (proj2 (in_zrange _ _) Hk)) as Hslot.
    unfold slot in Hslot.
    replace (member a g k =? central a g) with false in Hslot
      by (symmetry; apply Z.eqb_neq; exact Hne).
    replace (member a g k =? p) with true in Hslot by (symmetry; apply Z.eqb_eq; exact Heq).
    discriminate.
Qed.

(** The force kernel leaves the net force and net torque of a particle
    that is no folded constituent as they were. *)
Lemma force_kernel_unfolded (a : RigidArgs) (zero_force : bool) (l : Launch) (j : Z)
      (sh0 : Z -> BodyShared) (scratch0 : Z -> Z -> Scalar4 * Scalar3)
      (g : DeviceMem) (p : Z) :
  launch_ok a l j ->
  (forall g' k', folded a g' k' -> member a g' k' <> p) ->
  force_cell (run_grid (force_body a zero_force) a l sh0 scratch0 g) p = force_cell g p.
Proof.
  intros Hj Hp.
  apply (run_grid_frame (force_body a zero_force) a l j Hj
           (fun gx => force_cell gx p = force_cell g p)); [| | reflexivity].
  - intros g' k' s gx Hf HQ.
    rewrite (law_visit_cell (force_laws a zero_force)); [exact HQ | exact I | exact I |].
    intros He. symmetry in He. revert He. apply Hp. exact Hf.
  - intros g' v gx _ HQ.
    rewrite (law_publish_cell (force_laws a zero_force)). exact HQ.
Qed.

(** The force kernel leaves zero in a cleared slot that is not the slot
    of the central particle of a processed body. *)
Lemma force_kernel_other_slot (a : RigidArgs) (zero_force : bool) (l : Launch) (j : Z)
      (sh0 : Z -> BodyShared) (scratch0 : Z -> Z -> Scalar4 * Scalar3)
      (g : DeviceMem) (i : Z) :
  launch_ok a l j ->
  i < N a ->
  (forall g', processed a g' -> central a g' <> i) ->
  force_out g i = (zero4, zero4) ->
  force_out (run_grid (force_body a zero_force) a l sh0 scratch0 g) i = (zero4, zero4).
Proof.
  intros Hj Hi Hnc H0.
  apply (run_grid_frame (force_body a zero_force) a l j Hj
           (fun gx => force_out gx i = (zero4, zero4))); [| | exact H0].
  - intros g' k' s gx _ HQ.
    rewrite (law_visit_out (force_laws a zero_force)). exact HQ.
  - intros g' v gx Hg' HQ.
    rewrite (law_publish_out_other (force_laws a zero_force)); [exact HQ | exact I | exact I |].
    destruct (Z_lt_le_dec (central a g') (N a)) as [Hlt | Hge]; [| lia].
    intros He. apply (Hnc g'); [split; assumption | symmetry; exact He].
Qed.

(** X8.  What a force pass leaves in the cleared force and torque slots
    depends on the launch through the window size only: two passes whose
    launches have the same window size leave the same force and torque in
    every slot, whatever the number of bodies per block, the preferred
    block size, the resources of the device, the [zero_force] flag and
    what the shared memory held when the blocks started.  The net torques
    they leave agree whatever the window sizes, and so do the net forces
    when the flags agree. *)
Theorem force_pass_depends_on_window_only
        (r r' : Resources) (a : RigidArgs) (n_bodies_per_block' block_size block_size' : Z)
        (zero_force zero_force' : bool) (sh0 sh0' : Z -> BodyShared)
        (scratch0 scratch0' : Z -> Z -> Scalar4 * Scalar3) (g0 : DeviceMem) :
  driver_ok r a block_size ->
  driver_ok r' (with_bodies_per_block a n_bodies_per_block') block_size' ->
  members_distinct a -> centrals_distinct a ->
  (forall g, processed a g ->
             body_length_ok a block_size g /\ body_length_ok a block_size' g) ->
  exists l l' g1 g1',
    launch_config r (n_mol a) (n_bodies_per_block a) block_size = Some l /\
    launch_config r' (n_mol a) n_bodies_per_block' block_size' = Some l' /\
    gpu_rigid_force r a block_size zero_force sh0 scratch0 g0 = Some g1 /\
    gpu_rigid_force r' (with_bodies_per_block a n_bodies_per_block') block_size'
                    zero_force' sh0' scratch0' g0 = Some g1' /\
    (window_size l = window_size l' ->
     forall i, 0 <= i < N a ->
               d_force g1 i = d_force g1' i /\ d_torque g1 i = d_torque g1' i) /\
    (forall p, d_net_torque g1 p = d_net_torque g1' p) /\
    (zero_force = zero_force' -> forall p, d_net_force g1 p = d_net_force g1' p).
Proof.
  set (a' := with_bodies_per_block a n_bodies_per_block').
  intros Hd Hd' Hdist Hcen Hlen.
  assert (Hdist' : members_distinct a') by exact Hdist.
  assert (Hcen' : centrals_distinct a') by exact Hcen.
  destruct (driver_launch r a block_size Hd) as (l & j & Hcfg & Hj & Hw).
  destruct (driver_launch r' a' block_size' Hd') as (l' & j' & Hcfg' & Hj' & Hw').
  set (gm := set_torque (set_force g0 (memset_zero zero4 (N a) (d_force g0)))
                        (memset_zero zero4 (N a) (d_torque g0))).
  set (g1 := run_grid (force_body a zero_force) a l sh0 scratch0 gm).
  set (g1' := run_grid (force_body a' zero_force') a' l' sh0' scratch0' gm).
  assert (Hclear : forall g k, folded a g k ->
            (d_net_torque g1 (member a g k) = zero4 /\
             (zero_force = true -> d_net_force g1 (member a g k) = zero4)) /\
            (d_net_torque g1' (member a g k) = zero4 /\
             (zero_force' = true -> d_net_force g1' (member a g k) = zero4))).
  { intros g k Hfold. pose proof (Hlen g (proj1 Hfold)) as [Hl Hl']. split.
    - apply (force_pass_clears a zero_force l j sh0 scratch0 gm g k Hj Hfold
               (body_length_fits a l block_size g Hl Hw)).
    - apply (force_pass_clears a' zero_force' l' j' sh0' scratch0' gm g k Hj' Hfold
               (body_length_fits a' l' block_size' g Hl' Hw')). }
  assert (Hrest : forall p, (forall g k, folded a g k -> member a g k <> p) ->
            force_cell g1 p = force_cell gm p /\ force_cell g1' p = force_cell gm p).
  { intros p Hnone. split.
    - apply (force_kernel_unfolded a zero_force l j sh0 scratch0 gm p Hj Hnone).
    - apply (force_kernel_unfolded a' zero_force' l' j' sh0' scratch0' gm p Hj' Hnone). }
  exists l, l', g1, g1'.
  split; [exact Hcfg |]. split; [exact Hcfg' |].
  split; [unfold gpu_rigid_force; rewrite Hcfg; reflexivity |].
  split; [unfold gpu_rigid_force; rewrite Hcfg'; reflexivity |].
  split; [| split].
  - intros Hwin i Hi.
    pose proof (launch_rounds a a' l l' j j' Hj Hj' Hwin) as Hjj. subst j'.
    destruct (central_dec a i) as [(g & Hg & Hc) | Hnone].
    + assert (Hproc : processed a g) by (split; [exact Hg | rewrite Hc; lia]).
      pose proof (force_kernel_ordered a zero_force l j sh0 scratch0 gm g
                    Hj Hdist Hcen Hproc
                    (body_length_fits a l block_size g (proj1 (Hlen g Hproc)) Hw)) as Hv.
      pose proof (force_kernel_ordered a' zero_force' l' j sh0' scratch0' gm g
                    Hj' Hdist' Hcen' Hproc
                    (body_length_fits a' l' block_size' g (proj2 (Hlen g Hproc)) Hw'))
        as Hv'.
      assert (Hout : force_out g1 i = force_out g1' i).
      { rewrite <- Hc. unfold g1. rewrite Hv. symmetry. exact Hv'. }
      unfold force_out in Hout. injection Hout as Hf Ht. split; assumption.
    + assert (H0 : force_out gm i = (zero4, zero4)).
      { unfold force_out, gm. cbn [d_force d_torque set_force set_torque].
        rewrite !memset_zero_inside by exact Hi. reflexivity. }
      assert (Hnc : forall g', processed a g' -> central a g' <> i).
      { intros g' Hp. apply Hnone. apply Hp. }
      pose proof (force_kernel_other_slot a zero_force l j sh0 scratch0 gm i
                    Hj (proj2 Hi) Hnc H0) as Hz.
      pose proof (force_kernel_other_slot a' zero_force' l' j sh0' scratch0' gm i
                    Hj' (proj2 Hi) Hnc H0) as Hz'.
      fold g1 in Hz. fold g1' in Hz'. unfold force_out in Hz, Hz'.
      injection Hz as Hf Ht. injection Hz' as Hf' Ht'.
      rewrite Hf, Hf', Ht, Ht'. split; reflexivity.
  - intros p.
    destruct (folded_dec a p) as [(g & k & Hfold & Hp) | Hnone].
    + destruct (Hclear g k Hfold) as [[Ht _] [Ht' _]].
      rewrite <- Hp, Ht, Ht'. reflexivity.
    + destruct (Hrest p Hnone) as [Hc Hc']. unfold force_cell in Hc, Hc'.
      injection Hc as _ Ht. injection Hc' as _ Ht'. rewrite Ht, Ht'. reflexivity.
  - intros <- p.
    destruct (folded_dec a p) as [(g & k & Hfold & Hp) | Hnone].
    + destruct (Hclear g k Hfold) as [[_ Hf] [_ Hf']]. rewrite <- Hp.
      destruct zero_force eqn:Hz.
      * rewrite (Hf eq_refl), (Hf' eq_refl). reflexivity.
      * destruct (force_kernel_keeps a false l sh0 scratch0 gm) as (_ & _ & Hk).
        destruct (force_kernel_keeps a' false l' sh0' scratch0' gm) as (_ & _ & Hk').
        fold g1 in Hk. fold g1' in Hk'.
        rewrite (Hk eq_refl), (Hk' eq_refl). reflexivity.
    + destruct (Hrest p Hnone) as [Hc Hc']. unfold force_cell in Hc, Hc'.
      injection Hc as Hf _. injection Hc' as Hf' _. rewrite Hf, Hf'. reflexivity.
Qed.

End LaunchIndependence.

(* ------------------------------------------------------------------ *)
(** ** The sizing loops of the drivers *)

Section Sizing.
Context {S : ScalarOps}.

(** X9.  The first sizing loop rounds a block size between 1 and [2^31 - 1]
    down to the nearest power of two, and turns the block size 0 into 1. *)
Theorem round_down_pow2_largest_power (fuel : nat) (run_block_size : Z) :
  (31 <= fuel)%nat ->
  0 <= run_block_size < 2 ^ 31 ->
  round_down_pow2 fuel 1 run_block_size = Some (2 ^ Z.log2 run_block_size).
Proof.
  intros Hfuel Hr.
  destruct (round_down_pow2_total fuel 0 run_block_size) as (e & He & Hrun & Hle & Hgt);
    try lia.
  change (2 ^ 0) with 1 in Hrun. rewrite Hrun. f_equal. f_equal.
  destruct (Z.eq_dec run_block_size 0) as [-> | Hne].
  - assert (He0 : e = 0).
    { destruct Hle as [Hle | ->]; [| reflexivity].
      assert (0 < 2 ^ e) by (apply Z.pow_pos_nonneg; lia). lia. }
    rewrite He0. reflexivity.
  - symmetry. apply Z.log2_unique; [exact He |].
    rewrite Z.pow_succ_r by exact He.
    destruct Hle as [Hle | ->]; [lia | change (2 ^ 0) with 1; lia].
Qed.

Lemma round_down_pow2_runs_on (run_block_size : Z) (fuel : nat) :
  2 ^ 31 <= run_block_size ->
  forall b, b = 0 \/ (exists i, 0 <= i <= 31 /\ b = 2 ^ i) ->
            round_down_pow2 fuel b run_block_size = None.
Proof.
  intros Hbig. induction fuel as [| fuel IH]; intros b Hb; [reflexivity |].
  cbn [round_down_pow2].
  destruct Hb as [-> | (i & Hi & ->)].
  - change (u32 (0 * 2)) with 0.
    replace (0 <=? run_block_size) with true by (symmetry; apply Z.leb_le; lia).
    apply IH. left. reflexivity.
  - destruct (Z.eq_dec i 31) as [-> | Hne].
    + change (u32 (2 ^ 31 * 2)) with 0.
      replace (0 <=? run_block_size) with true by (symmetry; apply Z.leb_le; lia).
      apply IH. left. reflexivity.
    + assert (Hsucc : 2 ^ i * 2 = 2 ^ (i + 1)).
      { rewrite Z.pow_add_r by lia. reflexivity. }
      assert (Hle : 2 ^ (i + 1) <= 2 ^ 31) by (apply Z.pow_le_mono_r; lia).
      assert (Hpos : 0 < 2 ^ (i + 1)) by (apply Z.pow_pos_nonneg; lia).
      rewrite Hsucc, u32_small by lia.
      replace (2 ^ (i + 1) <=? run_block_size) with true
        by (symmetry; apply Z.leb_le; lia).
      apply IH. right. exists (i + 1). split; [lia | reflexivity].
Qed.

Lemma shrink_to_fit_runs_on (r : Resources) (fuel : nat) :
  sharedMemPerBlock r <= sharedSizeBytes r ->
  forall b, shrink_to_fit fuel r b = None.
Proof.
  intros Hfull. induction fuel as [| fuel IH]; intros b; [reflexivity |].
  cbn [shrink_to_fit].
  pose proof (u32_range (b * bytes_per_thread r)) as Hu.
  replace (sharedMemPerBlock r <=? u32 (b * bytes_per_thread r) + sharedSizeBytes r)
    with true by (symmetry; apply Z.leb_le; lia).
  apply IH.
Qed.

(** X10.  Two inputs on which a sizing loop never exits, however long it runs.
    When the kernel limit and the preferred block size are both [2^31] or
    more, the counter of the first loop wraps to 0 and stays there; when
    the static shared memory of the kernel alone reaches the shared memory
    of a block, the test of the second loop holds for every block size,
    down to 0. *)
Theorem sizing_loops_can_run_forever (r : Resources) (block_size b : Z) (fuel : nat) :
  (2 ^ 31 <= maxThreadsPerBlock r -> 2 ^ 31 <= block_size ->
   round_down_pow2 fuel 1
     (if maxThreadsPerBlock r <? block_size then maxThreadsPerBlock r else block_size)
   = None) /\
  (sharedMemPerBlock r <= sharedSizeBytes r -> shrink_to_fit fuel r b = None).
Proof.
  split.
  - intros Hmax Hbs. apply round_down_pow2_runs_on.
    + destruct (maxThreadsPerBlock r <? block_size); assumption.
    + right. exists 0. split; [lia | reflexivity].
  - intros Hfull. apply shrink_to_fit_runs_on. exact Hfull.
Qed.

(** The second sizing loop stops at the first block size of the halving
    chain that fits. *)
Lemma shrink_to_fit_first (r : Resources) (e : Z) (fuel : nat) :
  forall i,
    0 <= e <= i ->
    i - e < Z.of_nat fuel ->
    block_fits r (2 ^ e) ->
    exists i',
      e <= i' <= i /\
      shrink_to_fit fuel r (2 ^ i) = Some (2 ^ i') /\
      block_fits r (2 ^ i') /\
      forall k, i' < k <= i -> ~ block_fits r (2 ^ k).
Proof.
  unfold block_fits.
  induction fuel as [| fuel IH]; intros i Hei Hfuel Hroom; [lia |].
  cbn [shrink_to_fit].
  destruct (Z.leb_spec (sharedMemPerBlock r)
                       (u32 (2 ^ i * bytes_per_thread r) + sharedSizeBytes r))
    as [Hfull | Hfree].
  - assert (Hne : i <> e) by (intros ->; lia).
    assert (Hhalf : 2 ^ i / 2 = 2 ^ (i - 1)).
    { replace i with (Z.succ (i - 1)) at 1 by lia.
      rewrite Z.pow_succ_r by lia. rewrite Z.mul_comm, Z.div_mul by lia. reflexivity. }
    rewrite Hhalf.
    destruct (IH (i - 1)) as (i' & Hi' & Hrun & Hfit & Hmax); try lia.
    exists i'. split; [lia |]. split; [exact Hrun |]. split; [exact Hfit |].
    intros k Hk. destruct (Z.eq_dec k i) as [-> | Hki]; [lia | apply Hmax; lia].
  - exists i. split; [lia |]. split; [reflexivity |]. split; [exact Hfree |].
    intros k Hk. lia.
Qed.

(** X11.  From arguments that satisfy [driver_ok] the drivers launch blocks of
    the largest power-of-two size that does not exceed the kernel limit
    and the preferred block size and whose scratch memory fits; the
    windows tile the block and the grid has a slot for every body. *)
Theorem launch_is_largest_fitting_block (r : Resources) (a : RigidArgs) (block_size : Z) :
  driver_ok r a block_size ->
  exists l e,
    launch_config r (n_mol a) (n_bodies_per_block a) block_size = Some l /\
    0 <= e /\ blockDim l = 2 ^ e /\
    n_bodies_per_block a <= blockDim l <= Z.min (maxThreadsPerBlock r) block_size /\
    block_fits r (blockDim l) /\
    (forall e', e < e' -> 2 ^ e' <= Z.min (maxThreadsPerBlock r) block_size ->
                ~ block_fits r (2 ^ e')) /\
    window_size l * n_bodies_per_block a = blockDim l /\
    thread_mask l = window_size l - 1 /\
    n_mol a < gridDim l * n_bodies_per_block a.
Proof.
  intros ((e & He & Hnb) & Hbs & Hmax & Hroom & Hn & Hnn).
  unfold launch_config.
  set (rbs := if maxThreadsPerBlock r <? block_size
              then maxThreadsPerBlock r else block_size).
  assert (Hmin : rbs = Z.min (maxThreadsPerBlock r) block_size).
  { unfold rbs. destruct (Z.ltb_spec (maxThreadsPerBlock r) block_size); lia. }
  assert (Hnbpos : 0 < n_bodies_per_block a).
  { rewrite Hnb. apply Z.pow_pos_nonneg; lia. }
  assert (Hrbs : n_bodies_per_block a <= rbs < 2 ^ 31) by lia.
  destruct (round_down_pow2_total 64 0 rbs) as (i0 & Hi0 & Hround & Hle0 & Hgt0);
    try lia.
  change (2 ^ 0) with 1 in Hround. rewrite Hround.
  assert (Hb0 : 2 ^ i0 <= rbs).
  { destruct Hle0 as [H | ->]; [exact H | change (2 ^ 0) with 1; lia]. }
  assert (Hi31 : i0 < 31).
  { apply (Z.pow_lt_mono_r_iff 2); lia. }
  assert (Hei : e <= i0).
  { assert (Hlt : 2 ^ e < 2 ^ (i0 + 1)).
    { rewrite Z.pow_add_r by lia. change (2 ^ 1) with 2. lia. }
    apply (Z.pow_lt_mono_r_iff 2) in Hlt; lia. }
  rewrite Hnb in Hroom.
  destruct (shrink_to_fit_first r e 64 i0) as (i & Hi & Hshrink & Hfit & Hfirst);
    try lia; [exact Hroom |].
  rewrite Hshrink.
  assert (Hsplit : 2 ^ i = 2 ^ (i - e) * 2 ^ e).
  { rewrite <- Z.pow_add_r by lia. f_equal. lia. }
  assert (Hjpos : 0 < 2 ^ (i - e)) by (apply Z.pow_pos_nonneg; lia).
  assert (Hepos : 0 < 2 ^ e) by (apply Z.pow_pos_nonneg; lia).
  assert (Hile : 2 ^ i <= 2 ^ i0) by (apply Z.pow_le_mono_r; lia).
  assert (Hwin : 2 ^ i / n_bodies_per_block a = 2 ^ (i - e)).
  { rewrite Hnb, Hsplit, Z.div_mul by lia. reflexivity. }
  assert (Hq0 : 0 <= n_mol a / n_bodies_per_block a) by (apply Z.div_pos; lia).
  assert (Hq : n_bodies_per_block a * (n_mol a / n_bodies_per_block a) <= n_mol a)
    by (apply Z.mul_div_le; lia).
  assert (Hqr : n_mol a < n_bodies_per_block a * (n_mol a / n_bodies_per_block a + 1)).
  { pose proof (Z.mul_succ_div_gt (n_mol a) (n_bodies_per_block a) Hnbpos). lia. }
  eexists. exists i. split; [reflexivity |].
  cbn [gridDim blockDim window_size thread_mask]. rewrite Hwin, <- Hmin.
  split; [lia |]. split; [reflexivity |].
  split; [rewrite Hnb; nia |]. split; [exact Hfit |]. split.
  - intros e' He' Hle'. apply Hfirst. split; [exact He' |].
    assert (Hlt : 2 ^ e' < 2 ^ (i0 + 1)).
    { rewrite Z.pow_add_r by lia. change (2 ^ 1) with 2. lia. }
    apply (Z.pow_lt_mono_r_iff 2) in Hlt; lia.
  - split; [rewrite Hnb; lia |]. split; [apply u32_small; nia |].
    rewrite u32_small by nia. lia.
Qed.

End Sizing.

(* ------------------------------------------------------------------ *)
(** ** Bodies without constituents, blocks smaller than a window *)

Section EdgeCases.
Context {S : ScalarOps} {Z0 : ZeroSum} {V : VectorMath}.

(** X12.  A processed body whose list holds the central particle alone, or
    nothing at all, ends a force pass with zero force and zero torque (of
    the addition of scalars only [0 + 0 = 0] is used). *)
Theorem lone_central_gets_zero
        (r : Resources) (a : RigidArgs) (block_size : Z) (zero_force : bool)
        (sh0 : Z -> BodyShared) (scratch0 : Z -> Z -> Scalar4 * Scalar3)
        (g0 : DeviceMem) (g : Z) :
  driver_ok r a block_size ->
  members_distinct a -> centrals_distinct a ->
  processed a g ->
  0 <= d_molecule_len a g <= 1 ->
  exists g1,
    gpu_rigid_force r a block_size zero_force sh0 scratch0 g0 = Some g1 /\
    d_force g1 (central a g) = zero4 /\ d_torque g1 (central a g) = zero4.
Proof.
  intros Hdrv Hdist Hcen Hproc Hlen.
  pose proof Hdrv as (_ & Hbs & _).
  assert (Hok : body_length_ok a block_size g) by (split; lia).
  destruct (gpu_rigid_force_ordered r a block_size zero_force sh0 scratch0 g0 g
              Hdrv Hdist Hcen Hproc Hok) as (l & n & g1 & _ & _ & Hrun & Hf & Ht).
  exists g1. split; [exact Hrun |].
  assert (Hnone : constituents a g = []).
  { unfold constituents.
    assert (Hcases : d_molecule_len a g = 0 \/ d_molecule_len a g = 1) by lia.
    destruct Hcases as [-> | ->]; [reflexivity |].
    change (zrange 1) with [0]. cbn [filter]. fold (central a g).
    rewrite Z.eqb_refl. reflexivity. }
  assert (Hno : forall (T : Type) (f : Z -> T) k x,
            0 <= k -> constituent_term a g f k = Some x -> False).
  { intros T f k x Hk Hx.
    destruct (constituent_term_some a g f k x Hk Hx) as [Hin _].
    rewrite Hnone in Hin. exact Hin. }
  split.
  - rewrite Hf. unfold force_window_sum.
    apply window_sum_zero; [apply add4_0_0 |].
    intros k x Hk Hx. exfalso. exact (Hno _ _ k x Hk Hx).
  - rewrite Ht.
    assert (H0 : torque_window_sum a g n (d_net_force g0) (d_net_torque g0) = zero3).
    { unfold torque_window_sum. apply window_sum_zero; [apply add3_0_0 |].
      intros k x Hk Hx. exfalso. exact (Hno _ _ k x Hk Hx). }
    rewrite H0. reflexivity.
Qed.

Lemma shrink_to_fit_ends (r : Resources) (fuel : nat) :
  sharedSizeBytes r < sharedMemPerBlock r ->
  forall i, 0 <= i -> i + 1 < Z.of_nat fuel ->
            exists b, shrink_to_fit fuel r (2 ^ i) = Some b /\ 0 <= b <= 2 ^ i.
Proof.
  intros Hroom. induction fuel as [| fuel IH]; intros i Hi Hfuel; [lia |].
  assert (Hpos : 0 < 2 ^ i) by (apply Z.pow_pos_nonneg; lia).
  cbn [shrink_to_fit].
  destruct (Z.leb_spec (sharedMemPerBlock r)
                       (u32 (2 ^ i * bytes_per_thread r) + sharedSizeBytes r))
    as [Hfull | Hfree]; [| exists (2 ^ i); split; [reflexivity | lia]].
  destruct (Z.eq_dec i 0) as [-> | Hne].
  - change (2 ^ 0 / 2) with 0.
    destruct fuel as [| fuel']; [lia |]. cbn [shrink_to_fit].
    change (u32 (0 * bytes_per_thread r)) with 0.
    replace (sharedMemPerBlock r <=? 0 + sharedSizeBytes r) with false
      by (symmetry; apply Z.leb_gt; lia).
    exists 0. split; [reflexivity | lia].
  - assert (Hhalf : 2 ^ i / 2 = 2 ^ (i - 1)).
    { replace i with (Z.succ (i - 1)) at 1 by lia.
      rewrite Z.pow_succ_r by lia. rewrite Z.mul_comm, Z.div_mul by lia. reflexivity. }
    rewrite Hhalf.
    destruct (IH (i - 1)) as (b & Hrun & Hb); try lia.
    exists b. split; [exact Hrun |].
    assert (2 ^ (i - 1) <= 2 ^ i) by (apply Z.pow_le_mono_r; lia). lia.
Qed.

(** X13.  The drivers do not compare the block size with the number of bodies
    per block.  When the kernel limit or the preferred block size is
    smaller than the number of bodies per block, they still launch: with
    window size 0 and with the thread mask [0 - 1] wrapped to all ones. *)
Theorem small_block_gets_empty_windows
        (r : Resources) (n_mol n_bodies_per_block block_size : Z) :
  1 <= Z.min (maxThreadsPerBlock r) block_size < n_bodies_per_block ->
  n_bodies_per_block < 2 ^ 31 ->
  sharedSizeBytes r < sharedMemPerBlock r ->
  exists l,
    launch_config r n_mol n_bodies_per_block block_size = Some l /\
    0 <= blockDim l < n_bodies_per_block /\
    window_size l = 0 /\
    thread_mask l = 4294967295.
Proof.
  intros Hsmall Hnb Hroom. unfold launch_config.
  set (rbs := if maxThreadsPerBlock r <? block_size
              then maxThreadsPerBlock r else block_size).
  assert (Hmin : rbs = Z.min (maxThreadsPerBlock r) block_size).
  { unfold rbs. destruct (Z.ltb_spec (maxThreadsPerBlock r) block_size); lia. }
  destruct (round_down_pow2_total 64 0 rbs) as (i0 & Hi0 & Hround & Hle0 & Hgt0);
    try lia.
  change (2 ^ 0) with 1 in Hround. rewrite Hround.
  assert (Hpos : 0 < 2 ^ i0) by (apply Z.pow_pos_nonneg; lia).
  assert (Hi31 : i0 < 31).
  { destruct Hle0 as [Hle | ->]; [| lia].
    apply (Z.pow_lt_mono_r_iff 2); lia. }
  destruct (shrink_to_fit_ends r 64 Hroom i0) as (b & Hshrink & Hb); try lia.
  rewrite Hshrink.
  assert (Hbn : b < n_bodies_per_block).
  { destruct Hle0 as [Hle | ->]; [lia |]. change (2 ^ 0) with 1 in Hb. lia. }
  eexists. split; [reflexivity |].
  cbn [blockDim window_size thread_mask].
  rewrite Z.div_small by lia.
  split; [lia |]. split; reflexivity.
Qed.

End EdgeCases.

(* ------------------------------------------------------------------ *)
(** ** The passes on the concrete inputs *)

Section PassWitnesses.
Import Examples.
#[local] Existing Instance FloatVectorMath.

Lemma two_bodies_members_below_pitch (g k : Z) :
  folded two_bodies g k -> below_pitch 8 (member two_bodies g k).
Proof.
  intros Hf. apply two_bodies_folded in Hf.
  destruct Hf as [[-> [-> | ->]] | [-> ->]]; vm_compute; intuition discriminate.
Qed.

Lemma two_bodies_centrals_below_pitch (g : Z) :
  0 <= g < n_mol two_bodies -> below_pitch 8 (central two_bodies g).
Proof.
  intros Hg. change (n_mol two_bodies) with 2 in Hg.
  assert (Cg : g = 0 \/ g = 1) by lia.
  destruct Cg as [-> | ->]; vm_compute; intuition discriminate.
Qed.

Lemma two_bodies_small_driver_ok : driver_ok small_resources two_bodies 256.
Proof.
  split; [exists 1; split; [lia | reflexivity] |].
  vm_compute; intuition discriminate.
Qed.


Lemma lone_body_driver_ok : driver_ok force_resources lone_body 4.
Proof.
  split; [exists 0; split; [lia | reflexivity] |].
  vm_compute; intuition discriminate.
Qed.

Lemma central_virial_is_ordered_sum_witness :
  exists n g1,
    gpu_rigid_virial virial_resources two_bodies 8 8 4 junk_shared junk_virial_scratch
                     two_bodies_mem = Some g1 /\
    virial_out 8 g1 0 = virial_window_sum two_bodies 8 0 n two_bodies_mem /\
    virial_out 8 g1 0 = make_virial6 3 19 35 51 67 83.
Proof.
  destruct (central_virial_is_ordered_sum
              virial_resources two_bodies 8 8 4
              junk_shared junk_virial_scratch two_bodies_mem 0)
    as (l & n & g1 & _ & _ & Hrun & Hsum & Hexact);
    [ | | | | | | | exists n, g1; split;
                    [exact Hrun
                    | split;
                      [exact Hsum
                      | change (central two_bodies 0) with 0 in Hexact;
                        rewrite (Hexact ZExact); reflexivity]]].
  - apply two_bodies_driver_ok. right. reflexivity.
  - exact two_bodies_members_distinct.
  - exact two_bodies_centrals_distinct.
  - exact two_bodies_members_below_pitch.
  - exact two_bodies_centrals_below_pitch.
  - apply two_bodies_processed. lia.
  - apply two_bodies_length_ok. lia.
Defined.

Lemma virial_pass_clears_constituents_witness :
  exists g1,
    gpu_rigid_virial virial_resources two_bodies 8 8 4 junk_shared junk_virial_scratch
                     two_bodies_mem = Some g1 /\
    forall g k, folded two_bodies g k ->
      d_net_force g1 (member two_bodies g k) = zero4 /\
      forall row, 0 <= row < 6 ->
        d_net_virial g1 (row * 8 + member two_bodies g k) = szero.
Proof.
  apply (virial_pass_clears_constituents
           virial_resources two_bodies 8 8 4
           junk_shared junk_virial_scratch two_bodies_mem).
  - apply two_bodies_driver_ok. right. reflexivity.
  - exact two_bodies_members_below_pitch.
  - intros g [Hg _]. apply two_bodies_length_ok. exact Hg.
Defined.

Lemma force_pass_frame_witness :
  exists g1,
    gpu_rigid_force force_resources two_bodies 4 false junk_shared junk_force_scratch
                    two_bodies_mem = Some g1 /\
    (forall i, d_virial g1 i = d_virial two_bodies_mem i) /\
    (forall i, d_net_virial g1 i = d_net_virial two_bodies_mem i) /\
    (false = false -> forall p, d_net_force g1 p = d_net_force two_bodies_mem p) /\
    (forall i, ~ 0 <= i < N two_bodies ->
               (forall g, 0 <= g < n_mol two_bodies -> central two_bodies g <> i) ->
               d_force g1 i = d_force two_bodies_mem i /\
               d_torque g1 i = d_torque two_bodies_mem i).
Proof.
  apply (force_pass_frame force_resources two_bodies 4 false
           junk_shared junk_force_scratch two_bodies_mem).
  apply two_bodies_driver_ok. left. reflexivity.
Defined.

Lemma virial_pass_frame_witness :
  exists g1,
    gpu_rigid_virial virial_resources two_bodies 8 8 4 junk_shared junk_virial_scratch
                     two_bodies_mem = Some g1 /\
    (forall i, d_force g1 i = d_force two_bodies_mem i /\
               d_torque g1 i = d_torque two_bodies_mem i /\
               d_net_torque g1 i = d_net_torque two_bodies_mem i) /\
    d_net_force g1 0 = d_net_force two_bodies_mem 0 /\
    d_net_virial g1 8 = d_net_virial two_bodies_mem 8 /\
    d_virial g1 48 = d_virial two_bodies_mem 48.
Proof.
  destruct (virial_pass_frame virial_resources two_bodies 8 8 4
              junk_shared junk_virial_scratch two_bodies_mem)
    as (g1 & Hrun & Hkeep & Hnf & Hnv & Hv).
  - apply two_bodies_driver_ok. right. reflexivity.
  - exists g1. split; [exact Hrun |]. split; [exact Hkeep |].
    split; [| split].
    + apply Hnf. intros g k Hf. apply two_bodies_folded in Hf.
      destruct Hf as [[-> [-> | ->]] | [-> ->]]; vm_compute; discriminate.
    + apply Hnv. intros g k row Hf Hrow. apply two_bodies_folded in Hf.
      assert (Hcases : row = 0 \/ row = 1 \/ row = 2 \/ row = 3 \/ row = 4 \/ row = 5)
        by lia.
      destruct Hf as [[-> [-> | ->]] | [-> ->]];
        destruct Hcases as [-> | [-> | [-> | [-> | [-> | ->]]]]];
        vm_compute; discriminate.
    + apply Hv; [lia |].
      intros g row Hg Hrow. change (n_mol two_bodies) with 2 in Hg.
      assert (Cg : g = 0 \/ g = 1) by lia.
      assert (Hcases : row = 0 \/ row = 1 \/ row = 2 \/ row = 3 \/ row = 4 \/ row = 5)
        by lia.
      destruct Cg as [-> | ->];
        destruct Hcases as [-> | [-> | [-> | [-> | [-> | ->]]]]];
        vm_compute; discriminate.
Defined.

Lemma virial_pass_after_force_pass_witness :
  exists g1 g2 v0,
    gpu_rigid_force force_resources two_bodies 4 false junk_shared junk_force_scratch
                    two_bodies_mem = Some g1 /\
    gpu_rigid_virial virial_resources two_bodies 8 8 4 junk_shared junk_virial_scratch g1
    = Some g2 /\
    gpu_rigid_virial virial_resources two_bodies 8 8 4 junk_shared junk_virial_scratch
                     two_bodies_mem = Some v0 /\
    virial_out 8 g2 0 = make_virial6 3 19 35 51 67 83 /\
    d_force g2 0 = v4 0 2 3 12.
Proof.
  destruct (virial_pass_after_force_pass
              force_resources virial_resources two_bodies 8 8 4 4
              junk_shared junk_shared junk_force_scratch junk_virial_scratch two_bodies_mem)
    as (g1 & g2 & v0 & Hrun1 & Hrun2 & Hrun0 & Hvir & _ & _ & Hkeep).
  - apply two_bodies_driver_ok. left. reflexivity.
  - apply two_bodies_driver_ok. right. reflexivity.
  - exists g1, g2, v0. split; [exact Hrun1 |]. split; [exact Hrun2 |].
    split; [exact Hrun0 |]. split.
    + unfold virial_out. rewrite !Hvir.
      vm_compute in Hrun0. injection Hrun0 as <-. reflexivity.
    + rewrite (proj1 (Hkeep 0)).
      vm_compute in Hrun1. injection Hrun1 as <-. reflexivity.
Defined.

Lemma force_pass_after_virial_pass_witness :
  exists g1 g2,
    gpu_rigid_virial virial_resources two_bodies 8 8 4 junk_shared junk_virial_scratch
                     two_bodies_mem = Some g1 /\
    gpu_rigid_force force_resources two_bodies 4 false junk_shared junk_force_scratch g1
    = Some g2 /\
    d_force g2 0 = zero4 /\ d_force g2 3 = zero4.
Proof.
  destruct (force_pass_after_virial_pass
              force_resources virial_resources two_bodies 8 8 4 4 false
              junk_shared junk_shared junk_force_scratch junk_virial_scratch two_bodies_mem)
    as (g1 & g2 & Hrun1 & Hrun2 & Hzero).
  - apply two_bodies_driver_ok. right. reflexivity.
  - apply two_bodies_driver_ok. left. reflexivity.
  - exact two_bodies_members_distinct.
  - exact two_bodies_centrals_distinct.
  - intros g [Hg _]. split; apply two_bodies_length_ok; exact Hg.
  - exists g1, g2. split; [exact Hrun1 |]. split; [exact Hrun2 |]. split.
    + apply (Hzero 0). apply two_bodies_processed. lia.
    + apply (Hzero 1). apply two_bodies_processed. lia.
Defined.


Lemma two_bodies_narrow_driver_ok (r : Resources) :
  r = small_resources \/ r = virial_resources ->
  driver_ok r (with_bodies_per_block two_bodies 1) 2.
Proof.
  intros [-> | ->]; (split; [exists 0; split; [lia | reflexivity] |]);
    vm_compute; intuition discriminate.
Qed.

Lemma two_bodies_length_ok_2 (g : Z) : 0 <= g < 2 -> body_length_ok two_bodies 2 g.
Proof.
  intros Hg. assert (Cg : g = 0 \/ g = 1) by lia.
  destruct Cg as [-> | ->]; vm_compute; intuition discriminate.
Qed.

Lemma float_body_pair_driver_ok :
  driver_ok force_resources (with_bodies_per_block (float_body 1) 2) 4.
Proof.
  split; [exists 1; split; [lia | reflexivity] |].
  vm_compute; intuition discriminate.
Qed.

Lemma force_pass_depends_on_window_only_witness :
  (exists g1 g1',
     gpu_rigid_force force_resources two_bodies 4 true junk_shared junk_force_scratch
                     two_bodies_mem = Some g1 /\
     gpu_rigid_force small_resources (with_bodies_per_block two_bodies 1) 2 false
                     (fun _ => junk_shared 0) (fun _ _ => (zero4, zero3))
                     two_bodies_mem = Some g1' /\
     (forall i, 0 <= i < N two_bodies ->
                d_force g1 i = d_force g1' i /\ d_torque g1 i = d_torque g1' i) /\
     (forall p, d_net_torque g1 p = d_net_torque g1' p) /\
     (true = false -> forall p, d_net_force g1 p = d_net_force g1' p)) /\
  (exists g1 g1',
     gpu_rigid_force force_resources (float_body 1) 2 true
                     float_junk_shared float_junk_force_scratch float_body_mem = Some g1 /\
     gpu_rigid_force force_resources (with_bodies_per_block (float_body 1) 2) 4 true
                     float_junk_shared float_junk_force_scratch float_body_mem = Some g1' /\
     (forall i, 0 <= i < N (float_body 1) ->
                d_force g1 i = d_force g1' i /\ d_torque g1 i = d_torque g1' i) /\
     x4 (d_force g1 0) = 9007199254740992%float).
Proof.
  split.
  - destruct (force_pass_depends_on_window_only
                force_resources small_resources two_bodies 1 4 2 true false
                junk_shared (fun _ => junk_shared 0)
                junk_force_scratch (fun _ _ => (zero4, zero3)) two_bodies_mem)
      as (l & l' & g1 & g1' & Hcfg & Hcfg' & Hrun & Hrun' & Hwin & Hnt & Hnf).
    + apply two_bodies_driver_ok. left. reflexivity.
    + apply two_bodies_narrow_driver_ok. left. reflexivity.
    + exact two_bodies_members_distinct.
    + exact two_bodies_centrals_distinct.
    + intros g [Hg _].
      split; [apply two_bodies_length_ok | apply two_bodies_length_ok_2]; exact Hg.
    + exists g1, g1'. split; [exact Hrun |]. split; [exact Hrun' |].
      split; [| split; [exact Hnt | exact Hnf]].
      apply Hwin.
      vm_compute in Hcfg, Hcfg'. injection Hcfg as <-. injection Hcfg' as <-. reflexivity.
  - destruct (force_pass_depends_on_window_only
                force_resources force_resources (float_body 1) 2 2 4 true true
                float_junk_shared float_junk_shared
                float_junk_force_scratch float_junk_force_scratch float_body_mem)
      as (l & l' & g1 & g1' & Hcfg & Hcfg' & Hrun & Hrun' & Hwin & _).
    + apply float_body_driver_ok. right. left. reflexivity.
    + exact float_body_pair_driver_ok.
    + apply float_body_members_distinct.
    + apply float_body_centrals_distinct.
    + intros g [Hg _]. change (n_mol (float_body 1)) with 1 in Hg.
      replace g with 0 by lia.
      split; apply float_body_length_ok; lia.
    + exists g1, g1'. split; [exact Hrun |]. split; [exact Hrun' |]. split.
      * apply Hwin.
        vm_compute in Hcfg, Hcfg'. injection Hcfg as <-. injection Hcfg' as <-.
        reflexivity.
      * assert (Hx : option_map (fun g => x4 (d_force g 0))
                       (gpu_rigid_force force_resources (float_body 1) 2 true
                          float_junk_shared float_junk_force_scratch float_body_mem)
                     = Some 9007199254740992%float) by (vm_compute; reflexivity).
        rewrite Hrun in Hx. cbn [option_map] in Hx. injection Hx as Hx. exact Hx.
Defined.

Lemma round_down_pow2_largest_power_witness :
  round_down_pow2 64 1 1000 = Some 512 /\ round_down_pow2 31 1 0 = Some 1.
Proof.
  split.
  - apply (round_down_pow2_largest_power 64 1000); [lia | vm_compute; intuition discriminate].
  - apply (round_down_pow2_largest_power 31 0); [lia | vm_compute; intuition discriminate].
Defined.

Lemma launch_is_largest_fitting_block_witness :
  exists l e,
    launch_config small_resources (n_mol two_bodies) (n_bodies_per_block two_bodies) 256
    = Some l /\
    0 <= e /\ blockDim l = 2 ^ e /\
    n_bodies_per_block two_bodies <= blockDim l
      <= Z.min (maxThreadsPerBlock small_resources) 256 /\
    block_fits small_resources (blockDim l) /\
    (forall e', e < e' -> 2 ^ e' <= Z.min (maxThreadsPerBlock small_resources) 256 ->
                ~ block_fits small_resources (2 ^ e')) /\
    window_size l * n_bodies_per_block two_bodies = blockDim l /\
    thread_mask l = window_size l - 1 /\
    n_mol two_bodies < gridDim l * n_bodies_per_block two_bodies.
Proof.
  apply (launch_is_largest_fitting_block small_resources two_bodies 256).
  exact two_bodies_small_driver_ok.
Defined.

Lemma lone_central_gets_zero_witness :
  exists g1,
    gpu_rigid_force force_resources lone_body 4 true junk_shared junk_force_scratch
                    ghost_central_mem = Some g1 /\
    d_force g1 0 = zero4 /\ d_torque g1 0 = zero4.
Proof.
  apply (lone_central_gets_zero force_resources lone_body 4 true
           junk_shared junk_force_scratch ghost_central_mem 0).
  - exact lone_body_driver_ok.
  - intros g k g' k' ((Hg & _) & Hk & Hne) _ _.
    change (n_mol lone_body) with 1 in Hg. assert (g = 0) by lia. subst g.
    change (d_molecule_len lone_body 0) with 1 in Hk. assert (k = 0) by lia. subst k.
    exfalso. apply Hne. reflexivity.
  - intros g g' Hg Hg' _. change (n_mol lone_body) with 1 in Hg, Hg'. lia.
  - split; [vm_compute; intuition discriminate | reflexivity].
  - vm_compute. intuition discriminate.
Defined.

Lemma small_block_gets_empty_windows_witness :
  exists l,
    launch_config force_resources 2 8 4 = Some l /\
    0 <= blockDim l < 8 /\
    window_size l = 0 /\
    thread_mask l = 4294967295.
Proof.
  apply (small_block_gets_empty_windows force_resources 2 8 4);
    vm_compute; intuition discriminate.
Defined.

End PassWitnesses.

(* ------------------------------------------------------------------ *)
(** ** The virial does not depend on the launch either *)

Section VirialLaunchIndependence.
Context {S : ScalarOps} {Z0 : ZeroSum} {V : VectorMath}.

(** The virial kernel leaves zero in the cell of every folded
    constituent. *)
Lemma virial_kernel_clears (a : RigidArgs) (net_virial_pitch virial_pitch : Z)
      (l : Launch) (j : Z) (sh0 : Z -> BodyShared) (scratch0 : Z -> Z -> Virial6)
      (gm : DeviceMem) (g k : Z) :
  launch_ok a l j ->
  (forall g' k', folded a g' k' -> below_pitch net_virial_pitch (member a g' k')) ->
  folded a g k -> body_fits a l g ->
  virial_cell net_virial_pitch
    (run_grid (virial_body a net_virial_pitch virial_pitch) a l sh0 scratch0 gm)
    (member a g k) = (zero4, zero_virial6).
Proof.
  intros Hj Hokp Hfold Hfits.
  apply (run_grid_reaches (virial_body a net_virial_pitch virial_pitch) a l j Hj
           (fun gm' => virial_cell net_virial_pitch gm' (member a g k)
                       = (zero4, zero_virial6))
           sh0 scratch0 g k gm Hfold Hfits).
  - intros s gm'. apply virial_visit_clears. apply (Hokp g k Hfold).
  - intros g' k' s gm' Hf' HR.
    destruct (Z.eq_dec (member a g k) (member a g' k')) as [He | Hne'].
    + rewrite He. apply virial_visit_clears. apply (Hokp g' k' Hf').
    + rewrite (law_visit_cell (virial_laws a net_virial_pitch virial_pitch));
        [exact HR | apply (Hokp g' k' Hf') | apply (Hokp g k Hfold) | exact Hne'].
  - intros g' v gm' _ HR. exact HR.
Qed.

(** The virial kernel leaves the cell of a particle that is no folded
    constituent as it was. *)
Lemma virial_kernel_unfolded (a : RigidArgs) (net_virial_pitch virial_pitch : Z)
      (l : Launch) (j : Z) (sh0 : Z -> BodyShared) (scratch0 : Z -> Z -> Virial6)
      (gm : DeviceMem) :
  launch_ok a l j ->
  let g1 := run_grid (virial_body a net_virial_pitch virial_pitch) a l sh0 scratch0 gm in
  (forall p, (forall g k, folded a g k -> member a g k <> p) ->
             d_net_force g1 p = d_net_force gm p) /\
  (forall i, (forall g k row, folded a g k -> 0 <= row < 6 ->
                              u32 (row * net_virial_pitch + member a g k) <> i) ->
             d_net_virial g1 i = d_net_virial gm i).
Proof.
  intros Hj. cbv zeta. split.
  - intros p Hp.
    apply (run_grid_frame (virial_body a net_virial_pitch virial_pitch) a l j Hj
             (fun gx => d_net_force gx p = d_net_force gm p)); [| | reflexivity].
    + intros g k s gx Hf HQ. cbn [visit virial_body]. unfold virial_visit.
      cbn [d_net_force set_net_force set_net_virial snd].
      rewrite upd_other; [exact HQ |].
      intros He. symmetry in He. revert He. apply Hp. exact Hf.
    + intros g v gx _ HQ. exact HQ.
  - intros i Hi.
    apply (run_grid_frame (virial_body a net_virial_pitch virial_pitch) a l j Hj
             (fun gx => d_net_virial gx i = d_net_virial gm i)); [| | reflexivity].
    + intros g k s gx Hf HQ. cbn [visit virial_body]. unfold virial_visit.
      cbn [d_net_virial set_net_force set_net_virial snd].
      rewrite !upd_other; [exact HQ | | | | | | ];
        intros He; symmetry in He; revert He; apply (Hi g k _ Hf); lia.
    + intros g v gx _ HQ. exact HQ.
Qed.

(** The virial kernel leaves zero in a cleared entry that is none of the
    six entries of the central particle of a processed body. *)
Lemma virial_kernel_other_entry (a : RigidArgs) (net_virial_pitch virial_pitch : Z)
      (l : Launch) (j : Z) (sh0 : Z -> BodyShared) (scratch0 : Z -> Z -> Virial6)
      (gm : DeviceMem) (i : Z) :
  launch_ok a l j ->
  (forall g row, processed a g -> 0 <= row < 6 ->
                 u32 (row * virial_pitch + central a g) <> i) ->
  d_virial gm i = szero ->
  d_virial (run_grid (virial_body a net_virial_pitch virial_pitch) a l sh0 scratch0 gm) i
  = szero.
Proof.
  intros Hj Hnc H0.
  apply (run_grid_inv (virial_body a net_virial_pitch virial_pitch) a l j Hj
            (virial_zero_sum a net_virial_pitch virial_pitch)
           (fun gx => d_virial gx i = szero)); [| | exact H0].
  - intros g k s gx _ HQ. exact HQ.
  - intros g v gx Hg Hskip HQ.
    change (publish (virial_body a net_virial_pitch virial_pitch))
      with (virial_publish virial_pitch).
    unfold virial_publish. cbn [d_virial set_virial].
    destruct (Z_lt_le_dec (central a g) (N a)) as [Hlt | Hge].
    + assert (Hp : processed a g) by (split; assumption).
      rewrite !upd_other; [exact HQ | | | | | | ];
        intros He; symmetry in He; revert He; apply (Hnc g _ Hp); lia.
    + rewrite (Hskip Hge).
      change (acc_zero (virial_body a net_virial_pitch virial_pitch)) with zero_virial6.
      cbn [vxx vxy vxz vyy vyz vzz zero_virial6].
      unfold upd. repeat (destruct (_ =? _); [reflexivity |]). exact HQ.
Qed.

(** Whether an entry of the virial output belongs to the central
    particle of a processed body can be decided by a scan. *)
Lemma central_entry_dec (a : RigidArgs) (virial_pitch i : Z) :
  (exists g row, processed a g /\ 0 <= row < 6 /\
                 u32 (row * virial_pitch + central a g) = i) \/
  (forall g row, processed a g -> 0 <= row < 6 ->
                 u32 (row * virial_pitch + central a g) <> i).
Proof.
  set (entry := fun g row => u32 (row * virial_pitch + central a g) =? i).
  set (body := fun g => (central a g <? N a) && existsb (entry g) (zrange 6)).
  destruct (existsb body (zrange (n_mol a))) eqn:He.
  - left. apply existsb_exists in He. destruct He as (g & Hin & Hb).
    unfold body in Hb. apply andb_true_iff in Hb. destruct Hb as [Hc Hs].
    apply existsb_exists in Hs. destruct Hs as (row & Hrow & Heq).
    exists g, row.
    split; [split; [apply in_zrange; exact Hin | apply Z.ltb_lt; exact Hc] |].
    split; [apply in_zrange; exact Hrow | apply Z.eqb_eq; exact Heq].
  - right. intros g row (Hg & Hc) Hrow.
    pose proof (existsb_none _ _ He g (proj2 (in_zrange _ _) Hg)) as Hb.
    unfold body in Hb.
    replace (central a g <? N a) with true in Hb by (symmetry; apply Z.ltb_lt; exact Hc).
    cbn [andb] in Hb.
    pose proof (existsb_none _ _ Hb row (proj2 (in_zrange _ _) Hrow)) as Hentry.
    apply Z.eqb_neq. exact Hentry.
Qed.

(** ... and so can whether an entry of the net virial belongs to a
    folded constituent. *)
Lemma folded_entry_dec (a : RigidArgs) (net_virial_pitch i : Z) :
  (exists g k row, folded a g k /\ 0 <= row < 6 /\
                   u32 (row * net_virial_pitch + member a g k) = i) \/
  (forall g k row, folded a g k -> 0 <= row < 6 ->
                   u32 (row * net_virial_pitch + member a g k) <> i).
Proof.
  set (entry := fun g k row => u32 (row * net_virial_pitch + member a g k) =? i).
  set (slot := fun g k => negb (member a g k =? central a g)
                          && existsb (entry g k) (zrange 6)).
  set (body := fun g => (central a g <? N a)
                        && existsb (slot g) (zrange (d_molecule_len a g))).
  destruct (existsb body (zrange (n_mol a))) eqn:He.
  - left. apply existsb_exists in He. destruct He as (g & Hin & Hb).
    unfold body in Hb. apply andb_true_iff in Hb. destruct Hb as [Hc Hs].
    apply existsb_exists in Hs. destruct Hs as (k & Hk & Hslot).
    unfold slot in Hslot. apply andb_true_iff in Hslot. destruct Hslot as [Hne Hrows].
    apply existsb_exists in Hrows. destruct Hrows as (row & Hrow & Heq).
    exists g, k, row. split.
    + split; [split; [apply in_zrange; exact Hin | apply Z.ltb_lt; exact Hc] |].
      split; [apply in_zrange; exact Hk |].
      apply negb_true_iff, Z.eqb_neq in Hne. exact Hne.
    + split; [apply in_zrange; exact Hrow | apply Z.eqb_eq; exact Heq].
  - right. intros g k row ((Hg & Hc) & Hk & Hne) Hrow.
    pose proof (existsb_none _ _ He g (proj2 (in_zrange _ _) Hg)) as Hb.
    unfold body in Hb.
    replace (central a g <? N a) with true in Hb by (symmetry; apply Z.ltb_lt; exact Hc).
    cbn [andb] in Hb.
    pose proof (existsb_none _ _ Hb k (proj2 (in_zrange _ _) Hk)) as Hslot.
    unfold slot in Hslot.
    replace (member a g k =? central a g) with false in Hslot
      by (symmetry; apply Z.eqb_neq; exact Hne).
    cbn [negb andb] in Hslot.
    pose proof (existsb_none _ _ Hslot row (proj2 (in_zrange _ _) Hrow)) as Hentry.
    apply Z.eqb_neq. exact Hentry.
Qed.

Lemma virial6_row (f f' : Z -> Scalar) (row : Z) :
  make_virial6 (f 0) (f 1) (f 2) (f 3) (f 4) (f 5)
  = make_virial6 (f' 0) (f' 1) (f' 2) (f' 3) (f' 4) (f' 5) ->
  0 <= row < 6 -> f row = f' row.
Proof.
  intros He Hrow. injection He as H0 H1 H2 H3 H4 H5.
  assert (Hcases : row = 0 \/ row = 1 \/ row = 2 \/ row = 3 \/ row = 4 \/ row = 5) by lia.
  destruct Hcases as [-> | [-> | [-> | [-> | [-> | ->]]]]]; assumption.
Qed.

(** X14.  What a virial pass leaves in the cleared virial entries depends
    on the launch through the window size only: as soon as [0 + 0 = 0],
    two passes whose launches have the same window size leave the same
    value in every entry, whatever the number of bodies per block, the
    preferred block size, the resources of the device and what the shared
    memory held when the blocks started.  The net forces and the net
    virials they leave agree whatever the window sizes. *)
Theorem virial_pass_depends_on_window_only
        (r r' : Resources) (a : RigidArgs)
        (n_bodies_per_block' net_virial_pitch virial_pitch block_size block_size' : Z)
        (sh0 sh0' : Z -> BodyShared)
        (scratch0 scratch0' : Z -> Z -> Virial6) (g0 : DeviceMem) :
  driver_ok r a block_size ->
  driver_ok r' (with_bodies_per_block a n_bodies_per_block') block_size' ->
  members_distinct a -> centrals_distinct a ->
  (forall g k, folded a g k -> below_pitch net_virial_pitch (member a g k)) ->
  (forall g, 0 <= g < n_mol a -> below_pitch virial_pitch (central a g)) ->
  (forall g, processed a g ->
             body_length_ok a block_size g /\ body_length_ok a block_size' g) ->
  exists l l' g1 g1',
    launch_config r (n_mol a) (n_bodies_per_block a) block_size = Some l /\
    launch_config r' (n_mol a) n_bodies_per_block' block_size' = Some l' /\
    gpu_rigid_virial r a net_virial_pitch virial_pitch block_size sh0 scratch0 g0
    = Some g1 /\
    gpu_rigid_virial r' (with_bodies_per_block a n_bodies_per_block')
                     net_virial_pitch virial_pitch block_size' sh0' scratch0' g0
    = Some g1' /\
    (window_size l = window_size l' ->
     forall i, 0 <= i < virial_pitch * 6 -> d_virial g1 i = d_virial g1' i) /\
    (forall p, d_net_force g1 p = d_net_force g1' p) /\
    (forall i, d_net_virial g1 i = d_net_virial g1' i).
Proof.
  set (a' := with_bodies_per_block a n_bodies_per_block').
  intros Hd Hd' Hdist Hcen Hokp Hokc Hlen.
  assert (Hdist' : members_distinct a') by exact Hdist.
  assert (Hcen' : centrals_distinct a') by exact Hcen.
  destruct (driver_launch r a block_size Hd) as (l & j & Hcfg & Hj & Hw).
  destruct (driver_launch r' a' block_size' Hd') as (l' & j' & Hcfg' & Hj' & Hw').
  set (gm := set_virial g0 (memset_zero szero (virial_pitch * 6) (d_virial g0))).
  set (g1 := run_grid (virial_body a net_virial_pitch virial_pitch) a l sh0 scratch0 gm).
  set (g1' := run_grid (virial_body a' net_virial_pitch virial_pitch) a' l' sh0' scratch0' gm).
  assert (Hclear : forall g k, folded a g k ->
            virial_cell net_virial_pitch g1 (member a g k) = (zero4, zero_virial6) /\
            virial_cell net_virial_pitch g1' (member a g k) = (zero4, zero_virial6)).
  { intros g k Hfold. pose proof (Hlen g (proj1 Hfold)) as [Hl Hl']. split.
    - apply (virial_kernel_clears a net_virial_pitch virial_pitch l j sh0 scratch0 gm g k
               Hj Hokp Hfold (body_length_fits a l block_size g Hl Hw)).
    - apply (virial_kernel_clears a' net_virial_pitch virial_pitch l' j' sh0' scratch0' gm g k
               Hj' Hokp Hfold (body_length_fits a' l' block_size' g Hl' Hw')). }
  destruct (virial_kernel_unfolded a net_virial_pitch virial_pitch l j sh0 scratch0 gm Hj)
    as [Hrf Hrv].
  destruct (virial_kernel_unfolded a' net_virial_pitch virial_pitch l' j' sh0' scratch0' gm Hj')
    as [Hrf' Hrv'].
  fold g1 in Hrf, Hrv. fold g1' in Hrf', Hrv'.
  exists l, l', g1, g1'.
  split; [exact Hcfg |]. split; [exact Hcfg' |].
  split; [unfold gpu_rigid_virial; rewrite Hcfg; reflexivity |].
  split; [unfold gpu_rigid_virial; rewrite Hcfg'; reflexivity |].
  split; [| split].
  - intros Hwin i Hi.
    pose proof (launch_rounds a a' l l' j j' Hj Hj' Hwin) as Hjj.
    destruct (central_entry_dec a virial_pitch i) as [(g & row & Hproc & Hrow & He) | Hnone].
    + pose proof (Hlen g Hproc) as [Hl Hl'].
      pose proof (virial_kernel_ordered a net_virial_pitch virial_pitch l j
                    sh0 scratch0 gm g Hj Hdist Hcen Hokp Hokc Hproc
                    (body_length_fits a l block_size g Hl Hw)) as Hv.
      pose proof (virial_kernel_ordered a' net_virial_pitch virial_pitch l' j'
                    sh0' scratch0' gm g Hj' Hdist' Hcen' Hokp Hokc Hproc
                    (body_length_fits a' l' block_size' g Hl' Hw')) as Hv'.
      fold g1 in Hv. fold g1' in Hv'.
      change (central a' g) with (central a g) in Hv'.
      assert (Hsame : virial_out virial_pitch g1 (central a g)
                      = virial_out virial_pitch g1' (central a g)).
      { rewrite Hv, Hv', Hjj. reflexivity. }
      rewrite <- He.
      apply (virial6_row
               (fun row => d_virial g1 (u32 (row * virial_pitch + central a g)))
               (fun row => d_virial g1' (u32 (row * virial_pitch + central a g)))
               row Hsame Hrow).
    + assert (H0 : d_virial gm i = szero).
      { unfold gm. cbn [d_virial set_virial]. apply memset_zero_inside. exact Hi. }
      pose proof (virial_kernel_other_entry a net_virial_pitch virial_pitch l j
                    sh0 scratch0 gm i Hj Hnone H0) as Hz.
      pose proof (virial_kernel_other_entry a' net_virial_pitch virial_pitch l' j'
                    sh0' scratch0' gm i Hj' Hnone H0) as Hz'.
      fold g1 in Hz. fold g1' in Hz'. rewrite Hz, Hz'. reflexivity.
  - intros p.
    destruct (folded_dec a p) as [(g & k & Hfold & Hp) | Hnone].
    + destruct (Hclear g k Hfold) as [Hc Hc']. unfold virial_cell in Hc, Hc'.
      injection Hc as Hf _. injection Hc' as Hf' _.
      rewrite <- Hp, Hf, Hf'. reflexivity.
    + rewrite (Hrf p Hnone), (Hrf' p Hnone). reflexivity.
  - intros i.
    destruct (folded_entry_dec a net_virial_pitch i)
      as [(g & k & row & Hfold & Hrow & He) | Hnone].
    + destruct (Hclear g k Hfold) as [Hc Hc'].
      assert (Hsnd : snd (virial_cell net_virial_pitch g1 (member a g k))
                     = snd (virial_cell net_virial_pitch g1' (member a g k))).
      { rewrite Hc, Hc'. reflexivity. }
      assert (Hsame :
        make_virial6
          (d_net_virial g1 (u32 (0 * net_virial_pitch + member a g k)))
          (d_net_virial g1 (u32 (1 * net_virial_pitch + member a g k)))
          (d_net_virial g1 (u32 (2 * net_virial_pitch + member a g k)))
          (d_net_virial g1 (u32 (3 * net_virial_pitch + member a g k)))
          (d_net_virial g1 (u32 (4 * net_virial_pitch + member a g k)))
          (d_net_virial g1 (u32 (5 * net_virial_pitch + member a g k)))
        = make_virial6
            (d_net_virial g1' (u32 (0 * net_virial_pitch + member a g k)))
            (d_net_virial g1' (u32 (1 * net_virial_pitch + member a g k)))
            (d_net_virial g1' (u32 (2 * net_virial_pitch + member a g k)))
            (d_net_virial g1' (u32 (3 * net_virial_pitch + member a g k)))
            (d_net_virial g1' (u32 (4 * net_virial_pitch + member a g k)))
            (d_net_virial g1' (u32 (5 * net_virial_pitch + member a g k)))).
      { exact Hsnd. }
      rewrite <- He.
      apply (virial6_row
               (fun row => d_net_virial g1 (u32 (row * net_virial_pitch + member a g k)))
               (fun row => d_net_virial g1' (u32 (row * net_virial_pitch + member a g k)))
               row Hsame Hrow).
    + rewrite (Hrv i Hnone), (Hrv' i Hnone). reflexivity.
Qed.

End VirialLaunchIndependence.

Section VirialLaunchWitness.
Import Examples.

Lemma virial_pass_depends_on_window_only_witness :
  exists g1 g1',
    gpu_rigid_virial virial_resources two_bodies 8 8 4 junk_shared junk_virial_scratch
                     two_bodies_mem = Some g1 /\
    gpu_rigid_virial virial_resources (with_bodies_per_block two_bodies 1) 8 8 2
                     (fun _ => junk_shared 0) (fun _ _ => zero_virial6)
                     two_bodies_mem = Some g1' /\
    (forall i, 0 <= i < 8 * 6 -> d_virial g1 i = d_virial g1' i) /\
    (forall p, d_net_force g1 p = d_net_force g1' p) /\
    (forall i, d_net_virial g1 i = d_net_virial g1' i).
Proof.
  destruct (virial_pass_depends_on_window_only
              virial_resources virial_resources two_bodies 1 8 8 4 2
              junk_shared (fun _ => junk_shared 0)
              junk_virial_scratch (fun _ _ => zero_virial6) two_bodies_mem)
    as (l & l' & g1 & g1' & Hcfg & Hcfg' & Hrun & Hrun' & Hwin & Hnf & Hnv).
  - apply two_bodies_driver_ok. right. reflexivity.
  - apply two_bodies_narrow_driver_ok. right. reflexivity.
  - exact two_bodies_members_distinct.
  - exact two_bodies_centrals_distinct.
  - exact two_bodies_members_below_pitch.
  - exact two_bodies_centrals_below_pitch.
  - intros g [Hg _].
    split; [apply two_bodies_length_ok | apply two_bodies_length_ok_2]; exact Hg.
  - exists g1, g1'. split; [exact Hrun |]. split; [exact Hrun' |].
    split; [| split; [exact Hnf | exact Hnv]].
    apply Hwin.
    vm_compute in Hcfg, Hcfg'. injection Hcfg as <-. injection Hcfg' as <-. reflexivity.
Defined.

End VirialLaunchWitness.

(* ------------------------------------------------------------------ *)
(** ** A second force pass without zeroing *)

Section ForceTwice.
Context {S : ScalarOps} {V : VectorMath}.

Lemma msum_map_ext {T B : Type} (zero : T) (add : T -> T -> T) (f f' : B -> T)
      (l : list B) :
  (forall x, In x l -> f x = f' x) ->
  msum zero add (map f l) = msum zero add (map f' l).
Proof.
  intros Hall. induction l as [| x l' IH]; [reflexivity |].
  cbn [map]. unfold msum in *. cbn [fold_right].
  rewrite (Hall x) by (left; reflexivity). f_equal.
  apply IH. intros y Hy. apply Hall. right. exact Hy.
Qed.

(** X15.  A force pass that runs with [zero_force] off consumes the net
    torques but not the net forces: a second pass with the same launch
    parameters writes the same force to the central particle of every
    processed body, and as torque what the first pass would have written
    had all net torques been zero, that is the torques of the net forces
    about the central particle, added up in the order of the kernel.  With
    exact addition this is the sum of the cross products of relative
    position and net force. *)
Theorem second_force_pass_without_zeroing
        (r : Resources) (a : RigidArgs) (block_size : Z) (zero_force' : bool)
        (sh0 sh1 : Z -> BodyShared) (scratch0 scratch1 : Z -> Z -> Scalar4 * Scalar3)
        (g0 : DeviceMem) :
  driver_ok r a block_size ->
  members_distinct a -> centrals_distinct a ->
  (forall g, processed a g -> body_length_ok a block_size g) ->
  exists l n g1 g2,
    launch_config r (n_mol a) (n_bodies_per_block a) block_size = Some l /\
    window_size l = 2 ^ Z.of_nat n /\
    gpu_rigid_force r a block_size false sh0 scratch0 g0 = Some g1 /\
    gpu_rigid_force r a block_size zero_force' sh1 scratch1 g1 = Some g2 /\
    forall g, processed a g ->
      d_force g2 (central a g) = d_force g1 (central a g) /\
      vec3_of (d_torque g2 (central a g))
      = torque_window_sum a g n (d_net_force g0) (fun _ => zero4) /\
      (ExactScalar ->
       vec3_of (d_torque g2 (central a g))
       = msum zero3 add3
           (map (fun k => cross (relative_position a g k)
                                (vec3_of (d_net_force g0 (member a g k))))
                (constituents a g))).
Proof.
  intros Hdrv Hdist Hcen Hlen.
  destruct (driver_launch r a block_size Hdrv) as (l & j & Hcfg & Hj & Hw).
  set (gm := set_torque (set_force g0 (memset_zero zero4 (N a) (d_force g0)))
                        (memset_zero zero4 (N a) (d_torque g0))).
  set (g1 := run_grid (force_body a false) a l sh0 scratch0 gm).
  set (gm1 := set_torque (set_force g1 (memset_zero zero4 (N a) (d_force g1)))
                         (memset_zero zero4 (N a) (d_torque g1))).
  set (g2 := run_grid (force_body a zero_force') a l sh1 scratch1 gm1).
  exists l, (Z.to_nat j), g1, g2.
  split; [exact Hcfg |]. split; [exact (launch_window a l j Hj) |].
  split; [unfold gpu_rigid_force; rewrite Hcfg; reflexivity |].
  split; [unfold gpu_rigid_force; rewrite Hcfg; reflexivity |].
  intros g Hproc.
  pose proof (body_length_fits a l block_size g (Hlen g Hproc) Hw) as Hfits.
  pose proof (force_kernel_ordered a false l j sh0 scratch0 gm g
                Hj Hdist Hcen Hproc Hfits) as Hv1.
  pose proof (force_kernel_ordered a zero_force' l j sh1 scratch1 gm1 g
                Hj Hdist Hcen Hproc Hfits) as Hv2.
  fold g1 in Hv1. fold g2 in Hv2.
  unfold force_out, force_pub in Hv1, Hv2. cbn [fst snd] in Hv1, Hv2.
  injection Hv1 as Hf1 _. injection Hv2 as Hf2 Ht2.
  change (d_net_force gm) with (d_net_force g0) in Hf1.
  change (d_net_force gm1) with (d_net_force g1) in Hf2, Ht2.
  change (d_net_torque gm1) with (d_net_torque g1) in Ht2.
  destruct (force_kernel_keeps a false l sh0 scratch0 gm) as (_ & _ & Hkeep).
  fold g1 in Hkeep. specialize (Hkeep eq_refl).
  assert (Hnf : forall p, d_net_force g1 p = d_net_force g0 p).
  { intros p. rewrite Hkeep. reflexivity. }
  assert (Hnt : forall k, In k (constituents a g) -> d_net_torque g1 (member a g k) = zero4).
  { intros k Hk.
    destruct (force_pass_clears a false l j sh0 scratch0 gm g k Hj
                (constituent_folded a g k Hproc Hk) Hfits) as [Htq _].
    exact Htq. }
  assert (Hvec : vec3_of (d_torque g2 (central a g))
                 = torque_window_sum a g (Z.to_nat j) (d_net_force g0) (fun _ => zero4)).
  { rewrite Ht2. unfold vec3_of. cbn [x4 y4 z4].
    transitivity (torque_window_sum a g (Z.to_nat j) (d_net_force g1) (d_net_torque g1)).
    { destruct (torque_window_sum a g (Z.to_nat j) (d_net_force g1) (d_net_torque g1));
        reflexivity. }
    apply torque_window_sum_ext. intros k Hk.
    split; [apply Hnf | apply Hnt; exact Hk]. }
  split; [| split].
  - rewrite Hf2, Hf1. apply force_window_sum_ext. intros k _. apply Hnf.
  - exact Hvec.
  - intros HE.
    destruct (gpu_rigid_force_central (E:=HE) r a block_size zero_force' sh1 scratch1 g1 g
                Hdrv Hdist Hcen Hproc (Hlen g Hproc)) as (x & Hx & _ & Htx).
    unfold gpu_rigid_force in Hx. rewrite Hcfg in Hx. injection Hx as <-.
    fold gm1 in Htx. unfold gpu_rigid_force_sliding_kernel in Htx. fold g2 in Htx.
    rewrite Htx. unfold vec3_of at 1. cbn [x4 y4 z4].
    transitivity (torque_sum a g (d_net_force g1) (d_net_torque g1)).
    { destruct (torque_sum a g (d_net_force g1) (d_net_torque g1)); reflexivity. }
    unfold torque_sum. apply msum_map_ext.
    intros k Hk. rewrite (Hnt k Hk), Hnf.
    change (vec3_of zero4) with zero3. apply (add3_0_l (E:=HE)).
Qed.

End ForceTwice.

Section ForceTwiceWitness.
Import Examples.

Lemma second_force_pass_without_zeroing_witness :
  exists g1 g2,
    gpu_rigid_force force_resources two_bodies 4 false junk_shared junk_force_scratch
                    two_bodies_mem = Some g1 /\
    gpu_rigid_force force_resources two_bodies 4 false junk_shared junk_force_scratch g1
    = Some g2 /\
    d_force g2 0 = v4 0 2 3 12 /\
    vec3_of (d_torque g1 0) = v3 4 1 2 /\
    vec3_of (d_torque g2 0) = v3 3 0 2.
Proof.
  destruct (second_force_pass_without_zeroing
              force_resources two_bodies 4 false
              junk_shared junk_shared junk_force_scratch junk_force_scratch two_bodies_mem)
    as (l & n & g1 & g2 & _ & _ & Hrun1 & Hrun2 & Hres).
  - apply two_bodies_driver_ok. left. reflexivity.
  - exact two_bodies_members_distinct.
  - exact two_bodies_centrals_distinct.
  - intros g [Hg _]. apply two_bodies_length_ok. exact Hg.
  - exists g1, g2. split; [exact Hrun1 |]. split; [exact Hrun2 |].
    destruct (Hres 0 (two_bodies_processed 0 ltac:(lia))) as (Hf & _ & Ht).
    specialize (Ht ZExact).
    change (central two_bodies 0) with 0 in Hf, Ht.
    vm_compute in Hrun1. injection Hrun1 as <-.
    split; [rewrite Hf; reflexivity |]. split; [reflexivity |].
    rewrite Ht. reflexivity.
Defined.

End ForceTwiceWitness.

End ReducerFacts.

(* ================================================================== *)
(** * Facts about the state spreader *)
(* ================================================================== *)

Module SpreaderFacts.
Import Spreader.

Section Spreading.
Context {S : ScalarOps} {B : CastRoundTrip} {V : VectorMath}.

Lemma kernel_skip (a : CompositeArgs) (bd b t : Z) (st : ParticleMem * list Access) :
  skips a (u32 (b * bd + t)) = true ->
  fst (gpu_update_composite_kernel a bd b t st) = fst st.
Proof.
  unfold skips, central_of, gpu_update_composite_kernel.
  set (idx := u32 (b * bd + t)).
  destruct (u32 (N a + n_ghost a) <=? idx); [reflexivity |].
  destruct (d_body a idx =? NO_BODY); [reflexivity |].
  destruct (negb (remote a) && (N a <=? d_rtag a (d_body a idx))); [reflexivity |].
  destruct ((d_rtag a (d_body a idx) =? NOT_LOCAL) && (N a <=? idx)); [reflexivity |].
  destruct (idx =? d_rtag a (d_body a idx)); [reflexivity |].
  simpl. discriminate.
Qed.

Lemma kernel_run (a : CompositeArgs) (bd b t : Z) (st : ParticleMem * list Access) :
  skips a (u32 (b * bd + t)) = false ->
  fst (gpu_update_composite_kernel a bd b t st) = spread_write a (fst st) (u32 (b * bd + t)).
Proof.
  unfold skips, central_of, gpu_update_composite_kernel.
  set (idx := u32 (b * bd + t)).
  destruct (u32 (N a + n_ghost a) <=? idx); [discriminate |].
  destruct (d_body a idx =? NO_BODY); [discriminate |].
  destruct (negb (remote a) && (N a <=? d_rtag a (d_body a idx))); [discriminate |].
  destruct ((d_rtag a (d_body a idx) =? NOT_LOCAL) && (N a <=? idx)); [discriminate |].
  destruct (idx =? d_rtag a (d_body a idx)); [discriminate |].
  intros _. reflexivity.
Qed.

(** No thread writes the orientation buffer. *)
Lemma kernel_orientation (a : CompositeArgs) (bd b t : Z) (st : ParticleMem * list Access) :
  d_orientation (fst (gpu_update_composite_kernel a bd b t st)) = d_orientation (fst st).
Proof.
  destruct (skips a (u32 (b * bd + t))) eqn:Hs.
  - rewrite kernel_skip by exact Hs. reflexivity.
  - rewrite kernel_run by exact Hs. reflexivity.
Qed.

(** A thread writes no other particle than its own. *)
Lemma kernel_other (a : CompositeArgs) (bd b t : Z) (st : ParticleMem * list Access) (i : Z) :
  i <> u32 (b * bd + t) ->
  d_postype (fst (gpu_update_composite_kernel a bd b t st)) i = d_postype (fst st) i /\
  d_image (fst (gpu_update_composite_kernel a bd b t st)) i = d_image (fst st) i.
Proof.
  intros Hne. destruct (skips a (u32 (b * bd + t))) eqn:Hs.
  - rewrite kernel_skip by exact Hs. split; reflexivity.
  - rewrite kernel_run by exact Hs. unfold spread_write. simpl.
    rewrite !upd_other by exact Hne. split; reflexivity.
Qed.

(** Whatever every thread preserves, the pass preserves. *)
Lemma pass_inv (Q : ParticleMem * list Access -> Prop)
      (max_block_size : Z) (a : CompositeArgs) (block_size : Z) (mem : ParticleMem) :
  (forall bd b t st, Q st -> Q (gpu_update_composite_kernel a bd b t st)) ->
  Q (mem, []) ->
  Q (gpu_update_composite max_block_size a block_size mem).
Proof.
  intros Hstep H0. unfold gpu_update_composite.
  apply for_each_inv; [exact H0 |].
  intros b st _ HQ. apply for_each_inv; [exact HQ |].
  intros t st' _ HQ'. apply Hstep. exact HQ'.
Qed.

(** A particle whose thread returns early is left as it was. *)
Lemma pass_skipped (max_block_size : Z) (a : CompositeArgs) (block_size : Z)
      (mem : ParticleMem) (i : Z) :
  skips a i = true ->
  let mem' := fst (gpu_update_composite max_block_size a block_size mem) in
  d_postype mem' i = d_postype mem i /\
  d_orientation mem' i = d_orientation mem i /\
  d_image mem' i = d_image mem i.
Proof.
  intros Hs.
  apply (pass_inv (fun st => d_postype (fst st) i = d_postype mem i /\
                             d_orientation (fst st) i = d_orientation mem i /\
                             d_image (fst st) i = d_image mem i)).
  - intros bd b t st (Hp & Ho & Hi).
    rewrite kernel_orientation.
    destruct (Z.eq_dec i (u32 (b * bd + t))) as [He | Hne].
    + rewrite kernel_skip by (rewrite <- He; exact Hs). auto.
    + destruct (kernel_other a bd b t st i Hne) as [-> ->]. auto.
  - simpl. auto.
Qed.

(** The orientation buffer is the same before and after a pass. *)
Lemma pass_orientation (max_block_size : Z) (a : CompositeArgs) (block_size : Z)
      (mem : ParticleMem) :
  d_orientation (fst (gpu_update_composite max_block_size a block_size mem))
  = d_orientation mem.
Proof.
  apply (pass_inv (fun st => d_orientation (fst st) = d_orientation mem)).
  - intros bd b t st H. rewrite kernel_orientation. exact H.
  - reflexivity.
Qed.

(** The position record and the image of a particle whose thread does
    not return early, when the central particle it resolves to is not
    moved by the pass. *)
Lemma pass_spread (max_block_size : Z) (a : CompositeArgs) (block_size : Z)
      (mem : ParticleMem) (idx : Z) :
  1 <= max_block_size -> 1 <= block_size ->
  0 <= N a -> 0 <= n_ghost a -> N a + n_ghost a < 2 ^ 32 - 1 ->
  0 <= idx -> skips a idx = false ->
  skips a (central_of a idx) = true ->
  let mem' := fst (gpu_update_composite max_block_size a block_size mem) in
  d_postype mem' idx = d_postype (spread_write a mem idx) idx /\
  d_image mem' idx = d_image (spread_write a mem idx) idx.
Proof.
  intros Hmax Hbs HN Hng Hsum Hidx Hrun Hcen.
  set (c := central_of a idx).
  set (I := fun st : ParticleMem * list Access =>
    d_postype (fst st) c = d_postype mem c /\
    d_orientation (fst st) = d_orientation mem /\
    d_image (fst st) c = d_image mem c /\
    scalar_as_int (w4 (d_postype (fst st) idx)) = scalar_as_int (w4 (d_postype mem idx))).
  set (R := fun st : ParticleMem * list Access =>
    d_postype (fst st) idx = d_postype (spread_write a mem idx) idx /\
    d_image (fst st) idx = d_image (spread_write a mem idx) idx).
  assert (Hcne : idx <> c).
  { intros He. unfold skips in Hrun. fold c in Hrun. rewrite <- He, Z.eqb_refl in Hrun.
    rewrite orb_true_r in Hrun. discriminate. }
  assert (HI : forall bd b t st, I st -> I (gpu_update_composite_kernel a bd b t st)).
  { intros bd b t st (Hp & Ho & Hi & Hty). unfold I.
    rewrite kernel_orientation.
    destruct (skips a (u32 (b * bd + t))) eqn:Hs.
    - rewrite kernel_skip by exact Hs. auto.
    - rewrite kernel_run by exact Hs. unfold spread_write. simpl.
      assert (Hcu : c <> u32 (b * bd + t)).
      { intros He. rewrite <- He in Hs. unfold c in Hs. congruence. }
      rewrite !upd_other by exact Hcu.
      repeat split; try assumption.
      destruct (Z.eq_dec idx (u32 (b * bd + t))) as [He | Hne].
      + rewrite <- He, upd_same. simpl. rewrite scalar_int_cast. exact Hty.
      + rewrite upd_other by exact Hne. exact Hty. }
  assert (Hest : forall bd b t st,
            I st -> u32 (b * bd + t) = idx ->
            R (gpu_update_composite_kernel a bd b t st)).
  { intros bd b t st (Hp & Ho & Hi & Hty) He. unfold R.
    rewrite kernel_run by (rewrite He; exact Hrun). rewrite He.
    unfold spread_write. simpl. rewrite !upd_same.
    unfold spread_position, unwrapped_position, template_slot. fold c.
    rewrite Hp, Ho, Hi, Hty. split; reflexivity. }
  assert (Hkeep : forall bd b t st,
            I st -> R st -> R (gpu_update_composite_kernel a bd b t st)).
  { intros bd b t st HIst [Hrp Hri].
    destruct (Z.eq_dec (u32 (b * bd + t)) idx) as [He | Hne].
    - apply Hest; assumption.
    - unfold R.
      destruct (kernel_other a bd b t st idx (not_eq_sym Hne)) as [-> ->].
      split; assumption. }
  unfold gpu_update_composite. fold (run_block_size max_block_size block_size).
  set (rbs := run_block_size max_block_size block_size).
  assert (Hrbs : 1 <= rbs).
  { unfold rbs, run_block_size. destruct (max_block_size <=? block_size); lia. }
  assert (Hlt : idx < N a + n_ghost a).
  { unfold skips in Hrun. rewrite !orb_false_iff in Hrun.
    destruct Hrun as ((((Hr & _) & _) & _) & _).
    apply Z.leb_gt in Hr. rewrite u32_small in Hr by lia. exact Hr. }
  rewrite (u32_small (N a + n_ghost a)) by lia.
  assert (Hq : 0 <= (N a + n_ghost a) / rbs <= N a + n_ghost a).
  { split; [apply Z.div_pos; lia |].
    apply Z.div_le_upper_bound; [lia | nia]. }
  rewrite (u32_small ((N a + n_ghost a) / rbs + 1)) by lia.
  assert (Hdm : idx = rbs * (idx / rbs) + idx mod rbs) by (apply Z.div_mod; lia).
  assert (Hmod : 0 <= idx mod rbs < rbs) by (apply Z.mod_pos_bound; lia).
  assert (Hdiv : 0 <= idx / rbs <= (N a + n_ghost a) / rbs).
  { split; [apply Z.div_pos; lia | apply Z.div_le_mono; lia]. }
  apply (for_each_eventually I R _ (idx / rbs)).
  - lia.
  - unfold I. simpl. auto.
  - intros b st _ HIst. apply for_each_inv; [exact HIst |].
    intros t st' _ HIst'. apply HI. exact HIst'.
  - intros st HIst.
    apply (for_each_eventually I R _ (idx mod rbs)).
    + exact Hmod.
    + exact HIst.
    + intros t st' _ HIst'. apply HI. exact HIst'.
    + intros st' HIst'. apply Hest; [exact HIst' |].
      replace (idx / rbs * rbs + idx mod rbs) with idx by lia.
      apply u32_small. lia.
    + intros t st' _ HIst' HRst'. apply Hkeep; assumption.
  - intros b st _ HIst HRst.
    apply (for_each_inv (fun st' => I st' /\ R st')); [split; assumption |].
    intros t st' _ [HIst' HRst']. split; [apply HI | apply Hkeep]; assumption.
Qed.

(** C8.  For every particle whose thread does not return early (body
    tag set, not the central particle, central particle resolved and, in
    local-only mode, local), the pass writes as position the position of
    the central particle plus the template offset rotated by the
    orientation of the central particle, wrapped into the box, as image
    the image of the central particle updated by the wrap, and keeps the
    particle's own type in the position record.  When the orientation of
    the central particle rotates nothing, the position written is the
    wrapped sum of the central position and the template offset. *)
Theorem constituent_position_is_spread
        (max_block_size : Z) (a : CompositeArgs) (block_size : Z)
        (mem : ParticleMem) (idx : Z) :
  1 <= max_block_size -> 1 <= block_size ->
  0 <= N a -> 0 <= n_ghost a -> N a + n_ghost a < 2 ^ 32 - 1 ->
  0 <= idx -> skips a idx = false ->
  central_of a (central_of a idx) = central_of a idx ->
  let mem' := fst (gpu_update_composite max_block_size a block_size mem) in
  let c := central_of a idx in
  let local_pos := d_body_pos a (template_slot a mem idx) in
  vec3_of (d_postype mem' idx)
  = fst (box_wrap (box a)
                  (add3 (vec3_of (d_postype mem c)) (rotate (d_orientation mem c) local_pos))
                  (d_image mem c)) /\
  d_image mem' idx
  = snd (box_wrap (box a)
                  (add3 (vec3_of (d_postype mem c)) (rotate (d_orientation mem c) local_pos))
                  (d_image mem c)) /\
  scalar_as_int (w4 (d_postype mem' idx)) = scalar_as_int (w4 (d_postype mem idx)) /\
  ((forall v, rotate (d_orientation mem c) v = v) ->
   vec3_of (d_postype mem' idx)
   = fst (box_wrap (box a) (add3 (vec3_of (d_postype mem c)) local_pos) (d_image mem c))).
Proof.
  intros Hmax Hbs HN Hng Hsum Hidx Hrun Hself mem' c local_pos.
  assert (Hcen : skips a (central_of a idx) = true).
  { unfold skips. rewrite Hself, Z.eqb_refl. apply orb_true_r. }
  destruct (pass_spread max_block_size a block_size mem idx
              Hmax Hbs HN Hng Hsum Hidx Hrun Hcen) as [Hp Hi].
  fold mem' in Hp, Hi. unfold spread_write in Hp, Hi.
  cbn [d_postype d_image] in Hp, Hi.
  rewrite upd_same in Hp. rewrite upd_same in Hi.
  assert (Hpos : vec3_of (d_postype mem' idx) = fst (spread_position a mem idx)).
  { rewrite Hp. unfold vec3_of. simpl.
    destruct (fst (spread_position a mem idx)); reflexivity. }
  split; [exact Hpos |]. split; [exact Hi |]. split.
  - rewrite Hp. simpl. apply scalar_int_cast.
  - intros Hid. rewrite Hpos. unfold spread_position, unwrapped_position.
    fold c. fold local_pos. rewrite Hid. reflexivity.
Qed.

(** C9.  A pass leaves the position record, the orientation and the
    image of every particle without a body, and of every particle that is
    the central particle of its own body, as they were. *)
Theorem free_and_central_particles_untouched
        (max_block_size : Z) (a : CompositeArgs) (block_size : Z)
        (mem : ParticleMem) (i : Z) :
  d_body a i = NO_BODY \/ central_of a i = i ->
  let mem' := fst (gpu_update_composite max_block_size a block_size mem) in
  d_postype mem' i = d_postype mem i /\
  d_orientation mem' i = d_orientation mem i /\
  d_image mem' i = d_image mem i.
Proof.
  intros Hi. apply pass_skipped. unfold skips.
  destruct Hi as [Hfree | Hcentral].
  - rewrite Hfree, Z.eqb_refl, orb_true_r. reflexivity.
  - rewrite Hcentral, Z.eqb_refl. apply orb_true_r.
Qed.

(** C5, as the code has it.  A particle with a body tag whose central
    particle resolves to [NOT_LOCAL] is left as it was, and its thread
    dereferences nothing but the particle's own body tag and the
    reverse-tag entry of that tag, when the particle is a ghost or the pass
    runs in local-only mode. *)
Theorem unresolved_central_is_skipped
        (max_block_size : Z) (a : CompositeArgs) (block_size : Z)
        (mem : ParticleMem) (i : Z) :
  0 <= N a -> 0 <= n_ghost a -> N a + n_ghost a < 2 ^ 32 ->
  d_body a i <> NO_BODY -> central_of a i = NOT_LOCAL ->
  N a <= i \/ remote a = false ->
  (let mem' := fst (gpu_update_composite max_block_size a block_size mem) in
   d_postype mem' i = d_postype mem i /\
   d_orientation mem' i = d_orientation mem i /\
   d_image mem' i = d_image mem i) /\
  (forall bd b t st,
      u32 (b * bd + t) = i ->
      fst (gpu_update_composite_kernel a bd b t st) = fst st /\
      exists acc,
        snd (gpu_update_composite_kernel a bd b t st) = snd st ++ acc /\
        forall x, In x acc ->
                  in_storage a x /\ (x = (BufBody, i) \/ x = (BufRtag, d_body a i))).
Proof.
  intros HN Hng Hsum Hbody Hlost Hwhere.
  assert (Hskip : skips a i = true).
  { unfold skips. rewrite Hlost. rewrite Z.eqb_refl.
    destruct Hwhere as [Hghost | Hlocal].
    - replace (N a <=? i) with true by (symmetry; apply Z.leb_le; exact Hghost).
      simpl. rewrite orb_true_r. reflexivity.
    - rewrite Hlocal.
      replace (N a <=? NOT_LOCAL) with true
        by (symmetry; apply Z.leb_le; unfold NOT_LOCAL; lia).
      simpl. rewrite orb_true_r. reflexivity. }
  split; [apply pass_skipped; exact Hskip |].
  intros bd b t st He. split; [apply kernel_skip; rewrite He; exact Hskip |].
  unfold gpu_update_composite_kernel. rewrite He.
  destruct (Z.leb_spec (u32 (N a + n_ghost a)) i) as [Hout | Hin].
  - exists []. split; [symmetry; apply app_nil_r | intros x []].
  - replace (d_body a i =? NO_BODY) with false
      by (symmetry; apply Z.eqb_neq; exact Hbody).
    exists [(BufBody, i); (BufRtag, d_body a i)].
    assert (Hacc : forall x, In x [(BufBody, i); (BufRtag, d_body a i)] ->
                     in_storage a x /\ (x = (BufBody, i) \/ x = (BufRtag, d_body a i))).
    { intros x [<- | [<- | []]]; (split; [| auto]); unfold in_storage; simpl.
      - intros _. rewrite u32_small in Hin by lia.
        rewrite <- He. pose proof (u32_range (b * bd + t)). lia.
      - discriminate. }
    fold (central_of a i). rewrite Hlost.
    assert (HNL : (N a <=? NOT_LOCAL) = true)
      by (apply Z.leb_le; unfold NOT_LOCAL; lia).
    rewrite HNL, (Z.eqb_refl NOT_LOCAL).
    destruct (remote a) eqn:Hr; cbn [negb andb].
    + destruct Hwhere as [Hghost | Hlocal]; [| discriminate].
      replace (N a <=? i) with true by (symmetry; apply Z.leb_le; exact Hghost).
      split; [rewrite <- app_assoc; reflexivity | exact Hacc].
    + split; [rewrite <- app_assoc; reflexivity | exact Hacc].
Qed.

End Spreading.

Section SpreadingExamples.
Import Examples.

Lemma constituent_position_is_spread_witness :
  let mem' := fst (gpu_update_composite 1024 (one_body false) 64 one_body_mem) in
  vec3_of (d_postype mem' 1) = v3 1 5 5 /\
  d_image mem' 1 = make_int3 2 0 0 /\
  scalar_as_int (w4 (d_postype mem' 1)) = 4.
Proof.
  destruct (constituent_position_is_spread 1024 (one_body false) 64 one_body_mem 1)
    as (Hp & Hi & Ht & _);
    try reflexivity; try (vm_compute; discriminate).
  cbv zeta. rewrite Hp, Hi, Ht. repeat split.
Defined.

Lemma free_and_central_particles_untouched_witness :
  let mem' := fst (gpu_update_composite 1024 (one_body false) 64 one_body_mem) in
  d_postype mem' 0 = d_postype one_body_mem 0 /\
  d_orientation mem' 0 = d_orientation one_body_mem 0 /\
  d_image mem' 0 = d_image one_body_mem 0.
Proof.
  apply (free_and_central_particles_untouched 1024 (one_body false) 64 one_body_mem 0).
  right. reflexivity.
Defined.

Lemma unresolved_central_is_skipped_witness :
  let mem' := fst (gpu_update_composite 1024 (one_body true) 64 one_body_mem) in
  d_postype mem' 2 = d_postype one_body_mem 2 /\
  d_orientation mem' 2 = d_orientation one_body_mem 2 /\
  d_image mem' 2 = d_image one_body_mem 2.
Proof.
  apply (unresolved_central_is_skipped 1024 (one_body true) 64 one_body_mem 2);
    try reflexivity; try (vm_compute; discriminate).
  left. vm_compute. discriminate.
Defined.

(** C5, as the specification has it, fails for a locally owned particle
    when the pass runs with the [remote] flag: the thread of particle 0 of
    [lost_central] reads the position record at index [NOT_LOCAL], beyond
    the single stored particle, and overwrites the particle's position
    with what it finds there. *)
Lemma unresolved_central_of_local_particle_is_dereferenced :
  let r := gpu_update_composite 1024 lost_central 64 lost_central_mem in
  d_body lost_central 0 <> NO_BODY /\
  central_of lost_central 0 = NOT_LOCAL /\
  In (BufPostype, NOT_LOCAL) (snd r) /\
  ~ in_storage lost_central (BufPostype, NOT_LOCAL) /\
  d_postype (fst r) 0 <> d_postype lost_central_mem 0.
Proof.
  cbv zeta. split; [vm_compute; discriminate |]. split; [reflexivity |].
  split; [vm_compute; do 2 right; left; reflexivity |].
  split.
  - intros H. specialize (H eq_refl). vm_compute in H. destruct H as [_ H]. discriminate.
  - vm_compute. discriminate.
Qed.

(** C4 fails on the code: the kernel computes the product of the
    orientation of the central particle and the template orientation but
    never stores it, so a pass leaves the whole orientation buffer as it
    was.  On [one_body] the pass moves particle 1 and leaves its
    orientation as it was, which is not that product. *)
Theorem constituent_orientation_is_not_updated :
  (forall (S : ScalarOps) (V : @VectorMath S) (max_block_size block_size : Z)
          (a : @CompositeArgs S V) (mem : @ParticleMem S),
      d_orientation (fst (gpu_update_composite max_block_size a block_size mem))
      = d_orientation mem) /\
  (let a := one_body false in
   let mem' := fst (gpu_update_composite 1024 a 64 one_body_mem) in
   skips a 1 = false /\
   d_postype mem' 1 <> d_postype one_body_mem 1 /\
   d_orientation mem' 1 = v4 0 0 1 0 /\
   spread_orientation a one_body_mem 1 = v4 0 1 0 0).
Proof.
  split.
  - intros S V max_block_size block_size a mem. apply pass_orientation.
  - cbv zeta. repeat split; try reflexivity; vm_compute; discriminate.
Qed.

End SpreadingExamples.
(* ------------------------------------------------------------------ *)
(** ** Types, storage bounds and repeated passes *)

Section SpreadingInvariants.
Context {S : ScalarOps} {B : CastRoundTrip} {V : VectorMath}.

(** X16.  A pass never changes the type stored in the position record of a
    particle, whatever the tables hold. *)
Theorem particle_types_are_preserved
        (max_block_size : Z) (a : CompositeArgs) (block_size : Z)
        (mem : ParticleMem) (i : Z) :
  1 <= max_block_size -> 1 <= block_size ->
  scalar_as_int (w4 (d_postype (fst (gpu_update_composite max_block_size a block_size mem)) i))
  = scalar_as_int (w4 (d_postype mem i)).
Proof.
  intros _ _.
  apply (pass_inv (fun st => scalar_as_int (w4 (d_postype (fst st) i))
                             = scalar_as_int (w4 (d_postype mem i)))); [| reflexivity].
  intros bd b t st HQ.
  destruct (skips a (u32 (b * bd + t))) eqn:Hs.
  - rewrite kernel_skip by exact Hs. exact HQ.
  - rewrite kernel_run by exact Hs. unfold spread_write. cbn [d_postype].
    destruct (Z.eq_dec i (u32 (b * bd + t))) as [<- | Hne].
    + rewrite upd_same. cbn [w4]. rewrite scalar_int_cast. exact HQ.
    + rewrite upd_other by exact Hne. exact HQ.
Qed.

(** The dereferences of one thread: nothing, or the body tag and the
    reverse-tag entry, or those and the nine of a thread that runs to its
    end. *)
Lemma kernel_log (a : CompositeArgs) (bd b t : Z) (st : ParticleMem * list Access) :
  let idx := u32 (b * bd + t) in
  let c := central_of a idx in
  let slot := template_slot a (fst st) idx in
  snd (gpu_update_composite_kernel a bd b t st)
  = snd st ++
    (if u32 (N a + n_ghost a) <=? idx then []
     else if d_body a idx =? NO_BODY then [(BufBody, idx)]
     else if skips a idx then [(BufBody, idx); (BufRtag, d_body a idx)]
     else [(BufBody, idx); (BufRtag, d_body a idx);
           (BufPostype, c); (BufOrientation, c); (BufImage, c); (BufTag, idx);
           (BufBodyPos, slot); (BufBodyOrientation, slot); (BufPostype, idx);
           (BufPostype, idx); (BufImage, idx)]).
Proof.
  cbv zeta. unfold skips, template_slot, central_of, gpu_update_composite_kernel.
  set (idx := u32 (b * bd + t)).
  destruct (u32 (N a + n_ghost a) <=? idx); [symmetry; apply app_nil_r |].
  destruct (d_body a idx =? NO_BODY); [reflexivity |].
  cbn [orb].
  destruct (negb (remote a) && (N a <=? d_rtag a (d_body a idx)));
    [cbn [snd orb]; rewrite <- app_assoc; reflexivity |].
  destruct ((d_rtag a (d_body a idx) =? NOT_LOCAL) && (N a <=? idx));
    [cbn [snd orb]; rewrite <- app_assoc; reflexivity |].
  destruct (idx =? d_rtag a (d_body a idx));
    [cbn [snd orb]; rewrite <- app_assoc; reflexivity |].
  cbn [snd orb]. rewrite <- !app_assoc. reflexivity.
Qed.

(** The thread of a stored particle runs, under an invariant [I] of the
    pass: what it establishes and every thread keeps holds at the end. *)
Lemma pass_eventually (I R : ParticleMem * list Access -> Prop)
      (max_block_size : Z) (a : CompositeArgs) (block_size : Z)
      (mem : ParticleMem) (idx : Z) :
  1 <= max_block_size -> 1 <= block_size ->
  0 <= N a -> 0 <= n_ghost a -> N a + n_ghost a < 2 ^ 32 - 1 ->
  0 <= idx < N a + n_ghost a ->
  I (mem, []) ->
  (forall bd b t st, I st -> I (gpu_update_composite_kernel a bd b t st)) ->
  (forall bd b t st, I st -> u32 (b * bd + t) = idx ->
                     R (gpu_update_composite_kernel a bd b t st)) ->
  (forall bd b t st, I st -> R st -> R (gpu_update_composite_kernel a bd b t st)) ->
  R (gpu_update_composite max_block_size a block_size mem).
Proof.
  intros Hmax Hbs HN Hng Hsum Hidx HI0 HI Hest Hkeep.
  unfold gpu_update_composite. fold (run_block_size max_block_size block_size).
  set (rbs := run_block_size max_block_size block_size).
  assert (Hrbs : 1 <= rbs).
  { unfold rbs, run_block_size. destruct (max_block_size <=? block_size); lia. }
  rewrite (u32_small (N a + n_ghost a)) by lia.
  assert (Hq : 0 <= (N a + n_ghost a) / rbs <= N a + n_ghost a).
  { split; [apply Z.div_pos; lia |].
    apply Z.div_le_upper_bound; [lia | nia]. }
  rewrite (u32_small ((N a + n_ghost a) / rbs + 1)) by lia.
  assert (Hdm : idx = rbs * (idx / rbs) + idx mod rbs) by (apply Z.div_mod; lia).
  assert (Hmod : 0 <= idx mod rbs < rbs) by (apply Z.mod_pos_bound; lia).
  assert (Hdiv : 0 <= idx / rbs <= (N a + n_ghost a) / rbs).
  { split; [apply Z.div_pos; lia | apply Z.div_le_mono; lia]. }
  apply (for_each_eventually I R _ (idx / rbs)).
  - lia.
  - exact HI0.
  - intros b st _ HIst. apply for_each_inv; [exact HIst |].
    intros t st' _ HIst'. apply HI. exact HIst'.
  - intros st HIst.
    apply (for_each_eventually I R _ (idx mod rbs)).
    + exact Hmod.
    + exact HIst.
    + intros t st' _ HIst'. apply HI. exact HIst'.
    + intros st' HIst'. apply Hest; [exact HIst' |].
      replace (idx / rbs * rbs + idx mod rbs) with idx by lia.
      apply u32_small. lia.
    + intros t st' _ HIst' HRst'. apply Hkeep; assumption.
  - intros b st _ HIst HRst.
    apply (for_each_inv (fun st' => I st' /\ R st')); [split; assumption |].
    intros t st' _ [HIst' HRst']. split; [apply HI | apply Hkeep]; assumption.
Qed.

(** Every dereference of a pass stays inside particle storage when every
    particle whose thread runs to its end has its central particle in
    storage. *)
Lemma pass_accesses_in_storage
      (max_block_size : Z) (a : CompositeArgs) (block_size : Z) (mem : ParticleMem) :
  0 <= N a -> 0 <= n_ghost a -> N a + n_ghost a < 2 ^ 32 ->
  (forall idx, 0 <= idx -> skips a idx = false ->
               0 <= central_of a idx < N a + n_ghost a) ->
  forall x, In x (snd (gpu_update_composite max_block_size a block_size mem)) ->
            in_storage a x.
Proof.
  intros HN Hng Hsum Hcen.
  apply (pass_inv (fun st => forall x, In x (snd st) -> in_storage a x)).
  - intros bd b t st HQ x Hin.
    rewrite kernel_log in Hin. cbv zeta in Hin.
    set (idx := u32 (b * bd + t)) in *.
    apply in_app_or in Hin. destruct Hin as [Hin | Hin]; [apply HQ; exact Hin |].
    pose proof (u32_range (b * bd + t)) as Hidx. fold idx in Hidx.
    rewrite (u32_small (N a + n_ghost a)) in Hin by lia.
    destruct (Z.leb_spec (N a + n_ghost a) idx) as [Hout | Hlt]; [destruct Hin |].
    assert (Hown : forall buf, in_storage a (buf, idx)).
    { intros buf _. cbn [snd]. lia. }
    destruct (d_body a idx =? NO_BODY).
    { destruct Hin as [<- | []]. apply Hown. }
    destruct (skips a idx) eqn:Hs.
    { destruct Hin as [<- | [<- | []]]; [apply Hown | intros Hp; discriminate]. }
    assert (Hc : forall buf, in_storage a (buf, central_of a idx)).
    { intros buf _. cbn [snd]. apply Hcen; [lia | exact Hs]. }
    cbn [In] in Hin.
    repeat (destruct Hin as [<- | Hin];
            [first [apply Hown | apply Hc | intros Hp; discriminate] |]).
    destruct Hin.
  - intros x [].
Qed.

(** X17.  In local-only mode a pass never leaves particle storage: every cell
    of a per-particle buffer that a thread reads or writes belongs to a
    stored particle. *)
Theorem local_only_pass_stays_in_storage
        (max_block_size : Z) (a : CompositeArgs) (block_size : Z) (mem : ParticleMem) :
  1 <= max_block_size -> 1 <= block_size ->
  remote a = false ->
  0 <= N a -> 0 <= n_ghost a -> N a + n_ghost a < 2 ^ 32 ->
  (forall tag, 0 <= d_rtag a tag) ->
  forall x, In x (snd (gpu_update_composite max_block_size a block_size mem)) ->
            in_storage a x.
Proof.
  intros _ _ Hlocal HN Hng Hsum Hrtag.
  apply pass_accesses_in_storage; try assumption.
  intros idx _ Hs. unfold skips in Hs. rewrite Hlocal in Hs.
  rewrite !orb_false_iff in Hs. destruct Hs as ((((_ & _) & Hc) & _) & _).
  cbn [negb andb] in Hc. apply Z.leb_gt in Hc.
  split; [apply Hrtag | lia].
Qed.

(** X18.  A pass stays inside particle storage exactly when every stored
    particle whose thread runs to its end has its central particle in
    storage. *)
Theorem pass_stays_in_storage_iff
        (max_block_size : Z) (a : CompositeArgs) (block_size : Z) (mem : ParticleMem) :
  1 <= max_block_size -> 1 <= block_size ->
  0 <= N a -> 0 <= n_ghost a -> N a + n_ghost a < 2 ^ 32 - 1 ->
  (forall x, In x (snd (gpu_update_composite max_block_size a block_size mem)) ->
             in_storage a x)
  <->
  (forall idx, 0 <= idx -> skips a idx = false ->
               0 <= central_of a idx < N a + n_ghost a).
Proof.
  intros Hmax Hbs HN Hng Hsum. split.
  - intros Hsafe idx Hidx Hs.
    assert (Hlt : idx < N a + n_ghost a).
    { unfold skips in Hs. rewrite !orb_false_iff in Hs.
      destruct Hs as ((((Hr & _) & _) & _) & _).
      apply Z.leb_gt in Hr. rewrite u32_small in Hr by lia. exact Hr. }
    apply (Hsafe (BufPostype, central_of a idx)); [| reflexivity].
    apply (pass_eventually (fun _ => True)
             (fun st => In (BufPostype, central_of a idx) (snd st))
             max_block_size a block_size mem idx); auto; try lia.
    + intros bd b t st _ He. rewrite kernel_log. cbv zeta. rewrite He.
      apply in_or_app. right.
      rewrite (u32_small (N a + n_ghost a)) by lia.
      replace (N a + n_ghost a <=? idx) with false by (symmetry; apply Z.leb_gt; lia).
      assert (Hb : (d_body a idx =? NO_BODY) = false).
      { unfold skips in Hs. rewrite !orb_false_iff in Hs. apply Hs. }
      rewrite Hb, Hs. cbn [In]. auto.
    + intros bd b t st _ Hin. rewrite kernel_log. cbv zeta.
      apply in_or_app. left. exact Hin.
  - intros Hcen. apply pass_accesses_in_storage; try assumption. lia.
Qed.

End SpreadingInvariants.

(* ------------------------------------------------------------------ *)
(** ** Repeated passes and the choice of the block size *)

Section SpreadingTwice.
Context {S : ScalarOps} {B : CastRoundTrip} {V : VectorMath}.

(** What a pass leaves in the position record and the image of every
    stored particle, when no central particle is itself moved. *)
Lemma pass_result (max_block_size : Z) (a : CompositeArgs) (block_size : Z)
      (mem : ParticleMem) (i : Z) :
  1 <= max_block_size -> 1 <= block_size ->
  0 <= N a -> 0 <= n_ghost a -> N a + n_ghost a < 2 ^ 32 - 1 ->
  (forall idx, 0 <= idx -> skips a idx = false -> skips a (central_of a idx) = true) ->
  0 <= i ->
  let mem' := fst (gpu_update_composite max_block_size a block_size mem) in
  d_postype mem' i
  = (if skips a i then d_postype mem i else d_postype (spread_write a mem i) i) /\
  d_image mem' i
  = (if skips a i then d_image mem i else d_image (spread_write a mem i) i).
Proof.
  intros Hmax Hbs HN Hng Hsum Hcen Hi. cbv zeta.
  destruct (skips a i) eqn:Hs.
  - destruct (pass_skipped max_block_size a block_size mem i Hs) as (Hp & _ & Him).
    split; assumption.
  - apply pass_spread; try assumption. apply Hcen; assumption.
Qed.

(** What a thread writes for a particle only depends on the type of the
    particle and on the record, orientation and image of its central
    particle. *)
Lemma spread_write_ext (a : CompositeArgs) (mem mem' : ParticleMem) (i : Z) :
  scalar_as_int (w4 (d_postype mem' i)) = scalar_as_int (w4 (d_postype mem i)) ->
  d_postype mem' (central_of a i) = d_postype mem (central_of a i) ->
  d_orientation mem' (central_of a i) = d_orientation mem (central_of a i) ->
  d_image mem' (central_of a i) = d_image mem (central_of a i) ->
  d_postype (spread_write a mem' i) i = d_postype (spread_write a mem i) i /\
  d_image (spread_write a mem' i) i = d_image (spread_write a mem i) i.
Proof.
  intros Hty Hp Ho Him. unfold spread_write. cbn [d_postype d_image].
  rewrite !upd_same.
  unfold spread_position, unwrapped_position, template_slot.
  rewrite Hty, Hp, Ho, Him. split; reflexivity.
Qed.

(** X19.  A second pass changes nothing: as long as no central particle is
    itself moved, spreading the state twice, with whatever block sizes,
    leaves every stored particle where the first pass put it. *)
Theorem second_pass_changes_nothing
        (max_block_size : Z) (a : CompositeArgs) (block_size block_size' : Z)
        (mem : ParticleMem) (i : Z) :
  1 <= max_block_size -> 1 <= block_size -> 1 <= block_size' ->
  0 <= N a -> 0 <= n_ghost a -> N a + n_ghost a < 2 ^ 32 - 1 ->
  (forall idx, 0 <= idx -> skips a idx = false -> skips a (central_of a idx) = true) ->
  0 <= i ->
  let mem1 := fst (gpu_update_composite max_block_size a block_size mem) in
  let mem2 := fst (gpu_update_composite max_block_size a block_size' mem1) in
  d_postype mem2 i = d_postype mem1 i /\
  d_orientation mem2 i = d_orientation mem1 i /\
  d_image mem2 i = d_image mem1 i.
Proof.
  intros Hmax Hbs Hbs' HN Hng Hsum Hcen Hi mem1 mem2.
  assert (Ho : d_orientation mem2 i = d_orientation mem1 i).
  { unfold mem2. rewrite pass_orientation. reflexivity. }
  destruct (pass_result max_block_size a block_size' mem1 i
              Hmax Hbs' HN Hng Hsum Hcen Hi) as [Hp2 Hi2].
  fold mem2 in Hp2, Hi2.
  destruct (skips a i) eqn:Hs; [split; [exact Hp2 | split; [exact Ho | exact Hi2]] |].
  destruct (pass_result max_block_size a block_size mem i
              Hmax Hbs HN Hng Hsum Hcen Hi) as [Hp1 Hi1].
  fold mem1 in Hp1, Hi1. rewrite Hs in Hp1, Hi1.
  pose proof (Hcen i Hi Hs) as Hc.
  destruct (pass_skipped max_block_size a block_size mem (central_of a i) Hc)
    as (Hcp & Hco & Hci).
  fold mem1 in Hcp, Hco, Hci.
  destruct (spread_write_ext a mem mem1 i) as [Hwp Hwi]; try assumption.
  { rewrite Hp1. unfold spread_write. cbn [d_postype]. rewrite upd_same. cbn [w4].
    apply scalar_int_cast. }
  rewrite Hp2, Hi2, Hwp, Hwi, Hp1, Hi1. split; [reflexivity | split; [exact Ho | reflexivity]].
Qed.

(** X20.  The outcome of a pass does not depend on the block size, as long as
    no central particle is itself moved. *)
Theorem pass_independent_of_block_size
        (max_block_size max_block_size' : Z) (a : CompositeArgs)
        (block_size block_size' : Z) (mem : ParticleMem) (i : Z) :
  1 <= max_block_size -> 1 <= block_size ->
  1 <= max_block_size' -> 1 <= block_size' ->
  0 <= N a -> 0 <= n_ghost a -> N a + n_ghost a < 2 ^ 32 - 1 ->
  (forall idx, 0 <= idx -> skips a idx = false -> skips a (central_of a idx) = true) ->
  0 <= i ->
  let mem1 := fst (gpu_update_composite max_block_size a block_size mem) in
  let mem2 := fst (gpu_update_composite max_block_size' a block_size' mem) in
  d_postype mem1 i = d_postype mem2 i /\
  d_orientation mem1 i = d_orientation mem2 i /\
  d_image mem1 i = d_image mem2 i.
Proof.
  intros Hmax Hbs Hmax' Hbs' HN Hng Hsum Hcen Hi mem1 mem2.
  destruct (pass_result max_block_size a block_size mem i
              Hmax Hbs HN Hng Hsum Hcen Hi) as [Hp1 Hi1].
  destruct (pass_result max_block_size' a block_size' mem i
              Hmax' Hbs' HN Hng Hsum Hcen Hi) as [Hp2 Hi2].
  fold mem1 in Hp1, Hi1. fold mem2 in Hp2, Hi2.
  rewrite Hp1, Hp2, Hi1, Hi2. unfold mem1, mem2. rewrite !pass_orientation.
  repeat split.
Qed.


End SpreadingTwice.

(* ------------------------------------------------------------------ *)
(** ** Writes of a pass, and local-only mode *)

Section SpreadingWrites.
Context {S : ScalarOps} {B : CastRoundTrip} {V : VectorMath}.

(** X22.  Whatever the tables hold, a pass writes no position record and no
    image outside particle storage: a central particle that resolves
    outside storage is read, but nothing outside storage is written. *)
Theorem pass_writes_stay_in_storage
        (max_block_size : Z) (a : CompositeArgs) (block_size : Z)
        (mem : ParticleMem) (i : Z) :
  1 <= max_block_size -> 1 <= block_size ->
  0 <= N a -> 0 <= n_ghost a -> N a + n_ghost a < 2 ^ 32 ->
  ~ 0 <= i < N a + n_ghost a ->
  let mem' := fst (gpu_update_composite max_block_size a block_size mem) in
  d_postype mem' i = d_postype mem i /\ d_image mem' i = d_image mem i.
Proof.
  intros _ _ HN Hng Hsum Hout.
  apply (pass_inv (fun st => d_postype (fst st) i = d_postype mem i /\
                             d_image (fst st) i = d_image mem i)).
  - intros bd b t st [Hp Hi].
    destruct (Z.eq_dec i (u32 (b * bd + t))) as [He | Hne].
    + rewrite kernel_skip; [split; assumption |].
      rewrite <- He. unfold skips.
      pose proof (u32_range (b * bd + t)) as Hr. rewrite <- He in Hr.
      rewrite (u32_small (N a + n_ghost a)) by lia.
      replace (N a + n_ghost a <=? i) with true by (symmetry; apply Z.leb_le; lia).
      reflexivity.
    + destruct (kernel_other a bd b t st i Hne) as [-> ->]. split; assumption.
  - split; reflexivity.
Qed.

(** X23.  In local-only mode a pass leaves alone every particle whose body tag
    resolves to an index that is not local. *)
Theorem local_only_pass_leaves_remote_bodies
        (max_block_size : Z) (a : CompositeArgs) (block_size : Z)
        (mem : ParticleMem) (i : Z) :
  1 <= max_block_size -> 1 <= block_size ->
  remote a = false ->
  N a <= central_of a i ->
  let mem' := fst (gpu_update_composite max_block_size a block_size mem) in
  d_postype mem' i = d_postype mem i /\
  d_orientation mem' i = d_orientation mem i /\
  d_image mem' i = d_image mem i.
Proof.
  intros _ _ Hlocal Hc. apply pass_skipped. unfold skips. rewrite Hlocal.
  replace (N a <=? central_of a i) with true by (symmetry; apply Z.leb_le; exact Hc).
  cbn [negb andb]. rewrite !orb_true_r. reflexivity.
Qed.

End SpreadingWrites.

(* ------------------------------------------------------------------ *)
(** ** The pass on the concrete inputs *)

Section SpreadingWitnesses.
Import Examples.

Lemma one_body_centrals_skipped (remote : bool) (idx : Z) :
  0 <= idx -> skips (one_body remote) idx = false ->
  skips (one_body remote) (central_of (one_body remote) idx) = true.
Proof.
  intros Hidx Hs.
  destruct (Z_lt_le_dec idx 3) as [Hlt | Hge].
  - assert (Hcases : idx = 0 \/ idx = 1 \/ idx = 2) by lia.
    destruct remote; destruct Hcases as [-> | [-> | ->]];
      vm_compute in Hs; try discriminate; reflexivity.
  - unfold skips in Hs. change (u32 (N (one_body remote) + n_ghost (one_body remote)))
      with 3 in Hs.
    replace (3 <=? idx) with true in Hs by (symmetry; apply Z.leb_le; exact Hge).
    discriminate.
Qed.

Lemma one_body_rtag_nonneg (remote : bool) (tag : Z) :
  0 <= d_rtag (one_body remote) tag.
Proof.
  cbn [d_rtag one_body table].
  destruct (tag =? 0); [lia |]. destruct (tag - 1 =? 0); [lia |].
  unfold NOT_LOCAL. lia.
Qed.

Lemma particle_types_are_preserved_witness :
  scalar_as_int
    (w4 (d_postype (fst (gpu_update_composite 1024 (one_body true) 64 one_body_mem)) 1))
  = scalar_as_int (w4 (d_postype one_body_mem 1)).
Proof.
  apply (particle_types_are_preserved 1024 (one_body true) 64 one_body_mem 1); lia.
Defined.

Lemma local_only_pass_stays_in_storage_witness :
  Forall (in_storage (one_body false))
         (snd (gpu_update_composite 1024 (one_body false) 64 one_body_mem)).
Proof.
  apply Forall_forall.
  apply (local_only_pass_stays_in_storage 1024 (one_body false) 64 one_body_mem);
    try lia; try reflexivity; try (vm_compute; intuition discriminate).
  apply one_body_rtag_nonneg.
Defined.

Lemma pass_stays_in_storage_iff_witness :
  Forall (in_storage (one_body true))
         (snd (gpu_update_composite 1024 (one_body true) 64 one_body_mem))
  <->
  (forall idx, 0 <= idx -> skips (one_body true) idx = false ->
               0 <= central_of (one_body true) idx
               < N (one_body true) + n_ghost (one_body true)).
Proof.
  rewrite Forall_forall.
  apply (pass_stays_in_storage_iff 1024 (one_body true) 64 one_body_mem);
    try lia; try reflexivity; try (vm_compute; intuition discriminate).
Defined.

Lemma second_pass_changes_nothing_witness :
  let mem1 := fst (gpu_update_composite 1024 (one_body false) 64 one_body_mem) in
  let mem2 := fst (gpu_update_composite 1024 (one_body false) 1 mem1) in
  d_postype mem2 1 = d_postype mem1 1 /\
  d_orientation mem2 1 = d_orientation mem1 1 /\
  d_image mem2 1 = d_image mem1 1.
Proof.
  apply (second_pass_changes_nothing 1024 (one_body false) 64 1 one_body_mem 1);
    try lia; try reflexivity; try (vm_compute; intuition discriminate).
  apply one_body_centrals_skipped.
Defined.

Lemma pass_independent_of_block_size_witness :
  let mem1 := fst (gpu_update_composite 1024 (one_body true) 64 one_body_mem) in
  let mem2 := fst (gpu_update_composite 2 (one_body true) 128 one_body_mem) in
  d_postype mem1 1 = d_postype mem2 1 /\
  d_orientation mem1 1 = d_orientation mem2 1 /\
  d_image mem1 1 = d_image mem2 1.
Proof.
  apply (pass_independent_of_block_size 1024 2 (one_body true) 64 128 one_body_mem 1);
    try lia; try reflexivity; try (vm_compute; intuition discriminate).
  apply one_body_centrals_skipped.
Defined.


Lemma pass_writes_stay_in_storage_witness :
  let mem' := fst (gpu_update_composite 1024 lost_central 64 lost_central_mem) in
  d_postype mem' NOT_LOCAL = d_postype lost_central_mem NOT_LOCAL /\
  d_image mem' NOT_LOCAL = d_image lost_central_mem NOT_LOCAL.
Proof.
  apply (pass_writes_stay_in_storage 1024 lost_central 64 lost_central_mem NOT_LOCAL);
    try lia; try reflexivity; try (vm_compute; intuition discriminate).
Defined.

Lemma local_only_pass_leaves_remote_bodies_witness :
  let mem' := fst (gpu_update_composite 1024 (one_body false) 64 one_body_mem) in
  d_postype mem' 2 = d_postype one_body_mem 2 /\
  d_orientation mem' 2 = d_orientation one_body_mem 2 /\
  d_image mem' 2 = d_image one_body_mem 2.
Proof.
  apply (local_only_pass_leaves_remote_bodies 1024 (one_body false) 64 one_body_mem 2);
    try lia; try reflexivity; try (vm_compute; intuition discriminate).
Defined.

End SpreadingWitnesses.

(* ------------------------------------------------------------------ *)
(** ** One thread per stored particle *)

Section SpreadingCoverage.
Context {S : ScalarOps} {B : CastRoundTrip} {V : VectorMath}.

(** How often a thread reads the body tag of particle [idx]: once when it
    is the thread of [idx] and [idx] is stored, never otherwise. *)
Lemma kernel_reads_tag (a : CompositeArgs) (bd b t : Z) (st : ParticleMem * list Access)
      (idx : Z) :
  0 <= N a -> 0 <= n_ghost a -> N a + n_ghost a < 2 ^ 32 ->
  count_occ Access_eq_dec (snd (gpu_update_composite_kernel a bd b t st)) (BufBody, idx)
  = Nat.add (count_occ Access_eq_dec (snd st) (BufBody, idx))
            (if (u32 (b * bd + t) =? idx) && (idx <? N a + n_ghost a) then 1%nat else 0%nat).
Proof.
  intros HN Hng Hsum.
  rewrite kernel_log. cbv zeta. rewrite count_occ_app. f_equal.
  rewrite (u32_small (N a + n_ghost a)) by lia.
  set (id := u32 (b * bd + t)).
  destruct (Z.eqb_spec id idx) as [He | Hne].
  - rewrite He.
    destruct (Z.leb_spec (N a + n_ghost a) idx) as [Hout | Hin].
    + replace (idx <? N a + n_ghost a) with false by (symmetry; apply Z.ltb_ge; lia).
      reflexivity.
    + replace (idx <? N a + n_ghost a) with true by (symmetry; apply Z.ltb_lt; lia).
      cbn [andb].
      destruct (d_body a idx =? NO_BODY); [| destruct (skips a idx)];
        rewrite count_occ_cons_eq by reflexivity;
        repeat rewrite count_occ_cons_neq by discriminate; reflexivity.
  - cbn [andb].
    destruct (N a + n_ghost a <=? id); [reflexivity |].
    assert (Hd : forall buf, (buf, id) <> (BufBody, idx)).
    { intros buf Heq. apply Hne. congruence. }
    destruct (d_body a id =? NO_BODY); [| destruct (skips a id)];
      repeat rewrite count_occ_cons_neq by (first [discriminate | apply Hd]); reflexivity.
Qed.

(** X24.  The driver launches one thread for every stored particle and no
    two threads for the same: the body tag of every stored particle is
    read exactly once in a pass, and no body tag outside storage is read. *)
Theorem every_stored_particle_gets_one_thread
        (max_block_size : Z) (a : CompositeArgs) (block_size : Z)
        (mem : ParticleMem) (idx : Z) :
  1 <= max_block_size -> 1 <= block_size ->
  0 <= N a -> 0 <= n_ghost a ->
  N a + n_ghost a + Z.min max_block_size block_size < 2 ^ 32 ->
  count_occ Access_eq_dec (snd (gpu_update_composite max_block_size a block_size mem))
            (BufBody, idx)
  = if (0 <=? idx) && (idx <? N a + n_ghost a) then 1%nat else 0%nat.
Proof.
  intros Hmax Hbs HN Hng Hsum.
  unfold gpu_update_composite. fold (run_block_size max_block_size block_size).
  set (rbs := run_block_size max_block_size block_size).
  assert (Hrbs : 1 <= rbs /\ rbs = Z.min max_block_size block_size).
  { unfold rbs, run_block_size. destruct (Z.leb_spec max_block_size block_size); lia. }
  destruct Hrbs as [Hrbs Hmin]. rewrite <- Hmin in Hsum.
  set (n := N a + n_ghost a) in *.
  rewrite (u32_small n) by lia.
  assert (Hq : 0 <= n / rbs) by (apply Z.div_pos; lia).
  assert (Hqn : rbs * (n / rbs) <= n) by (apply Z.mul_div_le; lia).
  assert (Hqr : n < rbs * (n / rbs + 1)).
  { pose proof (Z.mul_succ_div_gt n rbs ltac:(lia)). lia. }
  assert (Hqle : n / rbs <= n) by (apply Z.div_le_upper_bound; [lia | nia]).
  rewrite (u32_small (n / rbs + 1)) by lia.
  set (count := fun st : ParticleMem * list Access =>
                  count_occ Access_eq_dec (snd st) (BufBody, idx)).
  set (seen := fun k : Z =>
                 if (0 <=? idx) && (idx <? n) && (idx <? k) then 1%nat else 0%nat).
  assert (Hblock : forall b st,
            0 <= b < n / rbs + 1 ->
            count st = seen (b * rbs) ->
            count (for_each rbs (gpu_update_composite_kernel a rbs b) st)
            = seen ((b + 1) * rbs)).
  { intros b st Hb Hst.
    replace ((b + 1) * rbs) with (b * rbs + rbs) by lia.
    apply (for_each_ind (fun t st' => count st' = seen (b * rbs + t))); [lia | | ].
    - rewrite Z.add_0_r. exact Hst.
    - intros t st' Ht Hst'. unfold count.
      rewrite kernel_reads_tag by (unfold n in *; lia).
      fold (count st'). rewrite Hst'. fold n.
      rewrite (u32_small (b * rbs + t)) by nia.
      unfold seen.
      destruct (Z.eqb_spec (b * rbs + t) idx) as [He | Hne];
        destruct (Z.leb_spec 0 idx); destruct (Z.ltb_spec idx n);
        destruct (Z.ltb_spec idx (b * rbs + t));
        destruct (Z.ltb_spec idx (b * rbs + (t + 1)));
        cbn [andb Nat.add]; try reflexivity; lia. }
  assert (Hall : count (for_each (n / rbs + 1)
                          (fun b => for_each rbs (gpu_update_composite_kernel a rbs b))
                          (mem, []))
                 = seen ((n / rbs + 1) * rbs)).
  { apply (for_each_ind (fun b st => count st = seen (b * rbs))); [lia | | ].
    - unfold count, seen. cbn [snd count_occ].
      destruct (Z.leb_spec 0 idx); destruct (Z.ltb_spec idx n);
        destruct (Z.ltb_spec idx (0 * rbs)); cbn [andb]; try reflexivity; lia.
    - intros b st Hb Hst. apply Hblock; assumption. }
  unfold count in Hall. rewrite Hall. unfold seen.
  destruct (Z.leb_spec 0 idx); destruct (Z.ltb_spec idx n);
    destruct (Z.ltb_spec idx ((n / rbs + 1) * rbs)); cbn [andb]; try reflexivity; lia.
Qed.

End SpreadingCoverage.

Section SpreadingCoverageWitness.
Import Examples.

Lemma every_stored_particle_gets_one_thread_witness :
  count_occ Access_eq_dec
            (snd (gpu_update_composite 1024 (one_body true) 2 one_body_mem)) (BufBody, 2)
  = 1%nat /\
  count_occ Access_eq_dec
            (snd (gpu_update_composite 1024 (one_body true) 2 one_body_mem)) (BufBody, 3)
  = 0%nat.
Proof.
  split.
  - apply (every_stored_particle_gets_one_thread 1024 (one_body true) 2 one_body_mem 2);
      try lia; vm_compute; intuition discriminate.
  - apply (every_stored_particle_gets_one_thread 1024 (one_body true) 2 one_body_mem 3);
      try lia; vm_compute; intuition discriminate.
Defined.

End SpreadingCoverageWitness.

End SpreaderFacts.
